(* ===== verification/_CoqProject ===== *)
-Q . S2P
Prelude.v
Types.v
Packet.v
Topic.v
StdSet.v
Subscriptions.v
Matching.v
Registry.v
World.v
Wp.v
Wire.v
Send.v
Writer.v
PublishQueue.v
Lifecycle.v
Client.v
ClientInv.v
ClientSpec.v
Machine.v
Recv.v
RecvSpec.v
Connection.v
Sockets.v
Transitions.v
ConnectionSpec.v
ReaderSafety.v
Typed.v
Progress.v
EndToEnd.v
Threads.v
ThreadsSpec.v
Disconnect.v
Text.v
PubSub.v
Stress.v
Broker.v
Regression.v
