(* ===== verification/Prelude.v ===== *)
(** * TrueMQTT-cpp: a verification development

    TrueMQTT-cpp is an MQTT 3.1.1 client library.  This development models all
    of its own code, [src/*.cpp] and [src/*.h] (paths are relative to the root of
    the repository), its two example programs and its regression test, and
    proves what makes it correct, and, where it is not, how it fails.

    ** The program

    - [Client] (public interface, [include/TrueMQTT.h],
      [src/Client.cpp], state [Impl] in [src/ClientImpl.h]): a state
      DISCONNECTED / CONNECTING / CONNECTED, the subscriptions (a tree keyed by
      the levels of the topics, and a flat set of topics to restore them from)
      and a queue of messages published while connecting.
    - [Connection] ([src/Connection.cpp], [.h]): exists while the client is
      not disconnected.  Its read thread resolves the host name, connects to
      the addresses in parallel ("happy eyeballs"), receives packets, keeps the
      connection alive and retries with a back-off; its write thread sends the
      packets of the send queue.
    - [Packet] ([src/Packet.h]) and the MQTT packets sent and received
      ([src/Packet.cpp]).
    - Programs that use the library: [example/pubsub/main.cpp],
      [example/stress/main.cpp] and the test [regression/main.cpp].

    The client creates and destroys the connection and puts packets on its send
    queue; the read thread calls back into the client
    ([connectionStateChange], [messageReceived]).

    ** The files

    - [Prelude]: record update, machine integers, bytes and strings.
    - [Types]: the public enumerations and the log macros' level test.
    - [Packet]: class [Packet]; its readers against parsers of a byte list.
    - [Topic]: cutting a topic into levels.  [StdSet]: the [std::set] of topics.
    - [Subscriptions]: the loops of [subscribe] and [unsubscribe] over the
      tree, against recursive definitions on the levels.  [Matching]:
      [findSubscriptionMatch], against the list of paths it visits and the MQTT
      matching rule.
    - [Registry]: the interface of a store of subscriptions, as the type class
      [TopicStore] with its laws [TopicStoreLaws]; the tree and a flat list are
      instances, and the lemmas the client uses are proved from the laws.
    - [World]: all member variables, the system calls and the error monad the
      rest of the code runs in.  [Wp]: its weakest preconditions, and the class
      [Stable] of properties that other threads cannot break.
    - [Wire]: the packets the client builds and the header [send] puts in front
      of them, against the MQTT frame.  [Send]: [send], [sendPacket] and the
      [send...] functions.  [Writer]: the write thread and its condition
      variable.
    - [PublishQueue]: [toPublishQueue].  [Lifecycle]: [~Connection],
      [Impl::connect], [Impl::disconnect].  [Client]: the public methods and
      the callbacks, and the client as a transition system ([reachable]);
      [ClientInv] has its invariant, [ClientSpec] its properties.  [Machine]:
      the contract of the client, an abstract machine without connection, queue
      of packets or tree walks, and the refinement.
    - [Recv]: [recv] and [recvLoop]; [RecvSpec] their properties.
    - [Connection]: [connect], [tryNextAddress], [resolve], [connectToAny],
      [runRead].  [Sockets]: which sockets stay open (class [Framed]).
      [Transitions]: the state machine.  [ConnectionSpec]: the rest.
    - Over all of it: [ReaderSafety] (no dangling pointer, no bad descriptor),
      [Typed] (bytes are bytes), [Progress] (termination), [EndToEnd]
      (from [publish] on one client to the callbacks of another).
    - [Threads]: the read thread, the write thread and [disconnect] interleaved
      at every access to what they share; [ThreadsSpec] its deadlocks and
      races, [Disconnect] when [disconnect] returns.
    - [PubSub], [Stress], [Regression]: the programs.  [Text]: the library
      functions they use on numbers and texts.  [Broker]: what the test relies
      on of a broker.

    Definitions carry the names of the code; methods are prefixed with their
    class ([Client_subscribe], [Impl_sendPublish], [Connection_recv]) and
    members keep theirs, except for [Connection::m_state], [m_cstate] here.

    ** What the theorems show

    - The whole: messages published on one client reach the callbacks of
      another ([publish_reaches_subscribers]), the client does what its machine
      does ([client_refines_machine]), whatever is sent consists of bytes
      ([everything_sent_is_bytes]), the read thread meets no undefined behaviour
      ([runRead_is_safe]), and the threads do not spin ([threads_terminate]).
    - The threads: exactly when [disconnect] returns ([disconnect_returns]), which
      deadlocks there are and that there are no others ([deadlocks]), how a
      request to stop gets lost ([lost_stop_never_returns]), and which data races
      lead to undefined behaviour ([races_of_the_threads]).
    - The programs: [pubsub_is_right], [stress_accounts] and
      [regression_passes], for every broker that does its duty.
    - Subscriptions: the tree behaves as a plain list of subscriptions would
      ([tree_refines_flat]), because its loops compute simple recursive
      functions ([loops_compute_levels]); adding and removing are inverse
      ([unsubscribe_undoes_subscribe]) and leave no empty nodes
      ([bookkeeping_keeps_live]), but for topics with an empty level
      ([empty_level_is_not_removed]).  A message calls the callbacks of the
      paths in [visits], in order ([findSubscriptionMatch_visits]): all that
      the MQTT rule asks for but one case ([mqtt_match_is_called]), and too
      many ([called_filters], [parent_subscription_is_called]).
    - The client: its invariant and the only calls that can fault, in any
      reachable state ([client_invariant], [only_these_calls_fault]); results
      and effects ([subscribed_messages_arrive], [connected_restores],
      [publish_result], [refused_calls_only_log], [publish_queue_keeps],
      [toPublishQueue_result]).
    - The wire: sent packets are the MQTT frames ([packets_on_wire],
      [header_is_frame], [packet_ids_cycle]), are queued and reach the socket
      whole and in order ([send_queues], [sendPacket_sends_wire],
      [runWrite_sends_queue]); the receiving side inverts them however the
      network cuts them ([recvLoop_receives_frame], [dispatch_by_type],
      [readers_parse], [string_roundtrip]) and keeps the connection alive
      ([recv_keep_alive]).
    - The connection: its transitions ([runRead_transitions]), the order of the
      addresses ([resolve_interweaves]), the choice of a socket
      ([connectToAny_connects]), back-off ([backoff_doubles]), and that no open
      socket is lost while it runs ([open_sockets_are_known]).
    - Flaws of the code, as theorems about the same definitions:
      [stop_is_lost], [message_during_disconnect_deadlocks],
      [stop_notification_is_lost], [unsubscribe_after_reconnect],
      [too_many_subscriptions_terminate],
      [subscribe_on_full_queue_drops_callbacks],
      [parent_subscription_is_called], [empty_level_is_not_removed],
      [oversized_body_is_corrupted], [send_error_while_stopping]; and, among the
      cases of the theorems above, in [string_roundtrip], [disconnect_returns],
      [only_these_calls_fault], [connected_restores], [pubsub_is_right] and
      [stress_accounts].

    ** How it is modelled

    - Code runs in the monad [M] of [World]: a state of all member variables,
      and faults for undefined behaviour, [std::terminate], deadlock, and a
      system call without an answer ([Blocked]).  The answers of the operating
      system are a script, [w_os], that the theorems quantify over; an answer
      that the call cannot give counts as none.  What the program does
      (callbacks, logging, sent bytes, closed sockets) is appended to
      [w_trace].
    - The read and the write thread are each modelled alone: what the other
      threads do to the shared state ([interference]) happens during system
      calls and waits, at any of them, in any order.  A stop of the connection
      by a user's thread is one such step ([AStop]), after which that thread
      holds [m_state_mutex] and joins, so that a callback that locks the mutex
      is a deadlock.  The condition variable is also modelled step by step
      ([handshake_step]).
    - Seen from the user's thread, the threads of a connection end when asked to
      stop, or not ([w_threads_end], which changes arbitrarily between the calls,
      like the connection): then [~Connection], which joins them, waits for ever
      ([join_threads], the fault [Deadlock]).  When they end is what
      [disconnect_returns] tells.
    - [Threads] models the threads a second time, one access to shared state at
      a time, to see what happens between two accesses.  There, data of a thread
      of its own are gone: what a blocking call results in is a choice, the send
      queue is its length, and a socket is whether it is set and open.
    - The programs call the client of [Client]; the read thread acts between
      their calls.  In [pubsub_step] it may also wait for the state mutex while
      [main] is in [disconnect], which then never returns.  In [stress_run] one
      callback and one iteration of the loop are each a step, and the callback is
      run on the messages the client delivers.  The regression test runs under
      one schedule: connections come up and packets travel whenever it sleeps,
      and threads end when asked to; the messages it gets back are those of the
      broker, a parameter, of which [serves] is assumed, for all sequences of requests.
    - Public methods run under [m_state_mutex], one at a time; between them the
      connection changes arbitrarily ([step_connection]).
    - Callbacks are opaque: a call is an event, and a callback does not call the
      client (it would deadlock, as it runs under the mutex).
    - Integers: [size_t] and [int] values as [Z], unbounded where the code
      cannot come near the bound; [uint8_t], [uint16_t] and [uint32_t] wrap.
      Times are nanoseconds, durations milliseconds, without overflow.
    - [LOG_DEBUG] and [LOG_TRACE] are compiled out by the default build
      ([MIN_LOGGER_LEVEL] is INFO) and not modelled.
    - Fuel: loops over a topic have [topic_fuel], one more than its length, as
      each iteration removes a character or ends; [loops_compute_levels] and
      [findSubscriptionMatch_visits] hold for all topics, so it is enough.  The
      loop that writes the length of a packet has [size_t_fuel], the ten groups
      of seven bits of a 64-bit number.  Loops that wait for the network take
      an answer in every iteration, so the length of the script bounds them.
      In [Progress] the lemmas [recv_wait_fuel], [recv_data_fuel] and
      [sendPacket_loop_fuel] show that more changes nothing.  The threads' own
      endless loops ([runRead], [runWrite]) take the number of iterations as an
      argument and return whether they ended ([threads_terminate] bounds it).
      The waiting loops of the regression test have one iteration per ten
      milliseconds of their limit, and two.

    ** What is not modelled

    The text of messages from [strerror], [gai_strerror], [magic_enum] and
    [addrinfoToString] (the values are kept) and what the examples print; what
    the threads log while [disconnect] joins them; failing [getsockopt] and
    memory allocation; data races on anything but the state, the socket, the
    queue and the pointer to the connection, the weak memory model, and spurious
    wake-ups; other schedules of the regression test.

    ** Plan

    Next: the threads of [Threads] with the data of [World] (a simulation
    between the two models); reconnecting clients in [EndToEnd]; the regression
    test under any schedule of the threads. *)

From Stdlib Require Export ZArith Lia Ascii String.
From stdpp Require Export base tactics list gmap strings fin_maps.

#[export] Set Default Goal Selector "!".

(** String literals, with the list and number notations taking precedence. *)
Open Scope string_scope.
Open Scope list_scope.
Open Scope nat_scope.

(** ** Record update

    C++ assigns one member of an object at a time ([m_state = ...]); the
    model's records are updated with [r <| m_state := v |>].  A record
    declares its eta-expansion once ([Eta] instance); the setter of each
    field is computed from it, so that projections of updated records reduce
    by [simpl] even when the record is a variable. *)

Class Eta (R : Type) := eta : R → R.
Class Setter {R E : Type} (proj : R → E) := set_field : (E → E) → R → R.
Arguments set_field {_ _} _ {_} _ _ /.

Ltac derive_setter R proj :=
  let e := constr:(_ : Eta R) in
  let e := eval hnf in e in
  let p := eval pattern proj in e in
  match p with
  | ?f _ =>
      let t := eval cbv beta in
        (λ upd (r : R), f (λ x, upd (proj x)) r) in
      exact t
  end.
#[export] Hint Extern 1 (@Setter ?R ?E ?proj) => derive_setter R proj : typeclass_instances.

Declare Scope record_scope.
Open Scope record_scope.
Notation "r <| proj := v |>" := (set_field proj (λ _, v) r)
  (at level 1, left associativity, proj at level 9, v at level 99) : record_scope.
Notation "r <| proj ::= f |>" := (set_field proj f r)
  (at level 1, left associativity, proj at level 9, f at level 99) : record_scope.

(** ** Machine integers

    Unsigned C++ integers are kept as [Z]; a conversion to a narrower type
    wraps around. *)

Definition uint8 (z : Z) : Z := z `mod` 2 ^ 8.
Definition uint16 (z : Z) : Z := z `mod` 2 ^ 16.
Definition uint32 (z : Z) : Z := z `mod` 2 ^ 32.

Definition is_byte (z : Z) : Prop := (0 ≤ z < 256)%Z.
#[export] Instance is_byte_dec z : Decision (is_byte z).
Proof. unfold is_byte. apply _. Defined.

Lemma uint8_byte z : is_byte (uint8 z).
Proof. unfold is_byte, uint8. apply Z.mod_pos_bound. lia. Qed.

Lemma uint16_bound z : (0 ≤ uint16 z < 65536)%Z.
Proof. unfold uint16. apply Z.mod_pos_bound. lia. Qed.

Lemma uint8_small z : is_byte z → uint8 z = z.
Proof. unfold is_byte, uint8. intros. apply Z.mod_small. lia. Qed.

Lemma uint16_small z : (0 ≤ z < 65536)%Z → uint16 z = z.
Proof. intros. unfold uint16. apply Z.mod_small. lia. Qed.

(** [a | (b << n)] with no overlapping bits is a sum. *)
Lemma lor_shiftl_add a b n :
  (0 ≤ n)%Z → (0 ≤ a < 2 ^ n)%Z → Z.lor a (Z.shiftl b n) = (a + b * 2 ^ n)%Z.
Proof.
  intros Hn Ha. rewrite Z.shiftl_mul_pow2 by done.
  assert (Z.land a (b * 2 ^ n) = 0)%Z as Hdisj.
  { apply Z.bits_inj'; intros i Hi. rewrite Z.land_spec, Z.bits_0.
    destruct (decide (i < n)%Z).
    - rewrite Z.mul_pow2_bits_low by done. apply andb_false_r.
    - rewrite <-(Z.mod_small a (2 ^ n) Ha).
      by rewrite Z.mod_pow2_bits_high by lia. }
  by rewrite <-Z.lxor_lor, <-Z.add_nocarry_lxor.
Qed.

(** ** Bytes and strings

    A [std::string] / [std::string_view] is a Rocq [string], whose characters
    are bytes; the packet buffers ([std::vector<uint8_t>]) are lists of [Z]. *)

Definition byte_of_char (c : ascii) : Z := Z.of_N (N_of_ascii c).
Definition char_of_byte (b : Z) : ascii := ascii_of_N (Z.to_N b).

Fixpoint bytes_of_string (s : string) : list Z :=
  match s with
  | EmptyString => []
  | String c s => byte_of_char c :: bytes_of_string s
  end.

Definition string_of_bytes (l : list Z) : string :=
  fold_right (λ b, String (char_of_byte b)) EmptyString l.

Definition str_size (s : string) : Z := Z.of_nat (String.length s).
Definition zlength {A} (l : list A) : Z := Z.of_nat (List.length l).

Lemma byte_of_char_byte c : is_byte (byte_of_char c).
Proof.
  unfold is_byte, byte_of_char. pose proof (N_ascii_bounded c). lia.
Qed.

Lemma char_of_byte_of_char c : char_of_byte (byte_of_char c) = c.
Proof.
  unfold char_of_byte, byte_of_char. rewrite N2Z.id. apply ascii_N_embedding.
Qed.

Lemma bytes_of_string_bytes s : Forall is_byte (bytes_of_string s).
Proof. induction s; simpl; constructor; auto using byte_of_char_byte. Qed.

Lemma length_bytes_of_string s : length (bytes_of_string s) = String.length s.
Proof. induction s; simpl; auto. Qed.

Lemma string_of_bytes_of_string s : string_of_bytes (bytes_of_string s) = s.
Proof.
  induction s as [|c s IH]; simpl; [done|]. by rewrite char_of_byte_of_char, IH.
Qed.

Lemma bytes_of_string_of_bytes l :
  Forall is_byte l → bytes_of_string (string_of_bytes l) = l.
Proof.
  induction 1 as [|b l Hb _ IH]; simpl; [done|]. rewrite IH. f_equal.
  unfold byte_of_char, char_of_byte, is_byte in *.
  rewrite N_ascii_embedding by lia. lia.
Qed.

Lemma string_of_bytes_eq l s :
  Forall is_byte l → string_of_bytes l = s ↔ l = bytes_of_string s.
Proof.
  intros Hl. split; [intros <-; by rewrite bytes_of_string_of_bytes|].
  intros ->. apply string_of_bytes_of_string.
Qed.

Lemma zlength_app {A} (l1 l2 : list A) : zlength (l1 ++ l2) = (zlength l1 + zlength l2)%Z.
Proof. unfold zlength. rewrite length_app. lia. Qed.

Lemma zlength_bytes_of_string s : zlength (bytes_of_string s) = str_size s.
Proof. unfold zlength, str_size. by rewrite length_bytes_of_string. Qed.

Lemma zlength_nonneg {A} (l : list A) : (0 ≤ zlength l)%Z.
Proof. unfold zlength. lia. Qed.

Lemma str_size_nonneg s : (0 ≤ str_size s)%Z.
Proof. unfold str_size. lia. Qed.
