(* ===== verification/Types.v ===== *)
(** * Public enumerations and log levels

    The enumerations of [include/TrueMQTT.h] and the level tests of the
    logging macros of [src/Log.h]. *)

From S2P Require Export Prelude.

Inductive Error := HOSTNAME_LOOKUP_FAILED | SUBSCRIBE_FAILED.
Inductive PublishQueueType := DROP | FIFO | LIFO.
Inductive LogLevel := NONE | ERROR | WARNING | INFO | DEBUG | TRACE.
(** A [std::function] set by the user, known by its identity. *)
Notation callback := nat (only parsing).

Inductive State := DISCONNECTED | CONNECTING | CONNECTED.

#[export] Instance Error_eq_dec : EqDecision Error.
Proof. solve_decision. Defined.
#[export] Instance PublishQueueType_eq_dec : EqDecision PublishQueueType.
Proof. solve_decision. Defined.
#[export] Instance LogLevel_eq_dec : EqDecision LogLevel.
Proof. solve_decision. Defined.
#[export] Instance State_eq_dec : EqDecision State.
Proof. solve_decision. Defined.

(** The enumerators are compared by their position ([m_log_level >= ...]). *)
Definition LogLevel_ord (l : LogLevel) : Z :=
  match l with
  | NONE => 0 | ERROR => 1 | WARNING => 2 | INFO => 3 | DEBUG => 4 | TRACE => 5
  end.

Definition LOGGER_LEVEL_ERROR : Z := 0.
Definition LOGGER_LEVEL_WARNING : Z := 1.
Definition LOGGER_LEVEL_INFO : Z := 2.
Definition LOGGER_LEVEL_DEBUG : Z := 3.
Definition LOGGER_LEVEL_TRACE : Z := 4.

(** The level a [LOG_*] macro is compiled under. *)
Definition LOGGER_LEVEL (l : LogLevel) : Z :=
  match l with
  | NONE | ERROR => LOGGER_LEVEL_ERROR
  | WARNING => LOGGER_LEVEL_WARNING
  | INFO => LOGGER_LEVEL_INFO
  | DEBUG => LOGGER_LEVEL_DEBUG
  | TRACE => LOGGER_LEVEL_TRACE
  end.

(** The build the README and [CMakeLists.txt] default to. *)
Definition MIN_LOGGER_LEVEL : Z := LOGGER_LEVEL_INFO.

(** Whether [LOG_<l>(obj, x)] calls the logger of an object whose level is
    [log_level]: the compile-time [#if] and the run-time test. *)
Definition log_enabled (min : Z) (l log_level : LogLevel) : bool :=
  bool_decide (LOGGER_LEVEL l ≤ min)%Z &&
  bool_decide (LogLevel_ord l ≤ LogLevel_ord log_level)%Z.
