(* ===== verification/Packet.v ===== *)
(** * The packet class of [src/Packet.h]

    A packet is a byte buffer with a read offset (used for a received packet)
    and a write offset (used while it is sent).  The readers return what the
    C++ method stores in its reference argument, [None] standing for the
    result [false], together with the packet after the call. *)

From S2P Require Export Prelude.

Inductive PacketType :=
  | CONNECT | CONNACK | PUBLISH | PUBACK | PUBREC | PUBREL | PUBCOMP
  | SUBSCRIBE | SUBACK | UNSUBSCRIBE | UNSUBACK | PINGREQ | PINGRESP
  | DISCONNECT.

#[export] Instance PacketType_eq_dec : EqDecision PacketType.
Proof. solve_decision. Defined.

(** The underlying [uint8_t] of the enumeration. *)
Definition PacketType_to_Z (t : PacketType) : Z :=
  match t with
  | CONNECT => 1 | CONNACK => 2 | PUBLISH => 3 | PUBACK => 4 | PUBREC => 5
  | PUBREL => 6 | PUBCOMP => 7 | SUBSCRIBE => 8 | SUBACK => 9
  | UNSUBSCRIBE => 10 | UNSUBACK => 11 | PINGREQ => 12 | PINGRESP => 13
  | DISCONNECT => 14
  end.

(** [static_cast<Packet::PacketType>(raw)], defined for the enumerators. *)
Definition PacketType_of_Z (z : Z) : option PacketType :=
  match z with
  | 1 => Some CONNECT | 2 => Some CONNACK | 3 => Some PUBLISH
  | 4 => Some PUBACK | 5 => Some PUBREC | 6 => Some PUBREL
  | 7 => Some PUBCOMP | 8 => Some SUBSCRIBE | 9 => Some SUBACK
  | 10 => Some UNSUBSCRIBE | 11 => Some UNSUBACK | 12 => Some PINGREQ
  | 13 => Some PINGRESP | 14 => Some DISCONNECT
  | _ => None
  end%Z.

Record Packet := mkPacket {
  m_buffer : list Z;
  m_read_offset : nat;
  m_write_offset : nat;
  m_packet_type : PacketType;
  m_flags : Z
}.

#[export] Instance eta_Packet : Eta Packet := λ p,
  mkPacket (m_buffer p) (m_read_offset p) (m_write_offset p)
    (m_packet_type p) (m_flags p).

#[export] Instance Packet_eq_dec : EqDecision Packet.
Proof. solve_decision. Defined.

(** ** Construction and writing *)

(** The constructor of a packet to send: five bytes are reserved for the
    header (type and flags, and at most four bytes of length). *)
Definition Packet_new (t : PacketType) (flags : Z) : Packet :=
  mkPacket [0; 0; 0; 0; 0]%Z 0 0 t flags.

(** The constructor of a received packet. *)
Definition Packet_data (t : PacketType) (flags : Z) (data : list Z) : Packet :=
  mkPacket data 0 0 t flags.

Definition write_uint8 (value : Z) (p : Packet) : Packet :=
  p <| m_buffer ::= λ b, b ++ [value] |>.

Definition write_uint16 (value : Z) (p : Packet) : Packet :=
  let p := p <| m_buffer ::= λ b, b ++ [uint8 (Z.shiftr value 8)] |> in
  p <| m_buffer ::= λ b, b ++ [Z.land value 0xFF] |>.

Definition write (data : string) (p : Packet) : Packet :=
  p <| m_buffer ::= λ b, b ++ bytes_of_string data |>.

Definition write_string (str : string) (p : Packet) : Packet :=
  write str (write_uint16 (uint16 (str_size str)) p).

(** ** Reading *)

Definition read_uint8 (p : Packet) : option Z * Packet :=
  if decide (length (m_buffer p) < m_read_offset p + 1) then (None, p)
  else (Some (m_buffer p !!! m_read_offset p), p <| m_read_offset ::= S |>).

Definition read_uint16 (p : Packet) : option Z * Packet :=
  if decide (length (m_buffer p) < m_read_offset p + 2) then (None, p)
  else
    let value := uint16 (Z.shiftl (m_buffer p !!! m_read_offset p) 8) in
    let p := p <| m_read_offset ::= S |> in
    let value := Z.lor value (m_buffer p !!! m_read_offset p) in
    let p := p <| m_read_offset ::= S |> in
    (Some value, p).

Definition read_string (p : Packet) : option string * Packet :=
  match read_uint16 p with
  | (None, p) => (None, p)
  | (Some len, p) =>
      if decide (zlength (m_buffer p) < Z.of_nat (m_read_offset p) + len)%Z
      then (None, p)
      else
        let n := Z.to_nat len in
        (Some (string_of_bytes (take n (drop (m_read_offset p) (m_buffer p)))),
         p <| m_read_offset ::= λ o, o + n |>)
  end.

Definition read_remaining (p : Packet) : string * Packet :=
  (string_of_bytes (drop (m_read_offset p) (m_buffer p)),
   p <| m_read_offset := length (m_buffer p) |>).

(** ** Abstract specification

    What the readers promise, stated on the bytes not yet read. *)

Definition unread (p : Packet) : list Z := drop (m_read_offset p) (m_buffer p).

(** The packet after [n] more bytes were read. *)
Definition advance (n : nat) (p : Packet) : Packet :=
  p <| m_read_offset ::= λ o, o + n |>.

Definition be16 (z : Z) : list Z := [z / 256; z `mod` 256]%Z.

(** The wire form of a string whose length fits sixteen bits. *)
Definition wire_string (s : string) : list Z :=
  be16 (str_size s) ++ bytes_of_string s.

(** A packet as the code handles it: bytes in the buffer, offset inside it. *)
Definition packet_ok (p : Packet) : Prop :=
  Forall is_byte (m_buffer p) ∧ m_read_offset p ≤ length (m_buffer p).

(** ** The writers append *)

Lemma write_uint16_buffer v p :
  (0 ≤ v < 65536)%Z → m_buffer (write_uint16 v p) = m_buffer p ++ be16 v.
Proof.
  intros Hv. unfold write_uint16, be16; simpl. rewrite <-app_assoc; simpl.
  rewrite Z.shiftr_div_pow2 by lia.
  change 0xFF%Z with (Z.ones 8). rewrite Z.land_ones by lia.
  unfold uint8. rewrite (Z.mod_small (v / 2 ^ 8)); [done|].
  split; [apply Z.div_pos; lia|]. apply Z.div_lt_upper_bound; lia.
Qed.

Lemma write_buffer s p : m_buffer (write s p) = m_buffer p ++ bytes_of_string s.
Proof. done. Qed.

Lemma write_string_buffer s p :
  m_buffer (write_string s p) =
  m_buffer p ++ be16 (uint16 (str_size s)) ++ bytes_of_string s.
Proof.
  unfold write_string. rewrite write_buffer.
  rewrite write_uint16_buffer by apply uint16_bound. by rewrite app_assoc.
Qed.

Lemma write_string_wire s p :
  (str_size s < 65536)%Z →
  m_buffer (write_string s p) = m_buffer p ++ wire_string s.
Proof.
  intros Hs. rewrite write_string_buffer, uint16_small; [done|].
  pose proof (str_size_nonneg s); lia.
Qed.

Lemma be16_bytes z : (0 ≤ z < 65536)%Z → Forall is_byte (be16 z).
Proof.
  intros. unfold be16, is_byte. repeat constructor.
  - apply Z.div_pos; lia.
  - apply Z.div_lt_upper_bound; lia.
  - apply Z.mod_pos_bound; lia.
  - apply Z.mod_pos_bound; lia.
Qed.

Lemma length_be16 z : length (be16 z) = 2.
Proof. done. Qed.

Lemma write_uint16_frame v p :
  m_packet_type (write_uint16 v p) = m_packet_type p ∧
  m_flags (write_uint16 v p) = m_flags p ∧
  m_read_offset (write_uint16 v p) = m_read_offset p.
Proof. done. Qed.

(** ** The readers refine parsing of the unread bytes *)

Lemma unread_length p :
  packet_ok p → length (unread p) = length (m_buffer p) - m_read_offset p.
Proof. intros [_ ?]. unfold unread. by rewrite length_drop. Qed.

Lemma unread_advance n p : unread (advance n p) = drop n (unread p).
Proof. unfold unread, advance; simpl. by rewrite drop_drop. Qed.

Lemma unread_bytes p : packet_ok p → Forall is_byte (unread p).
Proof. intros [? _]. by apply Forall_drop. Qed.

Lemma advance_ok n p :
  packet_ok p → n ≤ length (unread p) → packet_ok (advance n p).
Proof.
  intros Hp Hn. rewrite unread_length in Hn by done.
  destruct Hp as [??]. split; simpl; [done|lia].
Qed.

Lemma unread_cons p b r :
  unread p = b :: r →
  m_buffer p !!! m_read_offset p = b ∧ m_read_offset p < length (m_buffer p).
Proof.
  unfold unread. intros Hu.
  assert (m_buffer p !! m_read_offset p = Some b) as Hl.
  { rewrite <-(Nat.add_0_r (m_read_offset p)), <-lookup_drop. by rewrite Hu. }
  split; [by apply list_lookup_total_correct|]. by apply lookup_lt_is_Some_1.
Qed.

Lemma unread_size p n :
  packet_ok p →
  length (m_buffer p) < m_read_offset p + n ↔ length (unread p) < n.
Proof. intros Hp. rewrite unread_length by done. destruct Hp. lia. Qed.

Lemma read_uint8_refines p :
  packet_ok p →
  read_uint8 p =
    match unread p with
    | b :: _ => (Some b, advance 1 p)
    | [] => (None, p)
    end.
Proof.
  intros Hp. unfold read_uint8.
  destruct (unread p) as [|b r] eqn:Hu.
  - rewrite decide_True; [done|]. apply unread_size; [done|]. rewrite Hu; simpl; lia.
  - rewrite decide_False; [|rewrite unread_size by done; rewrite Hu; simpl; lia].
    destruct (unread_cons _ _ _ Hu) as [-> _]. unfold advance; simpl.
    by rewrite Nat.add_1_r.
Qed.

Lemma read_uint16_refines p :
  packet_ok p →
  read_uint16 p =
    match unread p with
    | b1 :: b2 :: _ => (Some (b1 * 256 + b2)%Z, advance 2 p)
    | _ => (None, p)
    end.
Proof.
  intros Hp. unfold read_uint16.
  destruct (unread p) as [|b1 [|b2 r]] eqn:Hu.
  1,2: rewrite decide_True; [done|]; apply unread_size; [done|]; rewrite Hu; simpl; lia.
  rewrite decide_False; [|rewrite unread_size by done; rewrite Hu; simpl; lia].
  pose proof (unread_bytes _ Hp) as Hb. rewrite Hu in Hb.
  inversion_clear Hb as [|?? Hb1 Hb']. inversion_clear Hb' as [|?? Hb2 _].
  destruct (unread_cons _ _ _ Hu) as [-> _].
  assert (unread (advance 1 p) = b2 :: r) as Hu1 by (by rewrite unread_advance, Hu).
  destruct (unread_cons _ _ _ Hu1) as [Hl2 _]. unfold advance in Hl2; simpl in Hl2.
  simpl. rewrite <-(Nat.add_1_r (m_read_offset p)), Hl2.
  unfold is_byte in *. rewrite uint16_small.
  2:{ rewrite Z.shiftl_mul_pow2 by lia. lia. }
  rewrite Z.lor_comm, lor_shiftl_add by lia. unfold advance; simpl.
  f_equal; [f_equal; lia|]. f_equal; lia.
Qed.

Lemma take_unread_string p n :
  packet_ok p → n ≤ length (unread p) →
  string_of_bytes (take n (drop (m_read_offset p) (m_buffer p))) =
  string_of_bytes (take n (unread p)).
Proof. done. Qed.

Lemma read_string_refines p :
  packet_ok p →
  read_string p =
    match unread p with
    | b1 :: b2 :: r =>
        let n := Z.to_nat (b1 * 256 + b2) in
        if decide (length r < n) then (None, advance 2 p)
        else (Some (string_of_bytes (take n r)), advance (2 + n) p)
    | _ => (None, p)
    end.
Proof.
  intros Hp. unfold read_string. rewrite read_uint16_refines by done.
  destruct (unread p) as [|b1 [|b2 r]] eqn:Hu; [done|done|].
  pose proof (unread_bytes _ Hp) as Hb. rewrite Hu in Hb.
  inversion_clear Hb as [|?? Hb1 Hb']. inversion_clear Hb' as [|?? Hb2 _].
  unfold is_byte in *.
  assert (unread (advance 2 p) = r) as Hu2 by (by rewrite unread_advance, Hu).
  assert (packet_ok (advance 2 p)) as Hp2.
  { apply advance_ok; [done|]. rewrite Hu; simpl; lia. }
  pose proof (unread_size _ (Z.to_nat (b1 * 256 + b2)) Hp2) as Hs. rewrite Hu2 in Hs.
  unfold zlength. case_decide as Hd1; case_decide as Hd2.
  - done.
  - exfalso. apply Hd2, Hs. lia.
  - exfalso. apply Hs in Hd2. lia.
  - unfold unread in Hu2. rewrite Hu2. f_equal. unfold advance; simpl.
    f_equal. lia.
Qed.

Lemma read_remaining_refines p :
  packet_ok p →
  read_remaining p =
    (string_of_bytes (unread p), advance (length (unread p)) p).
Proof.
  intros Hp. unfold read_remaining. rewrite unread_length by done.
  destruct Hp as [_ Hp]. unfold unread. f_equal. unfold advance; simpl. f_equal. lia.
Qed.

(** ** Properties *)

(** The readers as parsers of the unread bytes. *)
Definition parse_uint8 (l : list Z) : option (Z * list Z) :=
  match l with b :: l => Some (b, l) | [] => None end.
Definition parse_uint16 (l : list Z) : option (Z * list Z) :=
  match l with b1 :: b2 :: l => Some ((b1 * 256 + b2)%Z, l) | _ => None end.
Definition parse_string (l : list Z) : option (string * list Z) :=
  '(n, l) ← parse_uint16 l;
  if decide (length l < Z.to_nat n) then None
  else Some (string_of_bytes (take (Z.to_nat n) l), drop (Z.to_nat n) l).

(** A reader [read] behaves as the parser [parse]: the same result, the bytes
    it leaves are those not yet read, and the packet stays well formed (so no
    access was out of bounds); on failure it may have advanced. *)
Definition reads {A} (read : Packet → option A * Packet)
    (parse : list Z → option (A * list Z)) : Prop :=
  ∀ p, packet_ok p →
    let '(o, p') := read p in
    packet_ok p' ∧ m_buffer p' = m_buffer p ∧ m_read_offset p ≤ m_read_offset p' ∧
    match parse (unread p) with
    | Some (a, l) => o = Some a ∧ unread p' = l
    | None => o = None
    end.

Lemma reads_uint8 : reads read_uint8 parse_uint8.
Proof.
  intros p Hp. rewrite read_uint8_refines by done.
  destruct (unread p) as [|b r] eqn:Hu; simpl; [done|].
  split; [apply advance_ok; [done|rewrite Hu; simpl; lia]|].
  split; [done|]. split; [lia|]. split; [done|]. by rewrite unread_advance, Hu.
Qed.

Lemma reads_uint16 : reads read_uint16 parse_uint16.
Proof.
  intros p Hp. rewrite read_uint16_refines by done.
  destruct (unread p) as [|b1 [|b2 r]] eqn:Hu; simpl; [done..|].
  split; [apply advance_ok; [done|rewrite Hu; simpl; lia]|].
  split; [done|]. split; [lia|]. split; [done|]. by rewrite unread_advance, Hu.
Qed.

Lemma reads_string : reads read_string parse_string.
Proof.
  intros p Hp. rewrite read_string_refines by done. unfold parse_string.
  destruct (unread p) as [|b1 [|b2 r]] eqn:Hu; simpl; [done..|].
  case_decide as Hd; simpl.
  - split; [apply advance_ok; [done|rewrite Hu; simpl; lia]|]. split; [done|].
    by split; [lia|].
  - split; [apply advance_ok; [done|rewrite Hu; simpl; lia]|]. split; [done|].
    split; [lia|]. split; [done|]. rewrite unread_advance, Hu. simpl. done.
Qed.

(** C36: on a well-formed packet every reader returns what parsing the unread
    bytes gives, in bounds, and [false] exactly when there are too few. *)
Theorem readers_parse :
  reads read_uint8 parse_uint8 ∧ reads read_uint16 parse_uint16 ∧
  reads read_string parse_string.
Proof. split; [apply reads_uint8|split; [apply reads_uint16|apply reads_string]]. Qed.

Lemma parse_wire_string s l :
  (str_size s < 65536)%Z → parse_string (wire_string s ++ l) = Some (s, l).
Proof.
  intros Hs. pose proof (str_size_nonneg s).
  unfold wire_string, be16, parse_string; simpl.
  replace (str_size s `div` 256 * 256 + str_size s `mod` 256)%Z with (str_size s)
    by (rewrite (Z.div_mod (str_size s) 256) at 1; lia).
  assert (Z.to_nat (str_size s) = length (bytes_of_string s)) as Hn.
  { rewrite length_bytes_of_string. unfold str_size. lia. }
  rewrite decide_False by (rewrite Hn, length_app; lia).
  by rewrite Hn, take_app_length, drop_app_length, string_of_bytes_of_string.
Qed.

Lemma wire_string_bytes s : (str_size s < 65536)%Z → Forall is_byte (wire_string s).
Proof.
  intros Hs. unfold wire_string. apply Forall_app. split; [|apply bytes_of_string_bytes].
  apply be16_bytes. pose proof (str_size_nonneg s). lia.
Qed.

(** The part of a string that its length field announces: all of it, when the
    length fits. *)
Lemma announced_length s :
  length (bytes_of_string s) ≤ Z.to_nat (str_size s `mod` 65536) ↔ (str_size s < 65536)%Z.
Proof.
  rewrite length_bytes_of_string. pose proof (str_size_nonneg s) as Hs.
  pose proof (Z.mod_pos_bound (str_size s) 65536 ltac:(lia)) as Hn. split; intros Hl.
  - unfold str_size in *. lia.
  - rewrite Z.mod_small by lia. unfold str_size in *. lia.
Qed.

Lemma parse_be16 n l :
  (0 ≤ n < 65536)%Z → Z.to_nat n ≤ length l →
  parse_string (be16 n ++ l) =
    Some (string_of_bytes (take (Z.to_nat n) l), drop (Z.to_nat n) l).
Proof.
  intros Hn Hl. unfold parse_string, be16. cbn.
  replace (n `div` 256 * 256 + n `mod` 256)%Z with n by (rewrite (Z.div_mod n 256) at 1; lia).
  by rewrite decide_False by lia.
Qed.

(** What [read_string] makes of what [write_string] and [write] wrote. *)
Lemma written_reads s message t flags p :
  let written := m_buffer (write message (write_string s (p <| m_buffer := [] |>))) in
  let n := Z.to_nat (str_size s `mod` 65536) in
  ∃ p1, read_string (Packet_data t flags written) =
      (Some (string_of_bytes (take n (bytes_of_string s))), p1) ∧
    packet_ok p1 ∧ unread p1 = drop n (bytes_of_string s) ++ bytes_of_string message.
Proof.
  intros written n. pose proof (Z.mod_pos_bound (str_size s) 65536 ltac:(lia)) as Hn.
  assert (written = be16 (str_size s `mod` 65536) ++ bytes_of_string s ++ bytes_of_string message)
    as Hw by (unfold written; by rewrite write_buffer, write_string_buffer, <-app_assoc).
  assert (packet_ok (Packet_data t flags written)) as Hok.
  { split; [|simpl; lia]. simpl. rewrite Hw. repeat (apply Forall_app; split);
      (by apply be16_bytes) || apply bytes_of_string_bytes. }
  pose proof (reads_string _ Hok) as Hr.
  destruct (read_string (Packet_data t flags written)) as [o p1] eqn:Hread.
  destruct Hr as (Hok1 & _ & _ & Hr).
  assert (n ≤ length (bytes_of_string s)) as Hle.
  { rewrite length_bytes_of_string. pose proof (Z.mod_le (str_size s) 65536
      (str_size_nonneg s) ltac:(lia)). unfold n, str_size in *. lia. }
  change (unread (Packet_data t flags written)) with written in Hr.
  rewrite Hw, parse_be16 in Hr by (done || rewrite length_app; fold n; lia).
  destruct Hr as [-> Hu]. exists p1. fold n in Hu |- *.
  by rewrite Hu, take_app_le, drop_app_le by done.
Qed.

(** C29: what [write_string] and [write] wrote, [read_string] and
    [read_remaining] take apart again: without reading out of bounds, they return
    the string and the rest as they were exactly when the length of the string
    fits its field of 16 bits.  The length of a longer string wraps around in the
    field while all of its bytes are written: the string read back is cut short,
    and its other bytes become part of the rest. *)
Theorem string_roundtrip s message t flags p :
  let written := m_buffer (write message (write_string s (p <| m_buffer := [] |>))) in
  let n := Z.to_nat (str_size s `mod` 65536) in
  let text := bytes_of_string s in
  ∃ p1 p2,
    read_string (Packet_data t flags written) = (Some (string_of_bytes (take n text)), p1) ∧
    read_remaining p1 = (string_of_bytes (drop n text ++ bytes_of_string message), p2) ∧
    unread p2 = [] ∧ packet_ok p2 ∧
    (string_of_bytes (take n text) = s ↔ (str_size s < 65536)%Z) ∧
    (string_of_bytes (drop n text ++ bytes_of_string message) = message ↔
       (str_size s < 65536)%Z).
Proof.
  intros written n text.
  pose proof (written_reads s message t flags p) as (p1 & Hread & Hok1 & Hu).
  exists p1. eexists. split; [exact Hread|].
  rewrite read_remaining_refines, Hu by done. split; [done|].
  split; [rewrite unread_advance, Hu; by apply drop_ge|].
  split; [by apply advance_ok; [|rewrite Hu]|].
  rewrite <-announced_length. fold n text. split.
  - rewrite string_of_bytes_eq by (apply Forall_take, bytes_of_string_bytes). fold text. split.
    + intros Ht%(f_equal length). revert Ht. rewrite length_take. lia.
    + apply take_ge.
  - rewrite string_of_bytes_eq.
    2:{ apply Forall_app; split; [apply Forall_drop|]; apply bytes_of_string_bytes. }
    split.
    + intros Hd%(f_equal length). rewrite length_app, length_drop in Hd. lia.
    + intros Hn. by rewrite drop_ge.
Qed.
