(* ===== verification/Topic.v ===== *)
(** * Topics and their levels

    [Client::subscribe], [Client::unsubscribe] and
    [Impl::findSubscriptionMatch] (all in [src/Client.cpp]) cut a topic at its
    ['/'] characters one level at a time, with [find], [substr] and
    [remove_prefix] on a [std::string_view].  [next_part] is that step;
    [levels] is the list of levels the step produces. *)

From S2P Require Export Prelude.

Definition slash : ascii := "/"%char.

(** [topic_search.find('/')], [None] being [npos]. *)
Fixpoint find_slash (s : string) : option nat :=
  match s with
  | EmptyString => None
  | String c s => if Ascii.eqb c slash then Some 0 else S <$> find_slash s
  end.

(** [substr(0, n)] and [remove_prefix(n)]. *)
Fixpoint str_take (n : nat) (s : string) : string :=
  match n, s with
  | S n, String c s => String c (str_take n s)
  | _, _ => EmptyString
  end.

Fixpoint remove_prefix (n : nat) (s : string) : string :=
  match n, s with
  | S n, String _ s => remove_prefix n s
  | _, _ => s
  end.

(** The next part of the topic, and what is left of it unless [pos] was
    [npos]. *)
Definition next_part (topic_search : string) : string * option string :=
  match find_slash topic_search with
  | Some pos => (str_take pos topic_search, Some (remove_prefix (pos + 1) topic_search))
  | None => (topic_search, None)
  end.

(** ** Specification: the levels of a topic *)

Fixpoint levels (s : string) : list string :=
  match s with
  | EmptyString => [EmptyString]
  | String c s =>
      if Ascii.eqb c slash then EmptyString :: levels s
      else match levels s with
           | p :: ps => String c p :: ps
           | [] => [String c EmptyString]
           end
  end.

Fixpoint join_levels (l : list string) : string :=
  match l with
  | [] => EmptyString
  | [p] => p
  | p :: ps => (p ++ String slash (join_levels ps))%string
  end.

Lemma levels_cons s : ∃ p ps, levels s = p :: ps.
Proof.
  destruct s as [|c s]; simpl; [by eauto|]. case_match; [by eauto|].
  case_match; eauto.
Qed.

Lemma levels_nonempty s : levels s ≠ [].
Proof. destruct (levels_cons s) as (p & ps & ->). done. Qed.

Lemma levels_next s :
  levels s =
    match next_part s with
    | (p, None) => [p]
    | (p, Some r) => p :: levels r
    end.
Proof.
  unfold next_part. induction s as [|c s IH]; simpl; [done|].
  destruct (Ascii.eqb c slash) eqn:Hc; simpl; [done|].
  destruct (find_slash s) as [pos|] eqn:Hf; simpl in *; rewrite IH; simpl.
  - by rewrite Nat.add_1_r.
  - done.
Qed.

(** Each step leaves a shorter topic, so the loops over levels end. *)
Lemma next_part_shorter s p r :
  next_part s = (p, Some r) → String.length r < String.length s.
Proof.
  unfold next_part. destruct (find_slash s) as [pos|] eqn:Hf; [|done].
  intros [= _ <-]. revert pos Hf.
  induction s as [|c s IH]; intros pos; simpl; [done|].
  destruct (Ascii.eqb c slash) eqn:Hc.
  - intros [= <-]. simpl. destruct s; simpl; lia.
  - intros (pos' & Hf & ->)%fmap_Some. simpl. apply IH in Hf. lia.
Qed.

Lemma levels_length s : length (levels s) ≤ S (String.length s).
Proof.
  induction s as [|c s IH]; simpl; [lia|]. case_match; simpl; [lia|].
  destruct (levels_cons s) as (p & ps & Hl). rewrite Hl in *. simpl in *. lia.
Qed.

Lemma join_levels_levels s : join_levels (levels s) = s.
Proof.
  induction s as [|c s IH]; simpl; [done|].
  destruct (Ascii.eqb_spec c slash) as [->|].
  - destruct (levels_cons s) as (p & ps & Hl). rewrite Hl in *. by rewrite <-IH.
  - destruct (levels_cons s) as (p & ps & Hl). rewrite Hl in *.
    rewrite <-IH. by destruct ps.
Qed.

#[export] Instance levels_inj : Inj (=) (=) levels.
Proof.
  intros s1 s2 Heq. by rewrite <-(join_levels_levels s1), Heq, join_levels_levels.
Qed.

(** No level contains a slash. *)
Definition no_slash (s : string) : Prop := find_slash s = None.

Lemma levels_no_slash s : Forall no_slash (levels s).
Proof.
  induction s as [|c s IH]; simpl; [by repeat constructor|].
  destruct (Ascii.eqb c slash) eqn:Hc; [by constructor|].
  destruct (levels_cons s) as (p & ps & Hl). rewrite Hl in *.
  inversion_clear IH as [|?? Hp Hps]. constructor; [|done].
  unfold no_slash in *. simpl. by rewrite Hc, Hp.
Qed.

Lemma levels_app_slash p s :
  no_slash p → levels (p ++ String slash s)%string = p :: levels s.
Proof.
  unfold no_slash. induction p as [|c p IH]; simpl; [done|].
  destruct (Ascii.eqb c slash) eqn:Hc; [done|]. intros Hp.
  rewrite IH; [done|]. by destruct (find_slash p).
Qed.

Lemma levels_app p s :
  levels (p ++ String slash s)%string = levels p ++ levels s.
Proof.
  induction p as [|c p IH]; simpl; [done|].
  destruct (Ascii.eqb c slash); rewrite IH; [done|].
  by destruct (levels_cons p) as (q & qs & ->).
Qed.

Lemma levels_join l :
  l ≠ [] → Forall no_slash l → levels (join_levels l) = l.
Proof.
  intros Hne Hl. induction Hl as [|p l Hp Hl IH]; [done|clear Hne].
  destruct l as [|q l].
  - simpl. rewrite levels_next. unfold next_part. by rewrite Hp.
  - rewrite <-IH at 2 by done. by apply levels_app_slash.
Qed.

(** A topic without an empty level, such as ["a/b"] but not ["a//b"]. *)
Definition no_empty_level (s : string) : Prop := Forall (λ p, p ≠ "") (levels s).

#[export] Instance no_empty_level_dec s : Decision (no_empty_level s).
Proof. unfold no_empty_level. apply _. Defined.
