(* ===== verification/StdSet.v ===== *)
(** * [std::set<std::string, std::less<>>]

    The flat list of subscribed topics ([m_subscription_topics] of
    [src/ClientImpl.h]) is iterated in order when subscriptions are restored,
    so it is modelled as the strictly increasing list of its elements, in the
    byte-wise lexicographic order of [std::string]. *)

From S2P Require Export Prelude.
From stdpp Require Export sorting.

Definition str_lt (a b : string) : Prop := String.compare a b = Lt.

#[export] Instance str_lt_dec a b : Decision (str_lt a b).
Proof. unfold str_lt. apply _. Defined.

Lemma ascii_compare_N a b :
  Ascii.compare a b = N.compare (N_of_ascii a) (N_of_ascii b).
Proof. done. Qed.

Lemma str_lt_cons a s b t :
  str_lt (String a s) (String b t) ↔
  (N_of_ascii a < N_of_ascii b)%N ∨ a = b ∧ str_lt s t.
Proof.
  unfold str_lt; simpl. rewrite ascii_compare_N.
  destruct (N.compare_spec (N_of_ascii a) (N_of_ascii b)) as [Heq|Hlt|Hgt].
  - assert (a = b) as ->.
    { by rewrite <-(ascii_N_embedding a), Heq, ascii_N_embedding. }
    naive_solver lia.
  - naive_solver lia.
  - split; [done|]. intros [?|[-> _]]; lia.
Qed.

#[export] Instance str_lt_irrefl : Irreflexive str_lt.
Proof. intros s. unfold complement, str_lt. induction s as [|c s IH]; simpl; [done|].
  rewrite ascii_compare_N, N.compare_refl. done. Qed.

#[export] Instance str_lt_trans : Transitive str_lt.
Proof.
  intros s. induction s as [|c s IH]; intros [|d t] [|e u]; try done.
  rewrite !str_lt_cons. intros [?|[-> ?]] [?|[-> ?]]; [left; lia|by left|by left|].
  right. split; [done|]. by apply (IH t).
Qed.

Section set.
Implicit Types (x y : string) (l : list string).

(** [emplace], [find] and [erase(find(...))]. *)
Fixpoint set_emplace x l : list string :=
  match l with
  | [] => [x]
  | y :: ys =>
      match String.compare x y with
      | Eq => l
      | Lt => x :: l
      | Gt => y :: set_emplace x ys
      end
  end.

Definition set_find x l : bool := bool_decide (x ∈ l).

Fixpoint set_erase x l : list string :=
  match l with
  | [] => []
  | y :: ys => if decide (x = y) then ys else y :: set_erase x ys
  end.

Definition set_ok l : Prop := StronglySorted str_lt l.

Lemma elem_of_set_emplace x y l : y ∈ set_emplace x l ↔ y = x ∨ y ∈ l.
Proof.
  induction l as [|z l IH]; simpl; [set_solver|].
  destruct (String.compare x z) eqn:Hc; [|set_solver|set_solver].
  apply String.compare_eq_iff in Hc as ->. set_solver.
Qed.

Lemma str_gt x y : String.compare x y = Gt → str_lt y x.
Proof. intros Hc. unfold str_lt. by rewrite String.compare_antisym, Hc. Qed.

Lemma set_emplace_ok x l : set_ok l → set_ok (set_emplace x l).
Proof.
  unfold set_ok. induction 1 as [|y l Hl IH Hy]; simpl; [by repeat constructor|].
  destruct (String.compare x y) eqn:Hc.
  - by constructor.
  - constructor; [by constructor|]. constructor; [done|].
    eapply Forall_impl; [done|]. intros z ?. by apply (str_lt_trans _ y).
  - constructor; [done|]. apply Forall_forall. intros z [->|Hz]%elem_of_set_emplace.
    + by apply str_gt.
    + by eapply Forall_forall in Hy.
Qed.

Lemma set_ok_NoDup l : set_ok l → NoDup l.
Proof.
  induction 1 as [|y l Hl IH Hy]; constructor; [|done].
  intros Hin. eapply Forall_forall in Hy; [|done]. by apply (str_lt_irrefl y).
Qed.

Lemma elem_of_set_erase x y l :
  set_ok l → y ∈ set_erase x l ↔ y ≠ x ∧ y ∈ l.
Proof.
  intros Hl%set_ok_NoDup. induction Hl as [|z l Hz Hl IH]; simpl; [set_solver|].
  case_decide as Hd; [subst; set_solver|]. rewrite !elem_of_cons, IH. naive_solver.
Qed.

Lemma set_erase_ok x l : set_ok l → set_ok (set_erase x l).
Proof.
  intros Hok. pose proof Hok as Hl. unfold set_ok.
  induction Hl as [|y l Hl IH Hy]; simpl; [constructor|]. case_decide; [done|].
  constructor; [by apply IH|]. apply Forall_forall.
  intros z [_ Hz]%elem_of_set_erase; [|done]. by eapply Forall_forall in Hy.
Qed.

(** Two sets with the same elements are the same list. *)
Lemma set_ext l1 l2 :
  set_ok l1 → set_ok l2 → (∀ x, x ∈ l1 ↔ x ∈ l2) → l1 = l2.
Proof.
  intros H1. revert l2. induction H1 as [|x l1 H1 IH Hx]; intros l2 H2 Heq.
  { destruct l2 as [|y l2]; [done|]. exfalso. specialize (Heq y). set_solver. }
  destruct H2 as [|y l2 H2 Hy].
  { exfalso. specialize (Heq x). set_solver. }
  rewrite Forall_forall in Hx, Hy.
  assert (x = y) as ->.
  { destruct (decide (x = y)) as [|Hne]; [done|exfalso].
    assert (str_lt y x) as Hyx by (apply Hy; specialize (Heq x); set_solver).
    assert (str_lt x y) as Hxy by (apply Hx; specialize (Heq y); set_solver).
    apply (str_lt_irrefl x). by trans y. }
  f_equal. apply IH; [done|]. intros z. specialize (Heq z).
  rewrite !elem_of_cons in Heq.
  split; intros Hz.
  - destruct (proj1 Heq (or_intror Hz)) as [->|]; [|done].
    by destruct (str_lt_irrefl y); apply Hx.
  - destruct (proj2 Heq (or_intror Hz)) as [->|]; [|done].
    by destruct (str_lt_irrefl y); apply Hy.
Qed.

Lemma set_erase_emplace x l :
  set_ok l → x ∉ l → set_erase x (set_emplace x l) = l.
Proof.
  intros Hl Hx. apply set_ext; [by apply set_erase_ok, set_emplace_ok|done|].
  intros y. rewrite elem_of_set_erase by (by apply set_emplace_ok).
  rewrite elem_of_set_emplace. naive_solver.
Qed.
End set.
