(* ===== verification/Subscriptions.v ===== *)
(** * The subscription tree

    [m_subscriptions] of [src/ClientImpl.h]: a tree of [SubscriptionPart]s
    keyed by the levels of the subscribed topics, as [Client::subscribe] adds
    to it and [Client::unsubscribe] removes from it and prunes it
    ([src/Client.cpp]); [Matching.v] has the search.

    A [SubscriptionPart *] into the tree is the path of keys to the node it
    points to ([std::map] nodes do not move); the null pointer, which stands
    for the root map, is the empty path.  Dereferencing [end()] is undefined
    behaviour in C++, and [None] here. *)

From S2P Require Export Types Topic.

Inductive SubscriptionPart := mkPart {
  children : gmap string SubscriptionPart;
  callbacks : list callback
}.

Notation tree := (gmap string SubscriptionPart).
Notation ptr := (list string) (only parsing).

#[export] Instance eta_SubscriptionPart : Eta SubscriptionPart :=
  λ n, mkPart (children n) (callbacks n).

Definition empty_part : SubscriptionPart := mkPart ∅ [].

(** ** Access through a pointer *)

(** The map a pointer owns: the root map, or the children of a node. *)
Fixpoint children_at (p : ptr) (t : tree) : option tree :=
  match p with
  | [] => Some t
  | k :: p => n ← t !! k; children_at p (children n)
  end.

Fixpoint alter_children (g : tree → tree) (p : ptr) (t : tree) : tree :=
  match p with
  | [] => g t
  | k :: p => alter (λ n, n <| children ::= alter_children g p |>) k t
  end.

(** The node a (non-null) pointer points to. *)
Fixpoint node_at (p : ptr) (t : tree) : option SubscriptionPart :=
  match p with
  | [] => None
  | k :: p =>
      n ← t !! k;
      match p with [] => Some n | _ => node_at p (children n) end
  end.

Fixpoint alter_node (f : SubscriptionPart → SubscriptionPart) (p : ptr) (t : tree)
    : tree :=
  match p with
  | [] => t
  | k :: p =>
      alter (λ n, match p with
                  | [] => f n
                  | _ => n <| children ::= alter_node f p |>
                  end) k t
  end.

(** ** [Client::subscribe] *)

(** [children.try_emplace(part).first->second]. *)
Definition try_emplace (subscriptions : ptr) (part : string) (t : tree) : ptr * tree :=
  (subscriptions ++ [part],
   alter_children (λ m, match m !! part with
                        | Some _ => m
                        | None => <[part := empty_part]> m
                        end) subscriptions t).

(** The [while (true)] loop; one unit of fuel per iteration. *)
Fixpoint subscribe_walk (fuel : nat) (topic_search : string) (subscriptions : ptr)
    (t : tree) : option (ptr * tree) :=
  match fuel with
  | O => None
  | S fuel =>
      let '(part, rest) := next_part topic_search in
      let '(subscriptions, t) := try_emplace subscriptions part t in
      match rest with
      | None => Some (subscriptions, t)
      | Some topic_search => subscribe_walk fuel topic_search subscriptions t
      end
  end.

(** [callbacks.push_back(callback)] and [callbacks.clear()]. *)
Definition push_callback (cb : callback) (n : SubscriptionPart) : SubscriptionPart :=
  n <| callbacks ::= λ cbs, cbs ++ [cb] |>.
Definition clear_callbacks (n : SubscriptionPart) : SubscriptionPart :=
  n <| callbacks := [] |>.

(** An iteration shortens the topic, so its length bounds their number. *)
Definition topic_fuel (topic : string) : nat := S (String.length topic).

Definition subscribe_tree (topic : string) (cb : callback) (t : tree) : option tree :=
  '(subscriptions, t) ← subscribe_walk (topic_fuel topic) topic [] t;
  Some (alter_node (push_callback cb) subscriptions t).

(** ** [Client::unsubscribe] *)

(** The descending loop: [find(part)->second], and the [reverse] vector. *)
Fixpoint unsubscribe_walk (fuel : nat) (topic_search : string) (subscriptions : ptr)
    (reverse : list (string * ptr)) (t : tree) : option (ptr * list (string * ptr)) :=
  match fuel with
  | O => None
  | S fuel =>
      let '(part, rest) := next_part topic_search in
      m ← children_at subscriptions t;
      _ ← m !! part;
      let subscriptions := subscriptions ++ [part] in
      let reverse := reverse ++ [(part, subscriptions)] in
      match rest with
      | None => Some (subscriptions, reverse)
      | Some topic_search => unsubscribe_walk fuel topic_search subscriptions reverse t
      end
  end.

(** [m.erase(m.find(key))] on the map a pointer owns. *)
Definition erase_at (p : ptr) (key : string) (t : tree) : option tree :=
  m ← children_at p t;
  _ ← m !! key;
  Some (alter_children (delete key) p t).

(** The [for] loop over [reverse.rbegin() .. reverse.rend()]. *)
Fixpoint prune (its : list (string * ptr)) (remove_next : string) (t : tree)
    : option (string * tree) :=
  match its with
  | [] => Some (remove_next, t)
  | (part, p) :: its =>
      '(remove_next, t) ←
        (if decide (remove_next = "") then Some (remove_next, t)
         else (λ t, ("", t)) <$> erase_at p remove_next t);
      n ← node_at p t;
      let remove_next :=
        if decide (callbacks n = [] ∧ children n = ∅) then part else remove_next in
      prune its remove_next t
  end.

Definition unsubscribe_tree (topic : string) (t : tree) : option tree :=
  '(subscriptions, reverse) ← unsubscribe_walk (topic_fuel topic) topic [] [] t;
  let t := alter_node clear_callbacks subscriptions t in
  '(remove_next, t) ← prune (rev reverse) "" t;
  if decide (remove_next = "") then Some t else erase_at [] remove_next t.

(** ** Reference definitions on the levels of a topic *)

Definition cbs_at (p : ptr) (t : tree) : list callback :=
  match node_at p t with Some n => callbacks n | None => [] end.

Fixpoint tree_add (l : list string) (cb : callback) (t : tree) : tree :=
  match l with
  | [] => t
  | k :: l =>
      let n := default empty_part (t !! k) in
      <[k := match l with
             | [] => push_callback cb n
             | _ => n <| children ::= tree_add l cb |>
             end]> t
  end.

Definition dead (n : SubscriptionPart) : Prop := callbacks n = [] ∧ children n = ∅.
#[export] Instance dead_dec n : Decision (dead n).
Proof. unfold dead. apply _. Defined.

(** The [string_view] that marks a node for removal is empty when there is
    none, so a node whose key is empty is never removed. *)
Definition prunable (k : string) (n : SubscriptionPart) : Prop := k ≠ "" ∧ dead n.

Definition put_or_prune (k : string) (n : SubscriptionPart) (t : tree) : tree :=
  if decide (prunable k n) then delete k t else <[k := n]> t.

Fixpoint tree_remove (l : list string) (t : tree) : tree :=
  match l with
  | [] => t
  | k :: l =>
      match t !! k with
      | None => t
      | Some n =>
          put_or_prune k
            match l with
            | [] => clear_callbacks n
            | _ => n <| children ::= tree_remove l |>
            end t
      end
  end.

(** ** Pointers compose *)

Lemma children_at_app p q t :
  children_at (p ++ q) t = m ← children_at p t; children_at q m.
Proof.
  revert t. induction p as [|k p IH]; intros t; simpl; [done|].
  destruct (t !! k); simpl; auto.
Qed.

Lemma alter_children_app g p q t :
  alter_children g (p ++ q) t = alter_children (alter_children g q) p t.
Proof.
  revert t. induction p as [|k p IH]; intros t; simpl; [done|].
  apply alter_ext. intros n _. simpl. by rewrite IH.
Qed.

Lemma children_at_alter g p t :
  children_at p (alter_children g p t) = g <$> children_at p t.
Proof.
  revert t. induction p as [|k p IH]; intros t; simpl; [done|].
  rewrite lookup_alter_eq. destruct (t !! k); simpl; auto.
Qed.

Lemma alter_children_ext g h p t :
  (∀ m, children_at p t = Some m → g m = h m) →
  alter_children g p t = alter_children h p t.
Proof.
  revert t. induction p as [|k p IH]; intros t Heq; simpl in *; [by apply Heq|].
  apply alter_ext. intros n Hn. simpl. rewrite Hn in Heq; simpl in Heq.
  by rewrite (IH (children n) Heq).
Qed.

Lemma alter_children_compose g h p t :
  alter_children g p (alter_children h p t) = alter_children (g ∘ h) p t.
Proof.
  revert t. induction p as [|k p IH]; intros t; simpl; [done|].
  rewrite alter_alter_eq. apply alter_ext. intros n _. simpl. by rewrite IH.
Qed.

Lemma alter_children_id p t : alter_children id p t = t.
Proof.
  revert t. induction p as [|k p IH]; intros t; simpl; [done|].
  apply alter_id. intros [c cbs] _. simpl. by rewrite IH.
Qed.

Lemma node_at_app p k q t :
  node_at (p ++ k :: q) t = m ← children_at p t; node_at (k :: q) m.
Proof.
  revert t. induction p as [|k' p IH]; intros t; [done|].
  simpl. destruct (t !! k'); simpl; [|done]. rewrite <-IH. by destruct p.
Qed.

Lemma alter_node_app f p k q t :
  alter_node f (p ++ k :: q) t = alter_children (alter_node f (k :: q)) p t.
Proof.
  revert t. induction p as [|k' p IH]; intros t; [done|].
  simpl. apply alter_ext. intros n _. rewrite <-IH. by destruct p.
Qed.

Lemma node_at_snoc p k t : node_at (p ++ [k]) t = m ← children_at p t; m !! k.
Proof. rewrite node_at_app. destruct (children_at p t); simpl; [|done]. by destruct (_ !! k). Qed.

Lemma node_at_children p k t :
  children_at (p ++ [k]) t = children <$> node_at (p ++ [k]) t.
Proof.
  rewrite children_at_app, node_at_snoc.
  destruct (children_at p t) as [m|]; simpl; [|done]. by destruct (m !! k).
Qed.

(** ** The loop of [subscribe] adds along the levels *)

(** What the loop does before the callback is pushed: create the nodes. *)
Fixpoint ensure (l : list string) (t : tree) : tree :=
  match l with
  | [] => t
  | k :: l => <[k := (default empty_part (t !! k)) <| children ::= ensure l |>]> t
  end.

Lemma subscribe_walk_levels fuel s p t m :
  String.length s < fuel → children_at p t = Some m →
  subscribe_walk fuel s p t =
    Some (p ++ levels s, alter_children (ensure (levels s)) p t).
Proof.
  revert s p t m. induction fuel as [|fuel IH]; intros s p t m Hfuel Hm; [lia|].
  simpl. rewrite levels_next. destruct (next_part s) as [k [r|]] eqn:Hs; simpl.
  - pose proof (next_part_shorter _ _ _ Hs).
    rewrite (IH _ _ _ (default ∅ (children <$> m !! k))); [|lia|].
    2:{ rewrite children_at_app, children_at_alter, Hm. simpl.
        destruct (m !! k) eqn:Hk; simpl; rewrite ?Hk, ?lookup_insert_eq; done. }
    rewrite <-app_assoc, alter_children_app, alter_children_compose. simpl.
    do 2 f_equal. apply alter_children_ext. intros m' _. simpl.
    destruct (m' !! k) as [n|] eqn:Hk; simpl.
    + apply map_eq. intros i. rewrite lookup_alter, lookup_insert.
      case_decide as Hi; [subst; by rewrite Hk|done].
    + by rewrite alter_insert_eq.
  - do 2 f_equal. apply alter_children_ext. intros m' _. simpl.
    destruct (m' !! k) as [n|] eqn:Hk; simpl; [|done].
    rewrite insert_id; [done|]. rewrite Hk. by destruct n.
Qed.

Lemma tree_add_ensure l cb t :
  alter_node (push_callback cb) l (ensure l t) =
  tree_add l cb t.
Proof.
  revert t. induction l as [|k l IH]; intros t; [done|].
  simpl. rewrite alter_insert_eq. destruct l as [|k' l]; simpl; [done|].
  f_equal. simpl. f_equal. apply IH.
Qed.

Lemma subscribe_tree_add topic cb t :
  subscribe_tree topic cb t = Some (tree_add (levels topic) cb t).
Proof.
  unfold subscribe_tree, topic_fuel.
  erewrite (subscribe_walk_levels _ _ []) by (done || lia). simpl.
  by rewrite tree_add_ensure.
Qed.

(** The callbacks at every path after an addition. *)
Lemma node_at_cons k l t :
  node_at (k :: l) t =
    n ← t !! k; match l with [] => Some n | _ => node_at l (children n) end.
Proof. done. Qed.

Lemma cbs_at_nil t : cbs_at [] t = [].
Proof. done. Qed.

Lemma cbs_at_cons k l t :
  cbs_at (k :: l) t =
    match t !! k with
    | Some n => match l with [] => callbacks n | _ => cbs_at l (children n) end
    | None => []
    end.
Proof. unfold cbs_at. simpl. destruct (t !! k); simpl; [|done]. by destruct l. Qed.

Lemma cbs_at_empty l : cbs_at l ∅ = [].
Proof. destruct l; [done|]. rewrite cbs_at_cons. by rewrite lookup_empty. Qed.

Lemma cbs_at_add l cb t p :
  l ≠ [] →
  cbs_at p (tree_add l cb t) = cbs_at p t ++ (if decide (p = l) then [cb] else []).
Proof.
  revert t p. induction l as [|k l IH]; intros t p Hl; [done|clear Hl].
  destruct p as [|k' p]; [by rewrite decide_False|].
  simpl. rewrite !cbs_at_cons, lookup_insert.
  destruct (decide (k = k')) as [<-|Hk].
  2:{ rewrite (decide_False (P := _ = _)) by congruence. by rewrite app_nil_r. }
  destruct p as [|k2 p], l as [|k1 l]; simpl.
  - rewrite decide_True by done. by destruct (t !! k).
  - rewrite decide_False by done. rewrite app_nil_r. by destruct (t !! k).
  - rewrite decide_False by done. rewrite app_nil_r.
    destruct (t !! k); simpl; [done|]. apply cbs_at_empty.
  - etrans; [apply (IH _ (k2 :: p)); done|]. f_equal.
    + destruct (t !! k); simpl; [done|]. apply cbs_at_empty.
    + destruct (decide (k2 :: p = k1 :: l)) as [->|]; [by rewrite decide_True|].
      rewrite decide_False; [done|]. congruence.
Qed.

(** ** The loops of [unsubscribe] remove and prune along the levels *)

Fixpoint items (p : ptr) (l : list string) : list (string * ptr) :=
  match l with
  | [] => []
  | k :: l => (k, p ++ [k]) :: items (p ++ [k]) l
  end.

Lemma unsubscribe_walk_levels fuel s p rv t m :
  String.length s < fuel → children_at p t = Some m →
  unsubscribe_walk fuel s p rv t =
    match node_at (levels s) m with
    | Some _ => Some (p ++ levels s, rv ++ items p (levels s))
    | None => None
    end.
Proof.
  revert s p rv m. induction fuel as [|fuel IH]; intros s p rv m Hfuel Hm; [lia|].
  simpl. rewrite levels_next, Hm. simpl.
  destruct (next_part s) as [k [r|]] eqn:Hs; simpl.
  - pose proof (next_part_shorter _ _ _ Hs).
    destruct (m !! k) as [n|] eqn:Hk; simpl; [|done].
    rewrite (IH r (p ++ [k]) _ (children n)); [|lia|].
    2:{ rewrite children_at_app, Hm. simpl. by rewrite Hk. }
    destruct (levels_cons r) as (k' & l & ->).
    destruct (node_at (k' :: l) (children n)); [|done].
    by rewrite <-!app_assoc.
  - by destruct (m !! k).
Qed.

(** The erasure still pending after a number of iterations. *)
Definition finalize (remove_next : string) (p : ptr) (t : tree) : option tree :=
  if decide (remove_next = "") then Some t else erase_at p remove_next t.

Lemma prune_pending its part p rn t :
  prune ((part, p) :: its) rn t =
    t ← finalize rn p t; prune ((part, p) :: its) "" t.
Proof.
  unfold finalize. simpl. case_decide; subst; simpl; [done|].
  by destruct (erase_at p rn t).
Qed.

Lemma prune_step its p k n n' t m :
  children_at p t = Some m → m !! k = Some n →
  ∃ rn, let t' := alter_children (<[k := n']>) p t in
    prune ((k, p ++ [k]) :: its) "" t' = prune its rn t' ∧
    finalize rn p t' = Some (alter_children (put_or_prune k n') p t).
Proof.
  intros Hm Hk. exists (if decide (dead n') then k else ""). split.
  - simpl. rewrite node_at_snoc, children_at_alter, Hm. simpl.
    by rewrite lookup_insert_eq.
  - unfold finalize, put_or_prune, prunable.
    destruct (decide (dead n')) as [Hd|Hd].
    + destruct (decide (k = "")) as [->|Hne].
      * done.
      * unfold erase_at. rewrite children_at_alter, Hm. simpl.
        rewrite lookup_insert_eq; simpl. f_equal. rewrite alter_children_compose.
        apply alter_children_ext. intros m' _. simpl.
        by rewrite decide_True, delete_insert_eq by done.
    + rewrite decide_True by done. f_equal. apply alter_children_ext. intros m' _.
      case_decide; [naive_solver|done].
Qed.

Lemma tree_remove_cons k l n t :
  t !! k = Some n →
  tree_remove (k :: l) t =
    put_or_prune k match l with
                   | [] => clear_callbacks n
                   | _ => n <| children ::= tree_remove l |>
                   end t.
Proof. intros Hk. simpl. by rewrite Hk. Qed.

Lemma prune_levels l : ∀ k p t m its,
  children_at p t = Some m → is_Some (node_at (k :: l) m) →
  ∃ rn t',
    prune (rev (items p (k :: l)) ++ its) "" (alter_node clear_callbacks (p ++ k :: l) t)
      = prune its rn t' ∧
    finalize rn p t' = Some (alter_children (tree_remove (k :: l)) p t).
Proof.
  induction l as [|k2 l IH]; intros k p t m its Hm [nl Hn].
  - simpl in Hn. destruct (m !! k) as [n|] eqn:Hk; simpl in Hn; [|done].
    destruct (prune_step its p k n (clear_callbacks n) t m Hm Hk) as (rn & Hp & Hf).
    assert (alter_node clear_callbacks (p ++ [k]) t =
            alter_children <[k:=clear_callbacks n]> p t) as ->.
    { rewrite alter_node_app. apply alter_children_ext. intros m' Hm'.
      rewrite Hm in Hm'. injection Hm' as <-. simpl. apply map_eq. intros i.
      rewrite lookup_alter, lookup_insert. case_decide; [subst; by rewrite Hk|done]. }
    exists rn, (alter_children <[k:=clear_callbacks n]> p t). split; [exact Hp|].
    rewrite Hf. f_equal. apply alter_children_ext. intros m' Hm'.
    rewrite Hm in Hm'. injection Hm' as <-. by rewrite (tree_remove_cons _ _ n).
  - rewrite node_at_cons in Hn. destruct (m !! k) as [n|] eqn:Hk; simpl in Hn; [|done].
    assert (children_at (p ++ [k]) t = Some (children n)) as Hc.
    { rewrite children_at_app, Hm. simpl. by rewrite Hk. }
    destruct (IH k2 (p ++ [k]) t (children n) ((k, p ++ [k]) :: its) Hc (ltac:(eauto)))
      as (rn & t' & Hp & Hf).
    rewrite <-app_assoc in Hp. simpl app in Hp.
    set (n' := n <| children ::= tree_remove (k2 :: l) |>).
    assert (alter_children (tree_remove (k2 :: l)) (p ++ [k]) t =
            alter_children <[k:=n']> p t) as Heq.
    { rewrite alter_children_app. apply alter_children_ext. intros m' Hm'.
      rewrite Hm in Hm'. injection Hm' as <-. cbn [alter_children]. apply map_eq. intros i.
      rewrite lookup_alter, lookup_insert. case_decide; [subst; by rewrite Hk|done]. }
    rewrite prune_pending, Hf in Hp. cbn [mbind option_bind] in Hp.
    destruct (prune_step its p k n n' t m Hm Hk) as (rn' & Hp' & Hf').
    exists rn', (alter_children <[k:=n']> p t). split.
    + rewrite <-Hp', <-Heq, <-Hp.
      change (items p (k :: k2 :: l)) with ((k, p ++ [k]) :: items (p ++ [k]) (k2 :: l)).
      change (rev ((k, p ++ [k]) :: ?l)) with (rev l ++ [(k, p ++ [k])]).
      by rewrite <-app_assoc.
    + rewrite Hf'. f_equal. apply alter_children_ext. intros m' Hm'.
      rewrite Hm in Hm'. injection Hm' as <-. by rewrite (tree_remove_cons _ _ n).
Qed.

Lemma unsubscribe_tree_remove topic t :
  unsubscribe_tree topic t =
    match node_at (levels topic) t with
    | Some _ => Some (tree_remove (levels topic) t)
    | None => None
    end.
Proof.
  unfold unsubscribe_tree, topic_fuel.
  rewrite (unsubscribe_walk_levels _ _ [] [] t t) by (done || lia).
  destruct (node_at (levels topic) t) as [n|] eqn:Hn; [|done]. simpl.
  destruct (levels_cons topic) as (k & l & Hl). rewrite Hl in *.
  destruct (prune_levels l k [] t t [] eq_refl (ltac:(eauto))) as (rn & t' & Hp & Hf).
  rewrite app_nil_r in Hp. simpl in Hp |- *. rewrite Hp. simpl. exact Hf.
Qed.

(** The callbacks at every path after a removal. *)
Lemma cbs_at_put_or_prune p k n t :
  cbs_at p (put_or_prune k n t) = cbs_at p (<[k := n]> t).
Proof.
  unfold put_or_prune. case_decide as Hp; [|done]. destruct Hp as [_ [Hcb Hch]].
  destruct p as [|k' p]; [done|]. rewrite !cbs_at_cons.
  rewrite lookup_delete, lookup_insert. case_decide; [|done].
  destruct p as [|k2 p]; [done|]. rewrite Hch. by rewrite cbs_at_empty.
Qed.

Lemma cbs_at_remove l t p :
  l ≠ [] → cbs_at p (tree_remove l t) = if decide (p = l) then [] else cbs_at p t.
Proof.
  revert t p. induction l as [|k l IH]; intros t p Hl; [done|clear Hl].
  destruct (t !! k) as [n|] eqn:Hk.
  2:{ simpl. rewrite Hk. case_decide; subst; [|done]. rewrite cbs_at_cons. by rewrite Hk. }
  rewrite (tree_remove_cons _ _ _ _ Hk), cbs_at_put_or_prune.
  destruct p as [|k' p]; [by rewrite decide_False|].
  rewrite !cbs_at_cons, lookup_insert.
  destruct (decide (k = k')) as [<-|Hne].
  2:{ by rewrite (decide_False (P := _ = _)) by congruence. }
  rewrite Hk. destruct p as [|k2 p], l as [|k1 l]; simpl.
  - by rewrite decide_True.
  - by rewrite decide_False.
  - by rewrite decide_False.
  - etrans; [apply (IH _ (k2 :: p)); done|].
    destruct (decide (k2 :: p = k1 :: l)) as [->|]; [by rewrite decide_True|].
    by rewrite decide_False by congruence.
Qed.

Lemma cbs_at_node p t : cbs_at p t ≠ [] → is_Some (node_at p t).
Proof. unfold cbs_at. destruct (node_at p t); [by eauto|done]. Qed.

(** ** No dead nodes

    The bookkeeping of [unsubscribe] is there to "remove any empty nodes": a
    tree is live when every node has callbacks in it or below it. *)

Definition live (t : tree) : Prop :=
  ∀ p, is_Some (node_at p t) → ∃ q, cbs_at (p ++ q) t ≠ [].

Definition live_part (n : SubscriptionPart) : Prop :=
  ¬ dead n ∧ live (children n).

Lemma live_empty : live ∅.
Proof.
  intros [|k p]; simpl; [by intros []|]. rewrite lookup_empty. by intros [].
Qed.

Lemma live_cons k n t : live t → t !! k = Some n → live_part n.
Proof.
  intros Ht Hk. split.
  - intros [Hcb Hch]. destruct (Ht [k]) as [q Hq]; [simpl; rewrite Hk; by eexists|].
    apply Hq. simpl. rewrite cbs_at_cons, Hk, Hch. destruct q; [done|apply cbs_at_empty].
  - intros [|k2 p]; [by intros []|]. intros Hn.
    destruct (Ht (k :: k2 :: p)) as [q Hq]; [rewrite node_at_cons, Hk; exact Hn|].
    exists q. revert Hq. rewrite <-!app_comm_cons, cbs_at_cons. by rewrite Hk.
Qed.

Lemma live_not_empty t : live t → t ≠ ∅ → ∃ p, cbs_at p t ≠ [].
Proof.
  intros Ht Hne. destruct (map_choose t Hne) as (k & n & Hk).
  destruct (Ht [k]) as [q Hq]; [simpl; rewrite Hk; by eexists|]. by eexists.
Qed.

Lemma live_intro t : (∀ k n, t !! k = Some n → live_part n) → live t.
Proof.
  intros Ht [|k p]; [by intros []|]. rewrite node_at_cons.
  destruct (t !! k) as [n|] eqn:Hk; simpl; [|by intros []].
  destruct (Ht k n Hk) as [Hd Hn]. destruct p as [|k2 p].
  - intros _. destruct (decide (callbacks n = [])) as [Hcb|Hcb].
    + destruct (live_not_empty (children n) Hn) as [q Hq]; [by intros ?; apply Hd|].
      exists q. simpl. rewrite cbs_at_cons, Hk. by destruct q.
    + exists []. simpl. by rewrite cbs_at_cons, Hk.
  - intros Hs. destruct (Hn _ Hs) as [q Hq]. exists q.
    rewrite <-!app_comm_cons, cbs_at_cons, Hk. done.
Qed.

Lemma live_insert k n t : live t → live_part n → live (<[k := n]> t).
Proof.
  intros Ht Hn. apply live_intro. intros k' n'. rewrite lookup_insert.
  case_decide; [by intros [= <-]|]. by apply live_cons.
Qed.

Lemma live_delete k t : live t → live (delete k t).
Proof.
  intros Ht. apply live_intro. intros k' n' [_ Hk]%lookup_delete_Some.
  by apply (live_cons k' n' t).
Qed.

Lemma live_add l cb t : live t → live (tree_add l cb t).
Proof.
  revert t. induction l as [|k l IH]; intros t Ht; [done|].
  assert (live (children (default empty_part (t !! k)))) as Hn.
  { destruct (t !! k) as [n|] eqn:Hk; simpl; [by eapply live_cons|apply live_empty]. }
  simpl. apply live_insert; [done|]. destruct l as [|k2 l]; split; simpl.
  - intros [Hcb _]. simpl in Hcb. by destruct (callbacks _).
  - done.
  - intros [_ Hch]. simpl in Hch. by apply insert_non_empty in Hch.
  - by apply (IH (children (default empty_part (t !! k)))).
Qed.

Lemma live_put_or_prune k n t :
  k ≠ "" → live t → live (children n) → live (put_or_prune k n t).
Proof.
  intros Hk Ht Hn. unfold put_or_prune, prunable. case_decide as Hd.
  - by apply live_delete.
  - apply live_insert; [done|]. split; [naive_solver|done].
Qed.

Lemma live_remove l t : Forall (λ k, k ≠ "") l → live t → live (tree_remove l t).
Proof.
  intros Hl. revert t. induction Hl as [|k l Hk Hl IH]; intros t Ht; [done|].
  destruct (t !! k) as [n|] eqn:Hn; [|by simpl; rewrite Hn].
  rewrite (tree_remove_cons _ _ _ _ Hn).
  destruct (live_cons _ _ _ Ht Hn) as [_ Hc].
  apply live_put_or_prune; [done..|]. destruct l; [done|]. by apply IH.
Qed.

Lemma put_or_prune_live k n t :
  live_part n → t !! k = Some n → put_or_prune k n t = t.
Proof.
  intros [Hd _] Hk. unfold put_or_prune, prunable.
  rewrite decide_False by naive_solver. by apply insert_id.
Qed.

Lemma put_or_prune_insert k n n' t :
  put_or_prune k n (<[k := n']> t) = put_or_prune k n t.
Proof.
  unfold put_or_prune. case_decide; [by rewrite delete_insert_eq|].
  by rewrite insert_insert_eq.
Qed.

Lemma tree_remove_add l cb t :
  Forall (λ k, k ≠ "") l → live t → cbs_at l t = [] →
  tree_remove l (tree_add l cb t) = t.
Proof.
  intros Hl. revert t. induction Hl as [|k l Hk Hl IH]; intros t Ht Hcb; [done|].
  cbn [tree_add]. erewrite tree_remove_cons by apply lookup_insert_eq.
  rewrite put_or_prune_insert. rewrite cbs_at_cons in Hcb.
  set (n := default empty_part (t !! k)).
  trans (put_or_prune k n t).
  - f_equal. destruct l as [|k2 l]; subst n.
    + destruct (t !! k) as [[c cbs]|]; simpl in *; [by subst|done].
    + specialize (IH (children (default empty_part (t !! k)))).
      destruct (t !! k) as [n|] eqn:Hn; simpl in IH.
      * destruct (live_cons _ _ _ Ht Hn) as [_ Hc].
        specialize (IH Hc Hcb). destruct n as [c cbs]. unfold set_field; simpl in *.
        by rewrite IH.
      * specialize (IH live_empty (cbs_at_empty _)). unfold set_field; simpl in *.
        by rewrite IH.
  - subst n. destruct (t !! k) as [n|] eqn:Hn; simpl.
    + apply put_or_prune_live; [by eapply live_cons|done].
    + unfold put_or_prune. rewrite decide_True by done. by apply delete_id.
Qed.

(** ** Properties *)

(** C30: the loops of the code, over [string_view]s and pointers into the tree,
    compute the recursive definitions on the levels of the topic: [subscribe]
    never fails and adds the callback at the end of the path; [unsubscribe]
    clears the callbacks there and removes exactly the prunable nodes on the
    way, and dereferences [end()] exactly when the path is not in the tree. *)
Theorem loops_compute_levels topic cb t :
  subscribe_tree topic cb t = Some (tree_add (levels topic) cb t) ∧
  unsubscribe_tree topic t =
    match node_at (levels topic) t with
    | Some _ => Some (tree_remove (levels topic) t)
    | None => None
    end.
Proof. split; [apply subscribe_tree_add|apply unsubscribe_tree_remove]. Qed.

(** C31: in a tree without dead nodes, as [subscribe] and [unsubscribe] of
    topics without an empty level keep it, unsubscribing from a topic without an
    empty level that had no callback undoes the subscription: the tree is the
    one before, not a node is left behind.  (For a topic with an empty level,
    such as "a/", nodes are left: [empty_level_is_not_removed].) *)
Theorem unsubscribe_undoes_subscribe topic cb t :
  live t → no_empty_level topic → cbs_at (levels topic) t = [] →
  ∃ t', subscribe_tree topic cb t = Some t' ∧ unsubscribe_tree topic t' = Some t.
Proof.
  intros Ht Hl Hcb. exists (tree_add (levels topic) cb t).
  split; [apply subscribe_tree_add|]. rewrite unsubscribe_tree_remove.
  assert (is_Some (node_at (levels topic) (tree_add (levels topic) cb t))) as [n ->].
  { apply cbs_at_node. rewrite cbs_at_add, Hcb, decide_True by
      (done || apply levels_nonempty). done. }
  by rewrite tree_remove_add.
Qed.

Lemma unsubscribe_undoes_subscribe_witness :
  no_empty_level "a/b" ∧
  ∃ t', subscribe_tree "a/b" 7 ∅ = Some t' ∧ unsubscribe_tree "a/b" t' = Some ∅.
Proof.
  split; [by vm_compute; repeat constructor|].
  apply (unsubscribe_undoes_subscribe "a/b" 7 ∅).
  - exact live_empty.
  - by vm_compute; repeat constructor.
  - reflexivity.
Defined.

(** C32: [subscribe] keeps a tree without dead nodes that way, and so does
    [unsubscribe] of a topic without an empty level, as the "bookkeeping"
    comment intends: every node of the tree has a callback in it or below it. *)
Theorem bookkeeping_keeps_live topic cb t t' :
  live t →
  (subscribe_tree topic cb t = Some t' → live t') ∧
  (no_empty_level topic → unsubscribe_tree topic t = Some t' → live t').
Proof.
  intros Ht. split.
  - rewrite subscribe_tree_add. intros [= <-]. by apply live_add.
  - intros Hl. rewrite unsubscribe_tree_remove. case_match; [|done].
    intros [= <-]. by apply live_remove.
Qed.

Lemma bookkeeping_keeps_live_witness :
  live (<["a" := mkPart ∅ [1]]> ∅).
Proof.
  refine (proj1 (bookkeeping_keeps_live "a" 1 ∅ _ live_empty) _). by vm_compute.
Defined.

(** A flaw: the node to remove next is remembered by its key, the empty
    key meaning "none".  Unsubscribing a topic whose last level is empty
    therefore leaves its nodes in the tree, though nothing is subscribed. *)
Theorem empty_level_is_not_removed cb :
  ∃ t t', subscribe_tree "a/" cb ∅ = Some t ∧ unsubscribe_tree "a/" t = Some t' ∧
    t' ≠ ∅ ∧ (∀ p, cbs_at p t' = []) ∧ ¬ live t'.
Proof.
  set (t := tree_add ["a"; ""] cb ∅). exists t, (tree_remove ["a"; ""] t).
  split; [by rewrite subscribe_tree_add|].
  split; [by rewrite unsubscribe_tree_remove|].
  assert (tree_remove ["a"; ""] t ≠ ∅) as Hne by (intros Heq; by vm_compute in Heq).
  assert (∀ p, cbs_at p (tree_remove ["a"; ""] t) = []) as Hcb.
  { intros p. rewrite cbs_at_remove by done. case_decide; [done|].
    subst t. rewrite cbs_at_add, cbs_at_empty by done. by rewrite decide_False. }
  split; [done|]. split; [done|]. intros Hl.
  destruct (live_not_empty _ Hl Hne) as [p Hp]. by destruct Hp.
Qed.
