(* ===== verification/Matching.v ===== *)
(** * Finding the callbacks of a message

    [Impl::findSubscriptionMatch] of [src/Client.cpp] against the subscription
    tree, a specification of the paths it visits, and the MQTT rule for when a
    topic filter matches a topic. *)

From S2P Require Export Subscriptions.

(** ** [Impl::findSubscriptionMatch]

    The callbacks it calls, in order. *)
Fixpoint findSubscriptionMatch (fuel : nat) (topic_search : string)
    (subscriptions : tree) : list callback :=
  match fuel with
  | O => []
  | S fuel =>
      let '(part, rest) := next_part topic_search in
      let descend (n : SubscriptionPart) : list callback :=
        callbacks n ++
        match rest with
        | Some topic_search => findSubscriptionMatch fuel topic_search (children n)
        | None => []
        end in
      match subscriptions !! part with Some n => descend n | None => [] end ++
      match subscriptions !! "+" with Some n => descend n | None => [] end ++
      match subscriptions !! "#" with Some n => callbacks n | None => [] end
  end.

(** The paths a message on a topic with levels [ts] visits, in order. *)
Fixpoint visits (ts : list string) : list ptr :=
  match ts with
  | [] => []
  | t :: ts =>
      ([t] :: map (cons t) (visits ts)) ++
      (["+"] :: map (cons "+") (visits ts)) ++
      [["#"]]
  end.

(** Whether the path of a subscription is visited. *)
Fixpoint visited (f ts : list string) : Prop :=
  match f, ts with
  | k :: f, t :: ts =>
      match f with
      | [] => k = t ∨ k = "+" ∨ k = "#"
      | _ => (k = t ∨ k = "+") ∧ visited f ts
      end
  | _, _ => False
  end.

Definition match_topic (topic : string) (t : tree) : list callback :=
  findSubscriptionMatch (topic_fuel topic) topic t.

(** ** The MQTT rule

    ["+"] matches one level, a final ["#"] any number of them, including the
    parent's own level. *)
Definition level_match (k t : string) : Prop := k = t ∨ k = "+".

Fixpoint mqtt_match (f ts : list string) : Prop :=
  match f with
  | [] => ts = []
  | k :: f =>
      k = "#" ∧ f = [] ∨
      match ts with
      | [] => False
      | t :: ts => level_match k t ∧ mqtt_match f ts
      end
  end.

(** ["#"] occurs at most as the last level of a filter. *)
Definition no_hash (f : list string) : Prop := Forall (λ k, k ≠ "#") f.

(** A filter, with or without a final ["#"]. *)
Definition with_hash (hash : bool) (f : list string) : list string :=
  if hash then f ++ ["#"] else f.

#[export] Instance mqtt_match_dec f ts : Decision (mqtt_match f ts).
Proof.
  revert ts. induction f as [|k f IH]; intros ts; simpl; [apply _|].
  apply or_dec; [apply _|]. destruct ts; [apply _|]. unfold level_match. apply _.
Defined.

#[export] Instance visited_dec f ts : Decision (visited f ts).
Proof.
  revert ts. induction f as [|k f IH]; intros [|t ts]; simpl; try apply _.
  destruct f; apply _.
Defined.

(** ** The search is the concatenation over the visited paths *)

Lemma visits_nonnil ts p : p ∈ visits ts → p ≠ [].
Proof.
  destruct ts; simpl; [set_solver|].
  rewrite elem_of_cons, elem_of_app, elem_of_cons, elem_of_app, !list_elem_of_fmap.
  set_solver.
Qed.

Lemma flat_map_cons_visits k ts (t : tree) :
  flat_map (λ p, cbs_at p t) (map (cons k) (visits ts)) =
    match t !! k with
    | Some n => flat_map (λ p, cbs_at p (children n)) (visits ts)
    | None => []
    end.
Proof.
  assert (∀ p, p ∈ visits ts → p ≠ []) as Hne by apply visits_nonnil.
  induction (visits ts) as [|p ps IH]; simpl; [by destruct (t !! k)|].
  rewrite IH by set_solver. rewrite cbs_at_cons.
  destruct (t !! k); [|done]. f_equal.
  destruct p; [|done]. by destruct (Hne []); [left|].
Qed.

Lemma findSubscriptionMatch_flat fuel s t :
  String.length s < fuel →
  findSubscriptionMatch fuel s t = flat_map (λ p, cbs_at p t) (visits (levels s)).
Proof.
  revert s t. induction fuel as [|fuel IH]; intros s t Hfuel; [lia|].
  cbn [findSubscriptionMatch]. rewrite levels_next.
  assert (∀ k ts (d : SubscriptionPart → list callback),
    (∀ n, d n = callbacks n ++ flat_map (λ p, cbs_at p (children n)) (visits ts)) →
    match t !! k with Some n => d n | None => [] end =
    flat_map (λ p, cbs_at p t) ([k] :: map (cons k) (visits ts))) as Hbranch.
  { intros k ts d Hd. cbn [flat_map]. rewrite flat_map_cons_visits, cbs_at_cons.
    destruct (t !! k); [by rewrite Hd|done]. }
  assert (match t !! "#" with Some n => callbacks n | None => [] end =
    flat_map (λ p, cbs_at p t) [["#"]]) as Hhash.
  { cbn [flat_map]. rewrite cbs_at_cons, app_nil_r. by destruct (t !! "#"). }
  destruct (next_part s) as [k [r|]] eqn:Hs; cbn [visits];
    rewrite !flat_map_app, Hhash.
  - pose proof (next_part_shorter _ _ _ Hs).
    rewrite !(Hbranch _ (levels r)); [done|..]; intros n; by rewrite IH by lia.
  - by rewrite !(Hbranch _ []).
Qed.

Lemma match_topic_flat topic t :
  match_topic topic t = flat_map (λ p, cbs_at p t) (visits (levels topic)).
Proof. apply findSubscriptionMatch_flat. unfold topic_fuel. lia. Qed.

(** ** Which paths are visited *)

Lemma elem_of_visits f ts : f ∈ visits ts ↔ visited f ts.
Proof.
  revert f. induction ts as [|t ts IH]; intros f.
  { simpl. destruct f; simpl; set_solver. }
  assert (∀ k, f ∈ map (cons k) (visits ts) ↔ ∃ g, f = k :: g ∧ visited g ts) as Hm.
  { intros k. rewrite list_elem_of_fmap. by setoid_rewrite IH. }
  cbn [visits]. rewrite !elem_of_app, !elem_of_cons, elem_of_nil, !Hm.
  destruct f as [|k [|k2 f]]; cbn [visited].
  - naive_solver.
  - assert (∀ g, [k] = k :: g ∧ visited g ts → False) by (intros [|??]; naive_solver).
    split; [|naive_solver]. intros [[?|(?&?&?)]|[[?|(?&?&?)]|[?|?]]]; simplify_eq; auto.
    all: by destruct ts.
  - split.
    + intros [[?|(?&?&?)]|[[?|(?&?&?)]|[?|?]]]; simplify_eq; (split; [by auto|done]).
    + intros [[-> | ->] Hv]; [left; right|right; left; right]; eauto.
Qed.

(** A callback is called when it is stored at a visited path. *)
Lemma elem_of_match cb topic t :
  cb ∈ match_topic topic t ↔ ∃ p, visited p (levels topic) ∧ cb ∈ cbs_at p t.
Proof.
  rewrite match_topic_flat, list_elem_of_In, in_flat_map.
  setoid_rewrite <-list_elem_of_In. by setoid_rewrite elem_of_visits.
Qed.

Lemma visited_nil_r f : ¬ visited f [].
Proof. destruct f as [|? [|??]]; simpl; tauto. Qed.

Lemma visited_match f ts1 ts2 :
  ts1 ≠ [] → no_hash f → mqtt_match f ts1 → visited f (ts1 ++ ts2).
Proof.
  intros Hne Hf. revert ts1 Hne.
  induction Hf as [|k f Hk Hf IH]; intros ts1 Hne; simpl; [by intros ->|].
  intros [[-> _]|Hm]; [done|]. destruct ts1 as [|t ts1]; [done|].
  destruct Hm as [Ht Hm]. simpl. destruct f as [|k2 f].
  - simpl in Hm. subst ts1. destruct Ht; auto.
  - split; [by destruct Ht; auto|]. apply IH; [|done].
    intros ->. simpl in Hm. destruct Hm as [[-> ->]|[]].
    by inversion_clear Hf.
Qed.

(** A path without ["#"] is visited when it matches a prefix of the topic. *)
Lemma visited_no_hash f ts :
  no_hash f →
  visited f ts ↔ ∃ ts1 ts2, ts = ts1 ++ ts2 ∧ ts1 ≠ [] ∧ mqtt_match f ts1.
Proof.
  intros Hf. split; [|intros (ts1 & ts2 & -> & ? & ?); by apply visited_match].
  revert ts. induction Hf as [|k f Hk Hf IH]; intros ts; [by destruct ts|].
  destruct ts as [|t ts]; [done|]. simpl. destruct f as [|k2 f].
  - intros [->|[-> | ->]]; [| |done]; exists [t], ts;
      (split; [done|split; [done|]]); right; (split; [|done]); [by left|by right].
  - intros [Ht Hv]. apply IH in Hv as (ts1 & ts2 & -> & Hne & Hm).
    exists (t :: ts1), ts2. split; [done|split; [done|]]. right. split; [|done].
    unfold level_match. naive_solver.
Qed.

(** A path ending in ["#"] is visited when what precedes it matches a proper
    prefix of the topic. *)
Lemma visited_hash f ts :
  no_hash f →
  visited (f ++ ["#"]) ts ↔ ∃ ts1 ts2, ts = ts1 ++ ts2 ∧ ts2 ≠ [] ∧ mqtt_match f ts1.
Proof.
  intros Hf. revert ts. induction Hf as [|k f Hk Hf IH]; intros ts.
  - simpl. destruct ts as [|t ts]; simpl.
    + split; [done|]. intros (ts1 & ts2 & Heq & Hne & ->). by subst.
    + split; [|auto]. intros _. by exists [], (t :: ts).
  - destruct ts as [|t ts].
    { simpl. split; [done|]. intros (ts1 & ts2 & [-> ->]%symmetry%app_nil & Hne & _). done. }
    assert (visited ((k :: f) ++ ["#"]) (t :: ts) ↔
            level_match k t ∧ visited (f ++ ["#"]) ts) as ->.
    { simpl. unfold level_match. by destruct f. }
    rewrite IH. split.
    + intros [Ht (ts1 & ts2 & -> & Hne & Hm)]. exists (t :: ts1), ts2.
      split; [done|split; [done|]]. by right.
    + intros ([|t' ts1] & ts2 & Heq & Hne & Hm); simpl in *.
      * by destruct Hm as [[-> _]|[]].
      * injection Heq as <- ->. destruct Hm as [[-> _]|[Ht Hm]]; [done|].
        split; [done|]. by exists ts1, ts2.
Qed.

(** Both cases at once. *)
Lemma visited_with_hash hash f ts :
  no_hash f →
  visited (with_hash hash f) ts ↔
    ∃ ts1 ts2, ts = ts1 ++ ts2 ∧ mqtt_match f ts1 ∧
      (if hash : bool then ts2 else ts1) ≠ [].
Proof.
  intros Hf. unfold with_hash.
  destruct hash; [rewrite visited_hash by done|rewrite visited_no_hash by done];
    naive_solver.
Qed.

(** For a topic without ["#"] these are all the visited paths. *)
Lemma visited_shape p ts :
  no_hash ts → visited p ts → ∃ f hash, no_hash f ∧ p = with_hash hash f.
Proof.
  intros Hts. revert p. induction Hts as [|t ts Ht Hts IH]; intros p Hv.
  { by apply visited_nil_r in Hv. }
  destruct p as [|k p]; [done|]. simpl in Hv.
  assert (k = t ∨ k = "+" → k ≠ "#") as Hk by (intros [-> | ->]; done).
  destruct p as [|k2 p].
  - destruct Hv as [?|[?| ->]]; [| |by (exists [], true; split; [constructor|])];
      (exists [k], false; split; [constructor; [auto|done]|done]).
  - destruct Hv as [Hkt (f & hash & Hf & ->)%IH]. exists (k :: f), hash.
    split; [constructor; auto|]. by destruct hash.
Qed.

Lemma mqtt_match_split f ts :
  no_hash f → mqtt_match (f ++ ["#"]) ts → ∃ ts1 ts2, ts = ts1 ++ ts2 ∧ mqtt_match f ts1.
Proof.
  intros Hf. revert ts. induction Hf as [|k f Hk Hf IH]; intros ts; simpl.
  - intros _. by exists [], ts.
  - intros [[-> _]|Hm]; [done|]. destruct ts as [|t ts]; [done|].
    destruct Hm as [Ht (ts1 & ts2 & -> & Hm)%IH]. exists (t :: ts1), ts2. auto.
Qed.

Lemma mqtt_match_refl f : mqtt_match f f.
Proof. induction f as [|k f IH]; simpl; [done|]. right. split; [by left|done]. Qed.

Lemma mqtt_match_length f ts : no_hash f → mqtt_match f ts → length f = length ts.
Proof.
  intros Hf. revert ts. induction Hf as [|k f Hk Hf IH]; intros ts; simpl; [by intros ->|].
  intros [[-> _]|Hm]; [done|]. destruct ts as [|t ts]; [done|].
  destruct Hm as [_ Hm]. simpl. f_equal. by apply IH.
Qed.

(** ** Properties *)

(** C7: the recursive search calls, in order, the callbacks at the paths that
    [visits] lists for the levels of the topic, whatever the tree. *)
Theorem findSubscriptionMatch_visits topic t :
  findSubscriptionMatch (topic_fuel topic) topic t =
    flat_map (λ p, cbs_at p t) (visits (levels topic)).
Proof. apply match_topic_flat. Qed.

(** C14: every subscription whose filter matches the topic by the MQTT rule is
    called, with one exception (a flaw): a filter that ends in ["#"], such as
    ["sport/#"], is not called for the parent level, ["sport"]. *)
Theorem mqtt_match_is_called topic f hash t cb :
  no_hash f → cb ∈ cbs_at (with_hash hash f) t →
  mqtt_match (with_hash hash f) (levels topic) →
  cb ∈ match_topic topic t ∨
  hash = true ∧ mqtt_match f (levels topic) ∧ with_hash hash f ∉ visits (levels topic).
Proof.
  intros Hf Hcb Hm. rewrite elem_of_match, elem_of_visits.
  destruct hash; cbn [with_hash] in *.
  - destruct (mqtt_match_split _ _ Hf Hm) as (ts1 & ts2 & Heq & Hm1).
    destruct ts2 as [|t2 ts2].
    + right. rewrite Heq, app_nil_r. split_and!; [done..|].
      rewrite visited_hash by done. intros (us1 & us2 & -> & Hne & Hm2).
      apply mqtt_match_length in Hm1, Hm2; [|done..]. rewrite length_app in Hm1.
      destruct us2; [done|]. simpl in Hm1. lia.
    + left. exists (f ++ ["#"]). split; [|done].
      apply visited_hash; [done|]. by exists ts1, (t2 :: ts2).
  - left. exists f. split; [|done]. rewrite <-(app_nil_r (levels topic)).
    apply visited_match; [apply levels_nonempty|done|done].
Qed.

Lemma mqtt_match_is_called_witness :
  3 ∈ match_topic "a/b/c" (tree_add ["a"; "#"] 3 ∅).
Proof.
  assert (no_hash ["a"]) as Hf by (by repeat constructor).
  assert (mqtt_match (with_hash true ["a"]) (levels "a/b/c")) as Hm.
  { right. split; [by left|]. left. done. }
  assert (3 ∈ cbs_at (with_hash true ["a"]) (tree_add ["a"; "#"] 3 ∅)) as Hcb
    by (vm_compute; by left).
  destruct (mqtt_match_is_called "a/b/c" ["a"] true _ 3 Hf Hcb Hm) as [H|(_ & H & _)];
    [exact H|].
  destruct H as [[H _]|[_ H]]; discriminate.
Defined.

(** C33: which subscriptions are called for a message, for a topic without
    ["#"]: exactly those whose filter, up to a final ["#"], matches a prefix of
    the topic's levels: a non-empty one for a filter without ["#"], and a
    proper one for a filter that ends in ["#"]. *)
Theorem called_filters topic t cb :
  no_hash (levels topic) →
  cb ∈ match_topic topic t ↔
    ∃ f hash ts1 ts2, cb ∈ cbs_at (with_hash hash f) t ∧ no_hash f ∧
      levels topic = ts1 ++ ts2 ∧ mqtt_match f ts1 ∧
      (if hash : bool then ts2 else ts1) ≠ [].
Proof.
  intros Ht. rewrite elem_of_match. split.
  - intros (p & Hv & Hcb). destruct (visited_shape _ _ Ht Hv) as (f & hash & Hf & ->).
    apply visited_with_hash in Hv as (ts1 & ts2 & ? & ? & ?); [|done]. naive_solver.
  - intros (f & hash & ts1 & ts2 & Hcb & Hf & Heq & Hm & Hne).
    exists (with_hash hash f). split; [|done].
    apply visited_with_hash; [done|]. by exists ts1, ts2.
Qed.

Lemma called_filters_witness :
  3 ∈ match_topic "a/b/c" (tree_add ["a"; "+"] 3 ∅).
Proof.
  assert (no_hash (levels "a/b/c")) as Ht by (by repeat constructor).
  apply (proj2 (called_filters "a/b/c" (tree_add ["a"; "+"] 3 ∅) 3 Ht)).
  exists ["a"; "+"], false, ["a"; "b"], ["c"].
  split; [vm_compute; by left|]. split; [by repeat constructor|].
  split; [reflexivity|]. split; [|done].
  right. split; [by left|]. right. split; [by right|done].
Defined.

(** A flaw: the callbacks of a node on the way are called too, not only
    those of the last one: a subscription to a topic is called for every
    message on a topic below it, which its filter does not match. *)
Theorem parent_subscription_is_called p t cb :
  cb ∈ cbs_at (levels p) t → no_hash (levels p) →
  ∀ rest, cb ∈ match_topic (p ++ String slash rest)%string t ∧
    ¬ mqtt_match (levels p) (levels (p ++ String slash rest)%string).
Proof.
  intros Hcb Hh rest. rewrite elem_of_match, levels_app. split.
  - exists (levels p). split; [|done]. apply visited_match; [apply levels_nonempty|done|apply mqtt_match_refl].
  - intros Hm%mqtt_match_length; [|done]. rewrite length_app in Hm.
    destruct (levels_cons rest) as (q & qs & Heq). rewrite Heq in Hm. simpl in Hm. lia.
Qed.

Lemma parent_subscription_is_called_witness :
  3 ∈ match_topic "x/a/b" (tree_add ["x"; "a"] 3 ∅) ∧
  ¬ mqtt_match ["x"; "a"] ["x"; "a"; "b"].
Proof.
  apply (parent_subscription_is_called "x/a" (tree_add ["x"; "a"] 3 ∅) 3);
    [|by repeat constructor].
  vm_compute. by left.
Defined.
