(* ===== verification/Registry.v ===== *)
(** * The registry of subscriptions

    What the client relies on of its subscription tree, as a type class: the
    callbacks stored under each topic, how adding and removing change them, and
    which are found for a message.  The tree of [Subscriptions.v] is one
    implementation; a flat list of subscriptions, the obvious reference, is
    another.  The client pairs a store with the flat set of topics
    ([m_subscription_topics]); the lemmas about the pair hold for any store. *)

From S2P Require Export StdSet Matching.

Class TopicStore (S : Type) := {
  store_empty : S;
  store_add : string → callback → S → option S;
  store_remove : string → S → option S;
  store_cbs : S → string → list callback;
  store_match : string → S → list callback
}.

Class TopicStoreLaws (S : Type) `{TopicStore S} : Prop := {
  law_empty topic : store_cbs store_empty topic = [];
  law_add topic cb s :
    ∃ s', store_add topic cb s = Some s' ∧
      ∀ topic', store_cbs s' topic' =
        store_cbs s topic' ++ (if decide (topic' = topic) then [cb] else []);
  law_remove_defined topic s :
    store_cbs s topic ≠ [] → is_Some (store_remove topic s);
  law_remove topic s s' :
    store_remove topic s = Some s' →
    ∀ topic', store_cbs s' topic' =
      if decide (topic' = topic) then [] else store_cbs s topic';
  law_match topic s cb :
    cb ∈ store_match topic s ↔
    ∃ filter, cb ∈ store_cbs s filter ∧ visited (levels filter) (levels topic)
}.

(** ** The tree *)

#[export] Instance tree_store : TopicStore tree := {
  store_empty := ∅;
  store_add := subscribe_tree;
  store_remove := unsubscribe_tree;
  store_cbs t topic := cbs_at (levels topic) t;
  store_match := match_topic
}.

(** A visited path is made of levels, so it is that of a topic filter. *)
Lemma visited_no_slash f ts :
  Forall no_slash ts → visited f ts → Forall no_slash f.
Proof.
  intros Hts. revert f. induction Hts as [|t ts Ht Hts IH]; intros f Hv.
  { by apply visited_nil_r in Hv. }
  destruct f as [|k f]; [done|]. simpl in Hv.
  assert (∀ k, k = t ∨ k = "+" ∨ k = "#" → no_slash k) as Hk by (intros ? [ -> | [ -> | -> ] ]; done).
  destruct f as [|k2 f].
  - constructor; [by apply Hk|done].
  - destruct Hv as [Hkt Hv]. constructor; [apply Hk; naive_solver|by apply IH].
Qed.

Lemma visited_filter f topic :
  visited f (levels topic) → levels (join_levels f) = f.
Proof.
  intros Hv. apply levels_join; [by intros ->|].
  by eapply visited_no_slash; [apply levels_no_slash|].
Qed.

#[export] Instance tree_store_laws : TopicStoreLaws tree.
Proof.
  split; simpl.
  - intros. apply cbs_at_empty.
  - intros topic cb s. exists (tree_add (levels topic) cb s).
    split; [apply subscribe_tree_add|]. intros topic'.
    rewrite cbs_at_add by apply levels_nonempty. f_equal.
    destruct (decide (topic' = topic)) as [->|Hne]; [by rewrite decide_True|].
    rewrite decide_False; [done|]. by intros ?%(inj levels).
  - intros topic s Hs. rewrite unsubscribe_tree_remove.
    apply cbs_at_node in Hs as [n ->]. by eexists.
  - intros topic s s'. rewrite unsubscribe_tree_remove.
    destruct (node_at _ _); [|done]. intros [= <-] topic'.
    rewrite cbs_at_remove by apply levels_nonempty.
    destruct (decide (topic' = topic)) as [->|Hne]; [by rewrite decide_True|].
    rewrite decide_False; [done|]. by intros ?%(inj levels).
  - intros topic s cb. cbn [store_match tree_store]. rewrite elem_of_match. split.
    + intros (p & Hp & Hcb). exists (join_levels p).
      by rewrite (visited_filter _ _ Hp).
    + intros (filter & Hcb & Hv). by exists (levels filter).
Qed.

(** ** The flat reference *)

Notation flat := (list (string * callback)).

Definition flat_visited (topic : string) (s : string * callback) : Prop :=
  visited (levels s.1) (levels topic).

#[export] Instance flat_store : TopicStore flat := {
  store_empty := [];
  store_add topic cb s := Some (s ++ [(topic, cb)]);
  store_remove topic s := Some (filter (λ e, e.1 ≠ topic) s);
  store_cbs s topic := (filter (λ e, e.1 = topic) s).*2;
  store_match topic s :=
    (filter (λ e, visited (levels e.1) (levels topic)) s).*2
}.

#[export] Instance flat_store_laws : TopicStoreLaws flat.
Proof.
  split; cbv [store_empty store_add store_remove store_cbs store_match flat_store].
  - done.
  - intros topic cb s. eexists. split; [done|]. intros topic'.
    rewrite filter_app, fmap_app. f_equal. rewrite filter_cons; simpl.
    destruct (decide (topic' = topic)) as [->|Hne]; case_decide; done || congruence.
  - intros topic s _. by eexists.
  - intros topic s s' [= <-] topic'.
    induction s as [|[t cb] s IH]; [by case_decide|].
    rewrite !filter_cons; simpl.
    destruct (decide (topic' = topic)) as [->|Hne].
    + case_decide; [|done]. rewrite filter_cons; simpl. by rewrite decide_False by done.
    + destruct (decide (t = topic')) as [->|?].
      * rewrite decide_True by done. rewrite filter_cons; simpl.
        rewrite decide_True by done. simpl. f_equal. exact IH.
      * case_decide; [|done]. rewrite filter_cons; simpl. by rewrite decide_False by done.
  - intros topic s cb. rewrite list_elem_of_fmap. split.
    + intros ([t cb'] & -> & [Hv Hin]%list_elem_of_filter). exists t. split; [|done].
      apply list_elem_of_fmap. exists (t, cb'). split; [done|].
      by apply list_elem_of_filter.
    + intros (t & ([t' cb'] & -> & [Ht Hin]%list_elem_of_filter)%list_elem_of_fmap & Hv).
      simpl in *. subst. exists (t, cb'). split; [done|]. by apply list_elem_of_filter.
Qed.

(** ** A store together with the set of subscribed topics *)

(** The topics are exactly those with a callback. *)
Definition registry_ok {S} `{TopicStore S} (topics : list string) (s : S) : Prop :=
  set_ok topics ∧ ∀ topic, topic ∈ topics ↔ store_cbs s topic ≠ [].

(** What remains of it once [disconnect] emptied the store but not the set. *)
Definition registry_sub {S} `{TopicStore S} (topics : list string) (s : S) : Prop :=
  set_ok topics ∧ ∀ topic, store_cbs s topic ≠ [] → topic ∈ topics.

Section registry.
Context {S : Type} `{TopicStoreLaws S}.
Implicit Types (s : S) (topics : list string).

Lemma registry_ok_empty : registry_ok [] store_empty.
Proof.
  split; [constructor|]. intros topic. rewrite law_empty. set_solver.
Qed.

Lemma registry_ok_sub topics s : registry_ok topics s → registry_sub topics s.
Proof. intros [Hs Ht]. split; [done|]. by intros topic ?%Ht. Qed.

Lemma registry_sub_empty topics : set_ok topics → registry_sub topics store_empty.
Proof. split; [done|]. intros topic. by rewrite law_empty. Qed.

Lemma registry_add topic cb topics s s' :
  registry_ok topics s → store_add topic cb s = Some s' →
  registry_ok (set_emplace topic topics) s'.
Proof.
  intros [Hs Ht] Hadd. destruct (law_add topic cb s) as (s'' & Heq & Hcbs).
  rewrite Heq in Hadd. injection Hadd as ->.
  split; [by apply set_emplace_ok|]. intros topic'.
  rewrite elem_of_set_emplace, Hcbs, Ht. case_decide; [subst|].
  - split; [|by auto]. intros _. by destruct (store_cbs s topic).
  - rewrite app_nil_r. naive_solver.
Qed.

Lemma registry_sub_add topic cb topics s s' :
  registry_sub topics s → store_add topic cb s = Some s' →
  registry_sub (set_emplace topic topics) s'.
Proof.
  intros [Hs Ht] Hadd. destruct (law_add topic cb s) as (s'' & Heq & Hcbs).
  rewrite Heq in Hadd. injection Hadd as ->.
  split; [by apply set_emplace_ok|]. intros topic'.
  rewrite elem_of_set_emplace, Hcbs. case_decide; [by auto|].
  rewrite app_nil_r. auto.
Qed.

Lemma registry_remove topic topics s :
  registry_ok topics s → topic ∈ topics →
  ∃ s', store_remove topic s = Some s' ∧ registry_ok (set_erase topic topics) s'.
Proof.
  intros [Hs Ht] Hin. apply Ht in Hin as Hne.
  destruct (law_remove_defined topic s Hne) as [s' Heq].
  exists s'. split; [done|]. split; [by apply set_erase_ok|]. intros topic'.
  rewrite elem_of_set_erase, (law_remove _ _ _ Heq), Ht by done.
  case_decide; naive_solver.
Qed.

Lemma registry_sub_remove topic topics s s' :
  registry_sub topics s → store_remove topic s = Some s' →
  registry_sub (set_erase topic topics) s'.
Proof.
  intros [Hs Ht] Heq. split; [by apply set_erase_ok|]. intros topic'.
  rewrite elem_of_set_erase, (law_remove _ _ _ Heq) by done.
  case_decide; [done|]. auto.
Qed.
End registry.

(** ** Runs of subscribe and unsubscribe *)

Inductive sub_op := SubAdd (topic : string) (cb : callback) | SubRemove (topic : string).

(** The registry part of [Client::subscribe] and [Client::unsubscribe]; the
    latter does nothing for a topic that is not in the set. *)
Definition registry_step {S} `{TopicStore S} (op : sub_op) (r : list string * S)
    : option (list string * S) :=
  let '(topics, s) := r in
  match op with
  | SubAdd topic cb =>
      s ← store_add topic cb s; Some (set_emplace topic topics, s)
  | SubRemove topic =>
      if set_find topic topics
      then s ← store_remove topic s; Some (set_erase topic topics, s)
      else Some (topics, s)
  end.

Fixpoint registry_run {S} `{TopicStore S} (ops : list sub_op) (r : list string * S)
    : option (list string * S) :=
  match ops with
  | [] => Some r
  | op :: ops => r ← registry_step op r; registry_run ops r
  end.

Section runs.
Context {S1 S2 : Type} `{TopicStoreLaws S1} `{TopicStoreLaws S2}.

Lemma registry_step_ok op topics (s : S1) :
  registry_ok topics s →
  ∃ topics' s', registry_step op (topics, s) = Some (topics', s') ∧
    registry_ok topics' s'.
Proof.
  intros Hok. destruct op as [topic cb|topic]; simpl.
  - destruct (law_add topic cb s) as (s' & Heq & _). rewrite Heq; simpl.
    eexists _, _. split; [done|]. by eapply registry_add.
  - unfold set_find. case_bool_decide; [|by eauto].
    destruct (registry_remove topic topics s) as (s' & Heq & Hok'); [done..|].
    rewrite Heq; simpl. eauto.
Qed.

(** Two stores that agree on the callbacks of every topic. *)
Definition same_cbs (s1 : S1) (s2 : S2) : Prop :=
  ∀ topic, store_cbs s1 topic = store_cbs s2 topic.

Lemma registry_step_same op topics (s1 : S1) (s2 : S2) :
  registry_ok topics s1 → same_cbs s1 s2 →
  ∃ topics' s1' s2',
    registry_step op (topics, s1) = Some (topics', s1') ∧
    registry_step op (topics, s2) = Some (topics', s2') ∧
    registry_ok topics' s1' ∧ same_cbs s1' s2'.
Proof.
  intros Hok Hsame. destruct op as [topic cb|topic]; simpl.
  - destruct (law_add topic cb s1) as (s1' & Heq1 & Hc1).
    destruct (law_add topic cb s2) as (s2' & Heq2 & Hc2).
    rewrite Heq1, Heq2; simpl. eexists _, _, _. split; [done|]. split; [done|].
    split; [by eapply registry_add|]. intros t. by rewrite Hc1, Hc2, Hsame.
  - unfold set_find. case_bool_decide as Hin; [|by eauto 10].
    assert (store_cbs s1 topic ≠ []) as Hne1 by (by apply Hok).
    assert (store_cbs s2 topic ≠ []) as Hne2 by (by rewrite <-Hsame).
    destruct (law_remove_defined topic s2 Hne2) as [s2' Heq2].
    destruct (registry_remove topic topics s1) as (s1' & Heq1 & Hok'); [done..|].
    rewrite Heq1, Heq2; simpl. eexists _, _, _. split; [done|]. split; [done|].
    split; [done|]. intros t.
    by rewrite (law_remove _ _ _ Heq1), (law_remove _ _ _ Heq2), Hsame.
Qed.

Lemma registry_run_same ops topics (s1 : S1) (s2 : S2) :
  registry_ok topics s1 → same_cbs s1 s2 →
  ∃ topics' s1' s2',
    registry_run ops (topics, s1) = Some (topics', s1') ∧
    registry_run ops (topics, s2) = Some (topics', s2') ∧
    registry_ok topics' s1' ∧ same_cbs s1' s2'.
Proof.
  revert topics s1 s2. induction ops as [|op ops IH]; intros topics s1 s2 Hok Hsame.
  { by eauto 10. }
  destruct (registry_step_same op topics s1 s2 Hok Hsame)
    as (topics1 & s1' & s2' & E1 & E2 & Hok' & Hsame').
  cbn [registry_run]. rewrite E1, E2. simpl. by apply IH.
Qed.

Lemma same_cbs_match (s1 : S1) (s2 : S2) topic cb :
  same_cbs s1 s2 → cb ∈ store_match topic s1 ↔ cb ∈ store_match topic s2.
Proof. intros Hs. rewrite !law_match. by setoid_rewrite Hs. Qed.
End runs.

(** ** Properties *)

(** C3: for every sequence of subscriptions and unsubscriptions from an empty
    client, the tree never dereferences [end()]; the flat set holds exactly the
    topics with a callback; the tree stores under every topic the same
    callbacks, in the same order, as a plain list of subscriptions would; and a
    message calls a callback exactly when the list has it under a filter that
    is visited for the topic. *)
Theorem tree_refines_flat ops :
  ∃ topics (t : tree) (l : flat),
    registry_run ops ([], ∅) = Some (topics, t) ∧
    registry_run ops ([], []) = Some (topics, l) ∧
    registry_ok topics t ∧
    (∀ topic, store_cbs t topic = store_cbs l topic) ∧
    (∀ topic cb, cb ∈ match_topic topic t ↔
       ∃ filter, (filter, cb) ∈ l ∧ visited (levels filter) (levels topic)).
Proof.
  destruct (registry_run_same (S1 := tree) (S2 := flat) ops [] ∅ [])
    as (topics & t & l & Ht & Hl & Hok & Hsame).
  - exact (registry_ok_empty (S := tree)).
  - intros topic. apply cbs_at_empty.
  - exists topics, t, l. split; [done|]. split; [done|]. split; [done|].
    split; [done|]. intros topic cb.
    change (match_topic topic t) with (store_match topic t).
    rewrite (same_cbs_match t l topic cb Hsame). cbv [store_match flat_store].
    rewrite list_elem_of_fmap. split.
    + intros ([f cb'] & -> & [Hv Hin]%list_elem_of_filter). by exists f.
    + intros (f & Hin & Hv). exists (f, cb). split; [done|]. by apply list_elem_of_filter.
Qed.
