(* ===== verification/World.v ===== *)
(** * The state of the program and the monad the code runs in

    [Impl] and [Connection] are the member variables of
    [TrueMQTT::Client::Impl] ([src/ClientImpl.h]) and
    [TrueMQTT::Client::Impl::Connection] ([src/Connection.h]).  The [World]
    adds what lies outside the program: the open file descriptors, the answers
    the operating system is going to give ([w_os]), and the trace of what the
    program did that can be observed.

    The code of [src/Connection.cpp] and [src/Packet.cpp] runs on the read
    thread, next to the user's threads and the write thread.  What those do
    while the read thread is in a system call is part of the script of
    answers: every system call first lets the other threads run ([absorb]),
    then takes the next answer.  Locks are never held across a system call. *)

From S2P Require Export Types Packet StdSet Subscriptions.

(** [enum class Connection::State]; in a module, as the public [State] has
    enumerators of the same names. *)
Module CState.
Inductive t :=
  | RESOLVING | CONNECTING | AUTHENTICATING | CONNECTED | BACKOFF
  | SOCKET_ERROR | STOP.
End CState.

#[export] Instance CState_eq_dec : EqDecision CState.t.
Proof. solve_decision. Defined.

Definition INVALID_SOCKET : Z := -1.
Definition FD_SETSIZE : Z := 1024.
Definition AF_INET : Z := 2.
Definition AF_INET6 : Z := 10.
Definition EINPROGRESS : Z := 115.

Record addrinfo := mkAddrinfo {
  ai_family : Z;
  ai_socktype : Z;
  ai_protocol : Z;
  ai_addr : string
}.

#[export] Instance addrinfo_eq_dec : EqDecision addrinfo.
Proof. solve_decision. Defined.

(** ** Member variables *)

Record Impl := mkImpl {
  m_state : State;
  m_host : string;
  m_port : Z;
  m_client_id : string;
  m_connection_timeout : Z;
  m_connection_backoff : Z;
  m_connection_backoff_max : Z;
  m_keep_alive_interval : Z;
  m_log_level : LogLevel;
  m_logger : callback;
  m_state_change_callback : callback;
  m_last_will_topic : string;
  m_last_will_message : string;
  m_last_will_retain : bool;
  m_error_callback : callback;
  m_publish_queue_type : PublishQueueType;
  m_publish_queue_size : Z;
  m_publish_queue : list (string * string * bool);
  m_send_queue_size : Z;
  m_subscription_topics : list string;
  m_subscriptions : tree;
  m_connection : bool;  (** whether the [unique_ptr] is set *)
  m_packet_id : Z
}.

#[export] Instance eta_Impl : Eta Impl := λ i,
  mkImpl (m_state i) (m_host i) (m_port i) (m_client_id i)
    (m_connection_timeout i) (m_connection_backoff i)
    (m_connection_backoff_max i) (m_keep_alive_interval i)
    (m_log_level i) (m_logger i) (m_state_change_callback i)
    (m_last_will_topic i) (m_last_will_message i) (m_last_will_retain i)
    (m_error_callback i) (m_publish_queue_type i) (m_publish_queue_size i)
    (m_publish_queue i) (m_send_queue_size i) (m_subscription_topics i)
    (m_subscriptions i) (m_connection i) (m_packet_id i).

(** Times are in nanoseconds ([steady_clock]), durations in milliseconds. *)
Record Connection := mkConnection {
  m_cstate : CState.t;                        (** [m_state] *)
  m_backoff : Z;
  m_host_resolved : option (list addrinfo);
  m_addresses : list addrinfo;
  m_address_current : nat;
  m_last_attempt : Z;
  m_sockets : list Z;
  m_socket_to_address : gmap Z addrinfo;
  m_socket : Z;
  m_send_queue : list Packet;
  m_last_sent_packet : Z;
  m_last_received_packet : Z
}.

#[export] Instance eta_Connection : Eta Connection := λ c,
  mkConnection (m_cstate c) (m_backoff c) (m_host_resolved c) (m_addresses c)
    (m_address_current c) (m_last_attempt c) (m_sockets c)
    (m_socket_to_address c) (m_socket c) (m_send_queue c)
    (m_last_sent_packet c) (m_last_received_packet c).

(** ** Observable events *)

(** A log message is kept as the pieces it is concatenated from; the texts
    of [strerror], [gai_strerror], [getnameinfo] and [magic_enum] are not
    expanded. *)
Inductive piece :=
  | PStr (s : string)
  | PNum (z : Z)
  | PType (t : PacketType)
  | PErrno (e : Z)
  | PGai (e : Z)
  | PAddr (a : option addrinfo).

Inductive event :=
  | EvLog (logger : callback) (l : LogLevel) (msg : list piece)
  | EvStateChange (cb : callback) (s : State)
  | EvError (cb : callback) (e : Error) (msg : list piece)
  | EvMessage (cb : callback) (topic message : string)
  | EvClose (fd : Z)
  | EvSend (fd : Z) (data : list Z).

(** ** Answers of the operating system *)

(** What the other threads do to the state the read thread shares. *)
Inductive interference :=
  | AStop                    (** [Client::disconnect], up to joining the threads *)
  | ASocketError             (** the write thread's [socketError()] *)
  | APush (p : Packet)       (** a packet queued by a user's thread *)
  | APop.                    (** a packet taken by the write thread *)

Inductive reply :=
  | ROther (a : interference)
  | RNow (t : Z)                               (** [steady_clock::now()] *)
  | RGetaddrinfo (r : Z + list addrinfo)       (** an error code, or the list *)
  | RSocket (fd : Z)
  | RSetsockopt (r : Z)
  | RIoctl (r : Z)
  | RConnect (r errno : Z)
  | RSelectWrite (r errno : Z) (ready : list Z)
  | RSoError (err : Z)
  | RSelectRead (r : Z)
  | RRecv (r : Z + list Z)                     (** [errno], or the bytes *)
  | RSend (r : Z + Z)                          (** [errno], or the count *)
  | RSleep.

Record World := mkWorld {
  w_impl : Impl;
  w_conn : Connection;
  w_joining : bool;  (** a user's thread holds [m_state_mutex] and joins the threads *)
  w_threads_end : bool;  (** the threads of the connection end once they are asked to stop *)
  w_fds : gset Z;    (** open sockets *)
  w_os : list reply;
  w_trace : list event
}.

#[export] Instance eta_World : Eta World := λ w,
  mkWorld (w_impl w) (w_conn w) (w_joining w) (w_threads_end w) (w_fds w) (w_os w) (w_trace w).

Lemma World_eq w w' :
  w_impl w = w_impl w' → w_conn w = w_conn w' → w_joining w = w_joining w' →
  w_threads_end w = w_threads_end w' →
  w_fds w = w_fds w' → w_os w = w_os w' → w_trace w = w_trace w' → w = w'.
Proof. destruct w, w'; simpl; by intros -> -> -> -> -> -> ->. Qed.

(** ** Construction

    The constructor of [Impl], with the member initialisers of the class. *)

Definition Impl_new (host : string) (port : Z) (client_id : string)
    (connection_timeout connection_backoff connection_backoff_max
     keep_alive_interval : Z) : Impl :=
  mkImpl DISCONNECTED host port client_id connection_timeout connection_backoff
    connection_backoff_max keep_alive_interval NONE 0 0 "" "" false 0 DROP 0 []
    1000 [] ∅ false 0.

(** The constructor of [Connection], with the member initialisers of the class; it starts the
    read and the write thread. *)
Definition Connection_new (backoff : Z) : Connection :=
  mkConnection CState.RESOLVING backoff None [] 0 0 [] ∅ INVALID_SOCKET [] 0 0.

(** A new client, in a process without open sockets. *)
Definition initial (i : Impl) : World :=
  mkWorld i (Connection_new 0) false true ∅ [] [].

(** The constructor of [Client], and with the default arguments of
    [TrueMQTT.h]. *)
Definition Client_ctor (host : string) (port : Z) (client_id : string)
    (connection_timeout connection_backoff connection_backoff_max
     keep_alive_interval : Z) : World :=
  initial (Impl_new host port client_id connection_timeout connection_backoff
             connection_backoff_max keep_alive_interval).
Definition Client_ctor_default (host : string) (port : Z) (client_id : string) : World :=
  Client_ctor host port client_id 5000 1000 30000 30000.

(** The client most witnesses start from. *)
Definition test_world : World := Client_ctor_default "localhost" 1883 "me".

(** ** The monad *)

Inductive fault :=
  | UndefinedBehaviour
  | Terminated     (** [std::terminate] *)
  | Deadlock       (** waits for ever, for a mutex or for a thread to end *)
  | Blocked        (** the script has no answer to the system call *)
  | Unsupported.   (** outside the model; shown unreachable where it could arise *)

#[export] Instance fault_eq_dec : EqDecision fault.
Proof. solve_decision. Defined.

Inductive result (A : Type) :=
  | Done (a : A) (w : World)
  | Fault (f : fault).
Arguments Done {_} _ _.
Arguments Fault {_} _.

Definition M (A : Type) : Type := World → result A.

#[export] Instance M_ret : MRet M := λ A a w, Done a w.
#[export] Instance M_bind : MBind M := λ A B k m w,
  match m w with Done a w => k a w | Fault f => Fault f end.

Definition raise {A} (f : fault) : M A := λ _, Fault f.
Definition gets {A} (f : World → A) : M A := λ w, Done (f w) w.
Definition modify (f : World → World) : M unit := λ w, Done () (f w).

Definition get_impl {A} (f : Impl → A) : M A := gets (λ w, f (w_impl w)).
Definition get_conn {A} (f : Connection → A) : M A := gets (λ w, f (w_conn w)).
Definition mod_impl (f : Impl → Impl) : M unit := modify (λ w, w <| w_impl ::= f |>).
Definition mod_conn (f : Connection → Connection) : M unit :=
  modify (λ w, w <| w_conn ::= f |>).
Definition emit (e : event) : M unit := modify (λ w, w <| w_trace ::= λ t, t ++ [e] |>).
Definition when (b : bool) (m : M unit) : M unit := if b then m else mret ().

(** [None] from the pure definitions is undefined behaviour. *)
Definition from_option_ub {A} (o : option A) : M A :=
  match o with Some a => mret a | None => raise UndefinedBehaviour end.

Fixpoint for_each {A} (f : A → M unit) (l : list A) : M unit :=
  match l with
  | [] => mret ()
  | a :: l => f a ;; for_each f l
  end.

(** [LOG_<l>(this, msg)]. *)
Definition log (l : LogLevel) (msg : list piece) : M unit :=
  level ← get_impl m_log_level;
  logger ← get_impl m_logger;
  when (log_enabled MIN_LOGGER_LEVEL l level) (emit (EvLog logger l msg)).

(** [m_state_change_callback(m_state)] and [m_error_callback(e, msg)]. *)
Definition call_state_change : M unit :=
  cb ← get_impl m_state_change_callback;
  s ← get_impl m_state;
  emit (EvStateChange cb s).
Definition call_error (e : Error) (msg : list piece) : M unit :=
  cb ← get_impl m_error_callback;
  emit (EvError cb e msg).

(** [std::scoped_lock lock(m_state_mutex)] on the read thread: the thread that
    joins it while holding the mutex never lets go of it. *)
Definition lock_state_mutex : M unit :=
  joining ← gets w_joining;
  if joining : bool then raise Deadlock else mret ().

(** ** Other threads, while the read thread is in a system call *)

(** What [Client::disconnect] logs and reports. *)
Definition disconnect_events (i : Impl) : list event :=
  (if log_enabled MIN_LOGGER_LEVEL INFO (m_log_level i)
   then [EvLog (m_logger i) INFO [PStr "Disconnecting from broker"]] else []) ++
  [EvStateChange (m_state_change_callback i) DISCONNECTED].

Definition apply_interference (a : interference) (w : World) : World :=
  match a with
  | AStop =>
      if decide (w_joining w = true ∨ m_state (w_impl w) = DISCONNECTED) then w
      else
        w <| w_joining := true |>
          <| w_impl ::= λ i, i <| m_state := DISCONNECTED |>
                               <| m_subscriptions := ∅ |>
                               <| m_publish_queue := [] |>
                               <| m_connection := false |> |>
          <| w_conn ::= λ c, c <| m_cstate := CState.STOP |> |>
          <| w_trace ::= λ t,
               t ++ disconnect_events (w_impl w) |>
  | ASocketError =>
      let fd := m_socket (w_conn w) in
      w <| w_fds ::= λ s, s ∖ {[fd]} |>
        <| w_conn ::= λ c, c <| m_cstate := CState.SOCKET_ERROR |>
                             <| m_socket := INVALID_SOCKET |> |>
        <| w_trace ::= λ t,
             t ++ (if decide (fd = INVALID_SOCKET) then [] else [EvClose fd]) |>
  | APush p => w <| w_conn ::= λ c, c <| m_send_queue ::= λ q, q ++ [p] |> |>
  | APop => w <| w_conn ::= λ c, c <| m_send_queue ::= tail |> |>
  end.

Fixpoint absorb (os : list reply) (w : World) : World :=
  match os with
  | ROther a :: os => absorb os (apply_interference a w)
  | _ => w <| w_os := os |>
  end.

(** A system call: the other threads run, then the next answer is taken. *)
Definition syscall {A} (f : reply → option A) : M A := λ w,
  let w := absorb (w_os w) w in
  match w_os w with
  | r :: os =>
      match f r with
      | Some a => Done a (w <| w_os := os |>)
      | None => Fault Blocked
      end
  | [] => Fault Blocked
  end.

Definition sys_now : M Z :=
  syscall (λ r, match r with RNow t => Some t | _ => None end).
Definition sys_getaddrinfo : M (Z + list addrinfo) :=
  syscall (λ r, match r with RGetaddrinfo r => Some r | _ => None end).
Definition sys_setsockopt : M Z :=
  syscall (λ r, match r with RSetsockopt r => Some r | _ => None end).
Definition sys_ioctl : M Z :=
  syscall (λ r, match r with RIoctl r => Some r | _ => None end).
Definition sys_connect : M (Z * Z) :=
  syscall (λ r, match r with RConnect r errno => Some (r, errno) | _ => None end).
Definition sys_select_write : M (Z * Z * list Z) :=
  syscall (λ r, match r with RSelectWrite r e l => Some (r, e, l) | _ => None end).
Definition sys_so_error : M Z :=
  syscall (λ r, match r with RSoError e => Some e | _ => None end).
Definition sys_select_read : M Z :=
  syscall (λ r, match r with RSelectRead r => Some r | _ => None end).
Definition sys_sleep : M unit :=
  syscall (λ r, match r with RSleep => Some () | _ => None end).

(** [::recv] delivers at most as many bytes as asked for, [::send] takes at
    most as many as offered. *)
Definition sys_recv (length : Z) : M (Z + list Z) :=
  syscall (λ r, match r with
                | RRecv (inl e) => Some (inl e)
                | RRecv (inr l) =>
                    if decide (zlength l ≤ length)%Z then Some (inr l) else None
                | _ => None
                end).
Definition sys_send (length : Z) : M (Z + Z) :=
  syscall (λ r, match r with
                | RSend (inl e) => Some (inl e)
                | RSend (inr n) =>
                    if decide (0 ≤ n ≤ length)%Z then Some (inr n) else None
                | _ => None
                end).

(** [socket] returns a descriptor that was not open, or fails. *)
Definition sys_socket : M Z :=
  fd ← syscall (λ r, match r with RSocket fd => Some fd | _ => None end);
  fds ← gets w_fds;
  if decide (fd = INVALID_SOCKET) then mret fd
  else if decide (0 ≤ fd ∧ fd ∉ fds)%Z then
    modify (λ w, w <| w_fds ::= λ s, {[fd]} ∪ s |>);; mret fd
  else raise Blocked.

Definition closesocket (fd : Z) : M unit :=
  modify (λ w, w <| w_fds ::= λ s, s ∖ {[fd]} |>);; emit (EvClose fd).

(** [FD_SET] indexes a bit set of [FD_SETSIZE] bits without a check. *)
Definition FD_SET (fd : Z) : M unit :=
  if decide (0 ≤ fd < FD_SETSIZE)%Z then mret () else raise UndefinedBehaviour.
