(* ===== verification/Wp.v ===== *)
(** * Reasoning about the monad

    [wp F m Q w]: run from [w], the program [m] either ends in a state that
    satisfies [Q], or in a fault allowed by [F].  One rule per primitive, and
    [wp_auto] to apply them. *)

From S2P Require Export World.

Definition wp {A} (F : fault → Prop) (m : M A) (Q : A → World → Prop) (w : World)
    : Prop :=
  match m w with
  | Done a w' => Q a w'
  | Fault f => F f
  end.

Create HintDb world.

Section rules.
Context (F : fault → Prop).
Implicit Types (w : World).

Lemma wp_intro {A} (m : M A) Q w a w' : m w = Done a w' → Q a w' → wp F m Q w.
Proof. unfold wp. by intros ->. Qed.

Lemma wp_run {A} (m : M A) Q w a w' : wp F m Q w → m w = Done a w' → Q a w'.
Proof. unfold wp. by intros ? Hm; rewrite Hm in *. Qed.

Lemma wp_bind {A B} (m : M A) (k : A → M B) Q w :
  wp F m (λ a w', wp F (k a) Q w') w → wp F (m ≫= k) Q w.
Proof. unfold wp, mbind, M_bind. by destruct (m w). Qed.

(** Reassociated, to use a lemma about the first two programs. *)
Lemma wp_assoc {A B C} (m : M A) (k : A → M B) (j : B → M C) Q w :
  wp F (m ≫= k) (λ b w', wp F (j b) Q w') w → wp F (m ≫= λ a, k a ≫= j) Q w.
Proof. unfold wp, mbind, M_bind. destruct (m w) as [a w1|]; [|done]. by destruct (k a w1). Qed.

Lemma wp_ret {A} (a : A) (Q : A → World → Prop) w : Q a w → wp F (mret a) Q w.
Proof. done. Qed.

Lemma wp_mono {A} (m : M A) (Q Q' : A → World → Prop) w :
  wp F m Q w → (∀ a w', Q a w' → Q' a w') → wp F m Q' w.
Proof. unfold wp. destruct (m w); auto. Qed.

Lemma wp_gets {A} (f : World → A) (Q : A → World → Prop) w :
  Q (f w) w → wp F (gets f) Q w.
Proof. done. Qed.

Lemma wp_get_impl {A} (f : Impl → A) (Q : A → World → Prop) w :
  Q (f (w_impl w)) w → wp F (get_impl f) Q w.
Proof. done. Qed.

Lemma wp_get_conn {A} (f : Connection → A) (Q : A → World → Prop) w :
  Q (f (w_conn w)) w → wp F (get_conn f) Q w.
Proof. done. Qed.

Lemma wp_modify f (Q : unit → World → Prop) w : Q () (f w) → wp F (modify f) Q w.
Proof. done. Qed.

Lemma wp_mod_impl f (Q : unit → World → Prop) w :
  Q () (w <| w_impl ::= f |>) → wp F (mod_impl f) Q w.
Proof. done. Qed.

Lemma wp_mod_conn f (Q : unit → World → Prop) w :
  Q () (w <| w_conn ::= f |>) → wp F (mod_conn f) Q w.
Proof. done. Qed.

Lemma wp_emit e (Q : unit → World → Prop) w :
  Q () (w <| w_trace ::= λ t, t ++ [e] |>) → wp F (emit e) Q w.
Proof. done. Qed.

Lemma wp_raise {A} f (Q : A → World → Prop) w : F f → wp F (raise f) Q w.
Proof. done. Qed.

Lemma wp_when b m Q w :
  (b = true → wp F m Q w) → (b = false → Q () w) → wp F (when b m) Q w.
Proof. destruct b; intros H1 H2; [by apply H1|by apply H2]. Qed.

Lemma wp_from_option_ub {A} (o : option A) Q w :
  (∀ a, o = Some a → Q a w) → (o = None → F UndefinedBehaviour) →
  wp F (from_option_ub o) Q w.
Proof. destruct o; simpl; intros H1 H2; [by apply H1|by apply H2]. Qed.
End rules.

(** ** Logging only extends the trace *)

Definition log_events (i : Impl) (l : LogLevel) (msg : list piece) : list event :=
  if log_enabled MIN_LOGGER_LEVEL l (m_log_level i) then [EvLog (m_logger i) l msg]
  else [].

Lemma log_eq l msg w :
  log l msg w = Done () (w <| w_trace ::= λ t, t ++ log_events (w_impl w) l msg |>).
Proof.
  unfold log, get_impl, gets, mbind, M_bind, when, log_events.
  case_match; simpl; [done|]. unfold mret, M_ret. rewrite app_nil_r. by destruct w.
Qed.

Lemma wp_log F l msg (Q : unit → World → Prop) w :
  Q () (w <| w_trace ::= λ t, t ++ log_events (w_impl w) l msg |>) →
  wp F (log l msg) Q w.
Proof. unfold wp. by rewrite log_eq. Qed.

(** What a message does to the trace does not matter. *)
Lemma wp_when_log F b l msg (Q : unit → World → Prop) w :
  (∀ tr, Q () (w <| w_trace := tr |>)) → wp F (when b (log l msg)) Q w.
Proof.
  intros HQ. apply wp_when; intros _; [apply wp_log, HQ|].
  specialize (HQ (w_trace w)). by destruct w.
Qed.

Lemma wp_call_state_change F (Q : unit → World → Prop) w :
  Q () (w <| w_trace ::= λ t,
          t ++ [EvStateChange (m_state_change_callback (w_impl w)) (m_state (w_impl w))] |>) →
  wp F call_state_change Q w.
Proof. done. Qed.

Lemma wp_call_error F e msg (Q : unit → World → Prop) w :
  Q () (w <| w_trace ::= λ t, t ++ [EvError (m_error_callback (w_impl w)) e msg] |>) →
  wp F (call_error e msg) Q w.
Proof. done. Qed.

Lemma wp_lock_state_mutex F (Q : unit → World → Prop) w :
  (w_joining w = false → Q () w) → (w_joining w = true → F Deadlock) →
  wp F lock_state_mutex Q w.
Proof.
  intros H1 H2. unfold lock_state_mutex. apply wp_bind, wp_gets.
  destruct (w_joining w); [by apply H2|by apply H1].
Qed.

Lemma wp_closesocket F fd (Q : unit → World → Prop) w :
  Q () (w <| w_fds ::= λ s, s ∖ {[fd]} |> <| w_trace ::= λ t, t ++ [EvClose fd] |>) →
  wp F (closesocket fd) Q w.
Proof. done. Qed.

Lemma wp_for_each {A} F (f : A → M unit) (I : list A → World → Prop) l w :
  (∀ a l w, I (a :: l) w → wp F (f a) (λ _ w', I l w') w) →
  I l w → wp F (for_each f l) (λ _ w', I [] w') w.
Proof.
  intros Hf. revert w. induction l as [|a l IH]; intros w HI; [done|].
  cbn [for_each]. apply wp_bind. eapply wp_mono; [by apply Hf|]. auto.
Qed.

(** ** System calls *)

(** One step of another thread, or none. *)
Definition interfered (w w' : World) : Prop :=
  rtc (λ w w', (∃ a, w' = apply_interference a w) ∨ ∃ os, w' = w <| w_os := os |>) w w'.

Lemma absorb_interfered os w : interfered w (absorb os w).
Proof.
  revert w. induction os as [|r os IH]; intros w.
  - apply rtc_once. right. by eexists.
  - destruct r; try (apply rtc_once; right; by eexists).
    eapply rtc_l; [|apply IH]. left. by eexists.
Qed.

(** What another thread cannot break, a system call cannot break. *)
Class Stable (I : World → Prop) : Prop := {
  stable_interference a w : I w → I (apply_interference a w);
  stable_os os w : I w → I (w <| w_os := os |>)
}.

Lemma stable_interfered I `{!Stable I} w w' : interfered w w' → I w → I w'.
Proof.
  induction 1 as [|w w1 w2 [[a ->]|[os ->]] _ IH]; [done|..]; intros ?;
    apply IH; by (apply stable_interference || apply stable_os).
Qed.

(** The other threads' turns are dropped from the script. *)
Lemma absorb_suffix os w : ∃ l, os = map ROther l ++ w_os (absorb os w).
Proof.
  revert w. induction os as [|[] os IH]; intros w; try by exists [].
  cbn [absorb]. destruct (IH (apply_interference a w)) as [l Hl].
  exists (a :: l). cbn. by rewrite <-Hl.
Qed.

(** With the answers taken from the script: the last one is the call's own. *)
Lemma wp_syscall_answer {A} F (f : reply → option A) (I : World → Prop) `{!Stable I}
    (Q : A → World → Prop) w :
  F Blocked → I w →
  (∀ l r a w', w_os w = map ROther l ++ r :: w_os w' → f r = Some a → I w' → Q a w') →
  wp F (syscall f) Q w.
Proof.
  intros HF HI HQ. unfold wp, syscall.
  assert (I (absorb (w_os w) w)) as HI'.
  { by apply (stable_interfered I w); [apply absorb_interfered|]. }
  destruct (absorb_suffix (w_os w) w) as [l Hl].
  destruct (w_os (absorb (w_os w) w)) as [|r os]; [done|].
  destruct (f r) eqn:Hf; [|done]. eapply HQ; [exact Hl|done|]. by apply stable_os.
Qed.

Lemma wp_syscall {A} F (f : reply → option A) (I : World → Prop) `{!Stable I}
    (Q : A → World → Prop) w :
  F Blocked → I w → (∀ r a w', f r = Some a → I w' → Q a w') →
  wp F (syscall f) Q w.
Proof. intros HF HI HQ. apply (wp_syscall_answer F f I); [done..|]. eauto. Qed.

#[export] Instance stable_and I J : Stable I → Stable J → Stable (λ w, I w ∧ J w).
Proof.
  intros HI HJ. split; intros ? w [??]; split;
    (by apply stable_interference) || (by apply stable_os).
Qed.

#[export] Instance stable_const (P : Prop) : Stable (λ _, P).
Proof. by split. Qed.

(** The next answer, when no other thread runs. *)
Definition is_other (r : reply) : bool :=
  match r with ROther _ => true | _ => false end.

Lemma syscall_eq {A} (f : reply → option A) r os a w :
  w_os w = r :: os → is_other r = false → f r = Some a →
  syscall f w = Done a (w <| w_os := os |>).
Proof.
  intros Hos Hr Hf. unfold syscall. rewrite Hos.
  destruct r; try discriminate Hr; cbn [absorb w_os set_field]; by rewrite Hf.
Qed.

Lemma wp_syscall_next {A} F (f : reply → option A) (Q : A → World → Prop) r os a w :
  w_os w = r :: os → is_other r = false → f r = Some a →
  Q a (w <| w_os := os |>) → wp F (syscall f) Q w.
Proof. intros Hos Hr Hf HQ. unfold wp. by rewrite (syscall_eq _ _ _ _ _ Hos Hr Hf). Qed.

(** When another thread runs first. *)
Lemma apply_interference_os a os w :
  apply_interference a (w <| w_os := os |>) = (apply_interference a w) <| w_os := os |>.
Proof. destruct a; simpl; try done; by case_decide. Qed.

Lemma absorb_os os os' w : absorb os (w <| w_os := os' |>) = absorb os w.
Proof.
  revert w. induction os as [|[] os IH]; intros w; try done. cbn [absorb].
  by rewrite apply_interference_os, IH.
Qed.

Lemma syscall_other {A} (f : reply → option A) a os w :
  w_os w = ROther a :: os →
  syscall f w = syscall f ((apply_interference a w) <| w_os := os |>).
Proof.
  intros Hos. unfold syscall. rewrite Hos. cbn [absorb].
  set (w1 := apply_interference a w).
  change (w_os (w1 <| w_os := os |>)) with os. by rewrite absorb_os.
Qed.

(** Without allowed faults [wp] is total correctness. *)
Lemma wp_total {A} (m : M A) Q w :
  wp (λ _, False) m Q w → ∃ a w', m w = Done a w' ∧ Q a w'.
Proof. unfold wp. destruct (m w); naive_solver. Qed.

Lemma wp_total_unit (m : M unit) (Q : World → Prop) w :
  wp (λ _, False) m (λ _, Q) w → ∃ w', m w = Done () w' ∧ Q w'.
Proof. intros ([] & w' & ?)%wp_total. by exists w'. Qed.

Lemma wp_weaken {A} (F F' : fault → Prop) (m : M A) Q w :
  wp F m Q w → (∀ f, F f → F' f) → wp F' m Q w.
Proof. unfold wp. destruct (m w); auto. Qed.

Lemma wp_conj {A} F F' (m : M A) (Q Q' : A → World → Prop) w :
  wp F m Q w → wp F' m Q' w → wp F m (λ a w', Q a w' ∧ Q' a w') w.
Proof. unfold wp. destruct (m w); auto. Qed.

(** ** Automation *)

Ltac wp_step :=
  lazymatch goal with
  | |- wp _ (mbind _ _) _ _ => apply wp_bind
  | |- wp _ (mret _) _ _ => apply wp_ret
  | |- wp _ (gets _) _ _ => apply wp_gets
  | |- wp _ (get_impl _) _ _ => apply wp_get_impl
  | |- wp _ (get_conn _) _ _ => apply wp_get_conn
  | |- wp _ (modify _) _ _ => apply wp_modify
  | |- wp _ (mod_impl _) _ _ => apply wp_mod_impl
  | |- wp _ (mod_conn _) _ _ => apply wp_mod_conn
  | |- wp _ (emit _) _ _ => apply wp_emit
  | |- wp _ (log _ _) _ _ => apply wp_log
  | |- wp _ call_state_change _ _ => apply wp_call_state_change
  | |- wp _ (call_error _ _) _ _ => apply wp_call_error
  | |- wp _ lock_state_mutex _ _ => apply wp_lock_state_mutex; intros ?
  | |- wp _ (closesocket _) _ _ => apply wp_closesocket
  | |- wp _ (raise _) _ _ => apply wp_raise
  | |- wp _ (when _ _) _ _ => apply wp_when; intros ?
  | |- wp _ (from_option_ub _) _ _ => apply wp_from_option_ub; [intros ??|intros ?]
  | |- wp _ (if ?b then _ else _) _ _ => destruct b eqn:?
  | |- wp _ (match ?o with _ => _ end) _ _ => destruct o eqn:?
  end.
Ltac wp_auto := repeat (wp_step; cbv beta; try done).
