(* ===== verification/Wire.v ===== *)
(** * The wire format of sent packets

    The header that [Connection::send] writes into the reserved bytes of a
    packet, and the packets built by [sendConnect], [sendPingRequest],
    [sendPublish], [sendSubscribe] and [sendUnsubscribe] ([src/Packet.cpp]). *)

From S2P Require Export World.

(** ** [Connection::send]: the header *)

(** Where the header starts, for the length of the packet without it. *)
Definition header_offset (length : Z) : nat :=
  if decide (length ≤ 127)%Z then 3
  else if decide (length ≤ 16383)%Z then 2
  else if decide (length ≤ 2097151)%Z then 1
  else 0.

(** The [do ... while (length > 0)] loop; [length] is a 64-bit [size_t], so
    that ten iterations end it. *)
Fixpoint write_remaining_length (fuel : nat) (length : Z) (offset : nat)
    (buffer : list Z) : list Z :=
  match fuel with
  | O => buffer
  | S fuel =>
      let byte := Z.land length 0x7F in
      let length := Z.shiftr length 7 in
      let byte := if decide (0 < length)%Z then Z.lor byte 0x80 else byte in
      let buffer := <[offset := byte]> buffer in
      if decide (0 < length)%Z
      then write_remaining_length fuel length (S offset) buffer
      else buffer
  end.

Definition size_t_fuel : nat := 10.

Definition set_header (packet : Packet) : Packet :=
  let length := (zlength (m_buffer packet) - 5)%Z in
  let offset := header_offset length in
  let packet := packet <| m_write_offset := offset |> in
  let packet := packet <| m_buffer ::=
    <[offset := uint8 (Z.lor (Z.shiftl (PacketType_to_Z (m_packet_type packet)) 4)
                             (m_flags packet))]> |> in
  packet <| m_buffer ::= write_remaining_length size_t_fuel length (S offset) |>.

(** What is sent: the buffer from the write offset on. *)
Definition wire (packet : Packet) : list Z :=
  drop (m_write_offset packet) (m_buffer packet).

(** ** The packets *)

Definition protocol_name : string := "MQTT".

Definition connect_flags (i : Impl) : Z :=
  let flags := Z.lor 0 (Z.shiftl 1 1) in
  if decide (m_last_will_topic i = "") then flags
  else
    let flags := Z.lor flags (Z.shiftl 1 2) in
    let flags := Z.lor flags (Z.shiftl 0 3) in
    if m_last_will_retain i then Z.lor flags (Z.shiftl 1 5) else flags.

Definition connect_packet (i : Impl) : Packet :=
  let packet := Packet_new CONNECT 0 in
  let packet := write_string protocol_name packet in
  let packet := write_uint8 4 packet in
  let packet := write_uint8 (connect_flags i) packet in
  let packet := write_uint16 30 packet in
  let packet := write_string (m_client_id i) packet in
  if decide (m_last_will_topic i = "") then packet
  else write_string (m_last_will_message i)
         (write_string (m_last_will_topic i) packet).

Definition pingreq_packet : Packet := Packet_new PINGREQ 0.

Definition publish_packet (topic message : string) (retain : bool) : Packet :=
  let flags := Z.lor 0 (Z.shiftl (if retain then 1 else 0) 0) in
  let flags := Z.lor flags (Z.shiftl 0 1) in
  let flags := Z.lor flags (Z.shiftl 0 3) in
  write message (write_string topic (Packet_new PUBLISH flags)).

Definition subscribe_packet (id : Z) (topic : string) : Packet :=
  let packet := Packet_new SUBSCRIBE 2 in
  let packet := write_uint16 id packet in
  let packet := write_string topic packet in
  write_uint8 0 packet.

Definition unsubscribe_packet (id : Z) (topic : string) : Packet :=
  let packet := Packet_new UNSUBSCRIBE 2 in
  let packet := write_uint16 id packet in
  write_string topic packet.

(** ** Specification *)

(** The variable-length encoding: seven bits at a time, the high bit set when
    another byte follows. *)
Fixpoint varint (fuel : nat) (n : Z) : list Z :=
  match fuel with
  | O => []
  | S fuel =>
      if decide (n < 128)%Z then [n]
      else (n `mod` 128 + 128)%Z :: varint fuel (n / 128)
  end.

Definition max_remaining_length : Z := 2 ^ 28 - 1.

(** A control packet on the wire. *)
Definition frame (t : PacketType) (flags : Z) (body : list Z) : list Z :=
  (PacketType_to_Z t * 16 + flags)%Z :: varint 4 (zlength body) ++ body.

(** A packet to send: its header still reserved, its body written. *)
Definition unframed (t : PacketType) (flags : Z) (body : list Z) : Packet :=
  mkPacket ([0; 0; 0; 0; 0]%Z ++ body) 0 0 t flags.

(** The bodies of the packets.  The flags of [CONNECT]: a clean session, and a
    will (at QoS 0), perhaps retained; the keep-alive is always 30 seconds. *)
Definition connect_flags_spec (i : Impl) : Z :=
  2 + (if decide (m_last_will_topic i = "") then 0
       else 4 + (if m_last_will_retain i then 32 else 0)).

Definition connect_body (i : Impl) : list Z :=
  wire_string "MQTT" ++ [4%Z; connect_flags_spec i] ++ be16 30 ++
  wire_string (m_client_id i) ++
  (if decide (m_last_will_topic i = "") then []
   else wire_string (m_last_will_topic i) ++ wire_string (m_last_will_message i)).

Definition publish_body (topic message : string) : list Z :=
  wire_string topic ++ bytes_of_string message.

Definition subscribe_body (id : Z) (topic : string) : list Z :=
  be16 id ++ wire_string topic ++ [0%Z].

Definition unsubscribe_body (id : Z) (topic : string) : list Z :=
  be16 id ++ wire_string topic.

(** ** Lemmas *)

Lemma byte_low n : Z.land n 0x7F = (n `mod` 128)%Z.
Proof. change 0x7F%Z with (Z.ones 7). by rewrite Z.land_ones. Qed.

Lemma byte_shift n : Z.shiftr n 7 = (n / 128)%Z.
Proof. by rewrite Z.shiftr_div_pow2. Qed.

Lemma byte_high n : (0 ≤ n)%Z → Z.lor (n `mod` 128) 0x80 = (n `mod` 128 + 128)%Z.
Proof.
  intros. change 0x80%Z with (Z.shiftl 1 7). rewrite lor_shiftl_add; [done|lia|].
  apply Z.mod_pos_bound. lia.
Qed.

Lemma write_remaining_length_unfold fuel n off buf :
  (0 ≤ n)%Z →
  write_remaining_length (S fuel) n off buf =
    if decide (n < 128)%Z then <[off := n]> buf
    else write_remaining_length fuel (n / 128) (S off)
           (<[off := (n `mod` 128 + 128)%Z]> buf).
Proof.
  intros Hn. cbn [write_remaining_length]. rewrite byte_low, byte_shift.
  destruct (decide (n < 128)%Z) as [Hlt|Hge].
  - rewrite (Z.div_small n 128), (Z.mod_small n 128) by lia. done.
  - assert (0 < n / 128)%Z by (apply Z.div_str_pos; lia).
    rewrite !decide_True by done. by rewrite byte_high.
Qed.

(** Written into a buffer with room for it, the length is its encoding. *)
Lemma write_remaining_length_varint fuel k n pre old post :
  (0 ≤ n < 128 ^ Z.of_nat (S k))%Z → S k ≤ fuel →
  length old = length (varint (S k) n) →
  write_remaining_length fuel n (length pre) (pre ++ old ++ post) =
    pre ++ varint (S k) n ++ post.
Proof.
  revert k n pre old. induction fuel as [|fuel IH]; intros k n pre old Hn Hk Hold; [lia|].
  rewrite write_remaining_length_unfold by lia.
  change (varint (S k) n) with
    (if decide (n < 128)%Z then [n] else (n `mod` 128 + 128)%Z :: varint k (n / 128)) in *.
  destruct (decide (n < 128)%Z) as [Hlt|Hge].
  - destruct old as [|o [|??]]; try done. simpl.
    rewrite insert_app_r_alt, Nat.sub_diag by lia. done.
  - destruct old as [|o old]; [done|]. simpl in Hold.
    rewrite insert_app_r_alt, Nat.sub_diag by lia. simpl.
    change (?a :: old ++ post) with ([a] ++ old ++ post). rewrite (app_assoc pre).
    replace (S (length pre)) with (length (pre ++ [(n `mod` 128 + 128)%Z]))
      by (rewrite length_app; simpl; lia).
    destruct k as [|k]; [simpl in Hn; lia|].
    rewrite (IH k); [by rewrite <-app_assoc| |lia|lia].
    split; [apply Z.div_pos; lia|]. apply Z.div_lt_upper_bound; [lia|].
    rewrite (Nat2Z.inj_succ (S k)), Z.pow_succ_r in Hn by lia. lia.
Qed.

Lemma varint_enough k n :
  (0 ≤ n < 128 ^ Z.of_nat (S k))%Z → varint (S (S k)) n = varint (S k) n.
Proof.
  revert n. induction k as [|k IH]; intros n Hn.
  - simpl in *. case_decide; [done|lia].
  - change (varint (S (S (S k))) n) with
      (if decide (n < 128)%Z then [n] else (n `mod` 128 + 128)%Z :: varint (S (S k)) (n / 128)).
    change (varint (S (S k)) n) with
      (if decide (n < 128)%Z then [n] else (n `mod` 128 + 128)%Z :: varint (S k) (n / 128)).
    case_decide; [done|]. f_equal. apply IH. split; [apply Z.div_pos; lia|].
    apply Z.div_lt_upper_bound; [lia|].
    rewrite (Nat2Z.inj_succ (S k)), Z.pow_succ_r in Hn by lia. lia.
Qed.

Lemma varint_le k k' n :
  (0 ≤ n < 128 ^ Z.of_nat (S k))%Z → k ≤ k' → varint (S k') n = varint (S k) n.
Proof.
  intros Hn Hk. induction Hk as [|k' Hk IH]; [done|]. rewrite <-IH.
  apply varint_enough. split; [lia|]. apply Z.lt_le_trans with (128 ^ Z.of_nat (S k))%Z; [lia|].
  apply Z.pow_le_mono_r; lia.
Qed.

(** The header offset leaves exactly the room the encoding needs. *)
Lemma header_offset_room n :
  (0 ≤ n ≤ max_remaining_length)%Z →
  header_offset n + length (varint 4 n) = 4.
Proof.
  unfold max_remaining_length, header_offset. intros Hn.
  assert (∀ k, k ≤ 3 → (0 ≤ n < 128 ^ Z.of_nat (S k))%Z → varint 4 n = varint (S k) n) as Hv.
  { intros k ??. by apply varint_le. }
  repeat case_decide.
  - rewrite (Hv 0) by lia. simpl. by rewrite decide_True by lia.
  - rewrite (Hv 1) by lia. simpl. rewrite decide_False by lia. simpl.
    rewrite decide_True; [done|]. apply Z.div_lt_upper_bound; lia.
  - rewrite (Hv 2) by lia. simpl. rewrite decide_False by lia. simpl.
    rewrite decide_False by (apply Z.le_ngt, Z.div_le_lower_bound; lia). simpl.
    rewrite decide_True; [done|]. rewrite Z.div_div by lia. apply Z.div_lt_upper_bound; lia.
  - simpl. rewrite decide_False by lia. simpl.
    rewrite decide_False by (apply Z.le_ngt, Z.div_le_lower_bound; lia). simpl.
    rewrite Z.div_div by lia.
    rewrite decide_False by (apply Z.le_ngt, Z.div_le_lower_bound; lia). simpl.
    rewrite Z.div_div by lia.
    rewrite decide_True; [done|]. apply Z.div_lt_upper_bound; lia.
Qed.

Lemma header_byte t flags :
  (0 ≤ flags < 16)%Z →
  uint8 (Z.lor (Z.shiftl (PacketType_to_Z t) 4) flags) = (PacketType_to_Z t * 16 + flags)%Z.
Proof.
  intros Hf. rewrite Z.lor_comm, lor_shiftl_add by lia. change (2 ^ 4)%Z with 16%Z.
  rewrite uint8_small; [lia|]. unfold is_byte. destruct t; simpl; lia.
Qed.

Lemma set_header_wire t flags body :
  (0 ≤ flags < 16)%Z → (zlength body ≤ max_remaining_length)%Z →
  wire (set_header (unframed t flags body)) = frame t flags body.
Proof.
  intros Hf Hb. pose proof (zlength_nonneg body) as Hb0.
  unfold wire, frame. cbn -[write_remaining_length varint header_offset].
  assert (zlength (0 :: 0 :: 0 :: 0 :: 0 :: body)%Z - 5 = zlength body)%Z as ->.
  { unfold zlength. simpl. lia. }
  rewrite header_byte by done.
  pose proof (header_offset_room (zlength body) (conj Hb0 Hb)) as Hroom.
  set (o := header_offset (zlength body)) in *.
  set (h := (PacketType_to_Z t * 16 + flags)%Z).
  set (v := varint 4 (zlength body)) in *.
  assert (<[o:=h]> (0 :: 0 :: 0 :: 0 :: 0 :: body)%Z =
    (replicate o 0%Z ++ [h]) ++ replicate (length v) 0%Z ++ body) as ->.
  { clearbody o. generalize dependent (length v). intros lv Hlv.
    destruct o as [|[|[|[|[|o]]]]]; [..|lia]; simpl in Hlv; simplify_eq; done. }
  replace (S o) with (length (replicate o 0%Z ++ [h]))
    by (rewrite length_app, length_replicate; simpl; lia).
  rewrite (write_remaining_length_varint _ 3).
  - fold v. rewrite <-app_assoc. rewrite drop_app_length'; [done|].
    by rewrite length_replicate.
  - unfold max_remaining_length in Hb. change (128 ^ Z.of_nat 4)%Z with (2 ^ 28)%Z. lia.
  - unfold size_t_fuel. lia.
  - by rewrite length_replicate.
Qed.

(** ** The packets built by the code have the bodies of the specification *)

Lemma unframed_new t flags : Packet_new t flags = unframed t flags [].
Proof. done. Qed.

Lemma unframed_uint8 v t flags body :
  write_uint8 v (unframed t flags body) = unframed t flags (body ++ [v]).
Proof. unfold unframed. by rewrite app_assoc. Qed.

Lemma unframed_write s t flags body :
  write s (unframed t flags body) = unframed t flags (body ++ bytes_of_string s).
Proof. unfold unframed. by rewrite app_assoc. Qed.

Lemma packet_eq p q :
  m_buffer p = m_buffer q → m_read_offset p = m_read_offset q →
  m_write_offset p = m_write_offset q → m_packet_type p = m_packet_type q →
  m_flags p = m_flags q → p = q.
Proof. destruct p, q; simpl. by intros -> -> -> -> ->. Qed.

Lemma unframed_uint16 v t flags body :
  (0 ≤ v < 65536)%Z →
  write_uint16 v (unframed t flags body) = unframed t flags (body ++ be16 v).
Proof.
  intros Hv. apply packet_eq; try done. rewrite write_uint16_buffer by done.
  unfold unframed; cbn [m_buffer]. by rewrite app_assoc.
Qed.

Lemma unframed_string s t flags body :
  (str_size s < 65536)%Z →
  write_string s (unframed t flags body) = unframed t flags (body ++ wire_string s).
Proof.
  intros Hs. pose proof (str_size_nonneg s). unfold write_string, wire_string.
  rewrite uint16_small by lia.
  by rewrite unframed_uint16, unframed_write, app_assoc by lia.
Qed.

#[export] Hint Rewrite unframed_new unframed_uint8 unframed_write : wire.
#[export] Hint Rewrite unframed_uint16 unframed_string using (first [lia|done]) : wire.

Lemma publish_packet_body topic message retain :
  (str_size topic < 65536)%Z →
  publish_packet topic message retain =
    unframed PUBLISH (if retain then 1 else 0) (publish_body topic message).
Proof.
  intros Ht. unfold publish_packet, publish_body. autorewrite with wire.
  by destruct retain.
Qed.

Lemma subscribe_packet_body id topic :
  (0 ≤ id < 65536)%Z → (str_size topic < 65536)%Z →
  subscribe_packet id topic = unframed SUBSCRIBE 2 (subscribe_body id topic).
Proof.
  intros Hi Ht. unfold subscribe_packet, subscribe_body. autorewrite with wire.
  by rewrite app_assoc.
Qed.

Lemma unsubscribe_packet_body id topic :
  (0 ≤ id < 65536)%Z → (str_size topic < 65536)%Z →
  unsubscribe_packet id topic = unframed UNSUBSCRIBE 2 (unsubscribe_body id topic).
Proof. intros Hi Ht. unfold unsubscribe_packet. by autorewrite with wire. Qed.

(** The strings of a [CONNECT] packet fit their length fields. *)
Definition connect_fits (i : Impl) : Prop :=
  (str_size (m_client_id i) < 65536)%Z ∧
  (str_size (m_last_will_topic i) < 65536)%Z ∧
  (str_size (m_last_will_message i) < 65536)%Z.

Lemma connect_flags_eq i : connect_flags i = connect_flags_spec i.
Proof.
  unfold connect_flags, connect_flags_spec. case_decide; [done|].
  by destruct (m_last_will_retain i).
Qed.

Lemma connect_packet_body i :
  connect_fits i → connect_packet i = unframed CONNECT 0 (connect_body i).
Proof.
  intros (Hc & Ht & Hm). unfold connect_packet, connect_body, protocol_name.
  rewrite connect_flags_eq.
  autorewrite with wire. case_decide.
  - by rewrite app_nil_r, <-!app_assoc.
  - autorewrite with wire. by rewrite <-!app_assoc.
Qed.

(** ** Properties *)

(** A packet whose body is at most 2^28 - 1 bytes long is sent as its
    type and flags, the shortest encoding of the length, and the body: the
    write offset skips exactly the reserved bytes that are not needed. *)
Theorem header_is_frame t flags body :
  (0 ≤ flags < 16)%Z → (zlength body ≤ max_remaining_length)%Z →
  wire (set_header (unframed t flags body)) = frame t flags body.
Proof. apply set_header_wire. Qed.

Lemma header_is_frame_witness :
  wire (set_header (unframed PUBLISH 1 (replicate 200 7%Z))) =
    49%Z :: 200%Z :: 1%Z :: replicate 200 7%Z.
Proof.
  etrans; [apply (header_is_frame PUBLISH 1 (replicate 200 7%Z)); by vm_compute|].
  by vm_compute.
Defined.

(** A flaw: nothing checks the size of a packet: the length of a body of
    2^28 bytes or more takes five bytes, one more than is reserved, and the
    last of them overwrites the first byte of the body; the packet announces
    one byte more than it has. *)
Theorem oversized_body_is_corrupted t flags body :
  (0 ≤ flags < 16)%Z → (2 ^ 28 ≤ zlength body < 2 ^ 35)%Z →
  wire (set_header (unframed t flags body)) =
    (PacketType_to_Z t * 16 + flags)%Z :: varint 5 (zlength body) ++ tail body.
Proof.
  intros Hf Hb. unfold wire. cbn -[write_remaining_length varint header_offset].
  assert (zlength (0 :: 0 :: 0 :: 0 :: 0 :: body)%Z - 5 = zlength body)%Z as ->.
  { unfold zlength. simpl. lia. }
  rewrite header_byte by done.
  assert (header_offset (zlength body) = 0) as ->.
  { unfold header_offset. repeat case_decide; done || lia. }
  destruct body as [|b body]; [unfold zlength in Hb; simpl in Hb; lia|].
  set (n := zlength (b :: body)) in *. set (h := (PacketType_to_Z t * 16 + flags)%Z).
  change (<[0:=h]> (0 :: 0 :: 0 :: 0 :: 0 :: b :: body)%Z)
    with ([h] ++ [0; 0; 0; 0; b]%Z ++ body).
  change 1 with (length [h]) at 1.
  rewrite (write_remaining_length_varint _ 4); [done| |unfold size_t_fuel; lia|].
  - change (128 ^ Z.of_nat 5)%Z with (2 ^ 35)%Z. lia.
  - clearbody n. cbn [varint length]. rewrite !Z.div_div by lia.
    do 4 (rewrite decide_False by (apply Z.le_ngt; try apply Z.div_le_lower_bound; lia); cbn [length]).
    by rewrite decide_True by (apply Z.div_lt_upper_bound; lia).
Qed.

Lemma oversized_body_is_corrupted_witness :
  let body := replicate (Z.to_nat (2 ^ 28)) 1%Z in
  wire (set_header (unframed PUBLISH 0 body)) =
    (PacketType_to_Z PUBLISH * 16 + 0)%Z :: varint 5 (zlength body) ++ tail body.
Proof.
  intros body. apply (oversized_body_is_corrupted PUBLISH 0 body); [by split|].
  unfold body, zlength. rewrite length_replicate, Z2Nat.id by (by apply Z.pow_nonneg).
  by split.
Defined.

(** C9: what each of the packets looks like on the wire, for strings that
    fit their length fields. *)
Theorem packets_on_wire (i : Impl) id topic message retain :
  connect_fits i → (0 ≤ id < 65536)%Z → (str_size topic < 65536)%Z →
  (zlength (publish_body topic message) ≤ max_remaining_length)%Z →
  wire (set_header (connect_packet i)) = frame CONNECT 0 (connect_body i) ∧
  wire (set_header pingreq_packet) = [192; 0]%Z ∧
  wire (set_header (publish_packet topic message retain)) =
    frame PUBLISH (if retain then 1 else 0) (publish_body topic message) ∧
  wire (set_header (subscribe_packet id topic)) =
    frame SUBSCRIBE 2 (subscribe_body id topic) ∧
  wire (set_header (unsubscribe_packet id topic)) =
    frame UNSUBSCRIBE 2 (unsubscribe_body id topic).
Proof.
  intros Hi Hid Ht Hm. pose proof (str_size_nonneg topic).
  assert (zlength (wire_string topic) = 2 + str_size topic)%Z as Hw.
  { unfold wire_string. rewrite zlength_app, zlength_bytes_of_string. done. }
  assert (2 ^ 28 = 268435456)%Z as Hp by done.
  split; [|split; [done|split; [|split]]].
  - rewrite connect_packet_body by done. apply set_header_wire; [done|].
    destruct Hi as (Hc & Hlt & Hlm). unfold connect_body, wire_string, max_remaining_length.
    pose proof (str_size_nonneg (m_client_id i)).
    pose proof (str_size_nonneg (m_last_will_topic i)).
    pose proof (str_size_nonneg (m_last_will_message i)).
    case_decide; rewrite !zlength_app, !zlength_bytes_of_string;
      unfold zlength, be16; cbn [length]; change (str_size "MQTT") with 4%Z; lia.
  - rewrite publish_packet_body by done. apply set_header_wire; [by destruct retain|done].
  - rewrite subscribe_packet_body by done. apply set_header_wire; [done|].
    unfold subscribe_body, max_remaining_length.
    rewrite !zlength_app, Hw. unfold zlength, be16; cbn [length]. lia.
  - rewrite unsubscribe_packet_body by done. apply set_header_wire; [done|].
    unfold unsubscribe_body, max_remaining_length.
    rewrite !zlength_app, Hw. unfold zlength, be16; cbn [length]. lia.
Qed.

Lemma packets_on_wire_witness :
  wire (set_header (publish_packet "a/b" "hi" true)) =
    [49; 7; 0; 3; 97; 47; 98; 104; 105]%Z.
Proof.
  set (i := mkImpl DISCONNECTED "h" 1883 "c" 5000 1000 30000 30000 NONE 0 0 "" ""
    false 0 DROP 0 [] 1000 [] ∅ false 0).
  etrans; [refine (proj1 (proj2 (proj2 (packets_on_wire i 1 "a/b" "hi" true _ _ _ _))))|].
  - by vm_compute.
  - by vm_compute.
  - by vm_compute.
  - by vm_compute.
  - by vm_compute.
Defined.
