(* ===== verification/Send.v ===== *)
(** * Sending

    [Connection::send], [sendPacket], [sendConnect], [sendPingRequest] and
    [Impl::sendPublish], [sendSubscribe], [sendUnsubscribe] of
    [src/Packet.cpp], and [Connection::socketError] of [src/Connection.cpp]. *)

From S2P Require Export Wp Wire.

(** [bool send(Packet packet, bool has_priority = false)]. *)
Definition Connection_send (packet : Packet) (has_priority : bool) : M bool :=
  queue ← get_conn m_send_queue;
  limit ← get_impl m_send_queue_size;
  if decide (has_priority = false ∧ limit < zlength queue)%Z then mret false
  else
    let packet := set_header packet in
    mod_conn (λ c, c <| m_send_queue ::= λ q,
      if has_priority then packet :: q else q ++ [packet] |>) ;;
    mret true.

(** [m_connection->...]: the [unique_ptr] must not be null. *)
Definition deref_connection : M unit :=
  c ← get_impl m_connection;
  if c : bool then mret () else raise UndefinedBehaviour.

Definition Connection_sendConnect : M bool :=
  i ← get_impl id;
  Connection_send (connect_packet i) true.

Definition Connection_sendPingRequest : M bool :=
  Connection_send pingreq_packet true.

Definition Impl_sendPublish (topic message : string) (retain : bool) : M bool :=
  let packet := publish_packet topic message retain in
  deref_connection ;; Connection_send packet false.

(** [m_packet_id++], skipping zero: the identifier of the packet is returned. *)
Definition next_packet_id : M Z :=
  id ← get_impl m_packet_id;
  when (bool_decide (id = 0)%Z)
    (mod_impl (λ i, i <| m_packet_id ::= λ n, uint16 (n + 1) |>)) ;;
  id ← get_impl m_packet_id;
  mod_impl (λ i, i <| m_packet_id ::= λ n, uint16 (n + 1) |>) ;;
  mret id.

Definition Impl_sendSubscribe (topic : string) : M bool :=
  id ← next_packet_id;
  let packet := subscribe_packet id topic in
  deref_connection ;; Connection_send packet false.

Definition Impl_sendUnsubscribe (topic : string) : M bool :=
  id ← next_packet_id;
  let packet := unsubscribe_packet id topic in
  deref_connection ;; Connection_send packet false.

Definition Connection_socketError : M unit :=
  mod_conn (λ c, c <| m_cstate := CState.SOCKET_ERROR |>) ;;
  fd ← get_conn m_socket;
  when (bool_decide (fd ≠ INVALID_SOCKET))
    (closesocket fd ;; mod_conn (λ c, c <| m_socket := INVALID_SOCKET |>)).

(** The [while] loop of [sendPacket]; every iteration takes an answer, so the
    length of the script bounds their number. *)
Fixpoint sendPacket_loop (fuel : nat) (packet : Packet) : M (option Packet) :=
  match fuel with
  | O => raise Blocked
  | S fuel =>
      if decide (m_write_offset packet < length (m_buffer packet)) then
        fd ← get_conn m_socket;
        res ← sys_send (Z.of_nat (length (m_buffer packet) - m_write_offset packet));
        match res with
        | inl errno =>
            log ERROR [PStr "Connection write error: "; PErrno errno] ;;
            deref_connection ;;
            Connection_socketError ;;
            mret None
        | inr n =>
            let n := Z.to_nat n in
            emit (EvSend fd (take n (wire packet))) ;;
            sendPacket_loop fuel (packet <| m_write_offset ::= λ o, o + n |>)
        end
      else mret (Some packet)
  end.

Definition Connection_sendPacket (packet : Packet) : M unit :=
  state ← get_conn m_cstate;
  if decide (state ≠ CState.AUTHENTICATING ∧ state ≠ CState.CONNECTED) then mret ()
  else
    fuel ← gets (λ w, S (length (w_os w)));
    sent ← sendPacket_loop fuel packet;
    match sent with
    | None => mret ()
    | Some _ =>
        now ← sys_now;
        mod_conn (λ c, c <| m_last_sent_packet := now |>)
    end.

(** ** Equations *)

Definition enqueue (packet : Packet) (has_priority : bool) (w : World) : World :=
  w <| w_conn ::= λ c, c <| m_send_queue ::= λ q,
    if has_priority then set_header packet :: q else q ++ [set_header packet] |> |>.

Definition queue_full (w : World) : Prop :=
  (m_send_queue_size (w_impl w) < zlength (m_send_queue (w_conn w)))%Z.
#[export] Instance queue_full_dec w : Decision (queue_full w).
Proof. unfold queue_full. apply _. Defined.

Lemma Connection_send_eq packet prio w :
  Connection_send packet prio w =
    if decide (prio = false ∧ queue_full w) then Done false w
    else Done true (enqueue packet prio w).
Proof.
  unfold Connection_send, queue_full, get_conn, get_impl, gets, mbind, M_bind.
  repeat case_decide; done.
Qed.

Lemma Connection_send_priority packet w :
  Connection_send packet true w = Done true (enqueue packet true w).
Proof. rewrite Connection_send_eq. rewrite decide_False by naive_solver. done. Qed.

(** The identifier [next_packet_id] gives out for a counter value. *)
Definition packet_id_of (n : Z) : Z := if decide (n = 0)%Z then 1 else n.

Lemma next_packet_id_eq w :
  next_packet_id w =
    let id := packet_id_of (m_packet_id (w_impl w)) in
    Done id (w <| w_impl ::= λ i, i <| m_packet_id := uint16 (id + 1) |> |>).
Proof.
  unfold next_packet_id, packet_id_of, get_impl, gets, mbind, M_bind, mod_impl,
    modify, when.
  destruct (decide (m_packet_id (w_impl w) = 0)%Z) as [Heq|Hne].
  - rewrite bool_decide_true by done. simpl. by rewrite Heq.
  - rewrite bool_decide_false by done. done.
Qed.

(** ** What [sendPacket] sends *)

(** The bytes sent so far. *)
Definition sent_bytes (tr : list event) : list Z :=
  flat_map (λ e, match e with EvSend _ data => data | _ => [] end) tr.

Lemma sent_bytes_app t1 t2 : sent_bytes (t1 ++ t2) = sent_bytes t1 ++ sent_bytes t2.
Proof. apply flat_map_app. Qed.

Lemma sent_bytes_disconnect i : sent_bytes (disconnect_events i) = [].
Proof. unfold disconnect_events. by case_match. Qed.

#[export] Instance sent_bytes_stable s : Stable (λ w, sent_bytes (w_trace w) = s).
Proof.
  split; [|done]. intros [] w <-; simpl; [|by rewrite sent_bytes_app; case_decide; simpl;
    rewrite app_nil_r|done..].
  case_decide; [done|]. simpl. by rewrite sent_bytes_app, sent_bytes_disconnect, app_nil_r.
Qed.

Lemma sent_bytes_log i l msg : sent_bytes (log_events i l msg) = [].
Proof. unfold log_events. by case_match. Qed.

(** What is left of a packet after [n] more bytes were sent. *)
Lemma wire_advance n p :
  wire (p <| m_write_offset ::= λ o, o + n |>) = drop n (wire p).
Proof. unfold wire; simpl. by rewrite drop_drop. Qed.

Lemma wire_length p : length (wire p) = length (m_buffer p) - m_write_offset p.
Proof. unfold wire. by rewrite length_drop. Qed.

(** How [sendPacket] can fail to return: the answers end, or a failed
    [::send] is reported through a connection that is gone. *)
Definition send_faults (os : list reply) (f : fault) : Prop :=
  f = Blocked ∨ f = UndefinedBehaviour ∧ ∃ e, RSend (inl e) ∈ os.

(** What the loop sent, and the answers [os] it took: all of the packet, or a
    prefix when the last answer is a failed [::send]. *)
Definition sends (p : Packet) (s : list Z) (os : list reply) (r : option Packet)
    (w : World) : Prop :=
  match r with
  | Some _ => sent_bytes (w_trace w) = s ++ wire p
  | None => m_cstate (w_conn w) = CState.SOCKET_ERROR ∧
      ∃ n e, sent_bytes (w_trace w) = s ++ take n (wire p) ∧ last os = Some (RSend (inl e))
  end.

Lemma sends_later n p s os l r w :
  sends (p <| m_write_offset ::= λ o, o + n |>) (s ++ take n (wire p)) os r w →
  sends p s (l ++ os) r w.
Proof.
  unfold sends. rewrite wire_advance. destruct r as [p'|].
  - by rewrite <-app_assoc, take_drop.
  - intros [Hst (k & e & Hk & He)]. split; [done|]. exists (n + k), e.
    rewrite Hk, <-app_assoc, take_take_drop, last_app, He. done.
Qed.

(** The report of a failed [::send] and [socketError]. *)
Lemma send_fails e p s os w :
  RSend (inl e) ∈ os → last os = Some (RSend (inl e)) → sent_bytes (w_trace w) = s →
  wp (send_faults os) (log ERROR [PStr "Connection write error: "; PErrno e] ;;
      deref_connection ;; Connection_socketError ;; mret None)
    (λ r w', w_os w' = w_os w ∧ sends p s os r w') w.
Proof.
  intros Hin Hlast Hs. unfold Connection_socketError, deref_connection.
  apply wp_bind, wp_log, wp_bind, wp_bind, wp_get_impl.
  destruct (m_connection _); [|by right; eauto]. apply wp_ret.
  assert (sent_bytes (w_trace w ++ log_events (w_impl w) ERROR
    [PStr "Connection write error: "; PErrno e]) = s ++ take 0 (wire p)) as Hs'.
  { by rewrite sent_bytes_app, sent_bytes_log, Hs, !app_nil_r. }
  wp_auto; (split; [done|]; split; [done|]; exists 0, e; split; [|done]; simpl).
  - by rewrite sent_bytes_app, Hs', !app_nil_r.
  - done.
Qed.

Lemma sendPacket_loop_prefix fuel p s w :
  sent_bytes (w_trace w) = s →
  wp (send_faults (w_os w)) (sendPacket_loop fuel p) (λ r w',
    ∃ os, w_os w = os ++ w_os w' ∧ sends p s os r w') w.
Proof.
  revert p s w. induction fuel as [|fuel IH]; intros p s w Hs; [by left|].
  cbn [sendPacket_loop]. pose proof (wire_length p) as Hl. case_decide as Hd.
  - apply wp_bind, wp_get_conn, wp_bind.
    eapply (wp_syscall_answer _ _ (λ w, sent_bytes (w_trace w) = s)); [by left|done|].
    intros l r res w1 Hos Hr Hs1. set (taken := map ROther l ++ [r]).
    assert (w_os w = taken ++ w_os w1) as Hos' by (unfold taken; by rewrite <-app_assoc).
    destruct res as [errno|n].
    + assert (r = RSend (inl errno)) as ->.
      { destruct r as [| | | | | | | | | | |r|]; try done. destruct r; [|by case_decide]. by simplify_eq. }
      assert (last taken = Some (RSend (inl errno))) as Hlast by (unfold taken; by rewrite last_snoc).
      eapply wp_weaken; [eapply wp_mono; [eapply (send_fails _ p s taken)|]|]; try done.
      * apply elem_of_app; right. by apply list_elem_of_singleton.
      * intros r' w' [Hw' ?]. exists taken. by rewrite Hw'.
      * intros f [?|(? & e & ?)]; [by left|]. right. split; [done|]. exists e.
        rewrite Hos'. by apply elem_of_app; left.
    + apply wp_bind, wp_emit. eapply wp_weaken.
      * eapply wp_mono; [apply (IH _ (s ++ take (Z.to_nat n) (wire p)))|].
        { simpl. rewrite sent_bytes_app, Hs1. simpl. by rewrite app_nil_r. }
        intros r' w2 (os & Hos2 & Hsends). exists (taken ++ os). cbn in Hos2. split.
        { by rewrite Hos', Hos2, app_assoc. }
        by eapply sends_later.
      * intros f [?|(? & e & ?)]; [by left|]. right. split; [done|]. exists e.
        rewrite Hos'. by apply elem_of_app; right.
  - apply wp_ret. exists []. split; [done|]. cbn.
    assert (wire p = []) as ->; [|by rewrite app_nil_r]. apply length_zero_iff_nil. lia.
Qed.

(** A script of positive counts that add up to the size of the packet. *)
Lemma sendPacket_loop_complete fuel p ns os w :
  length ns < fuel → m_write_offset p ≤ length (m_buffer p) →
  Forall (λ n, 0 < n) ns → sum_list ns = length (wire p) →
  w_os w = map (λ n, RSend (inr (Z.of_nat n))) ns ++ os →
  wp (λ _, False) (sendPacket_loop fuel p) (λ r w', is_Some r ∧ w_os w' = os ∧
    w_conn w' = w_conn w ∧ w_impl w' = w_impl w ∧ w_joining w' = w_joining w) w.
Proof.
  intros Hf Hp Hns. revert fuel p w Hf Hp.
  induction Hns as [|n ns Hn Hns IH]; intros [|fuel] p w Hf Hp Hsum Hos;
    simpl in Hf, Hsum, Hos; try lia; rewrite wire_length in Hsum;
    cbn [sendPacket_loop].
  - rewrite decide_False by lia. by apply wp_ret.
  - rewrite decide_True by lia. apply wp_bind, wp_get_conn, wp_bind.
    eapply wp_syscall_next; [exact Hos|done| |].
    { cbv beta iota. rewrite decide_True by lia. done. }
    cbv beta iota zeta. rewrite Nat2Z.id. wp_auto.
    eapply wp_mono; [apply IH; [lia|simpl; lia|rewrite wire_length; simpl; lia|done]|].
    by intros r w' (? & ? & -> & -> & ->).
Qed.

(** The answers that take a packet in pieces of the given sizes. *)
Definition takes (ns : list nat) (t : Z) (os : list reply) : list reply :=
  map (λ n, RSend (inr (Z.of_nat n))) ns ++ RNow t :: os.

Lemma sendPacket_complete p ns t os w :
  (m_cstate (w_conn w) = CState.AUTHENTICATING ∨ m_cstate (w_conn w) = CState.CONNECTED) →
  m_write_offset p ≤ length (m_buffer p) →
  Forall (λ n, 0 < n) ns → sum_list ns = length (wire p) → w_os w = takes ns t os →
  wp (λ _, False) (Connection_sendPacket p) (λ _ w',
    sent_bytes (w_trace w') = sent_bytes (w_trace w) ++ wire p ∧
    w_conn w' = (w_conn w) <| m_last_sent_packet := t |> ∧
    w_impl w' = w_impl w ∧ w_joining w' = w_joining w ∧ w_os w' = os) w.
Proof.
  intros Hst Hp Hns Hsum Hos.
  assert (length ns < S (length (w_os w))) as Hfuel.
  { rewrite Hos. unfold takes. rewrite length_app, length_map. lia. }
  unfold Connection_sendPacket. apply wp_bind, wp_get_conn.
  rewrite decide_False by naive_solver. apply wp_bind, wp_gets, wp_bind.
  eapply wp_mono.
  { eapply wp_conj; [by eapply sendPacket_loop_complete|].
    by apply (sendPacket_loop_prefix _ _ (sent_bytes (w_trace w))). }
  intros r w1 [([p' ->] & Hos1 & Hc & Hi & Hj) (os' & _ & Hs)]. apply wp_bind.
  eapply wp_syscall_next; [exact Hos1|done..|]. apply wp_mod_conn.
  split; [done|]. cbn. by rewrite Hc, Hi, Hj.
Qed.

Lemma sendPacket_sends p w :
  ¬ (m_cstate (w_conn w) ≠ CState.AUTHENTICATING ∧ m_cstate (w_conn w) ≠ CState.CONNECTED) →
  wp (send_faults (w_os w)) (Connection_sendPacket p) (λ _ w', ∃ os, w_os w = os ++ w_os w' ∧
    (sent_bytes (w_trace w') = sent_bytes (w_trace w) ++ wire p ∨
     sends p (sent_bytes (w_trace w)) os None w')) w.
Proof.
  intros Hst. unfold Connection_sendPacket. apply wp_bind, wp_get_conn.
  rewrite decide_False by done. apply wp_bind, wp_gets, wp_bind. eapply wp_mono.
  { by apply (sendPacket_loop_prefix _ _ (sent_bytes (w_trace w))). }
  intros [p'|] w1 (os & Hos & Hs); [|apply wp_ret; eauto].
  apply wp_bind. eapply (wp_syscall_answer _ _ (λ w1, sent_bytes (w_trace w1) =
      sent_bytes (w_trace w) ++ wire p)); [by left|exact Hs|].
  intros l r t w2 Hos2 _ Hs2. apply wp_mod_conn. exists (os ++ map ROther l ++ [r]).
  rewrite Hos, Hos2. split; [|by left]. cbn. by rewrite <-!app_assoc.
Qed.

(** A flaw: [sendPacket] reaches its own connection through
    [m_impl.m_connection], which [disconnect] has set to null by the time it
    stops the connection: a write error at that moment dereferences it. *)
Theorem send_error_while_stopping p e os w :
  (m_cstate (w_conn w) = CState.AUTHENTICATING ∨ m_cstate (w_conn w) = CState.CONNECTED) →
  m_write_offset p < length (m_buffer p) →
  m_state (w_impl w) ≠ DISCONNECTED → w_joining w = false →
  w_os w = ROther AStop :: RSend (inl e) :: os →
  Connection_sendPacket p w = Fault UndefinedBehaviour.
Proof.
  intros Hst Hp Hi Hj Hos. unfold Connection_sendPacket, get_conn, gets, mbind, M_bind.
  rewrite decide_False by naive_solver. cbn [sendPacket_loop].
  rewrite decide_True by done. unfold mbind, M_bind, get_conn, gets, sys_send, syscall.
  rewrite Hos. cbn [absorb apply_interference].
  rewrite decide_False by (intros [?|?]; congruence).
  cbn. unfold log, get_impl, gets, when, mbind, M_bind.
  destruct (m_log_level (w_impl w)); done.
Qed.

(** ** Properties *)

(** [send] refuses a packet only when more than [m_send_queue_size] are
    queued and it has no priority; otherwise the framed packet is queued, at
    the front when it has priority and else at the end, so that without
    priority the queue never exceeds [m_send_queue_size + 1] packets, one more
    than the documented size. *)
Theorem send_queues packet prio w :
  ∃ b w', Connection_send packet prio w = Done b w' ∧
    w_impl w' = w_impl w ∧ w_trace w' = w_trace w ∧
    (b = false ↔ prio = false ∧
       (m_send_queue_size (w_impl w) < zlength (m_send_queue (w_conn w)))%Z) ∧
    m_send_queue (w_conn w') =
      (if b then
         if prio then set_header packet :: m_send_queue (w_conn w)
         else m_send_queue (w_conn w) ++ [set_header packet]
       else m_send_queue (w_conn w)) ∧
    (prio = false → b = true →
       (zlength (m_send_queue (w_conn w')) ≤ m_send_queue_size (w_impl w) + 1)%Z).
Proof.
  rewrite Connection_send_eq. unfold queue_full. case_decide as Hd.
  - eexists _, _. split; [done|]. split; [done|]. split; [done|]. done.
  - eexists _, _. split; [done|]. split; [done|]. split; [done|].
    split; [naive_solver|]. split; [done|]. intros -> _. simpl.
    rewrite zlength_app. unfold zlength in *; simpl. lia.
Qed.

(** C24: outside the states AUTHENTICATING and CONNECTED [sendPacket] sends
    nothing.  In them, whatever counts [::send] returns and whatever the other
    threads do meanwhile, the call that returns sent the bytes of the packet in
    order, without a gap and all of them, also when a user asks it to stop
    midway; only when the last [::send] failed it sent a prefix, and leaves the
    state SOCKET_ERROR.  It fails to return only when the operating system
    does, or by undefined behaviour after a failed [::send].  When [::send]
    takes some bytes each time, it returns. *)
Theorem sendPacket_sends_wire p w :
  (if decide (m_cstate (w_conn w) = CState.AUTHENTICATING ∨
              m_cstate (w_conn w) = CState.CONNECTED) then
     match Connection_sendPacket p w with
     | Done _ w' =>
         ∃ os, w_os w = os ++ w_os w' ∧
           (sent_bytes (w_trace w') = sent_bytes (w_trace w) ++ wire p ∨
            m_cstate (w_conn w') = CState.SOCKET_ERROR ∧
            ∃ n e, sent_bytes (w_trace w') = sent_bytes (w_trace w) ++ take n (wire p) ∧
              last os = Some (RSend (inl e)))
     | Fault f => f = Blocked ∨ f = UndefinedBehaviour ∧ ∃ e, RSend (inl e) ∈ w_os w
     end
   else Connection_sendPacket p w = Done () w) ∧
  ∀ ns t os,
    (m_cstate (w_conn w) = CState.AUTHENTICATING ∨ m_cstate (w_conn w) = CState.CONNECTED) →
    m_write_offset p ≤ length (m_buffer p) →
    Forall (λ n, 0 < n) ns → sum_list ns = length (wire p) →
    w_os w = map (λ n, RSend (inr (Z.of_nat n))) ns ++ RNow t :: os →
    ∃ w', Connection_sendPacket p w = Done () w' ∧
      sent_bytes (w_trace w') = sent_bytes (w_trace w) ++ wire p ∧
      m_last_sent_packet (w_conn w') = t.
Proof.
  split.
  - case_decide as Hst.
    + apply sendPacket_sends. naive_solver.
    + unfold Connection_sendPacket, get_conn, gets, mbind, M_bind.
      rewrite decide_True by naive_solver. done.
  - intros ns t os Hst Hp Hns Hsum Hos. apply wp_total_unit.
    eapply wp_mono; [by eapply sendPacket_complete|]. intros _ w' (-> & -> & _). done.
Qed.

(** The identifiers of [n] successive packets. *)
Fixpoint next_packet_ids (n : nat) : M (list Z) :=
  match n with
  | O => mret []
  | S n => id ← next_packet_id; ids ← next_packet_ids n; mret (id :: ids)
  end.

Lemma next_packet_ids_from n k w :
  packet_id_of (m_packet_id (w_impl w)) = (Z.of_nat k `mod` 65535 + 1)%Z →
  ∃ w', next_packet_ids n w =
    Done (map (λ i, Z.of_nat i `mod` 65535 + 1)%Z (seq k n)) w'.
Proof.
  revert k w. induction n as [|n IH]; intros k w Hid; [by eexists|].
  cbn [next_packet_ids seq map]. unfold mbind at 1, M_bind at 1.
  rewrite next_packet_id_eq. cbv beta zeta iota. rewrite Hid.
  set (w1 := _ <| w_impl ::= _ |>).
  destruct (IH (S k) w1) as [w' Heq].
  { unfold w1; simpl. unfold packet_id_of, uint16.
    pose proof (Z.mod_pos_bound (Z.of_nat k) 65535 ltac:(lia)) as Hk.
    rewrite <-(Nat.add_1_r k), Nat2Z.inj_add. change (Z.of_nat 1) with 1%Z.
    rewrite <-(Zplus_mod_idemp_l (Z.of_nat k) 1 65535).
    destruct (decide (Z.of_nat k `mod` 65535 = 65534)%Z) as [->|Hne]; [done|].
    rewrite (Z.mod_small _ (2 ^ 16)) by lia. rewrite decide_False by lia.
    rewrite (Z.mod_small (_ + 1) 65535) by lia. lia. }
  unfold mbind, M_bind. rewrite Heq. by eexists.
Qed.

(** C40: from a new client the packet identifiers are 1, 2, ..., 65535, 1, ...:
    never zero, and each differs from the 65534 before it. *)
Theorem packet_ids_cycle n w :
  m_packet_id (w_impl w) = 0%Z →
  ∃ w', next_packet_ids n w =
    Done (map (λ i, Z.of_nat i `mod` 65535 + 1)%Z (seq 0 n)) w'.
Proof. intros Hid. apply next_packet_ids_from. unfold packet_id_of. by rewrite Hid. Qed.

Lemma packet_ids_cycle_witness : ∃ w', next_packet_ids 3 test_world = Done [1; 2; 3]%Z w'.
Proof. apply (packet_ids_cycle 3 test_world). reflexivity. Defined.

(** Two calls of [::send] take one byte each. *)
Definition send_world : World :=
  test_world <| w_conn ::= λ c, c <| m_cstate := CState.CONNECTED |> <| m_socket := 4%Z |> |>
             <| w_os := [RSend (inr 1%Z); RSend (inr 1%Z); RNow 7%Z] |>.

Lemma sendPacket_sends_wire_witness :
  ∃ w', Connection_sendPacket (set_header pingreq_packet) send_world = Done () w' ∧
    sent_bytes (w_trace w') = [192; 0]%Z.
Proof.
  destruct (proj2 (sendPacket_sends_wire (set_header pingreq_packet) send_world)
    [1; 1] 7%Z []) as (w' & Hw & Hs & _).
  - right. reflexivity.
  - apply Nat.leb_le. reflexivity.
  - repeat constructor.
  - reflexivity.
  - reflexivity.
  - exists w'. split; [exact Hw|]. rewrite Hs. reflexivity.
Defined.

Lemma send_queues_witness :
  ∃ w', Connection_send pingreq_packet false send_world = Done true w'.
Proof.
  destruct (send_queues pingreq_packet false send_world) as (b & w' & Hw & _).
  destruct b; [by exists w'|].
  exfalso. vm_compute in Hw. discriminate Hw.
Defined.
