(* ===== verification/Writer.v ===== *)
(** * The write thread

    [Connection::popSendQueueBlocking] and [Connection::runWrite] of
    [src/Connection.cpp]: packets are taken from the front of the send queue
    and sent; and the condition variable the thread waits on, as a small
    transition system, to see how a request to stop can miss it. *)

From S2P Require Export Send.

(** [m_send_queue_cv.wait(lock, predicate)]: the other threads run until the
    predicate holds. *)
Fixpoint wait_until (predicate : World → bool) (os : list reply) (w : World) : result unit :=
  if predicate w then Done () (w <| w_os := os |>)
  else
    match os with
    | ROther a :: os => wait_until predicate os (apply_interference a w)
    | _ => Fault Blocked
    end.

Definition cv_wait (predicate : World → bool) : M unit :=
  λ w, wait_until predicate (w_os w) w.

(** [!m_send_queue.empty() || m_state == State::STOP]. *)
Definition send_queue_ready (w : World) : bool :=
  bool_decide (m_send_queue (w_conn w) ≠ []) ||
  bool_decide (m_cstate (w_conn w) = CState.STOP).

(** [front()] and [pop_front()]. *)
Definition pop_send_queue : M Packet :=
  queue ← get_conn m_send_queue;
  match queue with
  | [] => raise UndefinedBehaviour
  | packet :: queue => mod_conn (λ c, c <| m_send_queue := queue |>) ;; mret packet
  end.

Definition Connection_popSendQueueBlocking : M (option Packet) :=
  queue ← get_conn m_send_queue;
  if decide (queue ≠ []) then
    packet ← pop_send_queue; mret (Some packet)
  else
    cv_wait send_queue_ready ;;
    state ← get_conn m_cstate;
    if decide (state = CState.STOP) then mret None
    else packet ← pop_send_queue; mret (Some packet).

(** One iteration of the [while (true)]; [false] when the thread returns. *)
Definition runWrite_step : M bool :=
  state ← get_conn m_cstate;
  match state with
  | CState.AUTHENTICATING | CState.CONNECTED =>
      packet ← Connection_popSendQueueBlocking;
      match packet with
      | None => mret true
      | Some packet => Connection_sendPacket packet ;; mret true
      end
  | CState.STOP => mret false
  | _ => sys_sleep ;; mret true
  end.

(** The write thread, for [fuel] iterations; whether it returned. *)
Fixpoint runWrite (fuel : nat) : M bool :=
  match fuel with
  | O => mret false
  | S fuel =>
      continue ← runWrite_step;
      if continue : bool then runWrite fuel else mret true
  end.

(** ** Sending a whole queue *)

(** The answers that take each packet in the given pieces, one list each. *)
Fixpoint takes_all (l : list (list nat * Z)) (os : list reply) : list reply :=
  match l with
  | [] => os
  | (ns, t) :: l => takes ns t (takes_all l os)
  end.

(** The pieces make up the packet. *)
Definition in_pieces (p : Packet) (piece : list nat * Z) : Prop :=
  m_write_offset p ≤ length (m_buffer p) ∧
  Forall (λ n, 0 < n) piece.1 ∧ sum_list piece.1 = length (wire p).

Lemma wp_pop F packet queue w (Q : Packet → World → Prop) :
  m_send_queue (w_conn w) = packet :: queue →
  Q packet (w <| w_conn ::= λ c, c <| m_send_queue := queue |> |>) →
  wp F pop_send_queue Q w.
Proof.
  intros Hq HQ. apply wp_bind, wp_get_conn. rewrite Hq. by apply wp_bind, wp_mod_conn, wp_ret.
Qed.

Lemma wp_send_one packet queue piece os w :
  m_cstate (w_conn w) = CState.CONNECTED → m_send_queue (w_conn w) = packet :: queue →
  in_pieces packet piece → w_os w = takes piece.1 piece.2 os →
  wp (λ _, False) runWrite_step (λ b w', b = true ∧
    sent_bytes (w_trace w') = sent_bytes (w_trace w) ++ wire packet ∧
    m_send_queue (w_conn w') = queue ∧ m_cstate (w_conn w') = CState.CONNECTED ∧
    w_os w' = os ∧ w_impl w' = w_impl w ∧ w_joining w' = w_joining w) w.
Proof.
  intros Hst Hq (Hp & Hns & Hsum) Hos. apply wp_bind, wp_get_conn. rewrite Hst.
  apply wp_bind. apply wp_bind, wp_get_conn. rewrite decide_True by (by rewrite Hq).
  apply wp_bind. eapply wp_pop; [exact Hq|]. apply wp_ret, wp_bind.
  eapply wp_mono; [apply (sendPacket_complete packet piece.1 piece.2 os); [by right|done..]|].
  intros _ w1 (Hs & Hc & Hi & Hj & Hos1). apply wp_ret. rewrite Hc. by split_and!.
Qed.

Lemma wp_send_all packets pieces os fuel w (Q : bool → World → Prop) :
  m_cstate (w_conn w) = CState.CONNECTED → m_send_queue (w_conn w) = packets →
  Forall2 in_pieces packets pieces → w_os w = takes_all pieces os →
  (∀ w', sent_bytes (w_trace w') = sent_bytes (w_trace w) ++ concat (map wire packets) →
     m_send_queue (w_conn w') = [] → m_cstate (w_conn w') = CState.CONNECTED →
     w_os w' = os → w_impl w' = w_impl w → w_joining w' = w_joining w →
     wp (λ _, False) (runWrite fuel) Q w') →
  wp (λ _, False) (runWrite (length packets + fuel)) Q w.
Proof.
  intros Hst Hq Hp. revert w Hst Hq.
  induction Hp as [|packet [ns t] packets pieces Hp _ IH]; intros w Hst Hq Hos HQ.
  { apply HQ; try done. by rewrite app_nil_r. }
  cbn [length Nat.add runWrite]. apply wp_bind.
  eapply wp_mono; [by eapply wp_send_one|].
  intros b w1 (-> & Hs1 & Hq1 & Hst1 & Hos1 & Hi1 & Hj1). apply IH; try done.
  intros w2 Hs2 Hq2 Hst2 Hos2 Hi2 Hj2. apply HQ; try done; [|by rewrite Hi2|by rewrite Hj2].
  rewrite Hs2, Hs1. cbn [map concat]. by rewrite app_assoc.
Qed.

(** When the queue is empty the thread waits; a stop ends it. *)
Lemma wp_write_stop fuel os w :
  m_cstate (w_conn w) = CState.CONNECTED → m_send_queue (w_conn w) = [] →
  m_state (w_impl w) ≠ DISCONNECTED → w_joining w = false →
  w_os w = ROther AStop :: os →
  wp (λ _, False) (runWrite (S (S fuel))) (λ b w', b = true ∧
    sent_bytes (w_trace w') = sent_bytes (w_trace w)) w.
Proof.
  intros Hst Hq Hi Hj Hos. cbn [runWrite]. apply wp_bind. apply wp_bind, wp_get_conn.
  rewrite Hst. apply wp_bind. apply wp_bind, wp_get_conn.
  rewrite decide_False by (rewrite Hq; auto). apply wp_bind.
  unfold wp at 1, cv_wait. rewrite Hos. cbn [wait_until].
  assert (send_queue_ready w = false) as ->.
  { unfold send_queue_ready. by rewrite Hq, Hst. }
  cbn [apply_interference]. rewrite decide_False by (intros [?|?]; congruence).
  set (w1 := _ <| w_trace ::= _ |>). assert (send_queue_ready w1 = true) as Hready.
  { unfold send_queue_ready. cbn. by rewrite orb_true_r. }
  replace (wait_until send_queue_ready os w1) with (Done () (w1 <| w_os := os |>))
    by (destruct os; cbn [wait_until]; by rewrite Hready).
  cbv beta iota. apply wp_bind, wp_get_conn.
  rewrite decide_True by done. apply wp_ret, wp_ret. cbv iota.
  apply wp_bind. apply wp_bind, wp_get_conn, wp_ret. split; [done|]. subst w1.
  cbn [w_trace set_field]. by rewrite sent_bytes_app, sent_bytes_disconnect, app_nil_r.
Qed.

(** ** The condition variable

    The write thread holds the mutex of the send queue from before it
    evaluates the predicate until it waits, in one indivisible step with the
    latter; the destructor of the connection sets the state and notifies
    without taking the mutex.  One step of either thread at a time. *)
Inductive writer_pc :=
  | WCheck                   (** about to evaluate the predicate of [wait] *)
  | WBlock (ready : bool)    (** evaluated it, still holding the mutex *)
  | WWaiting                 (** waiting for a notification *)
  | WDone.                   (** left [popSendQueueBlocking] *)

Inductive dtor_pc :=
  | DSet      (** about to set the state to STOP *)
  | DNotify   (** about to notify *)
  | DJoin     (** waiting for the write thread *)
  | DDone.

Record handshake := mkHandshake {
  h_stop : bool;         (** [m_state == State::STOP] *)
  h_empty : bool;        (** [m_send_queue.empty()] *)
  h_writer : writer_pc;
  h_dtor : dtor_pc
}.

(** [wait(lock, predicate)] is [while (!predicate()) wait(lock);]; there are
    no spurious wake-ups here. *)
Inductive handshake_step : handshake → handshake → Prop :=
  | writer_checks stop empty d :
      handshake_step (mkHandshake stop empty WCheck d)
        (mkHandshake stop empty (WBlock (negb empty || stop)) d)
  | writer_leaves stop empty d :
      handshake_step (mkHandshake stop empty (WBlock true) d) (mkHandshake stop empty WDone d)
  | writer_waits stop empty d :
      handshake_step (mkHandshake stop empty (WBlock false) d)
        (mkHandshake stop empty WWaiting d)
  | dtor_sets stop empty wpc :
      handshake_step (mkHandshake stop empty wpc DSet) (mkHandshake true empty wpc DNotify)
  | dtor_notifies_waiting stop empty :
      handshake_step (mkHandshake stop empty WWaiting DNotify)
        (mkHandshake stop empty WCheck DJoin)
  | dtor_notifies_nobody stop empty wpc :
      wpc ≠ WWaiting →
      handshake_step (mkHandshake stop empty wpc DNotify) (mkHandshake stop empty wpc DJoin)
  | dtor_joins stop empty :
      handshake_step (mkHandshake stop empty WDone DJoin) (mkHandshake stop empty WDone DDone).

(** The writer starts to wait on an empty queue; the destructor starts. *)
Definition handshake_start : handshake := mkHandshake false true WCheck DSet.

(** Once the destructor has begun, the state is STOP. *)
Lemma handshake_stop s :
  rtc handshake_step handshake_start s → h_dtor s ≠ DSet → h_stop s = true.
Proof.
  intros Hs. assert (h_dtor handshake_start ≠ DSet → h_stop handshake_start = true) as H0 by done.
  revert H0. induction Hs as [|s1 s2 s3 Hstep _ IH]; [done|]. intros H1. apply IH.
  destruct Hstep; cbn in *; auto.
Qed.

(** Nothing can happen any more. *)
Definition stuck (s : handshake) : Prop := ∀ s', ¬ handshake_step s s'.

(** ** Properties *)

(** C15: the write thread sends the packets of the queue completely and in
    order, in whatever pieces [::send] takes them, and then waits; a request to
    stop while it waits ends it, and nothing more is sent. *)
Theorem runWrite_sends_queue packets pieces os w :
  m_cstate (w_conn w) = CState.CONNECTED → m_send_queue (w_conn w) = packets →
  m_state (w_impl w) ≠ DISCONNECTED → w_joining w = false →
  Forall2 in_pieces packets pieces →
  w_os w = takes_all pieces (ROther AStop :: os) →
  ∃ w', runWrite (length packets + 2) w = Done true w' ∧
    sent_bytes (w_trace w') = sent_bytes (w_trace w) ++ concat (map wire packets).
Proof.
  intros Hst Hq Hdis Hj Hp Hos.
  destruct (wp_total (runWrite (length packets + 2)) (λ b w', b = true ∧
    sent_bytes (w_trace w') = sent_bytes (w_trace w) ++ concat (map wire packets)) w)
    as (b & w' & Hrun & -> & Hs); [|by exists w'].
  eapply wp_send_all; [done|done|exact Hp|exact Hos|].
  intros w1 Hs1 Hq1 Hst1 Hos1 Hi1 Hj1. eapply wp_mono.
  { by apply (wp_write_stop 0 os); try done; rewrite ?Hi1, ?Hj1. }
  intros b w2 [-> Hs2]. split; [done|]. by rewrite Hs2.
Qed.

(** A flaw: the stop can fall between the evaluation of the predicate and
    the wait; its notification then wakes nobody, and the write thread and the
    destructor, which joins it, wait for ever.  Every other end of the
    handshake is a proper one. *)
Theorem stop_notification_is_lost :
  (∃ s, rtc handshake_step handshake_start s ∧ stuck s ∧ h_dtor s = DJoin ∧
     h_writer s = WWaiting) ∧
  (∀ s, rtc handshake_step handshake_start s → stuck s →
     h_dtor s = DDone ∨ (h_dtor s = DJoin ∧ h_writer s = WWaiting ∧ h_stop s = true)).
Proof.
  split.
  - exists (mkHandshake true true WWaiting DJoin). split; [|split; [|done]].
    + eapply rtc_l; [apply writer_checks|]. eapply rtc_l; [apply dtor_sets|].
      eapply rtc_l; [by apply dtor_notifies_nobody|]. apply rtc_once, writer_waits.
    + intros s'. inversion 1.
  - intros s Hs Hstuck. pose proof (handshake_stop s Hs) as Hstop. destruct s as [stop empty wpc d]. cbn in *.
    destruct d; [exfalso; eapply Hstuck, dtor_sets| | |by left].
    + exfalso. destruct wpc; eapply Hstuck;
        first [apply dtor_notifies_waiting | apply dtor_notifies_nobody; done].
    + right. destruct wpc as [|[]| |]; [..|by auto|]; exfalso; eapply Hstuck; constructor.
Qed.

(** ** The properties at concrete states *)

(** PINGREQ in two pieces, then a PUBLISH in one. *)
Definition writing_world (pieces : list (list nat * Z)) : World :=
  test_world <| w_impl ::= λ i, i <| m_state := CONNECTED |> |>
    <| w_conn ::= λ c, c <| m_cstate := CState.CONNECTED |>
         <| m_send_queue := [set_header pingreq_packet;
                             set_header (publish_packet "t" "m" false)] |> |>
    <| w_os := takes_all pieces [ROther AStop] |>.

Lemma runWrite_sends_queue_witness :
  ∃ w', runWrite 4 (writing_world [([1; 1], 5%Z); ([6], 6%Z)]) = Done true w' ∧
    sent_bytes (w_trace w') = [192; 0; 48; 4; 0; 1; 116; 109]%Z.
Proof.
  destruct (runWrite_sends_queue _ [([1; 1], 5%Z); ([6], 6%Z)] []
    (writing_world [([1; 1], 5%Z); ([6], 6%Z)]) eq_refl eq_refl) as (w' & Hrun & Hs).
  - discriminate.
  - reflexivity.
  - repeat constructor; apply Nat.leb_le; reflexivity.
  - reflexivity.
  - exists w'. split; [exact Hrun|]. rewrite Hs. reflexivity.
Defined.

Lemma stop_notification_is_lost_witness :
  ∃ s, stuck s ∧ h_dtor s = DJoin ∧ h_writer s = WWaiting.
Proof.
  destruct stop_notification_is_lost as [(s & _ & Hs) _]. exists s. exact Hs.
Defined.
