(* ===== verification/PublishQueue.v ===== *)
(** * The publish queue

    [Impl::toPublishQueue] of [src/Client.cpp]: messages published while the
    client is connecting are kept in [m_publish_queue]. *)

From S2P Require Export Wp.

Section queue.
Context {A : Type}.
Implicit Types (q : list A).

(** [std::deque]: taking an element from an empty deque is undefined. *)
Definition pop_front q : option (list A) :=
  match q with [] => None | _ :: q => Some q end.
Definition pop_back q : option (list A) :=
  match q with [] => None | _ => Some (removelast q) end.

(** ** Specification

    The queue of at most [n] messages that published [ms] should hold. *)
Definition fifo_spec (n : nat) (ms : list A) : list A :=
  drop (length ms - n) ms.
Definition lifo_spec (n : nat) (ms : list A) : list A :=
  if decide (length ms ≤ n) then ms
  else take (n - 1) ms ++ drop (length ms - 1) ms.
End queue.

Definition Impl_toPublishQueue (topic message : string) (retain : bool) : M bool :=
  state ← get_impl m_state;
  if decide (state ≠ CONNECTING) then
    log ERROR [PStr "Cannot queue publish message when not connecting"] ;;
    mret false
  else
    type ← get_impl m_publish_queue_type;
    limit ← get_impl m_publish_queue_size;
    queue ← get_impl m_publish_queue;
    let push : M bool :=
      mod_impl (λ i, i <| m_publish_queue ::= λ q, q ++ [(topic, message, retain)] |>) ;;
      mret true in
    match type with
    | DROP =>
        log WARNING [PStr "Publish queue is disabled, dropping message"] ;;
        mret false
    | FIFO =>
        when (bool_decide (limit ≤ zlength queue)%Z)
          (log WARNING [PStr "Publish queue is full, dropping oldest message on queue"] ;;
           queue ← from_option_ub (pop_front queue);
           mod_impl (λ i, i <| m_publish_queue := queue |>)) ;;
        push
    | LIFO =>
        when (bool_decide (limit ≤ zlength queue)%Z)
          (log WARNING [PStr "Publish queue is full, dropping newest message on queue"] ;;
           queue ← from_option_ub (pop_back queue);
           mod_impl (λ i, i <| m_publish_queue := queue |>)) ;;
        push
    end.

(** The queue after a message, [None] when the code pops an empty deque. *)
Definition queue_step {A} (type : PublishQueueType) (limit : Z) (q : list A) (x : A)
    : option (list A) :=
  match type with
  | DROP => Some q
  | FIFO =>
      q ← (if decide (limit ≤ zlength q)%Z then pop_front q else Some q);
      Some (q ++ [x])
  | LIFO =>
      q ← (if decide (limit ≤ zlength q)%Z then pop_back q else Some q);
      Some (q ++ [x])
  end.

(** [publish] is called with each message in turn. *)
Fixpoint toPublishQueue_all (ms : list (string * string * bool)) : M unit :=
  match ms with
  | [] => mret ()
  | (topic, message, retain) :: ms =>
      _ ← Impl_toPublishQueue topic message retain; toPublishQueue_all ms
  end.

(** What the two bounded cases share: make room with [pop], then push. *)
Lemma wp_pop_push F (pop : list (string * string * bool) → option (list (string * string * bool)))
    limit msg x w :
  let q := m_publish_queue (w_impl w) in
  let step := q ← (if decide (limit ≤ zlength q)%Z then pop q else Some q); Some (q ++ [x]) in
  (step = None → F UndefinedBehaviour) →
  wp F (when (bool_decide (limit ≤ zlength q)%Z)
          (log WARNING msg ;;
           queue ← from_option_ub (pop q);
           mod_impl (λ i, i <| m_publish_queue := queue |>)) ;;
        (mod_impl (λ i, i <| m_publish_queue ::= λ q, q ++ [x] |>) ;; mret true))
    (λ b w', ∃ q' tr, step = Some q' ∧ b = true ∧
      w' = w <| w_impl ::= λ i, i <| m_publish_queue := q' |> |>
             <| w_trace := w_trace w ++ tr |>) w.
Proof.
  intros q step HF. unfold step in *. apply wp_bind, wp_when; intros Hb.
  - apply bool_decide_eq_true in Hb. rewrite decide_True in * by done.
    apply wp_bind, wp_log, wp_bind, wp_from_option_ub.
    + intros q' Hq. apply wp_mod_impl, wp_bind, wp_mod_impl, wp_ret.
      rewrite Hq. by eexists _, _.
    + intros Hq. apply HF. by rewrite Hq.
  - apply bool_decide_eq_false in Hb. rewrite decide_False in * by done.
    apply wp_bind, wp_mod_impl, wp_ret. exists (q ++ [x]), [].
    split; [done|]. split; [done|]. rewrite app_nil_r. by destruct w as [[] ??????].
Qed.

Lemma toPublishQueue_connecting F topic message retain w :
  m_state (w_impl w) = CONNECTING →
  let type := m_publish_queue_type (w_impl w) in
  let step := queue_step type (m_publish_queue_size (w_impl w))
                (m_publish_queue (w_impl w)) (topic, message, retain) in
  (step = None → F UndefinedBehaviour) →
  wp F (Impl_toPublishQueue topic message retain) (λ b w',
    ∃ q tr, step = Some q ∧ b = bool_decide (type ≠ DROP) ∧
      w' = w <| w_impl ::= λ i, i <| m_publish_queue := q |> |>
             <| w_trace := w_trace w ++ tr |>) w.
Proof.
  intros Hst type step HF. unfold Impl_toPublishQueue.
  apply wp_bind, wp_get_impl. rewrite decide_False by naive_solver.
  do 3 apply wp_bind, wp_get_impl. fold type. unfold step in *. clear step.
  destruct type; [|by apply wp_pop_push..].
  apply wp_bind, wp_log, wp_ret. eexists _, _. split; [done|]. split; [done|].
  by destruct w as [[] ??????].
Qed.

(** ** Steps of the queue against the specification *)

Section spec.
Context {A : Type}.
Implicit Types (ms q : list A).

Lemma length_fifo_spec n ms : length (fifo_spec n ms) = min n (length ms).
Proof. unfold fifo_spec. rewrite length_drop. lia. Qed.

Lemma length_lifo_spec n ms :
  0 < n → length (lifo_spec n ms) = min n (length ms).
Proof.
  intros. unfold lifo_spec. case_decide; [lia|].
  rewrite length_app, length_take, length_drop. lia.
Qed.

Lemma fifo_step n ms x :
  0 < n →
  queue_step FIFO (Z.of_nat n) (fifo_spec n ms) x = Some (fifo_spec n (ms ++ [x])).
Proof.
  intros Hn. unfold queue_step, zlength. rewrite length_fifo_spec.
  unfold fifo_spec. rewrite length_app; simpl.
  case_decide as Hd.
  - rewrite drop_app_le by lia.
    replace (length ms + 1 - n) with (S (length ms - n)) by lia.
    destruct (drop (length ms - n) ms) as [|y ys] eqn:Hl.
    + apply (f_equal length) in Hl. rewrite length_drop in Hl. simpl in Hl. lia.
    + simpl. do 2 f_equal. rewrite <-Nat.add_1_r, <-drop_drop, Hl. done.
  - simpl. replace (length ms - n) with 0 by lia.
    by replace (length ms + 1 - n) with 0 by lia.
Qed.

Lemma pop_back_snoc q x : pop_back (q ++ [x]) = Some q.
Proof. unfold pop_back. destruct (q ++ [x]) eqn:Hq; [by destruct q|].
  by rewrite <-Hq, removelast_last. Qed.

Lemma lifo_spec_full n ms :
  0 < n ≤ length ms →
  ∃ y, lifo_spec n ms = take (n - 1) ms ++ [y] ∧
    ∀ x, lifo_spec n (ms ++ [x]) = take (n - 1) ms ++ [x].
Proof.
  intros Hn. destruct ms as [|y ms _] using rev_ind; [simpl in *; lia|].
  rewrite length_app in Hn; simpl in Hn.
  exists y. unfold lifo_spec. split.
  - rewrite length_app, Nat.add_sub; simpl.
    rewrite (take_app_le ms), drop_app_length by lia.
    case_decide; [|done]. replace n with (S (length ms)) by lia.
    simpl. by rewrite Nat.sub_0_r, firstn_all.
  - intros x. rewrite !length_app; simpl. rewrite decide_False by lia.
    rewrite (take_app_le (ms ++ [y]) [x]) by (rewrite length_app; simpl; lia).
    f_equal. rewrite drop_app_length' by (rewrite length_app; simpl; lia). done.
Qed.

Lemma lifo_step n ms x :
  0 < n →
  queue_step LIFO (Z.of_nat n) (lifo_spec n ms) x = Some (lifo_spec n (ms ++ [x])).
Proof.
  intros Hn. unfold queue_step, zlength. rewrite length_lifo_spec by done.
  case_decide as Hd.
  - destruct (lifo_spec_full n ms) as (y & -> & ->); [lia|]. by rewrite pop_back_snoc.
  - simpl. unfold lifo_spec. rewrite length_app; simpl. by rewrite !decide_True by lia.
Qed.

(** The specification of the queue type [FIFO] or [LIFO]. *)
Definition queue_spec (type : PublishQueueType) (n : nat) ms : list A :=
  match type with DROP => [] | FIFO => fifo_spec n ms | LIFO => lifo_spec n ms end.

Lemma queue_spec_step type n ms x :
  type ≠ DROP → 0 < n →
  queue_step type (Z.of_nat n) (queue_spec type n ms) x =
    Some (queue_spec type n (ms ++ [x])).
Proof. destruct type; [done|intros _; apply fifo_step|intros _; apply lifo_step]. Qed.

Lemma queue_spec_nil type n : queue_spec type n [] = [].
Proof.
  destruct type; unfold queue_spec, fifo_spec, lifo_spec; [done|by rewrite drop_nil|].
  done.
Qed.

Lemma length_queue_spec type n ms :
  0 < n → length (queue_spec type n ms) ≤ n.
Proof.
  intros. destruct type; simpl; [lia| |].
  - rewrite length_fifo_spec. lia.
  - rewrite length_lifo_spec by done. lia.
Qed.

(** A step keeps a bounded queue bounded. *)
Lemma queue_step_bound type limit q x q' :
  (0 < limit)%Z → (zlength q ≤ limit)%Z →
  queue_step type limit q x = Some q' → (zlength q' ≤ limit)%Z.
Proof.
  unfold queue_step, zlength. intros Hl Hq.
  destruct type; [by intros [= <-]|..]; case_decide as Hd; simpl.
  - destruct q as [|y q]; [done|]. simpl. intros [= <-].
    rewrite length_app. simpl in *. lia.
  - intros [= <-]. rewrite length_app. simpl. lia.
  - destruct q as [|y q _] using rev_ind; [done|].
    rewrite pop_back_snoc. simpl. intros [= <-].
    rewrite length_app in *. simpl in *. lia.
  - intros [= <-]. rewrite length_app. simpl. lia.
Qed.

Lemma queue_step_total type limit q x :
  (0 < limit)%Z → is_Some (queue_step type limit q x).
Proof.
  intros Hl. unfold queue_step. destruct type; [by eexists|..].
  all: case_decide as Hd; [|by eexists].
  all: destruct q; [unfold zlength in Hd; simpl in Hd; lia|by eexists].
Qed.

(** The step is undefined exactly on an empty queue without room. *)
Lemma queue_step_None type limit q x :
  queue_step type limit q x = None ↔ type ≠ DROP ∧ q = [] ∧ (limit ≤ 0)%Z.
Proof.
  unfold queue_step. destruct type; [naive_solver|..]; case_decide as Hd;
    destruct q; unfold zlength in Hd; simpl in *;
    (split; [discriminate || (intros _; split_and!; done || lia)|]);
    intros (? & ? & ?); done || lia.
Qed.

(** A message that is not refused becomes the last one. *)
Lemma queue_step_last type limit q x q' :
  type ≠ DROP → queue_step type limit q x = Some q' → ∃ q0, q' = q0 ++ [x].
Proof.
  unfold queue_step. intros Ht. destruct type; [done|..];
    intros (q1 & _ & [= <-])%bind_Some; by eexists.
Qed.
End spec.

Lemma toPublishQueue_all_spec F type n ms ms0 w :
  type ≠ DROP → 0 < n →
  m_state (w_impl w) = CONNECTING →
  m_publish_queue_type (w_impl w) = type →
  m_publish_queue_size (w_impl w) = Z.of_nat n →
  m_publish_queue (w_impl w) = queue_spec type n ms0 →
  wp F (toPublishQueue_all ms) (λ _ w', ∃ tr,
    w' = w <| w_impl ::= λ i, i <| m_publish_queue := queue_spec type n (ms0 ++ ms) |> |>
           <| w_trace := w_trace w ++ tr |>) w.
Proof.
  intros Ht Hn. revert ms0 w.
  induction ms as [|[[topic message] retain] ms IH]; intros ms0 w Hst Hty Hsz Hq.
  - apply wp_ret. exists []. rewrite !app_nil_r, <-Hq. by destruct w as [[] ??????].
  - cbn [toPublishQueue_all]. apply wp_bind. eapply wp_mono.
    { apply toPublishQueue_connecting; [done|].
      rewrite Hty, Hsz, Hq, queue_spec_step by done. done. }
    intros b w1 (q & tr & Hstep & _ & ->).
    rewrite Hty, Hsz, Hq, queue_spec_step in Hstep by done. injection Hstep as <-.
    eapply wp_mono; [by apply (IH (ms0 ++ [(topic, message, retain)]))|].
    intros _ w2 [tr2 ->]. exists (tr ++ tr2). simpl.
    by rewrite <-!app_assoc.
Qed.

(** ** Properties *)

(** C22: a queue of [n > 0] messages keeps, of any sequence published while
    connecting, the newest [n] in order ([FIFO]), or the oldest [n - 1] and the
    newest ([LIFO]); every call succeeds. *)
Theorem publish_queue_keeps type n ms w :
  type ≠ DROP → 0 < n →
  m_state (w_impl w) = CONNECTING →
  m_publish_queue_type (w_impl w) = type →
  m_publish_queue_size (w_impl w) = Z.of_nat n →
  m_publish_queue (w_impl w) = [] →
  ∃ w', toPublishQueue_all ms w = Done () w' ∧
    m_publish_queue (w_impl w') =
      (match type with
       | DROP => []
       | FIFO => drop (length ms - n) ms
       | LIFO =>
           if decide (length ms ≤ n) then ms
           else take (n - 1) ms ++ drop (length ms - 1) ms
       end) ∧
    length (m_publish_queue (w_impl w')) = min n (length ms).
Proof.
  intros Ht Hn Hst Hty Hsz Hq. apply wp_total_unit.
  eapply wp_mono; [apply (toPublishQueue_all_spec _ type n ms []); try done|].
  { by rewrite queue_spec_nil. }
  intros _ w' [tr ->]. cbn. split; [by destruct type|].
  destruct type; [done|apply length_fifo_spec|by apply length_lifo_spec].
Qed.

Definition queue_world (type : PublishQueueType) (size : Z) : World :=
  test_world <| w_impl ::= λ i, i <| m_state := CONNECTING |>
    <| m_publish_queue_type := type |> <| m_publish_queue_size := size |> |>.

Lemma publish_queue_keeps_witness :
  ∃ w', toPublishQueue_all (map (λ m, ("t", m, false)) ["1"; "2"; "3"; "4"])%string
          (queue_world LIFO 3) = Done () w' ∧
    m_publish_queue (w_impl w') = map (λ m, ("t", m, false)) ["1"; "2"; "4"]%string.
Proof.
  destruct (publish_queue_keeps LIFO 3
    (map (λ m, ("t", m, false)) ["1"; "2"; "3"; "4"])%string (queue_world LIFO 3))
    as (w' & Hw & Hq & _).
  - discriminate.
  - lia.
  - reflexivity.
  - reflexivity.
  - reflexivity.
  - reflexivity.
  - exists w'. split; [exact Hw|]. rewrite Hq. reflexivity.
Defined.

(** The result of a message in any state of the queue: refused unless
    connecting or when the queue is disabled, and otherwise queued last; but
    with the size 0 (the default) an enabled queue takes an element from an
    empty deque, which is undefined behaviour.  No other call is. *)
Theorem toPublishQueue_result topic message retain w :
  let i := w_impl w in
  (Impl_toPublishQueue topic message retain w = Fault UndefinedBehaviour ↔
    m_state i = CONNECTING ∧ m_publish_queue_type i ≠ DROP ∧
    m_publish_queue i = [] ∧ (m_publish_queue_size i ≤ 0)%Z) ∧
  match Impl_toPublishQueue topic message retain w with
  | Fault f => f = UndefinedBehaviour
  | Done b w' =>
      b = bool_decide (m_state i = CONNECTING ∧ m_publish_queue_type i ≠ DROP) ∧
      if b then ∃ q, m_publish_queue (w_impl w') = q ++ [(topic, message, retain)]
      else w_impl w' = i
  end.
Proof.
  intros i. destruct (decide (m_state i = CONNECTING)) as [Hst|Hst].
  - set (step := queue_step (m_publish_queue_type i) (m_publish_queue_size i)
      (m_publish_queue i) (topic, message, retain)).
    pose proof (toPublishQueue_connecting (λ f, f = UndefinedBehaviour ∧ step = None)
      topic message retain w Hst (λ H, conj eq_refl H)) as Hwp.
    pose proof (queue_step_None (m_publish_queue_type i) (m_publish_queue_size i)
      (m_publish_queue i) (topic, message, retain)) as Hnone. fold step in Hnone.
    unfold wp in Hwp. destruct (Impl_toPublishQueue _ _ _ _) as [b w'|f].
    + destruct Hwp as (q & tr & Hstep & -> & ->). split.
      * split; [discriminate|]. intros [_ Hn]. apply Hnone in Hn.
        unfold step in Hn. fold i in Hstep. congruence.
      * split; [by apply bool_decide_ext; naive_solver|]. fold i in Hstep |- *.
        case_bool_decide as Hty; cbn; [by eapply queue_step_last|].
        rewrite Hty in Hstep. simpl in Hstep. injection Hstep as <-. unfold i. by destruct (w_impl w).
    + destruct Hwp as [-> Hn]. split; [|done]. split; [|done]. intros _. split; [done|]. by apply Hnone.
  - assert (∃ w', Impl_toPublishQueue topic message retain w = Done false w' ∧
      w_impl w' = i) as (w' & -> & Hw').
    { destruct (wp_total (Impl_toPublishQueue topic message retain)
        (λ b w', b = false ∧ w_impl w' = i) w) as (b & w' & Hw & -> & Hi);
        [|by eexists].
      apply wp_bind, wp_get_impl. rewrite decide_True by done.
      by apply wp_bind, wp_log, wp_ret. }
    split; [split; [discriminate|naive_solver]|]. by rewrite bool_decide_false by naive_solver.
Qed.
