(* ===== verification/Lifecycle.v ===== *)
(** * Lifetime of the connection object

    The destructor of [Connection], and [Impl::connect] and
    [Impl::disconnect], which make and destroy it ([src/Connection.cpp]). *)

From S2P Require Export Send.

(** The thread a function runs on. *)
Inductive thread := User | Reader.

(** The [State::STOP] case of [runRead]: the last thing the read thread does. *)
Definition runRead_stop : M unit :=
  fd ← get_conn m_socket;
  when (bool_decide (fd ≠ INVALID_SOCKET))
    (closesocket fd ;; mod_conn (λ c, c <| m_socket := INVALID_SOCKET |>)).

(** [m_thread_read.join()] and [m_thread_write.join()]: they return when both
    threads have ended, the last thing of which is [runRead_stop]; if a thread
    does not end, they wait for ever.  When that is, is the subject of
    [Threads.v]. *)
Definition join_threads : M unit :=
  threads_end ← gets w_threads_end;
  if threads_end : bool then runRead_stop else raise Deadlock.

(** The destructor.  On the read thread itself [join()] throws, and an exception
    that leaves a destructor ends the program. *)
Definition Connection_dtor (tid : thread) : M unit :=
  mod_conn (λ c, c <| m_cstate := CState.STOP |>) ;;
  match tid with
  | Reader => raise Terminated
  | User =>
      join_threads ;;
      mod_conn (λ c, c <| m_host_resolved := None |>)
  end.

(** [m_connection = std::make_unique<Connection>(...)]; the code only calls
    it when there is no connection. *)
Definition Impl_connect : M unit :=
  live ← get_impl m_connection;
  if live : bool then raise Unsupported
  else
    backoff ← get_impl m_connection_backoff;
    mod_conn (λ _, Connection_new backoff) ;;
    mod_impl (λ i, i <| m_connection := true |>).

(** [m_connection.reset()] sets the pointer to null, then destroys. *)
Definition Impl_disconnect (tid : thread) : M unit :=
  mod_impl (λ i, i <| m_subscriptions := ∅ |>) ;;
  mod_impl (λ i, i <| m_publish_queue := [] |>) ;;
  live ← get_impl m_connection;
  mod_impl (λ i, i <| m_connection := false |>) ;;
  when live (Connection_dtor tid).
