(* ===== verification/Client.v ===== *)
(** * The client

    The public methods of [TrueMQTT::Client] and the callbacks of the
    connection into [Client::Impl] ([src/Client.cpp]).  The public methods run
    on a user's thread, [connectionStateChange] and [messageReceived] on the
    read thread. *)

From S2P Require Export Registry PublishQueue Lifecycle.

(** ** Setters *)

Definition Client_setLogger (log_level : LogLevel) (logger : callback) : M unit :=
  mod_impl (λ i, i <| m_log_level := log_level |>) ;;
  mod_impl (λ i, i <| m_logger := logger |>).

Definition Client_setLastWill (topic message : string) (retain : bool) : M unit :=
  state ← get_impl m_state;
  if decide (state ≠ DISCONNECTED) then
    log ERROR [PStr "Cannot set last will when not disconnected"]
  else
    mod_impl (λ i, i <| m_last_will_topic := topic |>) ;;
    mod_impl (λ i, i <| m_last_will_message := message |>) ;;
    mod_impl (λ i, i <| m_last_will_retain := retain |>).

Definition Client_setErrorCallback (cb : callback) : M unit :=
  mod_impl (λ i, i <| m_error_callback := cb |>).

Definition Client_setPublishQueue (queue_type : PublishQueueType) (size : Z) : M unit :=
  state ← get_impl m_state;
  if decide (state ≠ DISCONNECTED) then
    log ERROR [PStr "Cannot set publish queue when not disconnected"]
  else
    mod_impl (λ i, i <| m_publish_queue_type := queue_type |>) ;;
    mod_impl (λ i, i <| m_publish_queue_size := size |>).

Definition Client_setSendQueue (size : Z) : M unit :=
  state ← get_impl m_state;
  if decide (state ≠ DISCONNECTED) then
    log ERROR [PStr "Cannot set send queue when not disconnected"]
  else mod_impl (λ i, i <| m_send_queue_size := size |>).

Definition Client_setStateChangeCallback (cb : callback) : M unit :=
  mod_impl (λ i, i <| m_state_change_callback := cb |>).

(** ** Connecting and disconnecting *)

Definition Client_connect : M unit :=
  state ← get_impl m_state;
  if decide (state ≠ DISCONNECTED) then
    log ERROR [PStr "Can't connect when already connecting / connected"]
  else
    host ← get_impl m_host;
    port ← get_impl m_port;
    log INFO [PStr "Connecting to "; PStr host; PStr ":"; PNum port] ;;
    mod_impl (λ i, i <| m_state := CONNECTING |>) ;;
    call_state_change ;;
    Impl_connect.

Definition Client_disconnect : M unit :=
  state ← get_impl m_state;
  if decide (state = DISCONNECTED) then
    log ERROR [PStr "Can't disconnect when already disconnected"]
  else
    log INFO [PStr "Disconnecting from broker"] ;;
    mod_impl (λ i, i <| m_state := DISCONNECTED |>) ;;
    call_state_change ;;
    Impl_disconnect User.

(** The destructor. *)
Definition Client_dtor : M unit := Client_disconnect.

(** ** Publishing *)

Definition Client_publish (topic message : string) (retain : bool) : M bool :=
  state ← get_impl m_state;
  match state with
  | DISCONNECTED =>
      log ERROR [PStr "Cannot publish when disconnected"] ;; mret false
  | CONNECTING => Impl_toPublishQueue topic message retain
  | CONNECTED => Impl_sendPublish topic message retain
  end.

(** ** Subscribing *)

Definition Client_subscribe (topic : string) (cb : callback) : M unit :=
  state ← get_impl m_state;
  if decide (state = DISCONNECTED) then
    log ERROR [PStr "Cannot subscribe when disconnected"]
  else
    subscriptions ← get_impl m_subscriptions;
    subscriptions ← from_option_ub (store_add topic cb subscriptions);
    mod_impl (λ i, i <| m_subscriptions := subscriptions |>) ;;
    mod_impl (λ i, i <| m_subscription_topics ::= set_emplace topic |>) ;;
    state ← get_impl m_state;
    if decide (state = CONNECTED) then
      sent ← Impl_sendSubscribe topic;
      when (negb sent)
        (log ERROR [PStr "Failed to send subscribe message. Closing connection to broker and trying again"] ;;
         Impl_disconnect User ;; Impl_connect)
    else mret ().

Definition Client_unsubscribe (topic : string) : M unit :=
  state ← get_impl m_state;
  if decide (state = DISCONNECTED) then
    log ERROR [PStr "Cannot unsubscribe when disconnected"]
  else
    topics ← get_impl m_subscription_topics;
    if negb (set_find topic topics) then
      log ERROR [PStr "Cannot unsubscribe from topic '"; PStr topic;
                 PStr "' because we are not subscribed to it"]
    else
      subscriptions ← get_impl m_subscriptions;
      subscriptions ← from_option_ub (store_remove topic subscriptions);
      mod_impl (λ i, i <| m_subscriptions := subscriptions |>) ;;
      mod_impl (λ i, i <| m_subscription_topics ::= set_erase topic |>) ;;
      state ← get_impl m_state;
      if decide (state = CONNECTED) then
        sent ← Impl_sendUnsubscribe topic;
        when (negb sent)
          (log ERROR [PStr "Failed to send subscribe message. Closing connection to broker and trying again"] ;;
           Impl_disconnect User ;; Impl_connect)
      else mret ().

(** ** Callbacks of the connection *)

(** The [for] loop that restores subscriptions; whether it was completed. *)
Fixpoint resubscribe (topics : list string) : M bool :=
  match topics with
  | [] => mret true
  | subscription :: topics =>
      sent ← Impl_sendSubscribe subscription;
      if sent : bool then resubscribe topics else mret false
  end.

(** The [for] loop that flushes the publish queue. *)
Fixpoint flush (queue : list (string * string * bool)) : M unit :=
  match queue with
  | [] => mret ()
  | (topic, message, retain) :: queue =>
      sent ← Impl_sendPublish topic message retain;
      if sent : bool then flush queue
      else log ERROR [PStr "Failed to send queued publish message. Discarding rest of queue"]
  end.

Definition Impl_connectionStateChange (connected : bool) : M unit :=
  lock_state_mutex ;;
  if connected then
    log INFO [PStr "Connected to broker"] ;;
    mod_impl (λ i, i <| m_state := CONNECTED |>) ;;
    call_state_change ;;
    topics ← get_impl m_subscription_topics;
    restored ← resubscribe topics;
    if negb restored then
      log ERROR [PStr "Failed to send subscribe message. Closing connection to broker and trying again"] ;;
      Impl_disconnect Reader ;;
      Impl_connect
    else
      queue ← get_impl m_publish_queue;
      flush queue ;;
      mod_impl (λ i, i <| m_publish_queue := [] |>)
  else
    log INFO [PStr "Disconnected from broker"] ;;
    mod_impl (λ i, i <| m_state := CONNECTING |>) ;;
    call_state_change.

Definition Impl_messageReceived (topic message : string) : M unit :=
  lock_state_mutex ;;
  state ← get_impl m_state;
  if decide (state ≠ CONNECTED) then
    log ERROR [PStr "Received message while not connected"]
  else
    subscriptions ← get_impl m_subscriptions;
    for_each (λ cb, emit (EvMessage cb topic message)) (store_match topic subscriptions).

(** ** The client as a state machine *)

(** A call of a public method, or of the connection into the client. *)
Inductive client_op :=
  | OpSetLogger (l : LogLevel) (cb : callback)
  | OpSetLastWill (topic message : string) (retain : bool)
  | OpSetErrorCallback (cb : callback)
  | OpSetPublishQueue (t : PublishQueueType) (size : Z)
  | OpSetSendQueue (size : Z)
  | OpSetStateChangeCallback (cb : callback)
  | OpConnect
  | OpDisconnect
  | OpPublish (topic message : string) (retain : bool)
  | OpSubscribe (topic : string) (cb : callback)
  | OpUnsubscribe (topic : string)
  | OpStateChange (connected : bool)
  | OpMessage (topic message : string).

Definition run_op (op : client_op) : M unit :=
  match op with
  | OpSetLogger l cb => Client_setLogger l cb
  | OpSetLastWill t m r => Client_setLastWill t m r
  | OpSetErrorCallback cb => Client_setErrorCallback cb
  | OpSetPublishQueue t n => Client_setPublishQueue t n
  | OpSetSendQueue n => Client_setSendQueue n
  | OpSetStateChangeCallback cb => Client_setStateChangeCallback cb
  | OpConnect => Client_connect
  | OpDisconnect => Client_disconnect
  | OpPublish t m r => _ ← Client_publish t m r; mret ()
  | OpSubscribe t cb => Client_subscribe t cb
  | OpUnsubscribe t => Client_unsubscribe t
  | OpStateChange c => Impl_connectionStateChange c
  | OpMessage t m => Impl_messageReceived t m
  end.

(** The last two are made by the read thread, which runs while there is a
    connection; the size of a queue is a [size_t]. *)
Definition op_enabled (op : client_op) (w : World) : Prop :=
  match op with
  | OpStateChange _ | OpMessage _ _ => m_connection (w_impl w) = true
  | OpSetPublishQueue _ size | OpSetSendQueue size => (0 ≤ size)%Z
  | _ => True
  end.

(** Calls interleave with the read and write threads changing the connection,
    and whether they would end if asked to. *)
Inductive client_step : World → World → Prop :=
  | step_op op w w' :
      op_enabled op w → run_op op w = Done () w' → client_step w w'
  | step_connection (c : Connection) (fds : gset Z) (threads_end : bool) w :
      client_step w (w <| w_conn := c |> <| w_fds := fds |> <| w_threads_end := threads_end |>).

Inductive reachable : World → Prop :=
  | reachable_init host port id t b bm k :
      reachable (initial (Impl_new host port id t b bm k))
  | reachable_step w w' : reachable w → client_step w w' → reachable w'.
