(* ===== verification/ClientInv.v ===== *)
(** * The invariant of the client

    What holds between the calls of the client, whatever their order, and the
    only calls that can end in a fault. *)

From S2P Require Export Client.

Record impl_ok (i : Impl) : Prop := {
  ok_connection : m_connection i = true ↔ m_state i ≠ DISCONNECTED;
  ok_queue : m_publish_queue i ≠ [] → m_state i = CONNECTING;
  ok_queue_size : (zlength (m_publish_queue i) ≤ m_publish_queue_size i)%Z;
  ok_registry : registry_sub (m_subscription_topics i) (m_subscriptions i);
  ok_disconnected : m_state i = DISCONNECTED → m_subscriptions i = ∅;
  ok_packet_id : (0 ≤ m_packet_id i < 65536)%Z
}.

Definition client_ok (w : World) : Prop := impl_ok (w_impl w) ∧ w_joining w = false.

(** When a call may end in a fault. *)
Definition op_fault (op : client_op) (w : World) (f : fault) : Prop :=
  let i := w_impl w in
  match f, op with
  | UndefinedBehaviour, OpPublish _ _ _ =>
      m_state i = CONNECTING ∧ m_publish_queue_type i ≠ DROP ∧
      m_publish_queue_size i = 0%Z
  | UndefinedBehaviour, OpUnsubscribe topic =>
      topic ∈ m_subscription_topics i ∧
      store_cbs (m_subscriptions i) topic = []
  | Terminated, OpStateChange true =>
      (m_send_queue_size i + 1 <
        zlength (m_send_queue (w_conn w)) + zlength (m_subscription_topics i))%Z
  | Deadlock, OpDisconnect => m_state i ≠ DISCONNECTED ∧ w_threads_end w = false
  | Deadlock, (OpSubscribe _ _ | OpUnsubscribe _) =>
      m_state i = CONNECTED ∧ queue_full w ∧ w_threads_end w = false
  | _, _ => False
  end.

(** ** Sending *)

(** What sending changes: the queue of the connection, and perhaps the packet
    identifier. *)
Definition sent_state (w : World) (id : Z) (q : list Packet) : World :=
  w <| w_impl ::= λ i, i <| m_packet_id := id |> |>
    <| w_conn ::= λ c, c <| m_send_queue := q |> |>.

Lemma wp_Connection_send F p prio (Q : bool → World → Prop) w :
  (prio = false ∧ queue_full w → Q false w) →
  (¬ (prio = false ∧ queue_full w) → Q true (enqueue p prio w)) →
  wp F (Connection_send p prio) Q w.
Proof. intros H1 H2. unfold wp. rewrite Connection_send_eq. case_decide; auto. Qed.

Lemma deref_connection_eq w :
  m_connection (w_impl w) = true → deref_connection w = Done () w.
Proof.
  intros Hc. unfold deref_connection, get_impl, gets, mbind, M_bind. by rewrite Hc.
Qed.

Lemma wp_deref_connection F (Q : unit → World → Prop) w :
  m_connection (w_impl w) = true → Q () w → wp F deref_connection Q w.
Proof. intros Hc HQ. unfold wp. by rewrite deref_connection_eq. Qed.

Lemma wp_next_packet_id F (Q : Z → World → Prop) w :
  (∀ id id', (1 ≤ id)%Z → (0 ≤ id' < 65536)%Z →
    Q id (w <| w_impl ::= λ i, i <| m_packet_id := id' |> |>)) →
  (0 ≤ m_packet_id (w_impl w))%Z →
  wp F next_packet_id Q w.
Proof.
  intros HQ Hid. unfold wp. rewrite next_packet_id_eq. apply HQ; [|apply uint16_bound].
  unfold packet_id_of. case_decide; lia.
Qed.

(** The result of a send, and the queue it leaves. *)
Definition send_post (w : World) (b : bool) (w' : World) : Prop :=
  ∃ id q, w' = sent_state w id q ∧ (0 ≤ id < 65536)%Z ∧
    match b with
    | true => zlength q = (zlength (m_send_queue (w_conn w)) + 1)%Z
    | false => q = m_send_queue (w_conn w) ∧ queue_full w
    end.

Lemma send_post_intro id w p (Q : bool → World → Prop) F :
  (0 ≤ id < 65536)%Z →
  (∀ b w', send_post w b w' → Q b w') →
  wp F (Connection_send p false) Q (w <| w_impl ::= λ i, i <| m_packet_id := id |> |>).
Proof.
  intros Hid HQ. apply wp_Connection_send; intros Hf; apply HQ.
  - exists id, (m_send_queue (w_conn w)). split; [by destruct w as [? [] ?????]|].
    split; [done|]. split; [done|]. apply Hf.
  - eexists id, _. split; [by destruct w as [? [] ?????]|]. split; [done|].
    by rewrite zlength_app.
Qed.

Lemma wp_sendSubscribe F topic w :
  m_connection (w_impl w) = true → (0 ≤ m_packet_id (w_impl w))%Z →
  wp F (Impl_sendSubscribe topic) (send_post w) w.
Proof.
  intros Hc Hid. apply wp_bind, wp_next_packet_id; [|done]. intros id id' Hi Hi'.
  apply wp_bind, wp_deref_connection; [done|]. by apply send_post_intro.
Qed.

Lemma wp_sendUnsubscribe F topic w :
  m_connection (w_impl w) = true → (0 ≤ m_packet_id (w_impl w))%Z →
  wp F (Impl_sendUnsubscribe topic) (send_post w) w.
Proof.
  intros Hc Hid. apply wp_bind, wp_next_packet_id; [|done]. intros id id' Hi Hi'.
  apply wp_bind, wp_deref_connection; [done|]. by apply send_post_intro.
Qed.

Lemma wp_sendPublish F topic message retain w :
  m_connection (w_impl w) = true → (0 ≤ m_packet_id (w_impl w) < 65536)%Z →
  wp F (Impl_sendPublish topic message retain) (send_post w) w.
Proof.
  intros Hc Hid. apply wp_bind, wp_deref_connection; [done|].
  replace w with (w <| w_impl ::= λ i, i <| m_packet_id := m_packet_id (w_impl w) |> |>) at 2
    by (by destruct w as [[] ??????]).
  by apply send_post_intro.
Qed.

Lemma impl_ok_packet_id i id :
  impl_ok i → (0 ≤ id < 65536)%Z → impl_ok (i <| m_packet_id := id |>).
Proof. intros []. by constructor. Qed.

Lemma client_ok_sent w b w' : client_ok w → send_post w b w' → client_ok w'.
Proof.
  intros [Hi Hj] (id & q & -> & Hid & _). split; [|done]. by apply impl_ok_packet_id.
Qed.

Lemma client_ok_trace w t : client_ok w → client_ok (w <| w_trace := t |>).
Proof. by intros []. Qed.

Lemma client_ok_id w : client_ok w → (0 ≤ m_packet_id (w_impl w) < 65536)%Z.
Proof. intros [[] _]. done. Qed.

Lemma client_ok_live w :
  client_ok w → m_state (w_impl w) ≠ DISCONNECTED → m_connection (w_impl w) = true.
Proof. intros [[] _] ?. naive_solver. Qed.

(** ** Replacing the connection, on a user's thread *)

(** Only the connection, its sockets and the trace differ. *)
Definition same_client (i : Impl) (w w' : World) : Prop :=
  w_impl w' = i ∧ w_joining w' = w_joining w.

Lemma wp_Connection_dtor_user F w (Q : unit → World → Prop) :
  (∀ w', w_threads_end w = true → same_client (w_impl w) w w' → Q () w') →
  (w_threads_end w = false → F Deadlock) → wp F (Connection_dtor User) Q w.
Proof.
  intros HQ HF. unfold Connection_dtor, join_threads, runRead_stop.
  wp_auto; first [by apply HQ|by apply HF].
Qed.

(** The client after [Impl::disconnect]. *)
Definition dropped (i : Impl) : Impl :=
  i <| m_subscriptions := ∅ |> <| m_publish_queue := [] |> <| m_connection := false |>.

Lemma wp_Impl_disconnect_user F w (Q : unit → World → Prop) :
  (∀ w', same_client (dropped (w_impl w)) w w' → Q () w') →
  (m_connection (w_impl w) = true → w_threads_end w = false → F Deadlock) →
  wp F (Impl_disconnect User) Q w.
Proof.
  intros HQ HF. unfold Impl_disconnect. do 2 apply wp_bind, wp_mod_impl.
  apply wp_bind, wp_get_impl, wp_bind, wp_mod_impl, wp_when; intros Hc.
  - apply wp_Connection_dtor_user; [|by apply HF]. intros w' _ Hw'. by apply HQ.
  - by apply HQ.
Qed.

Lemma wp_Impl_connect F w (Q : unit → World → Prop) :
  m_connection (w_impl w) = false →
  Q () (w <| w_conn := Connection_new (m_connection_backoff (w_impl w)) |>
          <| w_impl ::= λ i, i <| m_connection := true |> |>) →
  wp F Impl_connect Q w.
Proof.
  intros Hc HQ. unfold Impl_connect. apply wp_bind, wp_get_impl. by rewrite Hc.
Qed.

(** "Closing connection to broker and trying again". *)
Lemma wp_retry F msg w :
  client_ok w → m_state (w_impl w) = CONNECTED → (w_threads_end w = false → F Deadlock) →
  wp F (log ERROR msg ;; Impl_disconnect User ;; Impl_connect)
    (λ _ w', client_ok w') w.
Proof.
  intros [[] Hj] Hst HF. apply wp_bind, wp_log, wp_bind, wp_Impl_disconnect_user; [|auto].
  intros w' [Hi' Hj']. apply wp_Impl_connect; [by rewrite Hi'|].
  split; [|by simpl; rewrite Hj']. cbn. rewrite Hi'. constructor; simpl; try done.
  - split; [intros _; by rewrite Hst|done].
  - unfold zlength in *; simpl. lia.
  - destruct ok_registry0 as [Hs _]. exact (registry_sub_empty (S := tree) _ Hs).
Qed.

(** ** Each operation *)

Lemma client_ok_impl w i :
  client_ok w → impl_ok i → client_ok (w <| w_impl := i |>).
Proof. by intros [_ ?] ?. Qed.

(** Changing what the invariant does not mention. *)
Ltac impl_frame :=
  lazymatch goal with
  | H : client_ok ?w |- client_ok _ =>
      destruct H as [[] ?]; split; [constructor|]; simpl in *; done
  end.

(** What sending depends on. *)
Definition same_sending (w w1 : World) : Prop :=
  m_state (w_impl w1) = m_state (w_impl w) ∧ (queue_full w1 ↔ queue_full w) ∧
  w_threads_end w1 = w_threads_end w.

Lemma op_setters F op w :
  match op with
  | OpSetLogger _ _ | OpSetLastWill _ _ _ | OpSetErrorCallback _
  | OpSetSendQueue _ | OpSetStateChangeCallback _ => True
  | _ => False
  end →
  client_ok w → wp F (run_op op) (λ _ w', client_ok w') w.
Proof.
  intros Hop Hok. destruct op; try done; cbn [run_op];
    unfold Client_setLogger, Client_setLastWill, Client_setErrorCallback,
      Client_setSendQueue, Client_setStateChangeCallback; wp_auto; impl_frame.
Qed.

Lemma op_setPublishQueue F t n w :
  (0 ≤ n)%Z → client_ok w →
  wp F (Client_setPublishQueue t n) (λ _ w', client_ok w') w.
Proof.
  intros Hn Hok. apply wp_bind, wp_get_impl. case_decide as Hst; [by wp_auto|]. wp_auto.
  destruct Hok as [[] Hj]. split; [|done]. constructor; simpl; try done.
  destruct (m_publish_queue (w_impl w)) eqn:Hq; [done|].
  by rewrite ok_queue0 in Hst.
Qed.

Lemma op_connect F w :
  client_ok w → wp F Client_connect (λ _ w', client_ok w') w.
Proof.
  intros Hok. apply wp_bind, wp_get_impl. case_decide as Hst; [by wp_auto|].
  wp_auto. destruct Hok as [[] Hj].
  apply wp_Impl_connect; simpl.
  - destruct (m_connection (w_impl w)); naive_solver.
  - split; [|done]. constructor; simpl; try done.
Qed.

Lemma op_disconnect w :
  client_ok w → wp (op_fault OpDisconnect w) Client_disconnect (λ _ w', client_ok w') w.
Proof.
  intros Hok. apply wp_bind, wp_get_impl. case_decide as Hst; [by wp_auto|].
  wp_auto. apply wp_Impl_disconnect_user; [|done]. intros w' [Hi Hj'].
  destruct Hok as [[] Hj]. split; [|by rewrite Hj']. rewrite Hi.
  constructor; simpl; try done.
  - unfold zlength in *; simpl. lia.
  - destruct ok_registry0 as [Hs _]. exact (registry_sub_empty (S := tree) _ Hs).
Qed.

Lemma op_publish topic message retain w :
  client_ok w →
  wp (op_fault (OpPublish topic message retain) w)
    (Client_publish topic message retain) (λ _ w', client_ok w') w.
Proof.
  intros Hok. apply wp_bind, wp_get_impl. destruct (m_state (w_impl w)) eqn:Hst.
  - by wp_auto.
  - pose proof Hok as [[] Hj].
    assert (0 ≤ m_publish_queue_size (w_impl w))%Z as Hsz.
    { unfold zlength in *. lia. }
    eapply wp_mono; [apply toPublishQueue_connecting; [done|]|].
    + intros Hstep. cbn. split; [done|].
      destruct (decide (m_publish_queue_size (w_impl w) = 0)%Z) as [Hz|Hz].
      * split; [|done]. intros Hty. by rewrite Hty in Hstep.
      * exfalso. destruct (queue_step_total (m_publish_queue_type (w_impl w))
          (m_publish_queue_size (w_impl w)) (m_publish_queue (w_impl w))
          (topic, message, retain)) as [? Heq]; [lia|]. congruence.
    + intros b w' (q & tr & Hstep & _ & ->). split; [|done].
      constructor; simpl; try done.
      destruct (decide (m_publish_queue_size (w_impl w) = 0)%Z) as [Hz|Hz].
      * rewrite Hz in *. assert (m_publish_queue (w_impl w) = []) as Hq.
        { destruct (m_publish_queue (w_impl w)); [done|]. unfold zlength in *; simpl in *; lia. }
        rewrite Hq in *. unfold queue_step in Hstep. simpl in Hstep.
        destruct (m_publish_queue_type (w_impl w)); simplify_eq/=; done.
      * eapply queue_step_bound; [|done|done]. lia.
  - eapply wp_mono; [apply wp_sendPublish|].
    + apply client_ok_live; [done|congruence].
    + by apply client_ok_id.
    + intros b w' Hpost. by eapply client_ok_sent.
Qed.

Lemma op_subscribe topic cb w :
  client_ok w → wp (op_fault (OpSubscribe topic cb) w) (Client_subscribe topic cb) (λ _ w', client_ok w') w.
Proof.
  intros Hok. apply wp_bind, wp_get_impl. case_decide as Hst; [by wp_auto|].
  apply wp_bind, wp_get_impl, wp_bind.
  destruct (law_add topic cb (m_subscriptions (w_impl w))) as (s' & Hadd & _).
  rewrite Hadd. apply wp_ret. do 2 apply wp_bind, wp_mod_impl.
  set (w1 := _ <| w_impl ::= _ |>).
  assert (client_ok w1) as Hok1.
  { destruct Hok as [[] Hj]. split; [|done]. constructor; simpl; try done.
    by apply (registry_sub_add topic cb _ (m_subscriptions (w_impl w))). }
  assert (same_sending w w1) as Hsame by done.
  clearbody w1. apply wp_bind, wp_get_impl. case_decide as Hcon; [|by apply wp_ret].
  destruct Hsame as (Hst1 & Hfull & Hend). apply wp_bind. eapply wp_mono.
  { apply wp_sendSubscribe; [by apply client_ok_live; [|congruence]|by apply client_ok_id]. }
  intros b w2 Hpost. pose proof (client_ok_sent _ _ _ Hok1 Hpost) as Hok2.
  apply wp_when; [|done]. intros Hb. destruct b; [done|].
  destruct Hpost as (id & q & -> & _ & _ & Hq). apply wp_retry; [done..|].
  intros Hn. split; [congruence|]. split; [by apply Hfull|by rewrite <-Hend].
Qed.

Lemma op_unsubscribe topic w :
  client_ok w →
  wp (op_fault (OpUnsubscribe topic) w) (Client_unsubscribe topic)
    (λ _ w', client_ok w') w.
Proof.
  intros Hok. apply wp_bind, wp_get_impl. case_decide as Hst; [by wp_auto|].
  apply wp_bind, wp_get_impl. unfold set_find. case_bool_decide as Hin; cbn [negb];
[|by wp_auto].
  apply wp_bind, wp_get_impl, wp_bind, wp_from_option_ub.
  2:{ intros Hrem. split; [done|].
      destruct (decide (store_cbs (m_subscriptions (w_impl w)) topic = [])) as [|Hne]; [done|].
      destruct (law_remove_defined _ _ Hne) as [s' Hs']. congruence. }
  intros s' Hrem. do 2 apply wp_bind, wp_mod_impl. set (w1 := _ <| w_impl ::= _ |>).
  assert (client_ok w1) as Hok1.
  { destruct Hok as [[] Hj]. split; [|done]. constructor; simpl; try done.
    by apply (registry_sub_remove topic _ (m_subscriptions (w_impl w))). }
  assert (same_sending w w1) as Hsame by done.
  clearbody w1. apply wp_bind, wp_get_impl. case_decide as Hcon; [|by apply wp_ret].
  destruct Hsame as (Hst1 & Hfull & Hend). apply wp_bind. eapply wp_mono.
  { apply wp_sendUnsubscribe; [by apply client_ok_live; [|congruence]|by apply client_ok_id]. }
  intros b w2 Hpost. pose proof (client_ok_sent _ _ _ Hok1 Hpost) as Hok2.
  apply wp_when; [|done]. intros Hb. destruct b; [done|].
  destruct Hpost as (id & q & -> & _ & _ & Hq). apply wp_retry; [done..|].
  intros Hn. split; [congruence|]. split; [by apply Hfull|by rewrite <-Hend].
Qed.

(** ** Restoring the subscriptions and flushing the publish queue *)

(** The packets of the loop over the subscribed topics, from the counter [n]. *)
Fixpoint subscribe_packets (n : Z) (topics : list string) : list Packet :=
  match topics with
  | [] => []
  | t :: ts =>
      subscribe_packet (packet_id_of n) t :: subscribe_packets (uint16 (packet_id_of n + 1)) ts
  end.

Definition publish_packets (queue : list (string * string * bool)) : list Packet :=
  map (λ '(topic, message, retain), publish_packet topic message retain) queue.

(** How many more packets [send] accepts. *)
Definition room (w : World) : nat :=
  Z.to_nat (m_send_queue_size (w_impl w) + 1 - zlength (m_send_queue (w_conn w))).

Lemma room_full w : queue_full w ↔ room w = 0.
Proof. unfold queue_full, room. lia. Qed.

Lemma sent_state_sent w i1 q1 i2 q2 : sent_state (sent_state w i1 q1) i2 q2 = sent_state w i2 q2.
Proof. done. Qed.

Lemma sent_state_id w : sent_state w (m_packet_id (w_impl w)) (m_send_queue (w_conn w)) = w.
Proof. by destruct w as [[] [] ?????]. Qed.

Lemma room_sent w i p : room (sent_state w i (m_send_queue (w_conn w) ++ [p])) = room w - 1.
Proof. unfold room; simpl. rewrite zlength_app. unfold zlength; simpl. lia. Qed.

(** Sending a packet that carries an identifier. *)
Lemma send_with_id_eq (packet : Z → Packet) w :
  m_connection (w_impl w) = true →
  let id := packet_id_of (m_packet_id (w_impl w)) in
  let q := m_send_queue (w_conn w) in
  (id ← next_packet_id; deref_connection ;; Connection_send (packet id) false) w =
    if decide (room w = 0) then Done false (sent_state w (uint16 (id + 1)) q)
    else Done true (sent_state w (uint16 (id + 1)) (q ++ [set_header (packet id)])).
Proof.
  intros Hc id q. unfold mbind, M_bind.
  rewrite next_packet_id_eq. cbv beta zeta iota. fold id. rewrite deref_connection_eq by done.
  rewrite Connection_send_eq.
  destruct (decide (room w = 0)) as [Hr|Hr].
  - rewrite decide_True; [by destruct w as [? [] ?????]|].
    split; [done|]. exact (proj2 (room_full w) Hr).
  - rewrite decide_False; [by destruct w as [? [] ?????]|].
    intros [_ Hf]. exact (Hr (proj1 (room_full w) Hf)).
Qed.

Lemma sendSubscribe_eq topic w :
  m_connection (w_impl w) = true →
  let id := packet_id_of (m_packet_id (w_impl w)) in
  let q := m_send_queue (w_conn w) in
  Impl_sendSubscribe topic w =
    if decide (room w = 0) then Done false (sent_state w (uint16 (id + 1)) q)
    else Done true (sent_state w (uint16 (id + 1)) (q ++ [set_header (subscribe_packet id topic)])).
Proof. apply (send_with_id_eq (λ id, subscribe_packet id topic)). Qed.

Lemma sendUnsubscribe_eq topic w :
  m_connection (w_impl w) = true →
  let id := packet_id_of (m_packet_id (w_impl w)) in
  let q := m_send_queue (w_conn w) in
  Impl_sendUnsubscribe topic w =
    if decide (room w = 0) then Done false (sent_state w (uint16 (id + 1)) q)
    else Done true (sent_state w (uint16 (id + 1)) (q ++ [set_header (unsubscribe_packet id topic)])).
Proof. apply (send_with_id_eq (λ id, unsubscribe_packet id topic)). Qed.

Lemma sendPublish_eq topic message retain w :
  m_connection (w_impl w) = true →
  let q := m_send_queue (w_conn w) in
  let id := m_packet_id (w_impl w) in
  Impl_sendPublish topic message retain w =
    if decide (room w = 0) then Done false w
    else Done true (sent_state w id (q ++ [set_header (publish_packet topic message retain)])).
Proof.
  intros Hc q id. unfold Impl_sendPublish, mbind, M_bind. cbv beta zeta.
  rewrite deref_connection_eq, Connection_send_eq by done.
  pose proof (room_full w). repeat case_decide; try done; try naive_solver.
  by destruct w as [[] [] ?????].
Qed.

Lemma take_room {A} (r : nat) (x : A) l : r ≠ 0 → take r (x :: l) = x :: take (r - 1) l.
Proof. destruct r; [done|]. simpl. by rewrite Nat.sub_0_r. Qed.

Lemma wp_resubscribe F topics w :
  m_connection (w_impl w) = true → (0 ≤ m_packet_id (w_impl w) < 65536)%Z →
  wp F (resubscribe topics) (λ b w', ∃ id',
    (0 ≤ id' < 65536)%Z ∧ b = bool_decide (length topics ≤ room w) ∧
    w' = sent_state w id' (m_send_queue (w_conn w) ++
           map set_header (take (room w) (subscribe_packets (m_packet_id (w_impl w)) topics)))) w.
Proof.
  revert w. induction topics as [|t ts IH]; intros w Hc Hid.
  { apply wp_ret. exists (m_packet_id (w_impl w)). cbn [subscribe_packets]. rewrite take_nil, app_nil_r.
    rewrite sent_state_id. split; [done|]. by rewrite bool_decide_true by (simpl; lia). }
  cbn [resubscribe subscribe_packets]. apply wp_bind. unfold wp at 1.
  rewrite sendSubscribe_eq by done. set (id := packet_id_of (m_packet_id (w_impl w))).
  destruct (decide (room w = 0)) as [Hr|Hr].
  - apply wp_ret. eexists. split; [apply uint16_bound|]. rewrite Hr, app_nil_r.
    split; [|done]. by rewrite bool_decide_false by (simpl; lia).
  - eapply wp_mono; [apply IH; [done|apply uint16_bound]|].
    intros b w' (id' & Hid' & -> & ->). exists id'. split; [done|].
    rewrite room_sent, take_room by done. split; [|by simpl; rewrite <-app_assoc].
    apply bool_decide_ext. simpl. lia.
Qed.

Lemma wp_flush F queue w :
  m_connection (w_impl w) = true →
  wp F (flush queue) (λ _ w', ∃ tr,
    w' = (sent_state w (m_packet_id (w_impl w)) (m_send_queue (w_conn w) ++
            map set_header (take (room w) (publish_packets queue))))
         <| w_trace := w_trace w ++ tr |>) w.
Proof.
  revert w. induction queue as [|[[t m] r] queue IH]; intros w Hc.
  { apply wp_ret. exists []. unfold publish_packets; cbn [map].
    rewrite take_nil, !app_nil_r, sent_state_id. by destruct w. }
  cbn [flush publish_packets map]. apply wp_bind. unfold wp at 1.
  rewrite sendPublish_eq by done. destruct (decide (room w = 0)) as [Hr|Hr].
  - apply wp_log. exists (log_events (w_impl w) ERROR
      [PStr "Failed to send queued publish message. Discarding rest of queue"]).
    rewrite Hr. cbn [take map]. rewrite app_nil_r. by destruct w as [[] [] ?????].
  - eapply wp_mono; [by apply IH|]. intros _ w' [tr ->]. exists tr.
    rewrite room_sent, take_room by done. unfold publish_packets. simpl.
    by rewrite <-app_assoc.
Qed.

Lemma length_subscribe_packets n topics :
  length (subscribe_packets n topics) = length topics.
Proof. revert n. induction topics; intros n; simpl; auto. Qed.

Lemma room_sent_app w i l :
  room (sent_state w i (m_send_queue (w_conn w) ++ l)) = room w - length l.
Proof. unfold room; simpl. rewrite zlength_app. unfold zlength; simpl. lia. Qed.

(** On the read thread, giving up on the connection ends the program. *)
Lemma wp_Impl_disconnect_reader F w (Q : unit → World → Prop) :
  m_connection (w_impl w) = true → F Terminated → wp F (Impl_disconnect Reader) Q w.
Proof.
  intros Hc HF. unfold Impl_disconnect. do 2 apply wp_bind, wp_mod_impl.
  apply wp_bind, wp_get_impl, wp_bind, wp_mod_impl. cbn. by rewrite Hc.
Qed.

(** [connectionStateChange(true)], when every subscription can be sent. *)
Definition connected_state (w : World) (id : Z) (tr : list event) : World :=
  let i := w_impl w in
  let subs := subscribe_packets (m_packet_id i) (m_subscription_topics i) in
  let pubs := publish_packets (m_publish_queue i) in
  w <| w_impl ::= λ i, i <| m_state := CONNECTED |> <| m_packet_id := id |>
                         <| m_publish_queue := [] |> |>
    <| w_conn ::= λ c, c <| m_send_queue :=
         m_send_queue (w_conn w) ++ map set_header (take (room w) (subs ++ pubs)) |> |>
    <| w_trace := w_trace w ++ tr |>.

Lemma wp_connected F w :
  w_joining w = false → m_connection (w_impl w) = true →
  (0 ≤ m_packet_id (w_impl w) < 65536)%Z →
  (room w < length (m_subscription_topics (w_impl w)) → F Terminated) →
  wp F (Impl_connectionStateChange true) (λ _ w', ∃ id tr,
    (0 ≤ id < 65536)%Z ∧ length (m_subscription_topics (w_impl w)) ≤ room w ∧
    w' = connected_state w id tr) w.
Proof.
  intros Hj Hc Hid HF. apply wp_bind. apply wp_lock_state_mutex; [|congruence]. intros _.
  apply wp_bind, wp_log, wp_bind, wp_mod_impl, wp_bind, wp_call_state_change.
  apply wp_bind, wp_get_impl. set (w1 := _ <| w_trace ::= _ |>).
  apply wp_bind. eapply wp_mono; [by apply wp_resubscribe|].
  intros b w2 (id & Hid' & -> & ->). change (room w1) with (room w).
  case_bool_decide as Hr; cbn [negb].
  - apply wp_bind, wp_get_impl, wp_bind. eapply wp_mono; [by apply wp_flush|].
    intros _ w3 [tr ->]. apply wp_mod_impl. rewrite room_sent_app, length_map.
    cbn [sent_state w_impl m_packet_id m_publish_queue w_conn m_send_queue set_field].
    exists id, (log_events (w_impl w) INFO [PStr "Connected to broker"] ++
      [EvStateChange (m_state_change_callback (w_impl w)) CONNECTED] ++ tr).
    split; [done|]. split; [done|]. apply World_eq; try reflexivity.
    + cbn [connected_state w_conn set_field]. f_equal.
      rewrite take_app, map_app, <-app_assoc. cbn [w1 w_impl w_conn set_field].
      rewrite length_take, !length_subscribe_packets. by rewrite Nat.min_r.
    + subst w1. simpl. by rewrite <-!app_assoc.
  - apply wp_bind, wp_log, wp_bind, wp_Impl_disconnect_reader; [done|]. apply HF.
    simpl in Hr. lia.
Qed.

Lemma op_stateChange c w :
  client_ok w → m_connection (w_impl w) = true →
  wp (op_fault (OpStateChange c) w) (Impl_connectionStateChange c)
    (λ _ w', client_ok w') w.
Proof.
  intros Hok Hc. pose proof Hok as [[] Hj]. destruct c.
  - eapply wp_mono; [apply wp_connected; try done|].
    + unfold room, op_fault, zlength. intros Hr. lia.
    + intros _ w' (id & tr & Hid & _ & ->). split; [|done].
      constructor; simpl; try done. unfold zlength in *; simpl. lia.
  - apply wp_bind. apply wp_lock_state_mutex; [|congruence]. intros _. wp_auto.
Qed.

Lemma op_message topic message w F :
  client_ok w →
  wp F (Impl_messageReceived topic message) (λ _ w', client_ok w') w.
Proof.
  intros Hok. apply wp_bind, wp_lock_state_mutex; [|intros Hj; destruct Hok; congruence].
  intros _. apply wp_bind, wp_get_impl. case_decide; [by wp_auto|].
  apply wp_bind, wp_get_impl.
  apply (wp_for_each _ _ (λ _ w, client_ok w)); [|done]. intros a l w' Hok'. by wp_auto.
Qed.

(** ** All operations *)

Lemma run_op_ok op w :
  client_ok w → op_enabled op w → wp (op_fault op w) (run_op op) (λ _ w', client_ok w') w.
Proof.
  intros Hok Hen. destruct op; try (by apply op_setters); cbn [run_op].
  - by apply op_setPublishQueue.
  - by apply op_connect.
  - by apply op_disconnect.
  - apply wp_bind. eapply wp_mono; [by apply op_publish|]. by intros.
  - by apply op_subscribe.
  - by apply op_unsubscribe.
  - by apply op_stateChange.
  - by apply op_message.
Qed.

Lemma initial_ok host port id t b bm k :
  client_ok (initial (Impl_new host port id t b bm k)).
Proof.
  split; [|done]. constructor; simpl; try done.
  - exact (registry_sub_empty (S := tree) [] (SSorted_nil _)).
Qed.

Lemma reachable_ok w : reachable w → client_ok w.
Proof.
  induction 1 as [|w w' _ IH Hstep]; [apply initial_ok|].
  destruct Hstep as [op w w' Hen Hrun|c fds ends w].
  - exact (wp_run _ _ _ _ _ _ (run_op_ok op w IH Hen) Hrun).
  - destruct IH as [[] ?]. split; [by constructor|done].
Qed.
