(* ===== verification/ClientSpec.v ===== *)
(** * Properties of the client

    What the public methods and the callbacks of the connection do in every
    state, for the client of [Client.v], from the invariant of
    [ClientInv.v]. *)

From S2P Require Export ClientInv.

(** ** Shared lemmas *)

(** A program that cannot end well ends in one of the allowed faults. *)
Lemma wp_faults {A} F (m : M A) w :
  wp F m (λ _ _, False) w → ∃ f, m w = Fault f ∧ F f.
Proof. unfold wp. destruct (m w) as [|f]; [done|]. by exists f. Qed.

Lemma reachable_id w : reachable w → (0 ≤ m_packet_id (w_impl w) < 65536)%Z.
Proof. intros Hr. by apply client_ok_id, reachable_ok. Qed.

Lemma reachable_joining w : reachable w → w_joining w = false.
Proof. intros Hr. by destruct (reachable_ok w Hr). Qed.

(** An empty tree has no node to remove. *)
Lemma unsubscribe_empty topic : unsubscribe_tree topic ∅ = None.
Proof.
  rewrite unsubscribe_tree_remove. destruct (levels_cons topic) as (l & ls & ->).
  by rewrite node_at_cons, lookup_empty.
Qed.

Definition is_log (e : event) : bool := match e with EvLog _ _ _ => true | _ => false end.

Lemma log_events_logs i l msg : Forall is_log (log_events i l msg).
Proof. unfold log_events. case_match; by repeat constructor. Qed.

(** The calls that the state of the client refuses. *)
Definition op_refused (op : client_op) (i : Impl) : bool :=
  match op with
  | OpSetLastWill _ _ _ | OpSetPublishQueue _ _ | OpSetSendQueue _ | OpConnect =>
      bool_decide (m_state i ≠ DISCONNECTED)
  | OpDisconnect | OpPublish _ _ _ | OpSubscribe _ _ => bool_decide (m_state i = DISCONNECTED)
  | OpUnsubscribe topic =>
      bool_decide (m_state i = DISCONNECTED) || negb (set_find topic (m_subscription_topics i))
  | OpMessage _ _ => bool_decide (m_state i ≠ CONNECTED)
  | _ => false
  end.

(** What a refused call does. *)
Definition only_logs (w w' : World) : Prop :=
  ∃ tr, w' = w <| w_trace := w_trace w ++ tr |> ∧ Forall is_log tr.

Lemma wp_log_only F l msg w : wp F (log l msg) (λ _ w', only_logs w w') w.
Proof. apply wp_log. eexists. split; [done|apply log_events_logs]. Qed.

Lemma for_each_emit {A} (f : A → event) l w :
  for_each (λ a, emit (f a)) l w = Done () (w <| w_trace ::= λ t, t ++ map f l |>).
Proof.
  revert w. induction l as [|a l IH]; intros w.
  - apply (f_equal (Done ())). cbn. rewrite app_nil_r. by destruct w.
  - cbn [for_each]. unfold mbind, M_bind, emit, modify at 1. rewrite IH. cbn.
    by rewrite <-app_assoc.
Qed.

Lemma messageReceived_eq topic message w :
  w_joining w = false → m_state (w_impl w) = CONNECTED →
  Impl_messageReceived topic message w =
    Done () (w <| w_trace ::= λ t, t ++ map (λ cb, EvMessage cb topic message)
                     (match_topic topic (m_subscriptions (w_impl w))) |>).
Proof.
  intros Hj Hst. unfold Impl_messageReceived, lock_state_mutex, get_impl, gets, mbind, M_bind.
  rewrite Hj. cbn [mret M_ret]. rewrite Hst, decide_False by auto. apply for_each_emit.
Qed.

Lemma match_topic_empty topic : match_topic topic ∅ = [].
Proof.
  rewrite match_topic_flat. induction (visits _) as [|p ps IH]; [done|].
  cbn [flat_map]. by rewrite cbs_at_empty, IH.
Qed.

(** The state after a call that does not fault, to build witnesses. *)
Definition after (op : client_op) (w : World) : World :=
  match run_op op w with Done _ w' => w' | Fault _ => w end.

Lemma reachable_after op w : reachable w → op_enabled op w → reachable (after op w).
Proof.
  intros Hr Hen. unfold after. destruct (run_op op w) as [[] w'|] eqn:Hrun; [|done].
  eapply reachable_step; [done|]. by eapply step_op.
Qed.

Lemma reachable_test_world : reachable test_world.
Proof. apply reachable_init. Qed.

(** A client with a send queue of size 0, while connecting, and connected. *)
Definition connecting_world : World := after OpConnect (after (OpSetSendQueue 0) test_world).
Definition connected_world : World := after (OpStateChange true) connecting_world.

Lemma reachable_connecting_world : reachable connecting_world.
Proof. repeat apply reachable_after; try done. apply reachable_test_world. Qed.

Lemma reachable_connected_world : reachable connected_world.
Proof. apply reachable_after; [apply reachable_connecting_world|done]. Qed.

(** ** Properties *)

(** C17: in every reachable state there is a connection exactly when the client
    is not disconnected; messages wait in the publish queue only while
    connecting and never more than its size; the flat set of topics is sorted,
    without duplicates and contains every topic with a callback; a disconnected
    client has no callbacks. *)
Theorem client_invariant w :
  reachable w →
  let i := w_impl w in
  (m_connection i = true ↔ m_state i ≠ DISCONNECTED) ∧
  (m_publish_queue i ≠ [] → m_state i = CONNECTING) ∧
  (zlength (m_publish_queue i) ≤ m_publish_queue_size i)%Z ∧
  registry_sub (m_subscription_topics i) (m_subscriptions i) ∧
  (m_state i = DISCONNECTED → m_subscriptions i = ∅) ∧
  (0 ≤ m_packet_id i < 65536)%Z.
Proof. intros Hr i. by destruct (reachable_ok w Hr) as [[] _]. Qed.

(** C16: in every reachable state, whatever the calls before, the only calls
    that end in a fault are: publishing while connecting with an enabled queue
    of size 0; unsubscribing from a topic whose callbacks are gone; restoring
    more subscriptions than fit the send queue; and, when a thread of the
    connection would not end although asked to, so that joining it waits for
    ever, the calls that destroy the connection: disconnecting, and a
    subscription or its removal while the send queue is full.  In particular no
    method dereferences a null connection. *)
Theorem only_these_calls_fault op w :
  reachable w → op_enabled op w →
  wp (λ f,
    match op with
    | OpPublish _ _ _ => f = UndefinedBehaviour ∧ m_state (w_impl w) = CONNECTING ∧
        m_publish_queue_type (w_impl w) ≠ DROP ∧ m_publish_queue_size (w_impl w) = 0%Z
    | OpDisconnect => f = Deadlock ∧ m_state (w_impl w) ≠ DISCONNECTED ∧
        w_threads_end w = false
    | OpSubscribe _ _ => f = Deadlock ∧ m_state (w_impl w) = CONNECTED ∧
        (m_send_queue_size (w_impl w) < zlength (m_send_queue (w_conn w)))%Z ∧
        w_threads_end w = false
    | OpUnsubscribe topic =>
        f = UndefinedBehaviour ∧
        topic ∈ m_subscription_topics (w_impl w) ∧
        cbs_at (levels topic) (m_subscriptions (w_impl w)) = []
        ∨ f = Deadlock ∧ m_state (w_impl w) = CONNECTED ∧
        (m_send_queue_size (w_impl w) < zlength (m_send_queue (w_conn w)))%Z ∧
        w_threads_end w = false
    | OpStateChange true => f = Terminated ∧
        (m_send_queue_size (w_impl w) + 1 <
         zlength (m_send_queue (w_conn w)) + zlength (m_subscription_topics (w_impl w)))%Z
    | _ => False
    end) (run_op op) (λ _ w', reachable w') w.
Proof.
  intros Hr Hen. pose proof (run_op_ok op w (reachable_ok w Hr) Hen) as Hwp.
  unfold wp in *. destruct (run_op op w) as [[] w'|f] eqn:Hrun.
  - eapply reachable_step; [done|]. by eapply step_op.
  - destruct f, op as [| | | | | | | | | | |[]|]; try done; cbn in Hwp; auto.
Qed.

(** C34: a call the state does not allow changes nothing and calls no callback
    but the logger: connecting twice, disconnecting, publishing or subscribing
    while disconnected, unsubscribing from an unknown topic, configuring while
    connected, a message while not connected. *)
Theorem refused_calls_only_log op w :
  reachable w → op_refused op (w_impl w) = true →
  ∃ tr, run_op op w = Done () (w <| w_trace := w_trace w ++ tr |>) ∧ Forall is_log tr.
Proof.
  intros Hr Hop. pose proof (reachable_joining w Hr) as Hj.
  enough (wp (λ _, False) (run_op op) (λ _ w', only_logs w w') w) as Hwp.
  { apply wp_total_unit in Hwp as (w' & -> & tr & -> & Htr). by exists tr. }
  destruct op; try discriminate Hop; cbn [run_op op_refused] in *;
    rewrite ?orb_true_iff, ?bool_decide_eq_true in Hop.
  1-5, 7: apply wp_bind, wp_get_impl; rewrite decide_True by done; apply wp_log_only.
  - apply wp_bind, wp_bind, wp_get_impl. rewrite Hop.
    apply wp_bind. eapply wp_mono; [apply wp_log_only|done].
  - apply wp_bind, wp_get_impl. case_decide as Hst; [apply wp_log_only|].
    destruct Hop as [?|Hop]; [done|]. apply wp_bind, wp_get_impl. rewrite Hop.
    apply wp_log_only.
  - apply wp_bind, wp_lock_state_mutex; [|congruence]. intros _.
    apply wp_bind, wp_get_impl. rewrite decide_True by done. apply wp_log_only.
Qed.

(** When the subscriptions to restore do not fit. *)
Lemma too_many_terminate w :
  reachable w → m_connection (w_impl w) = true →
  room w < length (m_subscription_topics (w_impl w)) →
  Impl_connectionStateChange true w = Fault Terminated.
Proof.
  intros Hr Hc Hlen.
  destruct (wp_faults (λ f, f = Terminated) (Impl_connectionStateChange true) w)
    as (f & Hf & ->); [|done].
  eapply wp_mono.
  { apply wp_connected; [by apply reachable_joining|done|by apply reachable_id|done]. }
  intros _ w' (id & tr & _ & Hle & _). lia.
Qed.

(** C23: when the broker accepts the connection and the send queue has room for a
    SUBSCRIBE of each subscribed topic, the client is connected and queues them
    all, in order, and then the waiting messages in order, up to what the send
    queue still holds; the others are dropped, and the callbacks are kept.  When
    it has not that much room (a flaw), the program ends. *)
Theorem connected_restores w :
  reachable w → m_connection (w_impl w) = true →
  let i := w_impl w in
  let room := Z.to_nat (m_send_queue_size i + 1 - zlength (m_send_queue (w_conn w))) in
  (length (m_subscription_topics i) ≤ room →
   ∃ w', Impl_connectionStateChange true w = Done () w' ∧
     m_state (w_impl w') = CONNECTED ∧ m_publish_queue (w_impl w') = [] ∧
     m_subscriptions (w_impl w') = m_subscriptions i ∧
     m_send_queue (w_conn w') = m_send_queue (w_conn w) ++
       map set_header (subscribe_packets (m_packet_id i) (m_subscription_topics i)) ++
       map set_header (take (room - length (m_subscription_topics i))
                         (publish_packets (m_publish_queue i)))) ∧
  (room < length (m_subscription_topics i) →
   Impl_connectionStateChange true w = Fault Terminated).
Proof.
  intros Hr Hc i r. split; [|by apply too_many_terminate]. intros Hroom.
  apply wp_total_unit. eapply wp_mono.
  { apply wp_connected; [by apply reachable_joining|done|by apply reachable_id|].
    change (room w) with r. fold i. lia. }
  intros _ w' (id & tr & _ & _ & ->). do 3 (split; [done|]). cbn. f_equal.
  change (room w) with r. fold i. rewrite take_app, map_app.
  rewrite length_subscribe_packets, firstn_all2 by (by rewrite length_subscribe_packets).
  done.
Qed.

(** A flaw: when they do not fit, "closing connection and trying again"
    destroys the connection on its own read thread, which ends the program:
    [join()] throws in the destructor. *)
Theorem too_many_subscriptions_terminate w :
  reachable w → m_connection (w_impl w) = true →
  Z.to_nat (m_send_queue_size (w_impl w) + 1 - zlength (m_send_queue (w_conn w)))
    < length (m_subscription_topics (w_impl w)) →
  Impl_connectionStateChange true w = Fault Terminated.
Proof.
  apply too_many_terminate.
Qed.

(** A flaw: [disconnect] empties the tree but not the flat set of topics,
    so after a new [connect] the topic still counts as subscribed to, and
    unsubscribing from it dereferences [end()]. *)
Theorem unsubscribe_after_reconnect w topic :
  reachable w → m_state (w_impl w) ≠ DISCONNECTED → w_threads_end w = true →
  topic ∈ m_subscription_topics (w_impl w) →
  (Client_disconnect ;; Client_connect ;; Client_unsubscribe topic) w =
    Fault UndefinedBehaviour.
Proof.
  intros Hr Hst Hends Hin.
  destruct (wp_faults (λ f, f = UndefinedBehaviour)
    (Client_disconnect ;; Client_connect ;; Client_unsubscribe topic) w)
    as (f & Hf & ->); [|done].
  apply wp_bind, wp_bind, wp_get_impl. rewrite decide_False by done.
  apply wp_bind, wp_log, wp_bind, wp_mod_impl, wp_bind, wp_call_state_change.
  apply wp_Impl_disconnect_user; [|intros _ ?; simpl in *; congruence]. intros w1 [Hi1 _].
  apply wp_bind, wp_bind, wp_get_impl. rewrite decide_False by (rewrite Hi1; tauto).
  do 2 apply wp_bind, wp_get_impl. apply wp_bind, wp_log, wp_bind, wp_mod_impl.
  apply wp_bind, wp_call_state_change.
  apply wp_Impl_connect; [by simpl; rewrite Hi1|].
  apply wp_bind, wp_get_impl. rewrite decide_False by done.
  apply wp_bind, wp_get_impl. unfold set_find.
  rewrite bool_decide_true by (simpl; by rewrite Hi1). cbn [negb].
  apply wp_bind, wp_get_impl, wp_bind, wp_from_option_ub; [|done]. intros s' Hrem.
  change (unsubscribe_tree topic (m_subscriptions (w_impl w1)) = Some s') in Hrem.
  rewrite Hi1 in Hrem. change (unsubscribe_tree topic ∅ = Some s') in Hrem.
  by rewrite unsubscribe_empty in Hrem.
Qed.

(** C35: [publish] returns [true] exactly when the message was put last on one of
    the two queues: the publish queue while connecting, the send queue, as a
    framed PUBLISH packet, while connected; otherwise both queues are
    unchanged. *)
Theorem publish_result topic message retain w b w' :
  reachable w → Client_publish topic message retain w = Done b w' →
  let i := w_impl w in
  let i' := w_impl w' in
  let sent := set_header (publish_packet topic message retain) in
  if b then
    (m_state i = CONNECTING ∧ m_send_queue (w_conn w') = m_send_queue (w_conn w) ∧
      ∃ q, m_publish_queue i' = q ++ [(topic, message, retain)]) ∨
    (m_state i = CONNECTED ∧ m_publish_queue i' = m_publish_queue i ∧
      m_send_queue (w_conn w') = m_send_queue (w_conn w) ++ [sent])
  else
    m_publish_queue i' = m_publish_queue i ∧
    m_send_queue (w_conn w') = m_send_queue (w_conn w).
Proof.
  intros Hr Hrun i i' sent. subst i'. pose proof (reachable_ok w Hr) as Hok.
  revert Hrun. unfold Client_publish, get_impl at 1, gets at 1, mbind at 1, M_bind at 1.
  destruct (m_state (w_impl w)) eqn:Hst; fold i in Hst; rewrite ?Hst.
  - unfold mbind, M_bind. rewrite log_eq. by intros [= <- <-].
  - intros Hrun. pose proof (toPublishQueue_connecting (λ _, True) topic message retain w
      Hst (λ _, I)) as Hwp.
    apply (wp_run _ _ _ _ _ _ Hwp) in Hrun as (q & tr & Hstep & -> & ->). clear Hwp. fold i in Hstep |- *.
    case_bool_decide as Hty; cbn.
    + left. split; [done|]. split; [done|]. by eapply queue_step_last.
    + rewrite Hty in Hstep. simpl in Hstep. injection Hstep as <-. done.
  - rewrite sendPublish_eq by (apply client_ok_live; [done|fold i; congruence]).
    case_decide; intros [= <- <-]; [done|]. right. done.
Qed.

(** C8: while connected, a message calls each callback the tree holds for its
    topic once, in the order [findSubscriptionMatch] finds them, and nothing
    else; and after a subscription that fits the send queue, they include the
    new callback whenever the filter is visited for the topic. *)
Theorem subscribed_messages_arrive w filter cb topic message :
  reachable w → m_state (w_impl w) = CONNECTED →
  (zlength (m_send_queue (w_conn w)) ≤ m_send_queue_size (w_impl w))%Z →
  visited (levels filter) (levels topic) →
  ∃ w1, Client_subscribe filter cb w = Done () w1 ∧
    m_state (w_impl w1) = CONNECTED ∧
    filter ∈ m_subscription_topics (w_impl w1) ∧
    m_send_queue (w_conn w1) = m_send_queue (w_conn w) ++
      [set_header (subscribe_packet (packet_id_of (m_packet_id (w_impl w))) filter)] ∧
    cb ∈ match_topic topic (m_subscriptions (w_impl w1)) ∧
    Impl_messageReceived topic message w1 =
      Done () (w1 <| w_trace ::= λ t, t ++ map (λ cb, EvMessage cb topic message)
                       (match_topic topic (m_subscriptions (w_impl w1))) |>).
Proof.
  intros Hr Hst Hq Hv. apply wp_total_unit.
  apply wp_bind, wp_get_impl. rewrite decide_False by congruence.
  apply wp_bind, wp_get_impl, wp_bind.
  destruct (law_add filter cb (m_subscriptions (w_impl w))) as (s & Hadd & Hcbs).
  rewrite Hadd. apply wp_ret. do 2 apply wp_bind, wp_mod_impl.
  set (w1 := _ <| w_impl ::= _ |>).
  apply wp_bind, wp_get_impl. rewrite decide_True by done.
  apply wp_bind. unfold wp at 1. rewrite sendSubscribe_eq.
  2:{ apply (client_ok_live w); [by apply reachable_ok|congruence]. }
  rewrite decide_False.
  2:{ unfold room. subst w1. cbn. lia. }
  cbn [negb when]. apply wp_ret. split; [done|]. split; [|split; [done|split]].
  - cbn. apply elem_of_set_emplace. by left.
  - change (cb ∈ store_match topic s). apply law_match. exists filter.
    split; [|done]. rewrite (Hcbs filter).
    rewrite decide_True by done. apply elem_of_app. right. by apply list_elem_of_singleton.
  - apply messageReceived_eq; [exact (reachable_joining w Hr)|exact Hst].
Qed.

(** A flaw: a subscription that finds the send queue full replaces the
    connection but tells nobody: the client stays CONNECTED while the new
    connection still resolves the host name, and all callbacks are lost, so
    that no message calls any, though the topics remain subscribed to. *)
Theorem subscribe_on_full_queue_drops_callbacks w filter cb :
  reachable w → m_state (w_impl w) = CONNECTED →
  (m_send_queue_size (w_impl w) < zlength (m_send_queue (w_conn w)))%Z →
  w_threads_end w = true →
  ∃ w', Client_subscribe filter cb w = Done () w' ∧
    m_state (w_impl w') = CONNECTED ∧
    m_cstate (w_conn w') = CState.RESOLVING ∧
    m_send_queue (w_conn w') = [] ∧
    m_subscription_topics (w_impl w') =
      set_emplace filter (m_subscription_topics (w_impl w)) ∧
    ∀ topic message, Impl_messageReceived topic message w' = Done () w'.
Proof.
  intros Hr Hst Hq Hends. apply wp_total_unit.
  apply wp_bind, wp_get_impl. rewrite decide_False by congruence.
  apply wp_bind, wp_get_impl, wp_bind.
  destruct (law_add filter cb (m_subscriptions (w_impl w))) as (s & Hadd & Hcbs).
  rewrite Hadd. apply wp_ret. do 2 apply wp_bind, wp_mod_impl.
  set (w1 := _ <| w_impl ::= _ |>).
  apply wp_bind, wp_get_impl. rewrite decide_True by done.
  apply wp_bind. unfold wp at 1. rewrite sendSubscribe_eq.
  2:{ apply (client_ok_live w); [by apply reachable_ok|congruence]. }
  rewrite decide_True.
  2:{ unfold room. subst w1. cbn. lia. }
  cbn [negb when]. apply wp_bind, wp_log, wp_bind, wp_Impl_disconnect_user; [|intros _ ?; simpl in *; congruence].
  intros w2 [Hi Hj]. apply wp_Impl_connect; [by rewrite Hi|].
  cbn. rewrite Hi. split_and!; try done.
  intros topic message. rewrite messageReceived_eq.
  - apply (f_equal (Done ())), World_eq; try reflexivity. cbn [w_trace set_field].
    by rewrite match_topic_empty, app_nil_r.
  - exact (eq_trans Hj (reachable_joining w Hr)).
  - done.
Qed.

(** ** The properties at concrete states *)

Lemma client_invariant_witness : m_connection (w_impl connected_world) = true.
Proof.
  destruct (client_invariant connected_world reachable_connected_world) as [H _].
  apply H. discriminate.
Defined.

Lemma only_these_calls_fault_witness :
  ∃ w', run_op (OpSubscribe "a/b" 1) connected_world = Done () w' ∧ reachable w'.
Proof.
  apply wp_total_unit. eapply wp_weaken.
  - exact (only_these_calls_fault (OpSubscribe "a/b" 1) connected_world
      reachable_connected_world I).
  - intros f (_ & _ & _ & Hends). discriminate Hends.
Defined.

Lemma refused_calls_only_log_witness :
  ∃ tr, run_op OpConnect connected_world =
    Done () (connected_world <| w_trace := w_trace connected_world ++ tr |>) ∧ Forall is_log tr.
Proof.
  apply (refused_calls_only_log OpConnect connected_world reachable_connected_world).
  reflexivity.
Defined.

(** One subscription and one waiting message; only the first fits. *)
Definition restoring_world : World :=
  after (OpPublish "t" "m" false) (after (OpSubscribe "a" 1)
    (after OpConnect (after (OpSetPublishQueue FIFO 5)
      (after (OpSetSendQueue 0) test_world)))).

Lemma reachable_restoring_world : reachable restoring_world.
Proof. repeat apply reachable_after; try done. apply reachable_test_world. Qed.

Lemma connected_restores_witness :
  ∃ w', Impl_connectionStateChange true restoring_world = Done () w' ∧
    m_send_queue (w_conn w') = [set_header (subscribe_packet 1 "a")].
Proof.
  destruct (proj1 (connected_restores restoring_world reachable_restoring_world eq_refl))
    as (w' & Hw & _ & _ & _ & Hq).
  - apply Nat.leb_le. reflexivity.
  - exists w'. split; [exact Hw|]. rewrite Hq. reflexivity.
Defined.

Lemma too_many_subscriptions_terminate_witness :
  Impl_connectionStateChange true (after (OpSubscribe "b" 2) restoring_world) =
    Fault Terminated.
Proof.
  apply too_many_subscriptions_terminate.
  - apply reachable_after; [apply reachable_restoring_world|exact I].
  - reflexivity.
  - apply Nat.ltb_lt. reflexivity.
Defined.

Lemma unsubscribe_after_reconnect_witness :
  (Client_disconnect ;; Client_connect ;; Client_unsubscribe "a") restoring_world =
    Fault UndefinedBehaviour.
Proof.
  apply unsubscribe_after_reconnect.
  - apply reachable_restoring_world.
  - discriminate.
  - reflexivity.
  - apply list_elem_of_singleton. reflexivity.
Defined.

Lemma publish_result_witness :
  ∃ w', Client_publish "t" "m" true connected_world = Done true w' ∧
    m_send_queue (w_conn w') = [set_header (publish_packet "t" "m" true)].
Proof.
  destruct (Client_publish "t" "m" true connected_world) as [b w'|f] eqn:Hrun.
  - pose proof (publish_result "t" "m" true connected_world b w'
      reachable_connected_world Hrun) as Hres.
    assert (b = true) as -> by (vm_compute in Hrun; congruence).
    exists w'. split; [reflexivity|]. destruct Hres as [[? _]|(_ & _ & Hq)]; [discriminate|].
    rewrite Hq. reflexivity.
  - vm_compute in Hrun. discriminate.
Defined.

Lemma subscribed_messages_arrive_witness :
  ∃ w1, Client_subscribe "a/+" 7 connected_world = Done () w1 ∧
    7 ∈ match_topic "a/b" (m_subscriptions (w_impl w1)).
Proof.
  destruct (subscribed_messages_arrive connected_world "a/+" 7 "a/b" "m"
    reachable_connected_world) as (w1 & Hw & _ & _ & _ & Hin & _).
  - reflexivity.
  - apply Z.leb_le. reflexivity.
  - split; [by left|by right; left].
  - exists w1. split; [exact Hw|exact Hin].
Defined.

Definition full_world : World :=
  connected_world <| w_conn ::= λ c, c <| m_send_queue := [pingreq_packet] |> |>.

Lemma reachable_full_world : reachable full_world.
Proof.
  eapply reachable_step; [apply reachable_connected_world|].
  exact (step_connection (w_conn full_world) (w_fds connected_world) true connected_world).
Qed.

Lemma subscribe_on_full_queue_drops_callbacks_witness :
  ∃ w', Client_subscribe "a" 1 full_world = Done () w' ∧
    m_cstate (w_conn w') = CState.RESOLVING.
Proof.
  destruct (subscribe_on_full_queue_drops_callbacks full_world "a" 1 reachable_full_world)
    as (w' & Hw & _ & Hc & _).
  - reflexivity.
  - reflexivity.
  - reflexivity.
  - exists w'. split; [exact Hw|exact Hc].
Defined.
