(* ===== verification/Machine.v ===== *)
(** * The client as an abstract machine

    What a client promises, without packets, identifiers, logging and the
    connection: a machine whose state is what the calls made of it, and whose
    outputs are the callbacks it makes and what it asks the broker for.  The
    client of [Client.v] refines it, as long as what it asks for fits the send
    queue. *)

From S2P Require Export ClientSpec.

Abbreviation message := (string * string * bool)%type (only parsing).

(** ** The machine *)

(** What a client asks its broker. *)
Inductive request :=
  | AskSubscribe (topic : string)
  | AskUnsubscribe (topic : string)
  | AskPublish (m : message).

Record machine := mkMachine {
  c_state : State;
  c_topics : list string;
  c_tree : tree;
  c_queue_type : PublishQueueType;
  c_queue_size : Z;
  c_waiting : list message;
  c_on_state : callback
}.

#[export] Instance eta_machine : Eta machine := λ m,
  mkMachine (c_state m) (c_topics m) (c_tree m) (c_queue_type m) (c_queue_size m)
    (c_waiting m) (c_on_state m).

(** The new state, the requests and the callbacks; [None] where the code is
    undefined. *)
Definition machine_step (op : client_op) (m : machine)
    : option (machine * list request * list event) :=
  let stay := Some (m, [], []) in
  let enter s m := Some (m <| c_state := s |>, [], [EvStateChange (c_on_state m) s]) in
  match op with
  | OpSetLogger _ _ | OpSetLastWill _ _ _ | OpSetErrorCallback _ | OpSetSendQueue _ => stay
  | OpSetStateChangeCallback cb => Some (m <| c_on_state := cb |>, [], [])
  | OpSetPublishQueue t n =>
      if decide (c_state m = DISCONNECTED)
      then Some (m <| c_queue_type := t |> <| c_queue_size := n |>, [], []) else stay
  | OpConnect => if decide (c_state m = DISCONNECTED) then enter CONNECTING m else stay
  | OpDisconnect =>
      if decide (c_state m = DISCONNECTED) then stay
      else enter DISCONNECTED (m <| c_tree := ∅ |> <| c_waiting := [] |>)
  | OpPublish topic payload retain =>
      match c_state m with
      | DISCONNECTED => stay
      | CONNECTING =>
          q ← queue_step (c_queue_type m) (c_queue_size m) (c_waiting m) (topic, payload, retain);
          Some (m <| c_waiting := q |>, [], [])
      | CONNECTED => Some (m, [AskPublish (topic, payload, retain)], [])
      end
  | OpSubscribe topic cb =>
      if decide (c_state m = DISCONNECTED) then stay
      else
        t ← subscribe_tree topic cb (c_tree m);
        Some (m <| c_tree := t |> <| c_topics ::= set_emplace topic |>,
              if decide (c_state m = CONNECTED) then [AskSubscribe topic] else [], [])
  | OpUnsubscribe topic =>
      if decide (c_state m = DISCONNECTED ∨ topic ∉ c_topics m) then stay
      else
        t ← unsubscribe_tree topic (c_tree m);
        Some (m <| c_tree := t |> <| c_topics ::= set_erase topic |>,
              if decide (c_state m = CONNECTED) then [AskUnsubscribe topic] else [], [])
  | OpStateChange true =>
      Some (m <| c_state := CONNECTED |> <| c_waiting := [] |>,
            map AskSubscribe (c_topics m) ++ map AskPublish (c_waiting m),
            [EvStateChange (c_on_state m) CONNECTED])
  | OpStateChange false => enter CONNECTING m
  | OpMessage topic payload =>
      if decide (c_state m = CONNECTED)
      then Some (m, [], map (λ cb, EvMessage cb topic payload) (match_topic topic (c_tree m)))
      else stay
  end.

(** ** What it abstracts *)

Definition machine_of (w : World) : machine :=
  let i := w_impl w in
  mkMachine (m_state i) (m_subscription_topics i) (m_subscriptions i) (m_publish_queue_type i)
    (m_publish_queue_size i) (m_publish_queue i) (m_state_change_callback i).

(** The callbacks other than the logger, among the events. *)
Definition is_call (e : event) : bool :=
  match e with EvStateChange _ _ | EvError _ _ _ | EvMessage _ _ _ => true | _ => false end.
Definition calls (tr : list event) : list event := List.filter is_call tr.
Arguments calls : simpl never.

(** The packet that makes a request, with some packet identifier. *)
Definition asks (r : request) (p : Packet) : Prop :=
  match r with
  | AskSubscribe topic => ∃ id, p = set_header (subscribe_packet id topic)
  | AskUnsubscribe topic => ∃ id, p = set_header (unsubscribe_packet id topic)
  | AskPublish (topic, payload, retain) => p = set_header (publish_packet topic payload retain)
  end.

(** [connect] starts with an empty send queue. *)
Definition queue_before (op : client_op) (w : World) : list Packet :=
  match op with
  | OpConnect => if decide (m_state (w_impl w) = DISCONNECTED) then [] else m_send_queue (w_conn w)
  | _ => m_send_queue (w_conn w)
  end.

(** The call did what the machine does. *)
Definition did (op : client_op) (w : World) (m : machine) (rs : list request)
    (cs : list event) (w' : World) : Prop :=
  machine_of w' = m ∧ calls (w_trace w') = calls (w_trace w) ++ cs ∧
  ∃ ps, Forall2 asks rs ps ∧ m_send_queue (w_conn w') = queue_before op w ++ ps.

(** ** Each operation *)

Lemma calls_app t1 t2 : calls (t1 ++ t2) = calls t1 ++ calls t2.
Proof. apply List.filter_app. Qed.

Lemma calls_log i l msg : calls (log_events i l msg) = [].
Proof. unfold log_events. by case_match. Qed.

Lemma calls_messages topic payload cbs :
  calls (map (λ cb, EvMessage cb topic payload) cbs) = map (λ cb, EvMessage cb topic payload) cbs.
Proof.
  unfold calls. induction cbs as [|cb cbs IH]; [done|]. cbn. by rewrite <-IH at 2.
Qed.

Lemma calls_one e : calls [e] = if is_call e then [e] else [].
Proof. done. Qed.

#[export] Hint Rewrite calls_app calls_one calls_log calls_messages (@app_nil_r event) : calls.

(** Nothing was asked. *)
Lemma did_calls op w m cs w' :
  machine_of w' = m → calls (w_trace w') = calls (w_trace w) ++ cs →
  m_send_queue (w_conn w') = queue_before op w → did op w m [] cs w'.
Proof.
  intros Hm Hc Hq. split; [done|]. split; [done|]. exists []. split; [constructor|].
  by rewrite app_nil_r.
Qed.

Lemma did_log op w l msg :
  queue_before op w = m_send_queue (w_conn w) →
  wp (λ _, False) (log l msg) (λ _, did op w (machine_of w) [] []) w.
Proof.
  intros Hq. apply wp_log, did_calls; [done| |done]. cbn. by autorewrite with calls.
Qed.

Lemma sent_state_machine w id q : machine_of (sent_state w id q) = machine_of w.
Proof. done. Qed.

(** What the read thread calls. *)
Definition from_reader (op : client_op) : Prop :=
  match op with OpStateChange _ | OpMessage _ _ => True | _ => False end.

(** The call joins threads that do not end. *)
Definition waits_for_ever (op : client_op) (w : World) : bool :=
  match op with
  | OpDisconnect => bool_decide (m_state (w_impl w) ≠ DISCONNECTED) && negb (w_threads_end w)
  | _ => false
  end.

(** What there is to show of a call. *)
Definition refines (op : client_op) (w : World) : Prop :=
  waits_for_ever op w = false →
  ∀ m rs cs, machine_step op (machine_of w) = Some (m, rs, cs) → length rs ≤ room w →
  wp (λ _, False) (run_op op) (λ _, did op w m rs cs) w.

Ltac did := apply did_calls; [reflexivity|cbn; autorewrite with calls; done|cbn; case_decide; done || done].

Section operations.
Context (w : World) (Hr : reachable w).

Lemma machine_live : m_state (w_impl w) ≠ DISCONNECTED → m_connection (w_impl w) = true.
Proof. by apply client_ok_live, reachable_ok. Qed.

Lemma refines_setters op :
  match op with
  | OpSetLogger _ _ | OpSetLastWill _ _ _ | OpSetErrorCallback _
  | OpSetSendQueue _ | OpSetStateChangeCallback _ | OpSetPublishQueue _ _ => True
  | _ => False
  end → refines op w.
Proof.
  intros Hop _ m rs cs Hm _. destruct op; try done; cbn [machine_step run_op] in *;
    unfold Client_setLogger, Client_setLastWill, Client_setErrorCallback,
      Client_setPublishQueue, Client_setSendQueue, Client_setStateChangeCallback;
    wp_auto; cbn [c_state machine_of] in Hm; repeat case_decide; simplify_eq;
    apply did_calls; cbn; by autorewrite with calls.
Qed.

Lemma refines_connect : refines OpConnect w.
Proof.
  intros _ m rs cs Hm _. cbn [machine_step run_op c_state machine_of] in *.
  apply wp_bind, wp_get_impl. destruct (decide (m_state (w_impl w) = DISCONNECTED)) as [Hst|Hst].
  - rewrite decide_False by auto. simplify_eq. wp_auto. apply wp_Impl_connect; cbn.
    + destruct (reachable_ok w Hr) as [[] _]. destruct (m_connection (w_impl w)); naive_solver.
    + apply did_calls; cbn; [done|by autorewrite with calls|]. by rewrite decide_True.
  - rewrite decide_True by done. simplify_eq. apply did_log. cbn. by rewrite decide_False.
Qed.

Lemma refines_disconnect : refines OpDisconnect w.
Proof.
  intros Hends m rs cs Hm _. cbn [machine_step run_op c_state machine_of] in *.
  apply wp_bind, wp_get_impl. case_decide as Hst; simplify_eq; [by apply did_log|].
  cbn [waits_for_ever] in Hends. rewrite bool_decide_true in Hends by done.
  apply negb_false_iff in Hends.
  unfold Impl_disconnect, Connection_dtor, join_threads, runRead_stop.
  wp_auto; try (simpl in *; congruence); apply did_calls; cbn; by autorewrite with calls.
Qed.

Lemma disconnect_waits :
  waits_for_ever OpDisconnect w = true → run_op OpDisconnect w = Fault Deadlock.
Proof.
  cbn [waits_for_ever run_op]. rewrite andb_true_iff, bool_decide_eq_true, negb_true_iff.
  intros [Hst Hends].
  destruct (wp_faults (λ f, f = Deadlock) Client_disconnect w) as (f & -> & ->); [|done].
  apply wp_bind, wp_get_impl. rewrite decide_False by done.
  unfold Impl_disconnect, Connection_dtor, join_threads.
  wp_auto; try (simpl in *; congruence).
  pose proof (machine_live Hst). simpl in *. congruence.
Qed.

Lemma refines_message topic payload : refines (OpMessage topic payload) w.
Proof.
  intros _ m rs cs Hm _. cbn [machine_step run_op c_state c_tree machine_of] in *.
  case_decide as Hst; simplify_eq.
  - unfold wp. rewrite messageReceived_eq by (by try apply reachable_joining).
    apply did_calls; cbn; by autorewrite with calls.
  - apply wp_bind, wp_lock_state_mutex; [|by rewrite (reachable_joining w Hr)]. intros _.
    apply wp_bind, wp_get_impl. rewrite decide_True by done. by apply did_log.
Qed.

Lemma toPublishQueue_calls topic payload retain :
  wp (λ _, True) (Impl_toPublishQueue topic payload retain) (λ _ w',
    calls (w_trace w') = calls (w_trace w)) w.
Proof. unfold Impl_toPublishQueue. wp_auto; cbn; by autorewrite with calls. Qed.

Lemma refines_publish topic payload retain : refines (OpPublish topic payload retain) w.
Proof.
  intros _ m rs cs Hm Hroom.
  cbn [machine_step run_op c_state c_queue_type c_queue_size c_waiting machine_of] in *.
  apply wp_bind, wp_bind, wp_get_impl. destruct (m_state (w_impl w)) eqn:Hst; simplify_eq.
  - apply wp_bind. eapply wp_mono; [by apply (did_log (OpPublish topic payload retain))|].
    intros u w1 Hw1. by apply wp_ret, wp_ret.
  - destruct (queue_step _ _ _ _) as [q|] eqn:Hq; simplify_eq/=.
    eapply wp_mono.
    { eapply wp_conj; [by apply (toPublishQueue_connecting (λ _, False)); [|rewrite Hq]|].
      apply toPublishQueue_calls. }
    intros b w1 [(q' & tr & Hq' & _ & ->) Hcalls]. apply wp_ret.
    rewrite Hq in Hq'. simplify_eq. apply did_calls; [done| |done].
    by rewrite Hcalls, app_nil_r.
  - unfold wp at 1. rewrite sendPublish_eq by (apply machine_live; congruence).
    cbn [length] in Hroom. rewrite decide_False by lia. apply wp_ret.
    split; [done|]. split; [by rewrite app_nil_r|]. eexists [_]. split; [|reflexivity].
    by repeat constructor.
Qed.

Lemma refines_subscribe topic cb : refines (OpSubscribe topic cb) w.
Proof.
  intros _ m rs cs Hm Hroom. cbn [machine_step run_op c_state c_tree machine_of] in *.
  apply wp_bind, wp_get_impl. case_decide as Hst; simplify_eq; [by apply did_log|].
  apply wp_bind, wp_get_impl, wp_bind. cbn [store_add tree_store].
  destruct (subscribe_tree topic cb (m_subscriptions (w_impl w))) as [t|]; simplify_eq/=.
  apply wp_ret. do 2 apply wp_bind, wp_mod_impl. set (w1 := _ <| w_impl ::= _ |>).
  apply wp_bind, wp_get_impl. change (m_state (w_impl w1)) with (m_state (w_impl w)).
  case_decide as Hc; [|by apply wp_ret, did_calls; autorewrite with calls].
  apply wp_bind. unfold wp at 1. rewrite sendSubscribe_eq by (by apply machine_live).
  change (room w1) with (room w). cbn [length] in Hroom. rewrite decide_False by lia.
  apply wp_ret. split; [done|]. split; [by rewrite app_nil_r|]. eexists [_].
  split; [|reflexivity]. repeat constructor. by eexists.
Qed.

Lemma refines_unsubscribe topic : refines (OpUnsubscribe topic) w.
Proof.
  intros _ m rs cs Hm Hroom. cbn [machine_step run_op c_state c_tree c_topics machine_of] in *.
  apply wp_bind, wp_get_impl. destruct (decide (m_state (w_impl w) = DISCONNECTED)) as [Hst|Hst].
  { rewrite decide_True in Hm by auto. simplify_eq. by apply did_log. }
  apply wp_bind, wp_get_impl. unfold set_find. case_bool_decide as Hin; cbn [negb].
  2:{ rewrite decide_True in Hm by auto. simplify_eq. by apply did_log. }
  rewrite decide_False in Hm by naive_solver.
  apply wp_bind, wp_get_impl, wp_bind. cbn [store_remove tree_store].
  destruct (unsubscribe_tree topic (m_subscriptions (w_impl w))) as [t|]; simplify_eq/=.
  apply wp_ret. do 2 apply wp_bind, wp_mod_impl. set (w1 := _ <| w_impl ::= _ |>).
  apply wp_bind, wp_get_impl. change (m_state (w_impl w1)) with (m_state (w_impl w)).
  case_decide as Hc; [|by apply wp_ret, did_calls; autorewrite with calls].
  apply wp_bind. unfold wp at 1. rewrite sendUnsubscribe_eq by (by apply machine_live).
  change (room w1) with (room w). cbn [length] in Hroom. rewrite decide_False by lia.
  apply wp_ret. split; [done|]. split; [by rewrite app_nil_r|]. eexists [_].
  split; [|reflexivity]. repeat constructor. by eexists.
Qed.

(** The loops of [connectionStateChange] call nobody but the logger. *)
Lemma resubscribe_calls topics w0 :
  wp (λ _, True) (resubscribe topics) (λ _ w', calls (w_trace w') = calls (w_trace w0)) w0.
Proof.
  revert w0. induction topics as [|t ts IH]; intros w0; cbn [resubscribe]; [by apply wp_ret|].
  apply wp_bind. unfold Impl_sendSubscribe, next_packet_id, deref_connection, Connection_send.
  wp_auto; (eapply wp_mono; [apply IH|by intros ?? ->]).
Qed.

Lemma flush_calls queue w0 :
  wp (λ _, True) (flush queue) (λ _ w', calls (w_trace w') = calls (w_trace w0)) w0.
Proof.
  revert w0. induction queue as [|[[t m] r] queue IH]; intros w0; cbn [flush]; [by apply wp_ret|].
  apply wp_bind. unfold Impl_sendPublish, deref_connection, Connection_send.
  wp_auto; first [cbn; by autorewrite with calls|eapply wp_mono; [apply IH|by intros ?? ->]].
Qed.

Lemma connected_calls w0 :
  wp (λ _, True) (Impl_connectionStateChange true) (λ _ w', calls (w_trace w') =
    calls (w_trace w0) ++ [EvStateChange (m_state_change_callback (w_impl w0)) CONNECTED]) w0.
Proof.
  apply wp_bind, wp_lock_state_mutex; [intros _|done].
  apply wp_bind, wp_log, wp_bind, wp_mod_impl, wp_bind, wp_call_state_change.
  apply wp_bind, wp_get_impl, wp_bind. eapply wp_mono; [apply resubscribe_calls|].
  intros b w1 Hw1. cbn in Hw1. autorewrite with calls in Hw1. destruct b; cbn [negb].
  - apply wp_bind, wp_get_impl, wp_bind. eapply wp_mono; [apply flush_calls|].
    intros u w2 Hw2. apply wp_mod_impl. cbn. by rewrite Hw2, Hw1.
  - apply wp_bind, wp_log, wp_bind. unfold Impl_disconnect, Connection_dtor, Impl_connect.
    wp_auto; cbn; by autorewrite with calls.
Qed.

Lemma asks_subscribe n topics :
  Forall2 asks (map AskSubscribe topics) (map set_header (subscribe_packets n topics)).
Proof.
  revert n. induction topics as [|t ts IH]; intros n; cbn; [constructor|].
  constructor; [by eexists|apply IH].
Qed.

Lemma asks_publish queue :
  Forall2 asks (map AskPublish queue) (map set_header (publish_packets queue)).
Proof. induction queue as [|[[t m] r] queue IH]; cbn; by constructor. Qed.

Lemma refines_stateChange connected :
  m_connection (w_impl w) = true → refines (OpStateChange connected) w.
Proof.
  intros Hc _ m rs cs Hm Hroom. pose proof (reachable_joining w Hr) as Hj.
  destruct connected; cbn [machine_step run_op c_topics c_waiting c_on_state machine_of] in *;
    simplify_eq.
  - rewrite length_app, !length_map in Hroom. eapply wp_mono.
    { eapply wp_conj; [apply (wp_connected (λ _, False)); [done|done|by apply reachable_id|]|
        apply connected_calls]. lia. }
    intros u w' [(id & tr & Hid & Hle & ->) Hcalls]. split; [done|]. split; [exact Hcalls|].
    eexists. split; [|reflexivity]. rewrite firstn_all2.
    + rewrite map_app. apply Forall2_app; [apply asks_subscribe|apply asks_publish].
    + rewrite length_app, length_subscribe_packets. unfold publish_packets.
      rewrite length_map. lia.
  - apply wp_bind, wp_lock_state_mutex; [intros _|by rewrite Hj].
    wp_auto. apply did_calls; cbn; [done|by autorewrite with calls|done].
Qed.
End operations.

(** ** Refinement *)

Lemma client_refines op w m rs cs :
  reachable w → op_enabled op w → waits_for_ever op w = false →
  machine_step op (machine_of w) = Some (m, rs, cs) → length rs ≤ room w →
  ∃ w', run_op op w = Done () w' ∧ machine_of w' = m ∧
    calls (w_trace w') = calls (w_trace w) ++ cs ∧
    ∃ ps, Forall2 asks rs ps ∧ m_send_queue (w_conn w') = queue_before op w ++ ps.
Proof.
  intros Hreach Hen Hends Hstep Hroom. apply wp_total_unit.
  assert (refines op w) as Href; [|by apply Href].
  destruct op; eauto using refines_setters, refines_connect, refines_disconnect,
    refines_publish, refines_subscribe, refines_unsubscribe, refines_stateChange,
    refines_message.
Qed.

(** C2: the client refines the machine.  In every reachable state, a call that
    the machine has a step for, and whose requests fit the send queue, returns;
    the client is then in the state of the machine, has made exactly the
    callbacks of the machine, in order, and has queued exactly the packets that
    make its requests, in order, after those already there.  Connecting starts
    with an empty queue.  The only call that may not return is disconnecting: it
    does not when a thread of the connection does not end. *)
Theorem client_refines_machine op w m rs cs
    (Hreach : reachable w) (Hen : op_enabled op w)
    (Hstep : machine_step op (machine_of w) = Some (m, rs, cs))
    (Hroom : length rs ≤ room w) :
  if waits_for_ever op w then run_op op w = Fault Deadlock
  else ∃ w', run_op op w = Done () w' ∧ machine_of w' = m ∧
    calls (w_trace w') = calls (w_trace w) ++ cs ∧
    ∃ ps, Forall2 asks rs ps ∧ m_send_queue (w_conn w') = queue_before op w ++ ps.
Proof.
  destruct (waits_for_ever op w) eqn:Hends; [|by apply client_refines].
  destruct op; try discriminate Hends. by apply disconnect_waits.
Qed.

Lemma client_refines_machine_witness :
  ∃ w', run_op (OpSubscribe "a" 7) connected_world = Done () w' ∧
    c_topics (machine_of w') = ["a"].
Proof.
  destruct (client_refines_machine (OpSubscribe "a" 7) connected_world
    (mkMachine CONNECTED ["a"] (default ∅ (subscribe_tree "a" 7 ∅)) DROP 0 [] 0)
    [AskSubscribe "a"] []) as (w' & Hrun & Hm & _).
  - exact reachable_connected_world.
  - exact Logic.I.
  - vm_compute. reflexivity.
  - apply Nat.leb_le. vm_compute. reflexivity.
  - exists w'. split; [exact Hrun|]. rewrite Hm. reflexivity.
Defined.
