(* ===== verification/Recv.v ===== *)
(** * Receiving

    [Connection::recv] and [Connection::recvLoop] of [src/Packet.cpp], on the
    read thread: bytes from the socket, the packet they make up, and what the
    client does with it. *)

From S2P Require Export Client.

Definition ns_of_ms (ms : Z) : Z := ms * 1000000.

(** The state in which [recv] gives up. *)
Definition recv_stopped (s : CState.t) : bool :=
  bool_decide (s = CState.SOCKET_ERROR) || bool_decide (s = CState.STOP).

(** The [while (true)] of [recv]: wait for data, or give up.  Every iteration
    takes an answer, so the length of the script bounds their number. *)
Fixpoint recv_wait (fuel : nat) : M bool :=
  match fuel with
  | O => raise Blocked
  | S fuel =>
      fd ← get_conn m_socket;
      FD_SET fd ;;
      ret ← sys_select_read;
      state ← get_conn m_cstate;
      if recv_stopped state then mret false
      else
        now ← sys_now;
        last_sent ← get_conn m_last_sent_packet;
        interval ← get_impl m_keep_alive_interval;
        when (bool_decide (last_sent + ns_of_ms interval < now)%Z)
          (t ← sys_now;
           mod_conn (λ c, c <| m_last_sent_packet := t |>) ;;
           _ ← Connection_sendPingRequest; mret ()) ;;
        last_received ← get_conn m_last_received_packet;
        if decide (last_received + ns_of_ms (Z.quot (interval * 15) 10) < now)%Z then
          log ERROR [PStr "Connection timed out"] ;; mret false
        else if decide (ret = 0)%Z then recv_wait fuel
        else mret true
  end.

(** [recv(buffer, length)]: [None] is a result that is not positive. *)
Definition Connection_recv (length : Z) : M (option (list Z)) :=
  fuel ← gets (λ w, S (List.length (w_os w)));
  ready ← recv_wait fuel;
  if negb ready then mret None
  else
    res ← sys_recv length;
    match res with
    | inr [] => log WARNING [PStr "Connection closed by broker"] ;; mret None
    | inl errno =>
        log WARNING [PStr "Connection read error: "; PErrno errno] ;; mret None
    | inr data => mret (Some data)
    end.

(** [recv((char * )&buffer, 1)]. *)
Definition recv_byte : M (option Z) :=
  data ← Connection_recv 1;
  mret (match data with Some (b :: _) => Some b | _ => None end).

(** The [for (int i = 0; i < 4; i++)] loop over the length bytes: the length
    so far and the last byte, [None] when [recv] failed. *)
Fixpoint recv_length (n : nat) (i : Z) (remaining_length : Z) (buffer : Z)
    : M (option (Z * Z)) :=
  match n with
  | O => mret (Some (remaining_length, buffer))
  | S n =>
      b ← recv_byte;
      match b with
      | None => mret None
      | Some buffer =>
          let remaining_length :=
            uint32 (Z.lor remaining_length (Z.shiftl (Z.land buffer 0x7F) (7 * i))) in
          if decide (Z.land buffer 0x80 = 0)%Z
          then mret (Some (remaining_length, buffer))
          else recv_length n (i + 1) remaining_length buffer
      end
  end.

(** The [while (pos != remaining_length)] loop: the bytes received. *)
Fixpoint recv_data (fuel : nat) (remaining : Z) (data : list Z) : M (option (list Z)) :=
  if decide (remaining = 0)%Z then mret (Some data)
  else
    match fuel with
    | O => raise Blocked
    | S fuel =>
        res ← Connection_recv remaining;
        match res with
        | None => mret None
        | Some bytes => recv_data fuel (remaining - zlength bytes) (data ++ bytes)
        end
    end.

Definition malformed : M bool :=
  log ERROR [PStr "Malformed packet received, closing connection"] ;; mret false.

(** The [switch] on the type of the packet; [false] closes the connection. *)
Definition dispatch (packet : Packet) : M bool :=
  match m_packet_type packet with
  | CONNACK =>
      let '(acknowledge, packet) := read_uint8 packet in
      match acknowledge with
      | None => malformed
      | Some _ =>
          let '(return_code, packet) := read_uint8 packet in
          match return_code with
          | None => malformed
          | Some return_code =>
              if decide (return_code ≠ 0)%Z then
                log ERROR [PStr "Broker actively refused our connection"] ;; mret false
              else
                mod_conn (λ c, c <| m_cstate := CState.CONNECTED |>) ;;
                Impl_connectionStateChange true ;;
                mret true
          end
      end
  | PUBLISH =>
      let '(topic, packet) := read_string packet in
      match topic with
      | None => malformed
      | Some topic =>
          let '(message, packet) := read_remaining packet in
          Impl_messageReceived topic message ;;
          mret true
      end
  | SUBACK =>
      let '(packet_id, packet) := read_uint16 packet in
      match packet_id with
      | None => malformed
      | Some _ =>
          let '(return_code, packet) := read_uint8 packet in
          match return_code with
          | None => malformed
          | Some return_code =>
              when (bool_decide (2 < return_code)%Z)
                (log WARNING [PStr "Broker refused our subscription"] ;;
                 call_error SUBSCRIBE_FAILED []) ;;
              mret true
          end
      end
  | UNSUBACK =>
      let '(packet_id, packet) := read_uint16 packet in
      match packet_id with
      | None => malformed
      | Some _ => mret true
      end
  | PINGRESP => mret true
  | t =>
      log ERROR [PStr "Received unexpected packet type "; PType t;
                 PStr " from broker, closing connection"] ;;
      mret false
  end.

Definition Connection_recvLoop : M bool :=
  header ← recv_byte;
  match header with
  | None => mret false
  | Some buffer =>
      let packet_type_raw := Z.shiftr buffer 4 in
      let flags := Z.land buffer 0x0F in
      if decide (packet_type_raw < 1 ∨ 14 < packet_type_raw)%Z then
        log ERROR [PStr "Received invalid packet type ("; PNum packet_type_raw;
                   PStr ") from broker, closing connection"] ;;
        mret false
      else
        packet_type ← from_option_ub (PacketType_of_Z packet_type_raw);
        len ← recv_length 4 0 0 buffer;
        match len with
        | None => mret false
        | Some (remaining_length, buffer) =>
            if decide (Z.land buffer 0x80 ≠ 0)%Z then
              log ERROR [PStr "Malformed packet length received, closing connection"] ;;
              mret false
            else
              fuel ← gets (λ w, S (List.length (w_os w)));
              data ← recv_data fuel remaining_length [];
              match data with
              | None => mret false
              | Some data =>
                  ok ← dispatch (Packet_data packet_type flags data);
                  if negb ok then mret false
                  else
                    now ← sys_now;
                    mod_conn (λ c, c <| m_last_received_packet := now |>) ;;
                    mret true
              end
        end
  end.
