(* ===== verification/RecvSpec.v ===== *)
(** * Properties of receiving

    [recvLoop] reads back the frames of [Wire.v], however the network cuts
    them; what it does with each packet; keep-alive and time-outs. *)

From S2P Require Export Recv ClientSpec.

Lemma bind_done {A B} (m : M A) (k : A → M B) w a w' :
  m w = Done a w' → (m ≫= k) w = k a w'.
Proof. unfold mbind, M_bind. by intros ->. Qed.

(** ** Deliveries

    Some bytes that arrive at a time, after a number of polls without data. *)
Record delivery := mkDelivery { d_polls : nat; d_time : Z; d_data : list Z }.

Fixpoint polls (n : nat) (t : Z) (os : list reply) : list reply :=
  match n with
  | O => os
  | S n => RSelectRead 0 :: RNow t :: polls n t os
  end.

(** What the operating system answers to [recv], before [os]. *)
Definition arrives (d : delivery) (os : list reply) : list reply :=
  polls (d_polls d) (d_time d)
    (RSelectRead 1 :: RNow (d_time d) :: RRecv (inr (d_data d)) :: os).

Definition arrive (ds : list delivery) (os : list reply) : list reply :=
  foldr arrives os ds.

(** The connection is up, and neither a ping nor a time-out is due. *)
Definition in_time (w : World) (t : Z) : Prop :=
  let c := w_conn w in
  let interval := m_keep_alive_interval (w_impl w) in
  (0 ≤ m_socket c < FD_SETSIZE)%Z ∧ recv_stopped (m_cstate c) = false ∧
  (t ≤ m_last_sent_packet c + ns_of_ms interval)%Z ∧
  (t ≤ m_last_received_packet c + ns_of_ms (Z.quot (interval * 15) 10))%Z.

Lemma length_polls n t os : length os ≤ length (polls n t os).
Proof. induction n; simpl; lia. Qed.

Lemma length_arrive ds os : length ds + length os ≤ length (arrive ds os).
Proof.
  induction ds as [|d ds IH]; simpl; [lia|]. unfold arrives.
  match goal with |- context [polls ?n ?t ?l] => pose proof (length_polls n t l) end.
  simpl in *. lia.
Qed.

Lemma FD_SET_ok fd w : (0 ≤ fd < FD_SETSIZE)%Z → FD_SET fd w = Done () w.
Proof. intros. unfold FD_SET. by rewrite decide_True. Qed.

(** One poll: the answer of [select] and the time. *)
Lemma recv_wait_step fuel r t os w :
  in_time w t → w_os w = RSelectRead r :: RNow t :: os →
  recv_wait (S fuel) w =
    (if decide (r = 0)%Z then recv_wait fuel else mret true) (w <| w_os := os |>).
Proof.
  intros (Hfd & Hst & Hs & Hr) Hos. cbn [recv_wait].
  unfold get_conn, get_impl. erewrite bind_done by done.
  erewrite bind_done by (by apply FD_SET_ok).
  erewrite bind_done by (by eapply syscall_eq; [exact Hos|..]).
  erewrite bind_done by done. cbn [w_conn set_field]. rewrite Hst.
  erewrite bind_done by (by eapply syscall_eq).
  erewrite bind_done by done. erewrite bind_done by done.
  cbn [w_conn w_impl set_field]. rewrite bool_decide_false by lia.
  cbn [when]. erewrite bind_done by done. erewrite bind_done by done.
  cbn [w_conn w_impl set_field]. rewrite decide_False by lia.
  by case_decide.
Qed.

Lemma recv_wait_polls fuel n t os w :
  n < fuel → in_time w t → w_os w = polls n t (RSelectRead 1 :: RNow t :: os) →
  recv_wait fuel w = Done true (w <| w_os := os |>).
Proof.
  revert fuel w. induction n as [|n IH]; intros [|fuel] w Hf Ht Hos; try lia;
    cbn [polls] in Hos.
  - by rewrite (recv_wait_step fuel 1 t os).
  - rewrite (recv_wait_step fuel 0 _ _ _ Ht Hos), decide_True by done. rewrite IH; [done|lia|done|done].
Qed.

Lemma length_polls_data n t os : n < length (polls n t (RSelectRead 1 :: os)).
Proof. induction n; simpl; lia. Qed.

Lemma recv_arrives len d os w :
  in_time w (d_time d) → d_data d ≠ [] → (zlength (d_data d) ≤ len)%Z →
  w_os w = arrives d os →
  Connection_recv len w = Done (Some (d_data d)) (w <| w_os := os |>).
Proof.
  intros Ht Hd Hlen Hos. unfold Connection_recv, gets. erewrite bind_done by done.
  erewrite bind_done.
  2:{ eapply recv_wait_polls; [|exact Ht|exact Hos]. rewrite Hos. unfold arrives.
      pose proof (length_polls_data (d_polls d) (d_time d)
        (RNow (d_time d) :: RRecv (inr (d_data d)) :: os)). lia. }
  cbn [negb]. erewrite bind_done.
  2:{ eapply syscall_eq; [reflexivity|done|]. cbv beta iota. by rewrite decide_True. }
  cbv beta iota. by destruct (d_data d).
Qed.

Lemma recv_byte_arrives d b os w :
  in_time w (d_time d) → d_data d = [b] → w_os w = arrives d os →
  recv_byte w = Done (Some b) (w <| w_os := os |>).
Proof.
  intros Ht Hd Hos. unfold recv_byte. erewrite bind_done.
  2:{ apply recv_arrives; [done|by rewrite Hd|by rewrite Hd|done]. }
  by rewrite Hd.
Qed.

(** One more length byte, which does not overflow the 32 bits. *)
Lemma length_step i acc b :
  (0 ≤ i < 4)%Z → (0 ≤ acc < 2 ^ (7 * i))%Z → (0 ≤ b)%Z →
  uint32 (Z.lor acc (Z.shiftl (Z.land b 0x7F) (7 * i))) =
    (acc + b `mod` 128 * 2 ^ (7 * i))%Z.
Proof.
  intros Hi Hacc Hb. rewrite byte_low, lor_shiftl_add by lia.
  assert (0 ≤ b `mod` 128 < 128)%Z by (apply Z.mod_pos_bound; lia).
  assert (2 ^ (7 * i) ≤ 2 ^ 21)%Z by (apply Z.pow_le_mono_r; lia).
  unfold uint32. apply Z.mod_small. split; [nia|]. change (2 ^ 32)%Z with (2 ^ 21 * 2048)%Z.
  nia.
Qed.

(** A property of the values of seven bits, by trying them all. *)
Lemma seven_bits (P : Z → bool) b :
  forallb (λ n, P (Z.of_nat n)) (seq 0 128) = true → (0 ≤ b < 128)%Z → P b = true.
Proof.
  intros HP Hb. rewrite forallb_forall in HP. rewrite <-(Z2Nat.id b) by lia.
  apply HP, in_seq. lia.
Qed.

Lemma high_bit_clear b : (0 ≤ b < 128)%Z → Z.land b 0x80 = 0%Z.
Proof.
  intros Hb. by apply Z.eqb_eq, (seven_bits (λ b, Z.land b 0x80 =? 0)%Z).
Qed.

Lemma high_bit_set b : (0 ≤ b < 128)%Z → Z.land (b + 128) 0x80 = 0x80%Z.
Proof.
  intros Hb. by apply Z.eqb_eq, (seven_bits (λ b, Z.land (b + 128) 0x80 =? 0x80)%Z).
Qed.

(** The length bytes. *)
Lemma recv_length_varint k n i acc buf ds os w :
  (0 ≤ n < 128 ^ Z.of_nat (S k))%Z → (0 ≤ i)%Z → (i + Z.of_nat k < 4)%Z →
  (0 ≤ acc < 2 ^ (7 * i))%Z →
  map d_data ds = map (λ b, [b]) (varint (S k) n) →
  Forall (λ d, in_time w (d_time d)) ds → w_os w = arrive ds os →
  ∃ b, recv_length (S k) i acc buf w =
    Done (Some (acc + n * 2 ^ (7 * i), b)%Z) (w <| w_os := os |>) ∧ (0 ≤ b < 128)%Z.
Proof.
  revert n i acc buf ds w. induction k as [|k IH];
    intros n i acc buf ds w Hn Hi Hik Hacc Hds Ht Hos;
    cbn [varint] in Hds; case_decide as Hlt; destruct ds as [|d ds]; try done;
    injection Hds as Hd Hds; apply Forall_cons in Ht as [Htd Ht].
  1, 3: exists n; split; [|lia]; cbn [recv_length];
    erewrite bind_done by (by apply (recv_byte_arrives d _ _ w Htd Hd Hos)); cbv beta iota;
    rewrite length_step by (lia || done); rewrite decide_True by (apply high_bit_clear; lia);
    apply map_eq_nil in Hds as ->; by rewrite Z.mod_small by lia.
  - simpl in Hn. lia.
  - assert (0 ≤ n `mod` 128 < 128)%Z as Hm by (apply Z.mod_pos_bound; lia).
    assert (1 ≤ 2 ^ (7 * i))%Z by (apply (Z.pow_le_mono_r 2 0); lia).
    assert (2 ^ (7 * (i + 1)) = 128 * 2 ^ (7 * i))%Z as Hpow.
    { replace (7 * (i + 1))%Z with (7 + 7 * i)%Z by lia. by rewrite Z.pow_add_r by lia. }
    assert (((n `mod` 128 + 128) `mod` 128 = n `mod` 128)%Z) as Hmod.
    { rewrite <-(Z.mul_1_l 128) at 2. by rewrite Z_mod_plus_full, Z.mod_mod. }
    destruct (IH (n / 128) (i + 1) (acc + n `mod` 128 * 2 ^ (7 * i))
      (n `mod` 128 + 128) ds (w <| w_os := arrive ds os |>))%Z as (b & Hrec & Hb);
      try done; try lia.
    { split; [apply Z.div_pos; lia|]. apply Z.div_lt_upper_bound; [lia|].
      rewrite (Nat2Z.inj_succ (S k)), Z.pow_succ_r in Hn by lia. lia. }
    { rewrite Hpow. nia. }
    exists b. split; [|done]. cbn [recv_length].
    erewrite bind_done by (by apply (recv_byte_arrives d _ _ w Htd Hd Hos)). cbv beta iota.
    rewrite length_step, Hmod by (lia || done). rewrite high_bit_set, decide_False by done.
    change (recv_length (S k) (i + 1) (acc + n `mod` 128 * 2 ^ (7 * i))
      (n `mod` 128 + 128) (w <| w_os := arrive ds os |>) = Done (Some (acc + n * 2 ^ (7 * i), b))
        (w <| w_os := os |>))%Z.
    rewrite Hrec. cbn [w_os set_field].
    replace (acc + n `mod` 128 * 2 ^ (7 * i) + n / 128 * 2 ^ (7 * (i + 1)))%Z
      with (acc + n * 2 ^ (7 * i))%Z; [done|].
    rewrite Hpow, (Z_div_mod_eq_full n 128) at 1. ring.
Qed.

(** The body, in any number of pieces. *)
Lemma recv_data_arrive fuel data ds os w :
  length ds < fuel → Forall (λ d, in_time w (d_time d)) ds →
  Forall (λ d, d_data d ≠ []) ds → w_os w = arrive ds os →
  recv_data fuel (zlength (concat (map d_data ds))) data w =
    Done (Some (data ++ concat (map d_data ds))) (w <| w_os := os |>).
Proof.
  revert fuel data w. induction ds as [|d ds IH]; intros fuel data w Hf Ht Hne Hos;
    (destruct fuel as [|fuel]; [simpl in Hf; lia|]); cbn [recv_data map concat].
  - cbn in Hos. rewrite decide_True by done. rewrite app_nil_r, <-Hos. by destruct w.
  - apply Forall_cons in Ht as [Htd Ht]. apply Forall_cons in Hne as [Hd Hne].
    rewrite zlength_app. pose proof (zlength_nonneg (concat (map d_data ds))).
    assert (0 < zlength (d_data d))%Z.
    { destruct (d_data d); [done|]. unfold zlength. simpl. lia. }
    rewrite decide_False by lia.
    erewrite bind_done by (apply (recv_arrives _ d (arrive ds os)); [done|done|lia|done]).
    cbv beta iota. replace (_ + _ - _)%Z with (zlength (concat (map d_data ds))) by lia.
    rewrite IH; [by rewrite app_assoc|simpl in Hf; lia|done..].
Qed.

(** What [recvLoop] does with a complete packet. *)
Definition process (packet : Packet) : M bool :=
  ok ← dispatch packet;
  if negb ok then mret false
  else
    now ← sys_now;
    mod_conn (λ c, c <| m_last_received_packet := now |>) ;;
    mret true.

Lemma type_byte t flags :
  (0 ≤ flags < 16)%Z →
  Z.shiftr (PacketType_to_Z t * 16 + flags) 4 = PacketType_to_Z t ∧
  Z.land (PacketType_to_Z t * 16 + flags) 0x0F = flags.
Proof.
  intros Hf. rewrite Z.shiftr_div_pow2 by lia. change 0x0F%Z with (Z.ones 4).
  rewrite Z.land_ones by lia. change (2 ^ 4)%Z with 16%Z. split.
  - rewrite Z.div_add_l by lia. rewrite Z.div_small by lia. lia.
  - rewrite Z.add_comm, Z_mod_plus_full. by apply Z.mod_small.
Qed.

Lemma packet_type_range t :
  (1 ≤ PacketType_to_Z t ≤ 14)%Z ∧ PacketType_of_Z (PacketType_to_Z t) = Some t.
Proof. by destruct t. Qed.

(** What [dispatch] does with the body of a packet of each type.  The text of
    SUBSCRIBE_FAILED is empty ("TODO" in the code), where [TrueMQTT.h] says that
    it is the topic. *)
Definition dispatch_spec (t : PacketType) (body : list Z) : M bool :=
  match t, body with
  | CONNACK, _ :: return_code :: _ =>
      if decide (return_code = 0)%Z then
        mod_conn (λ c, c <| m_cstate := CState.CONNECTED |>) ;;
        Impl_connectionStateChange true ;;
        mret true
      else log ERROR [PStr "Broker actively refused our connection"] ;; mret false
  | PUBLISH, _ =>
      match parse_string body with
      | Some (topic, rest) =>
          Impl_messageReceived topic (string_of_bytes rest) ;; mret true
      | None => malformed
      end
  | SUBACK, _ :: _ :: return_code :: _ =>
      if decide (return_code ≤ 2)%Z then mret true
      else
        log WARNING [PStr "Broker refused our subscription"] ;;
        call_error SUBSCRIBE_FAILED [] ;;
        mret true
  | UNSUBACK, _ :: _ :: _ | PINGRESP, _ => mret true
  | (CONNACK | SUBACK | UNSUBACK), _ => malformed
  | _, _ =>
      log ERROR [PStr "Received unexpected packet type "; PType t;
                 PStr " from broker, closing connection"] ;;
      mret false
  end.

Lemma received_ok t flags body : Forall is_byte body → packet_ok (Packet_data t flags body).
Proof. intros Hb. split; [done|]. simpl. lia. Qed.

Lemma advance_received t flags body n :
  Forall is_byte body → n ≤ length body →
  packet_ok (advance n (Packet_data t flags body)) ∧
  unread (advance n (Packet_data t flags body)) = drop n body.
Proof.
  intros Hb Hn. split; [|by rewrite unread_advance].
  by apply advance_ok; [apply received_ok|].
Qed.

Lemma dispatch_refines t flags body w :
  Forall is_byte body →
  dispatch (Packet_data t flags body) w = dispatch_spec t body w.
Proof.
  intros Hb. pose proof (received_ok t flags body Hb) as Hok.
  assert (unread (Packet_data t flags body) = body) as Hu by done.
  pose proof (advance_received t flags body) as Hadv.
  destruct t; cbn [dispatch Packet_data m_packet_type dispatch_spec]; try done;
    fold (Packet_data CONNACK flags body) (Packet_data PUBLISH flags body)
      (Packet_data SUBACK flags body) (Packet_data UNSUBACK flags body).
  - rewrite read_uint8_refines, Hu by done. destruct body as [|b1 body]; [done|].
    destruct (Hadv 1) as [Hok1 Hu1]; [done|simpl; lia|].
    rewrite read_uint8_refines, Hu1 by done. destruct body as [|b2 body]; [done|].
    simpl. destruct (decide (b2 = 0)%Z); by case_decide.
  - pose proof (reads_string _ Hok) as Hr. destruct (read_string _) as [o p].
    destruct Hr as (Hok' & _ & _ & Hr). rewrite Hu in Hr.
    destruct (parse_string body) as [[topic l]|].
    + destruct Hr as [-> <-]. by rewrite read_remaining_refines.
    + by rewrite Hr.
  - rewrite read_uint16_refines, Hu by done. destruct body as [|b1 [|b2 body]]; [done..|].
    destruct (Hadv 2) as [Hok1 Hu1]; [done|simpl; lia|].
    rewrite read_uint8_refines, Hu1 by done. destruct body as [|b3 body]; [done|].
    simpl. case_bool_decide; case_decide; try lia; [|done].
    unfold when, mbind, M_bind. by rewrite log_eq.
  - rewrite read_uint16_refines, Hu by done. by destruct body as [|b1 [|b2 body]].
Qed.

(** A whole frame, cut in any way: each length byte is asked for alone. *)
Lemma recvLoop_frame t flags d_header d_length d_body os w :
  let body := concat (map d_data d_body) in
  (0 ≤ flags < 16)%Z → (zlength body ≤ max_remaining_length)%Z →
  Forall (λ d, d_data d ≠ []) d_body →
  map d_data (d_header :: d_length) =
    map (λ b, [b]) ((PacketType_to_Z t * 16 + flags)%Z :: varint 4 (zlength body)) →
  Forall (λ d, in_time w (d_time d)) (d_header :: d_length ++ d_body) →
  w_os w = arrive (d_header :: d_length ++ d_body) os →
  Connection_recvLoop w = process (Packet_data t flags body) (w <| w_os := os |>).
Proof.
  intros body Hf Hlen Hne Hd Ht Hos. injection Hd as Hdh Hdl.
  apply Forall_cons in Ht as [Hth Ht]. apply Forall_app in Ht as [Htl Htb].
  pose proof (zlength_nonneg body) as Hb0. unfold max_remaining_length in Hlen.
  destruct (type_byte t flags Hf) as [Htype Hflags].
  destruct (packet_type_range t) as [Hrange Hof].
  unfold Connection_recvLoop.
  erewrite bind_done by (by apply (recv_byte_arrives d_header _ _ w Hth Hdh Hos)).
  cbv beta iota zeta. rewrite Htype, Hflags, decide_False by lia. rewrite Hof.
  erewrite bind_done by done.
  assert (arrive (d_length ++ d_body) os = arrive d_length (arrive d_body os)) as Happ.
  { apply foldr_app. }
  destruct (recv_length_varint 3 (zlength body) 0 0
    (PacketType_to_Z t * 16 + flags) d_length (arrive d_body os)
    (w <| w_os := arrive (d_length ++ d_body) os |>))%Z as (b & Hrec & Hb);
    [simpl; lia|lia|simpl; lia|simpl; lia|done|done|done|].
  erewrite bind_done by exact Hrec. cbv beta iota.
  rewrite high_bit_clear, decide_False by (done || lia).
  unfold gets. erewrite bind_done by done.
  replace (0 + zlength body * 2 ^ (7 * 0))%Z with (zlength body) by lia.
  erewrite bind_done.
  2:{ apply (recv_data_arrive _ [] d_body os); [|done..]. cbn [w_os set_field].
      pose proof (length_arrive d_body os). lia. }
  reflexivity.
Qed.

(** ** Properties *)

(** C4: however the network cuts a frame into pieces, and however often
    [select] wakes without data, [recvLoop] reads exactly the frame and
    processes the packet of its type, flags and body: the reading side inverts
    the writing side for every body the length bytes can express. *)
Theorem recvLoop_receives_frame t flags d_header d_length d_body os w :
  let body := concat (map d_data d_body) in
  (0 ≤ flags < 16)%Z → (zlength body ≤ max_remaining_length)%Z →
  Forall (λ d, d_data d ≠ []) d_body →
  map d_data (d_header :: d_length) =
    map (λ b, [b]) ((PacketType_to_Z t * 16 + flags)%Z :: varint 4 (zlength body)) →
  Forall (λ d, in_time w (d_time d)) (d_header :: d_length ++ d_body) →
  w_os w = arrive (d_header :: d_length ++ d_body) os →
  Connection_recvLoop w = process (Packet_data t flags body) (w <| w_os := os |>).
Proof. apply recvLoop_frame. Qed.

(** C21: a received packet is dispatched as its type and body demand: CONNACK
    with code 0 establishes the connection; PUBLISH passes on topic and message;
    a SUBACK with a code above 2 is reported as SUBSCRIBE_FAILED, with an empty
    text, although [TrueMQTT.h] says that the topic is passed; the other
    acknowledgements are accepted; any other type, and a body that is too short,
    closes the connection.  So the body the client itself writes for a message
    delivers that message. *)
Theorem dispatch_by_type t flags body w :
  Forall is_byte body →
  dispatch (Packet_data t flags body) w = dispatch_spec t body w ∧
  ∀ topic message, (str_size topic < 65536)%Z →
    dispatch (Packet_data PUBLISH flags (publish_body topic message)) w =
      (Impl_messageReceived topic message ;; mret true) w.
Proof.
  intros Hb. split; [by apply dispatch_refines|]. intros topic message Ht.
  rewrite dispatch_refines.
  - cbn [dispatch_spec]. unfold publish_body. rewrite parse_wire_string by done.
    by rewrite string_of_bytes_of_string.
  - apply Forall_app. split; [by apply wire_string_bytes|apply bytes_of_string_bytes].
Qed.

(** C39: while it waits, [recv] gives up at the first [select] after the
    connection was stopped or failed, without reading; when nothing was sent
    for the keep-alive interval it puts one PINGREQ at the front of the queue
    and waits on; and when nothing was received for one and a half times the
    interval it gives up. *)
Theorem recv_keep_alive w fuel len r t os :
  let c := w_conn w in
  let interval := m_keep_alive_interval (w_impl w) in
  let timeout := ns_of_ms (Z.quot (interval * 15) 10) in
  (0 ≤ m_socket c < FD_SETSIZE)%Z →
  (recv_stopped (m_cstate c) = true → w_os w = RSelectRead r :: os →
     Connection_recv len w = Done None (w <| w_os := os |>)) ∧
  (recv_stopped (m_cstate c) = false →
     (t ≤ m_last_sent_packet c + ns_of_ms interval)%Z →
     (m_last_received_packet c + timeout < t)%Z →
     w_os w = RSelectRead r :: RNow t :: os →
     ∃ w', Connection_recv len w = Done None w' ∧ w_os w' = os) ∧
  (∀ t', recv_stopped (m_cstate c) = false →
     (m_last_sent_packet c + ns_of_ms interval < t)%Z →
     (t ≤ m_last_received_packet c + timeout)%Z →
     w_os w = RSelectRead 0 :: RNow t :: RNow t' :: os →
     recv_wait (S fuel) w = recv_wait fuel (w <| w_os := os |>
       <| w_conn := c <| m_last_sent_packet := t' |>
                      <| m_send_queue ::= cons (set_header pingreq_packet) |> |>)).
Proof.
  intros c interval timeout Hfd. subst c interval timeout. split; [|split].
  - intros Hst Hos. unfold Connection_recv, gets. erewrite bind_done by done.
    cbn [recv_wait]. unfold get_conn at 1, gets. erewrite bind_done.
    2:{ erewrite bind_done by done. erewrite bind_done by (by apply FD_SET_ok).
        erewrite bind_done by (by eapply syscall_eq; [exact Hos|..]).
        erewrite bind_done by done. cbn [w_conn set_field]. by rewrite Hst. }
    done.
  - intros Hst Hs Hr Hos.
    destruct (wp_total (Connection_recv len) (λ o w', o = None ∧ w_os w' = os) w)
      as (o & w' & Hrun & -> & Hos'); [|by exists w'].
    apply wp_bind, wp_gets, wp_bind. cbn [recv_wait].
    apply wp_bind, wp_get_conn, wp_bind. unfold FD_SET. rewrite decide_True by done.
    apply wp_ret, wp_bind. eapply wp_syscall_next; [exact Hos|done..|].
    apply wp_bind, wp_get_conn. cbn [w_conn set_field]. rewrite Hst.
    apply wp_bind. eapply wp_syscall_next; [done..|].
    apply wp_bind, wp_get_conn, wp_bind, wp_get_impl, wp_bind.
    cbn [w_conn w_impl set_field]. rewrite bool_decide_false by lia. apply wp_ret.
    apply wp_bind, wp_get_conn. cbn [w_conn w_impl set_field]. rewrite decide_True by done.
    by apply wp_bind, wp_log, wp_ret.
  - intros t' Hst Hs Hr Hos. cbn [recv_wait]. unfold get_conn, get_impl.
    erewrite bind_done by done. erewrite bind_done by (by apply FD_SET_ok).
    erewrite bind_done by (by eapply syscall_eq; [exact Hos|..]).
    erewrite bind_done by done. cbn [w_conn set_field]. rewrite Hst.
    erewrite bind_done by (by eapply syscall_eq).
    erewrite bind_done by done. erewrite bind_done by done.
    cbn [w_conn w_impl set_field]. rewrite bool_decide_true by done.
    cbn [when]. erewrite bind_done.
    2:{ erewrite bind_done by (by eapply syscall_eq). erewrite bind_done by done.
        erewrite bind_done by (apply Connection_send_priority). done. }
    erewrite bind_done by done. cbn [w_conn w_impl set_field m_last_received_packet].
    rewrite decide_False by (cbn; lia). rewrite decide_True by done.
    f_equal.
Qed.

(** A flaw: a user's thread in [disconnect] holds the state mutex until
    the read thread ends; a message, or the broker's acceptance, that is being
    processed at that moment waits for the mutex: neither thread ever ends. *)
Theorem message_during_disconnect_deadlocks flags body w :
  Forall is_byte body → w_joining w = true →
  (is_Some (parse_string body) →
     dispatch (Packet_data PUBLISH flags body) w = Fault Deadlock) ∧
  (∀ b rest, body = b :: 0%Z :: rest →
     dispatch (Packet_data CONNACK flags body) w = Fault Deadlock).
Proof.
  intros Hb Hj. rewrite !dispatch_refines by done. cbn [dispatch_spec].
  assert (∀ w', w_joining w' = true → lock_state_mutex w' = Fault Deadlock) as Hlock.
  { intros w' Hj'. unfold lock_state_mutex, gets, mbind, M_bind. by rewrite Hj'. }
  split.
  - intros [[topic rest] ->]. unfold Impl_messageReceived, mbind, M_bind. by rewrite Hlock.
  - intros b rest ->. rewrite decide_True by done.
    unfold Impl_connectionStateChange, mbind, M_bind, mod_conn, modify. by rewrite Hlock.
Qed.

Lemma land_7F_bound z : (0 ≤ Z.land z 0x7F < 128)%Z.
Proof. rewrite byte_low. apply Z.mod_pos_bound. lia. Qed.

Lemma recv_length_bound n i acc buf w :
  (0 ≤ i)%Z → (i + Z.of_nat n ≤ 4)%Z → (0 ≤ acc < 2 ^ (7 * i))%Z →
  wp (λ _, True) (recv_length n i acc buf) (λ r _,
    match r with Some (l, _) => 0 ≤ l < 2 ^ (7 * (i + Z.of_nat n)) | None => True end)%Z w.
Proof.
  revert i acc buf w. induction n as [|n IH]; intros i acc buf w Hi Hin Hacc.
  { apply wp_ret. by rewrite Z.add_0_r. }
  cbn [recv_length]. apply wp_bind. unfold wp at 1.
  destruct (recv_byte w) as [[b|] w1|]; [|by apply wp_ret|done].
  pose proof (land_7F_bound b) as Hb.
  assert (0 ≤ uint32 (Z.lor acc (Z.shiftl (Z.land b 0x7F) (7 * i))) < 2 ^ (7 * (i + 1)))%Z
    as Hnew.
  { rewrite lor_shiftl_add by lia.
    replace (7 * (i + 1))%Z with (7 + 7 * i)%Z by lia. rewrite Z.pow_add_r by lia.
    change (2 ^ 7)%Z with 128%Z.
    assert (2 ^ (7 * i) ≤ 2 ^ 21)%Z by (apply Z.pow_le_mono_r; lia).
    unfold uint32. rewrite Z.mod_small; [nia|]. change (2 ^ 32)%Z with (2 ^ 21 * 2048)%Z.
    nia. }
  replace (7 * (i + Z.of_nat (S n)))%Z with (7 * (i + 1 + Z.of_nat n))%Z by lia.
  case_decide.
  - apply wp_ret. split; [lia|]. eapply Z.lt_le_trans; [apply Hnew|].
    apply Z.pow_le_mono_r; lia.
  - apply IH; lia.
Qed.

(** Whatever bytes arrive, at most four length bytes are read, and the
    length they make is below 2^28: the 32-bit arithmetic does not wrap, and
    no packet makes the client allocate more than 256 MB. *)
Theorem remaining_length_bounded buf w :
  wp (λ _, True) (recv_length 4 0 0 buf) (λ r _,
    match r with Some (l, _) => (0 ≤ l < 2 ^ 28)%Z | None => True end) w.
Proof. by apply (recv_length_bound 4 0 0). Qed.

(** ** The properties at concrete states *)

(** A connection to the broker that is up at time 0. *)
Definition receiving_world (os : list reply) : World :=
  connected_world <| w_os := os |>
    <| w_conn ::= λ c, c <| m_cstate := CState.CONNECTED |> <| m_socket := 4%Z |> |>.

(** The body of a message "hi" on the topic "t", in two pieces. *)
Lemma recvLoop_receives_frame_witness :
  let d0 := mkDelivery 1 5 [49%Z] in
  let d1 := mkDelivery 0 6 [5%Z] in
  let d2 := [mkDelivery 0 6 [0; 1]%Z; mkDelivery 2 7 [116; 104; 105]%Z] in
  let os := arrive (d0 :: [d1] ++ d2) [RNow 8] in
  Connection_recvLoop (receiving_world os) =
    process (Packet_data PUBLISH 1 (publish_body "t" "hi")) (receiving_world [RNow 8%Z]).
Proof.
  intros d0 d1 d2 os.
  apply (recvLoop_receives_frame PUBLISH 1 d0 [d1] d2 [RNow 8%Z] (receiving_world os)).
  - lia.
  - apply Z.leb_le. reflexivity.
  - repeat constructor; discriminate.
  - reflexivity.
  - repeat constructor; discriminate.
  - reflexivity.
Defined.

Lemma dispatch_by_type_witness :
  dispatch (Packet_data PUBLISH 0 (publish_body "t" "hi")) connected_world =
    (Impl_messageReceived "t" "hi" ;; mret true) connected_world.
Proof.
  apply (proj2 (dispatch_by_type PUBLISH 0 [] connected_world (List.Forall_nil _))).
  reflexivity.
Defined.

Lemma recv_keep_alive_witness :
  let w := receiving_world [RSelectRead 0; RNow 30000000001; RNow 30000000002]%Z in
  m_send_queue (w_conn w) = [] ∧
  ∃ w', recv_wait 1 w = recv_wait 0 w' ∧
    m_send_queue (w_conn w') = [set_header pingreq_packet].
Proof.
  intros w. split; [reflexivity|]. eexists. split.
  - apply (proj2 (proj2 (recv_keep_alive w 0 1 0 30000000001 []
      (conj (Zle_bool_imp_le 0 4 eq_refl) eq_refl)))); try reflexivity.
    apply Z.leb_le. reflexivity.
  - reflexivity.
Defined.

Lemma message_during_disconnect_deadlocks_witness :
  dispatch (Packet_data PUBLISH 0 (publish_body "t" "hi"))
    (apply_interference AStop (receiving_world [])) = Fault Deadlock.
Proof.
  apply (message_during_disconnect_deadlocks 0 (publish_body "t" "hi")
    (apply_interference AStop (receiving_world []))).
  - repeat constructor; apply Z.leb_le || reflexivity; reflexivity.
  - reflexivity.
  - eexists. reflexivity.
Defined.

(** The whole of it: [disconnect] is called while the last bytes of a message
    arrive. *)
Example deadlock_while_receiving :
  Connection_recvLoop (receiving_world
    [RSelectRead 1; RNow 1; RRecv (inr [48]); RSelectRead 1; RNow 1; RRecv (inr [4]);
     RSelectRead 1; RNow 1; ROther AStop; RRecv (inr [0; 1; 116; 33])]%Z) = Fault Deadlock.
Proof. vm_compute. reflexivity. Qed.
