(* ===== verification/Connection.v ===== *)
(** * Connecting

    The read thread's state machine ([Connection::runRead]) and what it calls:
    [resolve], [connectToAny], [tryNextAddress] and [connect]
    ([src/Connection.cpp]). *)

From S2P Require Export Recv.

Definition set_cstate (s : CState.t) : M unit := mod_conn (λ c, c <| m_cstate := s |>).

(** [connect(addrinfo *address)]. *)
Definition Connection_connect (address : addrinfo) : M unit :=
  sock ← sys_socket;
  if decide (sock = INVALID_SOCKET) then
    log ERROR [PStr "Could not create new socket"]
  else
    r ← sys_setsockopt;
    when (bool_decide (r ≠ 0)%Z)
      (log WARNING [PStr "Could not set TCP_NODELAY on socket"]) ;;
    r ← sys_ioctl;
    when (bool_decide (r ≠ 0)%Z)
      (log WARNING [PStr "Could not set socket to non-blocking; expect performance impact"]) ;;
    '(err, errno) ← sys_connect;
    if decide (err ≠ 0 ∧ errno ≠ EINPROGRESS)%Z then
      closesocket sock ;;
      log ERROR [PStr "Could not connect to "; PAddr (Some address); PStr ": "; PErrno errno]
    else
      mod_conn (λ c, c <| m_socket_to_address ::= <[sock := address]> |>) ;;
      mod_conn (λ c, c <| m_sockets ::= λ l, l ++ [sock] |>).

Definition Connection_tryNextAddress : M bool :=
  current ← get_conn m_address_current;
  addresses ← get_conn m_addresses;
  if decide (length addresses ≤ current) then mret false
  else
    now ← sys_now;
    mod_conn (λ c, c <| m_last_attempt := now |>) ;;
    address ← from_option_ub (addresses !! current);
    mod_conn (λ c, c <| m_address_current ::= S |>) ;;
    Connection_connect address ;;
    mret true.

(** ** [resolve] *)

(** The two lists the addresses are split into. *)
Definition addresses_of (family : Z) (l : list addrinfo) : list addrinfo :=
  filter (λ a, ai_family a = family) l.

(** The [while] loop that interweaves them, IPv6 first. *)
Fixpoint interweave (ipv6 ipv4 : list addrinfo) : list addrinfo :=
  match ipv6, ipv4 with
  | [], _ => ipv4
  | a :: ipv6, [] => a :: interweave ipv6 []
  | a :: ipv6, b :: ipv4 => a :: b :: interweave ipv6 ipv4
  end.

Definition Connection_resolve : M bool :=
  mod_conn (λ c, c <| m_address_current := 0 |> <| m_socket := INVALID_SOCKET |>
                   <| m_addresses := [] |>) ;;
  mod_conn (λ c, c <| m_host_resolved := None |>) ;;
  res ← sys_getaddrinfo;
  match res with
  | inl error =>
      call_error HOSTNAME_LOOKUP_FAILED [PGai error] ;; mret false
  | inr resolved =>
      mod_conn (λ c, c <| m_host_resolved := Some resolved |>) ;;
      let addresses :=
        interweave (addresses_of AF_INET6 resolved) (addresses_of AF_INET resolved) in
      mod_conn (λ c, c <| m_addresses := addresses |>) ;;
      if decide (addresses = []) then
        call_error HOSTNAME_LOOKUP_FAILED [] ;; mret false
      else
        state ← get_conn m_cstate;
        when (bool_decide (state ≠ CState.STOP)) (set_cstate CState.CONNECTING) ;;
        mret true
  end.

(** ** [connectToAny] *)

(** The loop over [m_sockets]: drop those in error, pick the first that is
    left and writeable.  The sockets still to visit, and those kept.  The
    address of a socket is only looked up when the message is logged; without
    one [operator[]] gives a null pointer. *)
Fixpoint check_sockets (todo kept : list Z) (ready : list Z) (connected : Z) : M Z :=
  match todo with
  | [] => mret connected
  | sock :: todo =>
      err ← sys_so_error;
      if decide (err ≠ 0)%Z then
        address ← get_conn (λ c, m_socket_to_address c !! sock);
        level ← get_impl m_log_level;
        when (log_enabled MIN_LOGGER_LEVEL ERROR level && bool_decide (address = None))
          (raise UndefinedBehaviour) ;;
        log ERROR [PStr "Could not connect to "; PAddr address; PStr ": "; PErrno err] ;;
        closesocket sock ;;
        mod_conn (λ c, c <| m_socket_to_address ::= delete sock |>) ;;
        mod_conn (λ c, c <| m_sockets := kept ++ todo |>) ;;
        check_sockets todo kept ready connected
      else
        let connected :=
          if decide (connected = INVALID_SOCKET ∧ sock ∈ ready) then sock else connected in
        check_sockets todo (kept ++ [sock]) ready connected
  end.

Definition clear_sockets : M unit :=
  mod_conn (λ c, c <| m_socket_to_address := ∅ |>) ;;
  mod_conn (λ c, c <| m_sockets := [] |>).

Definition Connection_connectToAny : M bool :=
  sockets ← get_conn m_sockets;
  if decide (sockets = []) then Connection_tryNextAddress
  else
    for_each FD_SET sockets ;;
    '(result, errno, ready) ← sys_select_write;
    state ← get_conn m_cstate;
    if decide (state = CState.STOP) then mret true
    else if decide (result < 0)%Z then
      log ERROR [PStr "select() failed: "; PErrno errno] ;; mret true
    else if decide (result = 0)%Z then
      now ← sys_now;
      last_attempt ← get_conn m_last_attempt;
      if decide (now < last_attempt + ns_of_ms 250)%Z then mret true
      else
        next ← Connection_tryNextAddress;
        if next : bool then mret true
        else
          now ← sys_now;
          last_attempt ← get_conn m_last_attempt;
          timeout ← get_impl m_connection_timeout;
          if decide (now < last_attempt + ns_of_ms timeout)%Z then mret true
          else
            log ERROR [PStr "Connection attempt to broker timed out"] ;;
            sockets ← get_conn m_sockets;
            for_each closesocket sockets ;;
            clear_sockets ;;
            mret false
    else
      sockets ← get_conn m_sockets;
      socket_connected ← check_sockets sockets [] ready INVALID_SOCKET;
      if decide (socket_connected = INVALID_SOCKET) then mret true
      else
        sockets ← get_conn m_sockets;
        for_each (λ sock, when (bool_decide (sock ≠ socket_connected)) (closesocket sock))
          sockets ;;
        clear_sockets ;;
        r ← sys_ioctl;
        when (bool_decide (r ≠ 0)%Z)
          (log WARNING [PStr "Could not set socket to non-blocking; expect performance impact"]) ;;
        mod_conn (λ c, c <| m_socket := socket_connected |>) ;;
        now ← sys_now;
        mod_conn (λ c, c <| m_last_sent_packet := now |>) ;;
        now ← sys_now;
        mod_conn (λ c, c <| m_last_received_packet := now |>) ;;
        state ← get_conn m_cstate;
        let reset_backoff : M bool :=
          backoff ← get_impl m_connection_backoff;
          mod_conn (λ c, c <| m_backoff := backoff |>) ;;
          mret true in
        if decide (state ≠ CState.STOP) then
          set_cstate CState.AUTHENTICATING ;;
          sent ← Connection_sendConnect;
          if negb sent then
            log ERROR [PStr "Could not send first packet to broker. Disconnecting."] ;;
            fd ← get_conn m_socket;
            closesocket fd ;;
            mod_conn (λ c, c <| m_socket := INVALID_SOCKET |>) ;;
            mret false
          else reset_backoff
        else reset_backoff.

(** ** [runRead] *)

(** The [State::BACKOFF] case. *)
Definition runRead_backoff : M unit :=
  backoff ← get_conn m_backoff;
  log WARNING [PStr "Connection failed; will retry in "; PNum backoff; PStr "ms"] ;;
  sys_sleep ;;
  state ← get_conn m_cstate;
  if decide (state = CState.STOP) then mret ()
  else
    mod_conn (λ c, c <| m_backoff ::= λ b, (b * 2)%Z |>) ;;
    backoff ← get_conn m_backoff;
    max ← get_impl m_connection_backoff_max;
    when (bool_decide (max < backoff)%Z)
      (mod_conn (λ c, c <| m_backoff := max |>)) ;;
    set_cstate CState.RESOLVING.

(** One iteration of the [while (true)]; [false] when the thread returns. *)
Definition runRead_step : M bool :=
  state ← get_conn m_cstate;
  match state with
  | CState.RESOLVING =>
      ok ← Connection_resolve;
      when (negb ok) (set_cstate CState.BACKOFF) ;;
      mret true
  | CState.CONNECTING =>
      ok ← Connection_connectToAny;
      when (negb ok) (set_cstate CState.BACKOFF) ;;
      mret true
  | CState.BACKOFF => runRead_backoff ;; mret true
  | CState.AUTHENTICATING | CState.CONNECTED =>
      ok ← Connection_recvLoop;
      when (negb ok)
        (state ← get_conn m_cstate;
         when (bool_decide (state ≠ CState.STOP)) Connection_socketError) ;;
      mret true
  | CState.SOCKET_ERROR =>
      set_cstate CState.BACKOFF ;;
      Impl_connectionStateChange false ;;
      mod_conn (λ c, c <| m_send_queue := [] |>) ;;
      mret true
  | CState.STOP => runRead_stop ;; mret false
  end.

(** The read thread, for [fuel] iterations; whether it returned. *)
Fixpoint runRead (fuel : nat) : M bool :=
  match fuel with
  | O => mret false
  | S fuel =>
      continue ← runRead_step;
      if continue : bool then runRead fuel else mret true
  end.
