(* ===== verification/Sockets.v ===== *)
(** * Which sockets stay open

    Every open socket belongs to the connection: it is a pending attempt
    ([m_sockets]) or the connected one ([m_socket]).  This is an invariant of
    the read thread ([runRead]), whatever the other threads do during its
    system calls. *)

From S2P Require Export Connection RecvSpec.

Definition sock_set (fd : Z) : gset Z := if decide (fd = INVALID_SOCKET) then ∅ else {[fd]}.

(** The open sockets: those in [extra], held in a local variable, those of the
    pending attempts and the connected one, all different. *)
Record owned (extra : gset Z) (w : World) : Prop := {
  owned_fds : w_fds w = extra ∪ list_to_set (m_sockets (w_conn w)) ∪ sock_set (m_socket (w_conn w));
  owned_nodup : NoDup (m_sockets (w_conn w));
  owned_valid : INVALID_SOCKET ∉ extra ∧ INVALID_SOCKET ∉ m_sockets (w_conn w);
  owned_extra : ∀ fd, fd ∈ extra → fd ∉ m_sockets (w_conn w);
  owned_socket : m_socket (w_conn w) ∉ extra ∧ m_socket (w_conn w) ∉ m_sockets (w_conn w)
}.

Lemma sock_set_invalid : sock_set INVALID_SOCKET = ∅.
Proof. done. Qed.

Lemma elem_of_sock_set fd s : fd ∈ sock_set s ↔ fd = s ∧ s ≠ INVALID_SOCKET.
Proof. unfold sock_set. case_decide; set_solver. Qed.

#[export] Instance owned_stable extra : Stable (owned extra).
Proof.
  split; [|by intros os w []]. intros [] w [Hf Hn Hv He Hs]; simpl.
  - case_decide; by constructor.
  - constructor; simpl; try done.
    rewrite sock_set_invalid. rewrite Hf. apply set_eq. intros fd.
    rewrite !elem_of_difference, !elem_of_union, elem_of_singleton, elem_of_sock_set,
      elem_of_list_to_set. destruct Hs as [Hs1 Hs2]. split; [set_solver|].
    intros [[?|?]|?]; [set_solver..|]. set_solver.
  - by constructor.
  - by constructor.
Qed.

(** No connected socket; only [resolve] and a successful attempt rely on it. *)
Definition unconnected (w : World) : Prop := m_socket (w_conn w) = INVALID_SOCKET.

#[export] Instance unconnected_stable : Stable unconnected.
Proof.
  split; [|done]. intros [] w Hw; unfold unconnected in *; simpl; try done.
  by case_decide.
Qed.

(** The states in which there is no connected socket. *)
Definition is_down (s : CState.t) : bool :=
  match s with
  | CState.RESOLVING | CState.CONNECTING | CState.BACKOFF | CState.SOCKET_ERROR => true
  | CState.AUTHENTICATING | CState.CONNECTED | CState.STOP => false
  end.

(** The connection object is only gone while [disconnect] waits. *)
Definition alive (w : World) : Prop := m_connection (w_impl w) = false → w_joining w = true.

#[export] Instance alive_stable : Stable alive.
Proof.
  split; [|done]. intros [] w Hw; unfold alive in *; simpl; try done. by case_decide.
Qed.

Record sockets_ok (w : World) : Prop := {
  ok_owned : owned ∅ w;
  ok_down : is_down (m_cstate (w_conn w)) = true → unconnected w;
  ok_alive : alive w
}.

#[export] Instance sockets_ok_stable : Stable sockets_ok.
Proof.
  split.
  - intros a w [Ho Hd Ha]. constructor; [by apply stable_interference| |by apply stable_interference].
    intros Hs. apply (stable_interference a) in Ho.
    destruct a; simpl in *; try done; try (by apply Hd).
    unfold unconnected in *. simpl in *. case_decide; simpl in *; [by apply Hd|done].
  - intros os w [Ho Hd Ha]. constructor; [by apply stable_os|exact Hd|exact Ha].
Qed.

(** ** Steps that do not touch the sockets *)

Definition same_sockets (w w' : World) : Prop :=
  w_fds w' = w_fds w ∧ m_sockets (w_conn w') = m_sockets (w_conn w) ∧
  m_socket (w_conn w') = m_socket (w_conn w) ∧
  m_cstate (w_conn w') = m_cstate (w_conn w) ∧
  m_connection (w_impl w') = m_connection (w_impl w) ∧ w_joining w' = w_joining w ∧
  w_os w' = w_os w.

(** Assertions about no more than that. *)
Class Framed (I : World → Prop) : Prop := {
  frame w w' : same_sockets w w' → I w → I w'
}.

#[export] Instance same_sockets_preorder : PreOrder same_sockets.
Proof.
  split; [by intros w; split_and!|].
  intros w1 w2 w3 (?&?&?&?&?&?&?) (?&?&?&?&?&?&?). split_and!; congruence.
Qed.

Lemma owned_frame extra w w' : same_sockets w w' → owned extra w → owned extra w'.
Proof.
  intros (Hf & Hs & Hk & _) [H1 H2 H3 H4 H5].
  constructor; rewrite ?Hf, ?Hs, ?Hk; done.
Qed.

Lemma sockets_ok_frame w w' : same_sockets w w' → sockets_ok w → sockets_ok w'.
Proof.
  intros Hw [Ho Hd Ha]. constructor; [by eapply owned_frame|..];
    destruct Hw as (Hf & Hs & Hk & Hst & Hc & Hj & _); unfold unconnected, alive in *;
    by rewrite ?Hst, ?Hk, ?Hc, ?Hj.
Qed.

#[export] Instance owned_framed extra : Framed (owned extra).
Proof. split. apply owned_frame. Qed.
#[export] Instance sockets_ok_framed : Framed sockets_ok.
Proof. split. apply sockets_ok_frame. Qed.

(** A program that keeps the sockets as they are, or faults. *)
Definition keeps {A} (m : M A) : Prop :=
  ∀ w, wp (λ _, True) m (λ _ w', same_sockets w w') w.

Lemma keeps_bind {A B} (m : M A) (k : A → M B) :
  keeps m → (∀ a, keeps (k a)) → keeps (m ≫= k).
Proof.
  intros Hm Hk w. apply wp_bind. eapply wp_mono; [apply Hm|]. intros a w1 Hw1.
  eapply wp_mono; [apply Hk|]. intros b w2 Hw2. by transitivity w1.
Qed.

Lemma keeps_ret {A} (a : A) : keeps (mret a).
Proof. intros w. by apply wp_ret. Qed.
Lemma keeps_log l msg : keeps (log l msg).
Proof. intros w. apply wp_log. by split_and!. Qed.
Lemma keeps_gets {A} (f : World → A) : keeps (gets f).
Proof. intros w. by apply wp_gets. Qed.
Lemma keeps_raise {A} f : keeps (A := A) (raise f).
Proof. intros w. by apply wp_raise. Qed.
Lemma keeps_emit e : keeps (emit e).
Proof. intros w. apply wp_emit. by split_and!. Qed.
Lemma keeps_lock : keeps lock_state_mutex.
Proof. intros w. by apply wp_lock_state_mutex. Qed.
Lemma keeps_when b m : keeps m → keeps (when b m).
Proof. intros Hm w. by apply wp_when; intros; [apply Hm|]. Qed.
Lemma keeps_for_each {A} (f : A → M unit) l : (∀ a, keeps (f a)) → keeps (for_each f l).
Proof.
  intros Hf. induction l as [|a l IH]; [apply keeps_ret|]. by apply keeps_bind.
Qed.

(** Changes of members that are not about sockets. *)
Lemma keeps_mod_impl f :
  (∀ i, m_connection (f i) = m_connection i) → keeps (mod_impl f).
Proof. intros Hf w. apply wp_mod_impl. split_and!; try done. apply Hf. Qed.
Lemma keeps_mod_conn f :
  (∀ c, m_sockets (f c) = m_sockets c ∧ m_socket (f c) = m_socket c ∧
     m_cstate (f c) = m_cstate c) → keeps (mod_conn f).
Proof. intros Hf w. apply wp_mod_conn. destruct (Hf (w_conn w)) as (?&?&?). by split_and!. Qed.

#[export] Hint Resolve keeps_ret keeps_log keeps_gets keeps_raise keeps_emit keeps_lock
  : keeps.
#[export] Hint Extern 1 (keeps (mod_impl _)) => apply keeps_mod_impl; done : keeps.
#[export] Hint Extern 1 (keeps (mod_conn _)) => apply keeps_mod_conn; done : keeps.
#[export] Hint Extern 1 (keeps (get_impl _)) => apply keeps_gets : keeps.
#[export] Hint Extern 1 (keeps (get_conn _)) => apply keeps_gets : keeps.

Ltac keep := repeat (intros; first
  [ assumption | solve [auto with keeps] | apply keeps_bind | apply keeps_when
  | apply keeps_for_each
  | match goal with |- keeps (match ?o with _ => _ end) => destruct o end ]).

Lemma keeps_send p prio : keeps (Connection_send p prio).
Proof. unfold Connection_send. keep. Qed.

Lemma keeps_deref : keeps deref_connection.
Proof. unfold deref_connection. keep. Qed.

Lemma keeps_next_packet_id : keeps next_packet_id.
Proof. unfold next_packet_id. keep. Qed.

#[export] Hint Resolve keeps_send keeps_deref keeps_next_packet_id : keeps.

Lemma keeps_sendSubscribe topic : keeps (Impl_sendSubscribe topic).
Proof. unfold Impl_sendSubscribe. keep. Qed.

Lemma keeps_sendPublish topic message retain : keeps (Impl_sendPublish topic message retain).
Proof. unfold Impl_sendPublish. keep. Qed.

Lemma keeps_sendPingRequest : keeps Connection_sendPingRequest.
Proof. unfold Connection_sendPingRequest. keep. Qed.

Lemma keeps_sendConnect : keeps Connection_sendConnect.
Proof. unfold Connection_sendConnect. keep. Qed.

Lemma keeps_resubscribe topics : keeps (resubscribe topics).
Proof.
  induction topics as [|t ts IH]; cbn [resubscribe]; [apply keeps_ret|].
  apply keeps_bind; [apply keeps_sendSubscribe|]. keep.
Qed.

Lemma keeps_flush queue : keeps (flush queue).
Proof.
  induction queue as [|[[t m] r] queue IH]; cbn [flush]; [apply keeps_ret|].
  apply keeps_bind; [apply keeps_sendPublish|]. keep.
Qed.

Lemma keeps_messageReceived topic message : keeps (Impl_messageReceived topic message).
Proof. unfold Impl_messageReceived. keep. Qed.

Lemma keeps_malformed : keeps malformed.
Proof. unfold malformed. keep. Qed.

Lemma keeps_disconnected : keeps (Impl_connectionStateChange false).
Proof. unfold Impl_connectionStateChange, call_state_change. keep. Qed.

#[export] Hint Resolve keeps_sendPingRequest keeps_sendConnect keeps_resubscribe keeps_flush
  keeps_messageReceived keeps_malformed keeps_disconnected : keeps.

(** ** The receiving side *)

(** [m] keeps the invariant [I]. *)
Definition holds {A} (I : World → Prop) (m : M A) : Prop :=
  ∀ w, I w → wp (λ _, True) m (λ _, I) w.

Lemma holds_bind {A B} I (m : M A) (k : A → M B) :
  holds I m → (∀ a, holds I (k a)) → holds I (m ≫= k).
Proof.
  intros Hm Hk w Hw. apply wp_bind. eapply wp_mono; [by apply Hm|]. intros a w1 Hw1.
  by apply Hk.
Qed.

Lemma holds_keeps {A} I `{!Framed I} (m : M A) : keeps m → holds I m.
Proof.
  intros Hm w Hw. eapply wp_mono; [apply Hm|]. intros a w1 Hw1. exact (frame _ _ Hw1 Hw).
Qed.

Lemma holds_syscall {A} I (f : reply → option A) : Stable I → holds I (syscall f).
Proof. intros HI w Hw. by apply (wp_syscall _ _ I). Qed.

Lemma holds_when I b m : holds I m → holds I (when b m).
Proof. intros Hm w Hw. by apply wp_when; intros; [apply Hm|]. Qed.

Create HintDb holds.

(** [m] does nothing [I] is about. *)
Ltac unchanged :=
  intros; apply holds_keeps; [apply _|unfold call_error, from_option_ub; keep].

Ltac hold := repeat (intros; first
  [ assumption | solve [auto with holds] | apply holds_bind
  | solve [unchanged] | apply holds_when
  | match goal with |- holds _ (match ?o with _ => _ end) => destruct o end ]).

(** Receiving keeps every assertion that system calls keep, that is not about
    more than the sockets, and that setting the state CONNECTED keeps. *)
Section receiving.
Context (I : World → Prop) `{!Framed I}.
Context (I_syscall : ∀ A (f : reply → option A), holds I (syscall f)).
Context (I_alive : ∀ w, I w → alive w).
Context (I_connected : holds I (mod_conn (λ c, c <| m_cstate := CState.CONNECTED |>))).

Lemma holds_connected : holds I (Impl_connectionStateChange true).
Proof.
  intros w Hw. unfold Impl_connectionStateChange.
  apply wp_bind, wp_lock_state_mutex; [intros Hj|done].
  apply wp_bind, wp_log, wp_bind, wp_mod_impl, wp_bind, wp_call_state_change.
  apply wp_bind, wp_get_impl. set (w1 := _ <| w_trace ::= _ |>).
  assert (same_sockets w w1) as Hw1 by (by split_and!).
  apply wp_bind. eapply wp_mono; [apply keeps_resubscribe|]. intros restored w2 Hw2.
  assert (same_sockets w w2) as Hs by (by transitivity w1).
  destruct restored; cbn [negb].
  - apply (holds_keeps I (queue ← get_impl m_publish_queue; flush queue ;;
      mod_impl (λ i, i <| m_publish_queue := [] |>)));
      [keep|exact (frame _ _ Hs Hw)].
  - apply wp_bind, wp_log, wp_bind, wp_Impl_disconnect_reader; [|done].
    destruct Hs as (_ & _ & _ & _ & Hc & _). cbn. rewrite Hc.
    destruct (m_connection (w_impl w)) eqn:Hcon; [done|].
    rewrite (I_alive w Hw Hcon) in Hj. done.
Qed.

#[local] Hint Resolve I_syscall I_connected holds_connected : holds.

Lemma holds_dispatch p : holds I (dispatch p).
Proof.
  unfold dispatch, call_error.
  destruct (m_packet_type p); try (by unchanged).
  destruct (read_uint8 p) as [[a|] p1]; [|by hold].
  destruct (read_uint8 p1) as [[b|] p2]; hold.
Qed.

Lemma holds_recv_wait fuel : holds I (recv_wait fuel).
Proof.
  induction fuel as [|fuel IH]; cbn [recv_wait]; [unchanged|].
  unfold FD_SET, sys_select_read, sys_now. hold.
Qed.

#[local] Hint Resolve holds_dispatch holds_recv_wait : holds.

Lemma holds_recv len : holds I (Connection_recv len).
Proof. unfold Connection_recv, sys_recv. hold. Qed.

#[local] Hint Resolve holds_recv : holds.

Lemma holds_recv_byte : holds I recv_byte.
Proof. unfold recv_byte. hold. Qed.

#[local] Hint Resolve holds_recv_byte : holds.

Lemma holds_recv_length n i acc buf : holds I (recv_length n i acc buf).
Proof. revert i acc buf. induction n; intros; cbn [recv_length]; hold. Qed.

Lemma holds_recv_data fuel n data : holds I (recv_data fuel n data).
Proof. revert n data. induction fuel; intros; cbn [recv_data]; hold. Qed.

#[local] Hint Resolve holds_recv_length holds_recv_data : holds.

Lemma holds_recvLoop : holds I Connection_recvLoop.
Proof. unfold Connection_recvLoop, from_option_ub, sys_now. hold. Qed.
End receiving.

Lemma sockets_ok_connected :
  holds sockets_ok (mod_conn (λ c, c <| m_cstate := CState.CONNECTED |>)).
Proof.
  intros w [Ho Hd Ha]. apply wp_mod_conn. constructor; [|done|done].
  destruct Ho. by constructor.
Qed.

Lemma sockets_ok_recvLoop : holds sockets_ok Connection_recvLoop.
Proof.
  apply (holds_recvLoop _); [intros; apply holds_syscall, _| |apply sockets_ok_connected].
  by intros w [].
Qed.

(** ** The connecting side *)

(** Not connected, with the sockets of [extra] in a local variable. *)
Definition down (extra : gset Z) (w : World) : Prop :=
  owned extra w ∧ unconnected w ∧ alive w.

#[export] Instance down_stable extra : Stable (down extra).
Proof. unfold down. apply _. Qed.

Lemma down_ok w : down ∅ w → sockets_ok w.
Proof. intros (? & ? & ?). by constructor. Qed.

Lemma down_frame extra w w' : same_sockets w w' → down extra w → down extra w'.
Proof.
  intros Hw (Ho & Hu & Ha). split; [by eapply owned_frame|].
  destruct Hw as (Hf & Hs & Hk & Hst & Hc & Hj & _). unfold unconnected, alive in *.
  by rewrite Hk, Hc, Hj.
Qed.

#[export] Instance down_framed extra : Framed (down extra).
Proof. split. apply down_frame. Qed.

Lemma holds_set_state extra s : holds (down extra) (set_cstate s).
Proof.
  intros w ([] & Hu & Ha). apply wp_mod_conn. split; [by constructor|]. by split.
Qed.

(** A new socket, or none. *)
Lemma wp_sys_socket w :
  down ∅ w →
  wp (λ _, True) sys_socket (λ fd w',
    fd = INVALID_SOCKET ∧ down ∅ w' ∨ (0 ≤ fd)%Z ∧ down {[fd]} w') w.
Proof.
  intros Hw. apply wp_bind, (wp_syscall _ _ (down ∅)); [done..|]. intros r fd w1 _ Hw1.
  apply wp_bind, wp_gets. case_decide as Hi; [by apply wp_ret; left|].
  case_decide as Hfd; [|done]. apply wp_bind, wp_modify, wp_ret. right.
  destruct Hfd as [Hfd Hnew]. split; [done|].
  destruct Hw1 as ([Hf Hn Hv He Hs] & Hu & Ha). split; [|by split].
  unfold unconnected in Hu. rewrite Hf, Hu, sock_set_invalid in Hnew.
  constructor; simpl; rewrite ?Hu in *; [rewrite Hf; set_solver|done|..];
    unfold INVALID_SOCKET in *; set_solver by lia.
Qed.

Lemma wp_close_extra fd w :
  down {[fd]} w →
  wp (λ _, True) (closesocket fd) (λ _ w', down ∅ w') w.
Proof.
  intros ([Hf Hn Hv He Hs] & Hu & Ha). apply wp_closesocket. split; [|by split].
  unfold unconnected in Hu. constructor; simpl; try done; [|set_solver..].
  rewrite Hf, Hu, sock_set_invalid. set_solver.
Qed.

(** A pending attempt. *)
Lemma down_push fd w :
  (0 ≤ fd)%Z → down {[fd]} w →
  down ∅ (w <| w_conn ::= λ c, c <| m_sockets ::= λ l, l ++ [fd] |> |>).
Proof.
  intros Hfd ([Hf Hn Hv He Hs] & Hu & Ha). split; [|by split]. unfold unconnected in Hu.
  constructor; simpl; rewrite ?Hu in *.
  - rewrite Hf, list_to_set_app_L. simpl. set_solver.
  - apply NoDup_app. split; [done|]. split; [set_solver|]. apply NoDup_singleton.
  - set_solver.
  - set_solver.
  - set_solver.
Qed.

Lemma holds_connect a : holds (down ∅) (Connection_connect a).
Proof.
  intros w Hw. apply wp_bind. eapply wp_mono; [by apply wp_sys_socket|].
  intros fd w1 [[-> Hw1]|[Hfd Hw1]].
  { rewrite decide_True by done. by apply (holds_keeps (down ∅) _ (keeps_log _ _)). }
  rewrite decide_False by (unfold INVALID_SOCKET; lia).
  apply wp_bind, (wp_syscall _ _ (down {[fd]})); [done..|]. intros _ r1 w2 _ Hw2.
  apply wp_bind. eapply wp_mono; [apply (holds_keeps (down {[fd]})); [keep|done]|].
  intros u3 w3 Hw3. apply wp_bind, (wp_syscall _ _ (down {[fd]})); [done..|].
  intros _ r2 w4 _ Hw4.
  apply wp_bind. eapply wp_mono; [apply (holds_keeps (down {[fd]})); [keep|done]|].
  intros u5 w5 Hw5. apply wp_bind, (wp_syscall _ _ (down {[fd]})); [done..|].
  intros _ [err errno] w6 _ Hw6. case_decide.
  - apply wp_bind. eapply wp_mono; [by apply wp_close_extra|]. intros u7 w7 Hw7.
    by apply (holds_keeps (down ∅) _ (keeps_log _ _)).
  - apply wp_bind, wp_mod_conn, wp_mod_conn. apply down_push; [done|].
    eapply down_frame; [|exact Hw6]. by split_and!.
Qed.

Lemma holds_tryNextAddress : holds (down ∅) Connection_tryNextAddress.
Proof.
  apply holds_bind; [unchanged|intros current].
  apply holds_bind; [unchanged|intros addresses].
  case_decide; [unchanged|].
  apply holds_bind; [apply holds_syscall, _|intros now].
  apply holds_bind; [unchanged|intros _].
  apply holds_bind; [unchanged|intros a].
  apply holds_bind; [unchanged|intros _].
  apply holds_bind; [apply holds_connect|intros _]. unchanged.
Qed.

(** The list of pending attempts is not touched by other threads. *)
Definition pending (l : list Z) (w : World) : Prop := m_sockets (w_conn w) = l.

#[export] Instance pending_stable l : Stable (pending l).
Proof.
  split; [|done]. intros [] w Hw; unfold pending in *; simpl; try done. by case_decide.
Qed.

Lemma wp_check_sockets todo kept ready connected w :
  down ∅ w → pending (kept ++ todo) w → (connected ≠ INVALID_SOCKET → connected ∈ kept) →
  wp (λ _, True) (check_sockets todo kept ready connected) (λ s w',
    down ∅ w' ∧ (s ≠ INVALID_SOCKET → s ∈ m_sockets (w_conn w'))) w.
Proof.
  revert kept connected w. induction todo as [|sock todo IH];
    intros kept connected w Hw Hp Hc; cbn [check_sockets].
  { apply wp_ret. split; [done|]. rewrite Hp, app_nil_r. done. }
  apply wp_bind, (wp_syscall _ _ (λ w, down ∅ w ∧ pending (kept ++ sock :: todo) w));
    [done..|]. intros _ err w1 _ [Hw1 Hp1]. case_decide.
  - apply wp_bind, wp_get_conn, wp_bind, wp_get_impl, wp_bind, wp_when; intros _; [done|].
    apply wp_bind, wp_log, wp_bind, wp_closesocket.
    apply wp_bind, wp_mod_conn, wp_bind, wp_mod_conn. apply IH; [|done|done].
    destruct Hw1 as ([Hf Hn Hv He Hs] & Hu & Ha). split; [|by split].
    unfold pending, unconnected in *. rewrite Hp1 in *.
    apply NoDup_app in Hn as (Hn1 & Hn2 & Hn3). apply NoDup_cons in Hn3 as [Hn3 Hn4].
    constructor; simpl; rewrite ?Hu in *.
    + rewrite Hf, !list_to_set_app_L. simpl.
      assert (sock ∉ kept) by (intros Hk; apply (Hn2 _ Hk); left). set_solver.
    + apply NoDup_app. split; [done|]. split; [|done]. intros x Hx Hx'.
      apply (Hn2 _ Hx). by right.
    + set_solver.
    + set_solver.
    + set_solver.
  - apply IH; [done| |].
    + unfold pending in *. by rewrite <-app_assoc.
    + intros Hne. apply elem_of_app. case_decide; [right; by left|left; by apply Hc].
Qed.

(** Closing all pending attempts, and forgetting them. *)
Lemma wp_close_all w :
  down ∅ w →
  wp (λ _, True) (for_each closesocket (m_sockets (w_conn w)) ;; clear_sockets)
    (λ _ w', down ∅ w') w.
Proof.
  intros ([Hf Hn Hv He Hs] & Hu & Ha). apply wp_bind. eapply wp_mono.
  { apply (wp_for_each _ _ (λ l w, w_fds w = list_to_set l ∧ NoDup l ∧ unconnected w ∧ alive w)).
    - intros fd l w1 (Hf1 & [Hn1 Hn2]%NoDup_cons & Hu1 & Ha1). apply wp_closesocket.
      split; [|done]. simpl. rewrite Hf1. simpl. set_solver.
    - split; [|done]. rewrite Hf. unfold unconnected in Hu. rewrite Hu, sock_set_invalid.
      set_solver. }
  intros u1 w1 (Hf1 & _ & Hu1 & Ha1). apply wp_bind, wp_mod_conn, wp_mod_conn.
  split; [|by split]. unfold unconnected in Hu1. constructor; simpl; rewrite ?Hu1.
  - rewrite Hf1, sock_set_invalid. set_solver.
  - apply NoDup_nil_2.
  - set_solver.
  - set_solver.
  - set_solver.
Qed.

(** Closing all pending attempts but one. *)
Lemma wp_close_others s w :
  down ∅ w → s ∈ m_sockets (w_conn w) →
  wp (λ _, True) (for_each (λ sock, when (bool_decide (sock ≠ s)) (closesocket sock))
      (m_sockets (w_conn w)) ;; clear_sockets)
    (λ _ w', down {[s]} w' ∧ m_sockets (w_conn w') = []) w.
Proof.
  intros ([Hf Hn Hv He Hs] & Hu & Ha) Hin. apply wp_bind. eapply wp_mono.
  { apply (wp_for_each _ _ (λ l w, w_fds w = {[s]} ∪ list_to_set l ∧ NoDup l ∧
      unconnected w ∧ alive w)).
    - intros fd l w1 (Hf1 & [Hn1 Hn2]%NoDup_cons & Hu1 & Ha1).
      apply wp_when; intros Hd; [apply wp_closesocket|].
      + apply bool_decide_eq_true in Hd. split; [|done]. simpl. rewrite Hf1. simpl. set_solver.
      + apply bool_decide_eq_false, dec_stable in Hd as ->. split; [|done].
        rewrite Hf1. simpl. set_solver.
    - split; [|done]. rewrite Hf. unfold unconnected in Hu. rewrite Hu, sock_set_invalid.
      set_solver. }
  intros u1 w1 (Hf1 & _ & Hu1 & Ha1). apply wp_bind, wp_mod_conn, wp_mod_conn.
  split; [|done]. split; [|by split]. unfold unconnected in Hu1.
  constructor; simpl; rewrite ?Hu1.
  - rewrite Hf1, sock_set_invalid. set_solver.
  - apply NoDup_nil_2.
  - split; [set_solver|]. set_solver.
  - set_solver.
  - split; [set_solver|]. set_solver.
Qed.

(** The end of [connectToAny]: the chosen socket becomes the connected one. *)
Lemma down_connected s w :
  s ≠ INVALID_SOCKET → down {[s]} w → m_sockets (w_conn w) = [] →
  owned ∅ (w <| w_conn ::= λ c, c <| m_socket := s |> |>).
Proof.
  intros Hs ([Hf Hn Hv He Hk] & Hu & Ha) Hl. unfold unconnected in Hu.
  rewrite Hl, Hu, sock_set_invalid in Hf.
  constructor; simpl; rewrite ?Hl; [|apply NoDup_nil_2|set_solver..].
  rewrite Hf. unfold sock_set. rewrite decide_False by done. set_solver.
Qed.

(** Once connected the state is no longer one without a socket. *)
Definition up (w : World) : Prop := owned ∅ w ∧ alive w.

#[export] Instance up_stable : Stable up.
Proof. unfold up. apply _. Qed.

Lemma up_frame w w' : same_sockets w w' → up w → up w'.
Proof.
  intros Hw [Ho Ha]. split; [by eapply owned_frame|].
  destruct Hw as (_ & _ & _ & _ & Hc & Hj & _). unfold alive in *. by rewrite Hc, Hj.
Qed.

#[export] Instance up_framed : Framed up.
Proof. split. apply up_frame. Qed.

Definition connect_post (b : bool) (w : World) : Prop :=
  down ∅ w ∨ b = true ∧ sockets_ok w.

(** What follows once the socket is chosen. *)
Lemma wp_connected_socket w :
  up w →
  wp (λ _, True)
    (now ← sys_now;
     mod_conn (λ c, c <| m_last_sent_packet := now |>) ;;
     now ← sys_now;
     mod_conn (λ c, c <| m_last_received_packet := now |>) ;;
     state ← get_conn m_cstate;
     let reset_backoff : M bool :=
       backoff ← get_impl m_connection_backoff;
       mod_conn (λ c, c <| m_backoff := backoff |>) ;;
       mret true in
     if decide (state ≠ CState.STOP) then
       set_cstate CState.AUTHENTICATING ;;
       sent ← Connection_sendConnect;
       if negb sent then
         log ERROR [PStr "Could not send first packet to broker. Disconnecting."] ;;
         fd ← get_conn m_socket;
         closesocket fd ;;
         mod_conn (λ c, c <| m_socket := INVALID_SOCKET |>) ;;
         mret false
       else reset_backoff
     else reset_backoff) connect_post w.
Proof.
  intros Hw. apply wp_bind, (wp_syscall _ _ up); [done..|]. intros _ t w1 _ Hw1.
  apply wp_bind, wp_mod_conn. apply wp_bind, (wp_syscall _ _ up); [done| |].
  { eapply up_frame; [|exact Hw1]. by split_and!. }
  intros _ t' w2 _ [Ho Ha]. apply wp_bind, wp_mod_conn, wp_bind, wp_get_conn.
  cbv zeta. case_decide as Hst.
  - apply wp_bind, wp_mod_conn, wp_bind, wp_bind, wp_get_impl.
    unfold wp at 1. rewrite Connection_send_priority. cbn [negb].
    apply wp_bind, wp_get_impl, wp_bind, wp_mod_conn, wp_ret. right. split; [done|].
    destruct Ho. by constructor; [constructor|..].
  - apply wp_bind, wp_get_impl, wp_bind, wp_mod_conn, wp_ret. right. split; [done|].
    destruct Ho. constructor; [by constructor| |done].
    intros Hd. cbn in Hd, Hst. by rewrite Hst in Hd.
Qed.

Lemma wp_connectToAny w :
  down ∅ w → wp (λ _, True) Connection_connectToAny connect_post w.
Proof.
  intros Hw. apply wp_bind, wp_get_conn. case_decide.
  { eapply wp_mono; [by apply holds_tryNextAddress|]. by left. }
  apply wp_bind. eapply wp_mono.
  { apply (holds_keeps (down ∅)); [|done]. unfold FD_SET. keep. }
  intros u1 w1 Hw1. apply wp_bind, (wp_syscall _ _ (down ∅)); [done..|].
  intros _ [[result errno] ready] w2 _ Hw2. apply wp_bind, wp_get_conn.
  repeat case_decide; try (by apply wp_ret; left).
  - apply wp_bind. eapply wp_mono; [by apply (holds_keeps (down ∅) _ (keeps_log _ _))|].
    intros u3 w3 Hw3. by apply wp_ret; left.
  - apply wp_bind, (wp_syscall _ _ (down ∅)); [done..|]. intros _ now w3 _ Hw3.
    apply wp_bind, wp_get_conn. case_decide; [by apply wp_ret; left|].
    apply wp_bind. eapply wp_mono; [by apply holds_tryNextAddress|]. intros next w4 Hw4.
    destruct next; [by apply wp_ret; left|].
    apply wp_bind, (wp_syscall _ _ (down ∅)); [done..|]. intros _ now' w5 _ Hw5.
    apply wp_bind, wp_get_conn, wp_bind, wp_get_impl. case_decide; [by apply wp_ret; left|].
    apply wp_bind. eapply wp_mono; [by apply (holds_keeps (down ∅) _ (keeps_log _ _))|].
    intros u6 w6 Hw6. apply wp_bind, wp_get_conn, wp_assoc.
    eapply wp_mono; [by apply wp_close_all|]. intros u7 w7 Hw7. by apply wp_ret; left.
  - apply wp_bind, wp_get_conn, wp_bind. eapply wp_mono.
    { by apply (wp_check_sockets _ []). }
    intros s w3 [Hw3 Hs]. case_decide as Hne; [by apply wp_ret; left|].
    apply wp_bind, wp_get_conn, wp_assoc.
    eapply wp_mono; [by apply wp_close_others; [|apply Hs]|]. intros u4 w4 [Hw4 Hl4].
    apply wp_bind, (wp_syscall _ _ (λ w, down {[s]} w ∧ pending [] w)); [done..|].
    intros _ r w5 _ [Hw5 Hl5]. apply wp_bind. eapply wp_mono.
    { eapply wp_conj; [apply (holds_keeps (down {[s]})); [keep|exact Hw5]|].
      apply (keeps_when _ _ (keeps_log _ _)). }
    intros u6 w6 [Hw6 (_ & Hl6 & _)]. apply wp_bind, wp_mod_conn.
    apply wp_connected_socket. split; [|by destruct Hw6 as (_ & _ & ?)].
    apply down_connected; [done|done|]. by rewrite Hl6.
Qed.

(** ** One iteration of the read thread *)

Lemma holds_resolve : holds (down ∅) Connection_resolve.
Proof.
  intros w ([Hf Hn Hv He Hs] & Hu & Ha). apply wp_bind, wp_mod_conn.
  set (w1 := _ <| w_conn ::= _ |>). assert (down ∅ w1) as Hw1.
  { unfold unconnected in Hu. rewrite Hu in *. split; [by constructor|by split]. }
  clearbody w1. apply wp_bind.
  eapply wp_mono; [apply (holds_keeps (down ∅)); [keep|exact Hw1]|]. intros u2 w2 Hw2.
  apply wp_bind, (wp_syscall _ _ (down ∅)); [done..|]. intros _ [error|resolved] w3 _ Hw3.
  { apply (holds_keeps (down ∅)); [unfold call_error; keep|done]. }
  apply wp_bind, wp_mod_conn. apply wp_bind, wp_mod_conn. set (w4 := _ <| w_conn ::= _ |>).
  assert (down ∅ w4) as Hw4 by (eapply down_frame; [|exact Hw3]; by split_and!).
  clearbody w4. case_decide.
  { apply (holds_keeps (down ∅)); [unfold call_error; keep|done]. }
  apply wp_bind, wp_get_conn, wp_bind. eapply wp_mono.
  { apply holds_when; [apply holds_set_state|exact Hw4]. }
  intros u5 w5 Hw5. by apply wp_ret.
Qed.

Lemma sockets_ok_down w :
  sockets_ok w → is_down (m_cstate (w_conn w)) = true → down ∅ w.
Proof. intros [] ?. split; auto. Qed.

(** A failure on the way up. *)
Lemma wp_backoff_if ok w :
  (down ∅ w ∨ ok = true ∧ sockets_ok w) →
  wp (λ _, True) (when (negb ok) (set_cstate CState.BACKOFF) ;; mret true)
    (λ _ w', sockets_ok w') w.
Proof.
  intros Hw. apply wp_bind, wp_when; intros Hok.
  - destruct Hw as [Hw|[-> _]]; [|done].
    eapply wp_mono; [by apply (holds_set_state ∅)|]. intros u w1 Hw1.
    apply wp_ret. by apply down_ok.
  - apply wp_ret. destruct Hw as [Hw|[_ Hw]]; [by apply down_ok|done].
Qed.

Lemma holds_backoff : holds (down ∅) runRead_backoff.
Proof.
  apply holds_bind; [unchanged|intros b].
  apply holds_bind; [unchanged|intros _].
  apply holds_bind; [apply holds_syscall, _|intros _].
  apply holds_bind; [unchanged|intros state].
  case_decide; [unchanged|].
  apply holds_bind; [unchanged|intros _].
  apply holds_bind; [unchanged|intros b'].
  apply holds_bind; [unchanged|intros max].
  apply holds_bind; [unchanged|intros _]. apply holds_set_state.
Qed.

(** [socketError] and the end of the thread close the connected socket. *)
Lemma owned_closed w s :
  owned ∅ w → alive w →
  sockets_ok (w <| w_fds ::= λ l, l ∖ {[m_socket (w_conn w)]} |>
    <| w_conn ::= λ c, c <| m_cstate := s |> <| m_socket := INVALID_SOCKET |> |>).
Proof.
  intros [Hf Hn Hv He Hs] Ha. apply down_ok. split; [|by split].
  constructor; simpl; try done.
  rewrite Hf, sock_set_invalid. apply set_eq. intros fd.
  rewrite elem_of_difference, !elem_of_union, elem_of_singleton, elem_of_sock_set,
    elem_of_list_to_set. destruct Hs as [Hs1 Hs2].
  split; [set_solver|]. intros [[?|?]|?]; set_solver.
Qed.

Lemma holds_socketError : holds sockets_ok Connection_socketError.
Proof.
  intros w [Ho Hd Ha]. apply wp_bind, wp_mod_conn, wp_bind, wp_get_conn.
  pose proof (owned_closed w CState.SOCKET_ERROR Ho Ha) as Hok.
  apply wp_when; intros Hk.
  - apply wp_bind, wp_closesocket, wp_mod_conn.
    eapply sockets_ok_frame; [|exact Hok]. by split_and!.
  - apply bool_decide_eq_false, dec_stable in Hk. cbn in Hk. apply down_ok.
    split; [|by split]. destruct Ho. by constructor.
Qed.

Lemma holds_runRead_stop : holds sockets_ok runRead_stop.
Proof.
  intros w [Ho Hd Ha]. apply wp_bind, wp_get_conn.
  pose proof (owned_closed w (m_cstate (w_conn w)) Ho Ha) as Hok.
  apply wp_when; intros Hk; [|by constructor].
  apply wp_bind, wp_closesocket, wp_mod_conn.
  eapply sockets_ok_frame; [|exact Hok]. by split_and!.
Qed.

Lemma wp_receive w :
  sockets_ok w →
  wp (λ _, True)
    (ok ← Connection_recvLoop;
     when (negb ok)
       (state ← get_conn m_cstate;
        when (bool_decide (state ≠ CState.STOP)) Connection_socketError) ;;
     mret true) (λ _, sockets_ok) w.
Proof.
  intros Hw. apply wp_bind. eapply wp_mono; [by apply sockets_ok_recvLoop|]. intros ok w1 Hw1.
  apply wp_bind, wp_when; intros _; [|by apply wp_ret].
  apply wp_bind, wp_get_conn, wp_when; intros _; [|by apply wp_ret].
  eapply wp_mono; [by apply holds_socketError|]. intros u w2 Hw2. by apply wp_ret.
Qed.

Lemma holds_runRead_step : holds sockets_ok runRead_step.
Proof.
  intros w Hw. apply wp_bind, wp_get_conn.
  destruct (m_cstate (w_conn w)) eqn:Hst.
  - apply wp_bind. eapply wp_mono.
    { apply holds_resolve, sockets_ok_down; [done|by rewrite Hst]. }
    intros ok w1 Hw1. apply wp_backoff_if. by left.
  - apply wp_bind. eapply wp_mono.
    { apply wp_connectToAny, sockets_ok_down; [done|by rewrite Hst]. }
    intros ok w1 Hw1. by apply wp_backoff_if.
  - by apply wp_receive.
  - by apply wp_receive.
  - apply wp_bind. eapply wp_mono.
    { apply holds_backoff, sockets_ok_down; [done|by rewrite Hst]. }
    intros u w1 Hw1. by apply wp_ret, down_ok.
  - apply wp_bind. eapply wp_mono.
    { apply (holds_set_state ∅), sockets_ok_down; [done|by rewrite Hst]. }
    intros u w1 Hw1%down_ok.
    apply (holds_keeps sockets_ok (Impl_connectionStateChange false ;;
      mod_conn (λ c, c <| m_send_queue := [] |>) ;; mret true)); [keep|done].
  - apply wp_bind. eapply wp_mono; [by apply holds_runRead_stop|]. intros u w1 Hw1.
    by apply wp_ret.
Qed.

Lemma holds_runRead fuel : holds sockets_ok (runRead fuel).
Proof.
  induction fuel as [|fuel IH]; intros w Hw; cbn [runRead]; [by apply wp_ret|].
  apply wp_bind. eapply wp_mono; [by apply holds_runRead_step|]. intros [] w1 Hw1.
  - by apply IH.
  - by apply wp_ret.
Qed.

(** The thread returns only from the state STOP, with its socket closed. *)
Lemma wp_continues {A} (m : M A) (Q : bool → World → Prop) w :
  (∀ w', Q true w') → wp (λ _, True) (m ;; mret true) Q w.
Proof. intros HQ. unfold wp, mbind, M_bind. destruct (m w); [apply HQ|done]. Qed.

Lemma runRead_step_ends w :
  wp (λ _, True) runRead_step (λ b w', b = false → unconnected w') w.
Proof.
  apply wp_bind, wp_get_conn. destruct (m_cstate (w_conn w)).
  1-4: apply wp_bind, (wp_mono _ _ (λ _ _, True));
    [by unfold wp; case_match|intros ok w1 _; by apply wp_continues].
  - by apply wp_continues.
  - apply wp_bind, wp_mod_conn, wp_bind, (wp_mono _ _ (λ _ _, True));
      [by unfold wp; case_match|intros u w1 _; by apply wp_continues].
  - apply wp_bind. apply wp_bind, wp_get_conn, wp_when; intros Hd.
    + by apply wp_bind, wp_closesocket, wp_mod_conn, wp_ret.
    + apply wp_ret. intros _. by apply bool_decide_eq_false, dec_stable in Hd.
Qed.

Lemma runRead_ends fuel w :
  wp (λ _, True) (runRead fuel) (λ b w', b = true → unconnected w') w.
Proof.
  revert w. induction fuel as [|fuel IH]; intros w; cbn [runRead]; [by apply wp_ret|].
  apply wp_bind. eapply wp_mono; [apply runRead_step_ends|]. intros [] w1 Hw1.
  - apply IH.
  - apply wp_ret. intros _. by apply Hw1.
Qed.

(** ** Properties *)

(** C18: from a new connection, through any number of iterations of the read
    thread, whatever the network answers and the other threads do, the open
    sockets are exactly the pending attempts and the connected socket: none is
    lost.  When the thread ends the connected one is
    closed, but the attempts still pending are not (a flaw). *)
Theorem open_sockets_are_known fuel b w :
  w_conn w = Connection_new b → w_fds w = ∅ → m_connection (w_impl w) = true →
  wp (λ _, True) (runRead fuel) (λ ended w',
    let c := w_conn w' in
    NoDup (m_sockets c) ∧ m_socket c ∉ m_sockets c ∧
    w_fds w' = list_to_set (m_sockets c) ∪
      (if decide (m_socket c = INVALID_SOCKET) then ∅ else {[m_socket c]}) ∧
    (ended = true → w_fds w' = list_to_set (m_sockets c))) w.
Proof.
  intros Hc Hf Hcon. eapply wp_mono.
  { eapply wp_conj; [apply holds_runRead|apply runRead_ends]. apply down_ok.
    split; [|split; [by unfold unconnected; rewrite Hc|unfold alive; congruence]].
    constructor; rewrite ?Hc, ?Hf; simpl; [done|apply NoDup_nil_2|set_solver..]. }
  intros ended w' [[[Hfds Hn _ _ [_ Hk]] _ _] Hend]. cbv zeta.
  rewrite (left_id_L ∅ (∪)) in Hfds. split; [done|]. split; [done|]. split; [done|].
  intros He. rewrite Hfds, (Hend He), sock_set_invalid. by rewrite (right_id_L ∅ (∪)).
Qed.

(** A stop is requested while an attempt to connect is pending. *)
Definition leaking_world : World :=
  test_world <| w_impl ::= λ i, i <| m_connection := true |> <| m_state := CONNECTING |> |>
    <| w_os := [RGetaddrinfo (inr [mkAddrinfo AF_INET 1 6 "192.0.2.1"]);
                RNow 0; RSocket 4; RSetsockopt 0; RIoctl 0; RConnect (-1) EINPROGRESS;
                ROther AStop; RSelectWrite 0 0 []]%Z |>.

Lemma open_sockets_are_known_witness :
  ∃ w', runRead 4 leaking_world = Done true w' ∧ w_fds w' = {[4%Z]}.
Proof.
  pose proof (open_sockets_are_known 4 0 leaking_world eq_refl eq_refl eq_refl) as Hwp.
  assert (∃ w', runRead 4 leaking_world = Done true w' ∧ m_sockets (w_conn w') = [4%Z])
    as (w' & Hrun & Hs).
  { eexists. split; [vm_compute; reflexivity|reflexivity]. }
  exists w'. split; [exact Hrun|].
  destruct (wp_run _ _ _ _ _ _ Hwp Hrun) as (_ & _ & _ & Hend).
  rewrite (Hend eq_refl), Hs. exact (right_id_L ∅ (∪) {[4%Z]}).
Defined.
