(* ===== verification/Transitions.v ===== *)
(** * The state machine of the read thread

    Which state follows which in [runRead], when no other thread interferes. *)

From S2P Require Export Sockets.

(** The states that may follow a state after one iteration. *)
Inductive follows : CState.t → CState.t → Prop :=
  | resolved : follows CState.RESOLVING CState.CONNECTING
  | not_resolved : follows CState.RESOLVING CState.BACKOFF
  | still_connecting : follows CState.CONNECTING CState.CONNECTING
  | socket_connected : follows CState.CONNECTING CState.AUTHENTICATING
  | not_connected : follows CState.CONNECTING CState.BACKOFF
  | still_authenticating : follows CState.AUTHENTICATING CState.AUTHENTICATING
  | authenticated : follows CState.AUTHENTICATING CState.CONNECTED
  | not_authenticated : follows CState.AUTHENTICATING CState.SOCKET_ERROR
  | still_connected : follows CState.CONNECTED CState.CONNECTED
  | connection_lost : follows CState.CONNECTED CState.SOCKET_ERROR
  | retry_later : follows CState.SOCKET_ERROR CState.BACKOFF
  | retry : follows CState.BACKOFF CState.RESOLVING
  | stopped : follows CState.STOP CState.STOP.

(** No other thread interferes during the rest of the run. *)
Definition undisturbed (w : World) : Prop := forallb (λ r, negb (is_other r)) (w_os w) = true.

(** The state is one of [P], and stays so during system calls. *)
Definition at_state (P : CState.t → Prop) (w : World) : Prop :=
  undisturbed w ∧ P (m_cstate (w_conn w)) ∧ m_connection (w_impl w) = true.

Lemma absorb_undisturbed w : undisturbed w → absorb (w_os w) w = w.
Proof.
  unfold undisturbed. destruct w as [i c j e fds os tr]. cbn [w_os].
  destruct os as [|[] os]; done.
Qed.

#[export] Instance at_state_framed P : Framed (at_state P).
Proof.
  split. intros w w' (_ & _ & _ & Hs & Hc & _ & Ho). unfold at_state, undisturbed.
  by rewrite Hs, Hc, Ho.
Qed.

Section at_state.
Context (P : CState.t → Prop).

Lemma at_syscall A (f : reply → option A) : holds (at_state P) (syscall f).
Proof.
  intros w (Hu & Hs & Hc). unfold wp, syscall. rewrite absorb_undisturbed by done.
  unfold undisturbed in *. destruct (w_os w) as [|r os] eqn:Hos; [done|].
  destruct (f r); [|done]. simpl in Hu. apply andb_true_iff in Hu as [_ Hu]. done.
Qed.

Lemma at_alive w : at_state P w → alive w.
Proof. intros (_ & _ & Hc). unfold alive. congruence. Qed.

Lemma wp_set_cstate (Q : CState.t → Prop) s w :
  at_state P w → Q s → wp (λ _, True) (set_cstate s) (λ _, at_state Q) w.
Proof. intros (Hu & _ & Hc) HQ. by apply wp_mod_conn. Qed.

(** Anything that does not assign the state; sockets may change. *)
Lemma at_closesocket fd : holds (at_state P) (closesocket fd).
Proof. intros w Hw. by apply wp_closesocket. Qed.
Lemma at_mod_conn f :
  (∀ c, m_cstate (f c) = m_cstate c) → holds (at_state P) (mod_conn f).
Proof. intros Hf w (Hu & Hs & Hc). apply wp_mod_conn. split; [done|]. by rewrite <-Hf in Hs. Qed.
Lemma at_for_each {A} (f : A → M unit) l :
  (∀ a, holds (at_state P) (f a)) → holds (at_state P) (for_each f l).
Proof.
  intros Hf. induction l as [|a l IH]; [unchanged|]. by apply holds_bind.
Qed.
End at_state.

#[export] Hint Resolve at_syscall at_closesocket at_for_each holds_when : holds.
#[export] Hint Extern 1 (holds (at_state _) (mod_conn _)) => apply at_mod_conn; done : holds.

Section connecting.
Context (P : CState.t → Prop).

Lemma at_sys_socket : holds (at_state P) sys_socket.
Proof. unfold sys_socket. hold. intros w Hw. by apply wp_modify. Qed.
#[local] Hint Resolve at_sys_socket : holds.

Lemma at_connect a : holds (at_state P) (Connection_connect a).
Proof. unfold Connection_connect, sys_setsockopt, sys_ioctl, sys_connect. hold. Qed.
#[local] Hint Resolve at_connect : holds.

Lemma at_tryNextAddress : holds (at_state P) Connection_tryNextAddress.
Proof. unfold Connection_tryNextAddress, sys_now. hold. Qed.

Lemma at_clear_sockets : holds (at_state P) clear_sockets.
Proof. unfold clear_sockets. hold. Qed.

Lemma at_check_sockets todo kept ready connected :
  holds (at_state P) (check_sockets todo kept ready connected).
Proof.
  revert kept connected. induction todo as [|sock todo IH]; intros kept connected;
    cbn [check_sockets]; unfold sys_so_error; hold.
Qed.
End connecting.
#[export] Hint Resolve at_tryNextAddress at_clear_sockets at_check_sockets : holds.

Lemma at_weaken (P Q : CState.t → Prop) w :
  at_state P w → (∀ s, P s → Q s) → at_state Q w.
Proof. intros (Hu & Hs & Hc) HPQ. split; [done|]. auto. Qed.

Lemma wp_holds {A} I (m : M A) (Q : A → World → Prop) w :
  holds I m → I w → (∀ a w', I w' → Q a w') → wp (λ _, True) m Q w.
Proof. intros Hm Hw HQ. eapply wp_mono; [by apply Hm|]. intros a w'. apply HQ. Qed.

(** The state after [resolve] and [connectToAny], by their result. *)
Lemma wp_at_resolve w :
  at_state (λ s, s = CState.RESOLVING) w →
  wp (λ _, True) Connection_resolve (λ b,
    at_state (λ s, if b then s = CState.CONNECTING else s = CState.RESOLVING)) w.
Proof.
  intros Hw. set (I := at_state (λ s, s = CState.RESOLVING)) in *.
  apply wp_bind, (wp_holds I); [unfold I; hold|done|]. intros u1 w1 Hw1.
  apply wp_bind, (wp_holds I); [unfold I; hold|done|]. intros u2 w2 Hw2.
  apply wp_bind, (wp_holds I); [apply at_syscall|done|]. intros [e|l] w3 Hw3.
  { by apply wp_bind, wp_call_error, wp_ret. }
  apply wp_bind, wp_mod_conn, wp_bind, wp_mod_conn. case_decide.
  { by apply wp_bind, wp_call_error, wp_ret. }
  destruct Hw3 as (Hu & Hs & Hc). apply wp_bind, wp_get_conn, wp_bind, wp_when; intros Hd.
  - by apply wp_mod_conn, wp_ret.
  - apply bool_decide_eq_false, dec_stable in Hd. cbn in Hd. congruence.
Qed.

Lemma wp_at_connectToAny w :
  at_state (λ s, s = CState.CONNECTING) w →
  wp (λ _, True) Connection_connectToAny (λ b,
    at_state (λ s, s = CState.CONNECTING ∨ b = true ∧ s = CState.AUTHENTICATING)) w.
Proof.
  intros Hw. set (I := at_state (λ s, s = CState.CONNECTING)) in *.
  assert (∀ b w, I w → at_state (λ s, s = CState.CONNECTING ∨
    b = true ∧ s = CState.AUTHENTICATING) w) as HI.
  { intros b w1 Hw1. eapply at_weaken; [exact Hw1|]. by left. }
  apply wp_bind, wp_get_conn. case_decide.
  { eapply wp_holds; [|exact Hw|intros; by apply HI]. unfold I. hold. }
  apply wp_bind. eapply (wp_holds I); [unfold I, FD_SET; hold|exact Hw|]. intros u1 w1 Hw1.
  apply wp_bind. eapply (wp_holds I); [apply at_syscall|exact Hw1|].
  intros [[result errno] ready] w2 Hw2. apply wp_bind, wp_get_conn.
  case_decide; [by apply wp_ret, HI|]. case_decide; [by apply wp_bind, wp_log, wp_ret, HI|].
  case_decide.
  - eapply (wp_holds I); [unfold I, sys_now; hold|exact Hw2|intros; by apply HI].
  - apply wp_bind, wp_get_conn, wp_bind.
    eapply (wp_holds I); [apply at_check_sockets|exact Hw2|]. intros s w3 Hw3.
    case_decide; [by apply wp_ret, HI|].
    do 10 (apply wp_bind; eapply (wp_holds I);
      [unfold I, sys_ioctl, sys_now; hold|eassumption|]; intros ???).
    apply wp_bind, wp_get_conn. cbv zeta. match goal with H : I ?w |- wp _ _ _ ?w => rename H into Hw4 end.
    case_decide as Hst; [|destruct Hw4 as (_ & Hs & _); congruence].
    apply wp_bind. eapply wp_mono; [by apply (wp_set_cstate (λ s, s = CState.CONNECTING) (λ s, s = CState.AUTHENTICATING))|].
    intros u5 w5 Hw5. apply wp_bind. apply wp_bind, wp_get_impl. unfold wp at 1.
    rewrite Connection_send_priority. cbn [negb].
    apply wp_bind, wp_get_impl, wp_bind, wp_mod_conn, wp_ret.
    eapply (at_weaken (λ s, s = CState.AUTHENTICATING)); [exact Hw5|]. by right.
Qed.

(** [recvLoop] leaves the state, or sets it to CONNECTED. *)
Lemma at_recvLoop (P : CState.t → Prop) :
  P CState.CONNECTED → holds (at_state P) Connection_recvLoop.
Proof.
  intros HP. apply (holds_recvLoop _); [apply at_syscall|apply at_alive|].
  intros w (Hu & _ & Hc). by apply wp_mod_conn.
Qed.

Lemma wp_at_backoff w :
  at_state (λ s, s = CState.BACKOFF) w →
  wp (λ _, True) runRead_backoff (λ _, at_state (λ s, s = CState.RESOLVING)) w.
Proof.
  intros Hw. set (I := at_state (λ s, s = CState.BACKOFF)) in *.
  do 3 (apply wp_bind; eapply (wp_holds I); [unfold I, sys_sleep; hold|eassumption|];
    intros ???). apply wp_bind, wp_get_conn.
  case_decide as Hst.
  { match goal with H : I ?w, Hst : m_cstate (w_conn ?w) = _ |- _ =>
      destruct H as (_ & Hs & _); congruence end. }
  do 4 (apply wp_bind; eapply (wp_holds I); [unfold I; hold|eassumption|]; intros ???).
  by eapply wp_set_cstate.
Qed.

(** A result of [false] sets the state to BACKOFF. *)
Lemma wp_at_failed s ok w :
  at_state (λ s', if ok : bool then follows s s' else True) w → follows s CState.BACKOFF →
  wp (λ _, True) (when (negb ok) (set_cstate CState.BACKOFF) ;; mret true)
    (λ _, at_state (follows s)) w.
Proof.
  intros Hw HP. apply wp_bind, wp_when; intros Hok.
  - eapply wp_mono; [by eapply wp_set_cstate|]. intros u w1 Hw1. by apply wp_ret.
  - apply wp_ret. by destruct ok.
Qed.

Lemma wp_at_receive s w :
  s = CState.AUTHENTICATING ∨ s = CState.CONNECTED →
  at_state (λ s', s' = s) w →
  wp (λ _, True)
    (ok ← Connection_recvLoop;
     when (negb ok)
       (state ← get_conn m_cstate;
        when (bool_decide (state ≠ CState.STOP)) Connection_socketError) ;;
     mret true) (λ _, at_state (follows s)) w.
Proof.
  intros Hs Hw. apply wp_bind. eapply wp_holds.
  { apply (at_recvLoop (λ s', s' = s ∨ s' = CState.CONNECTED)). by right. }
  { eapply at_weaken; [exact Hw|]. by left. }
  intros ok w1 Hw1.
  assert (at_state (follows s) w1) as Hf.
  { eapply at_weaken; [exact Hw1|]. intros s' [-> | ->]; destruct Hs as [-> | ->]; constructor. }
  apply wp_bind, wp_when; intros _; [|by apply wp_ret].
  apply wp_bind, wp_get_conn, wp_when; intros _; [|by apply wp_ret].
  destruct Hf as (Hu & _ & Hc). apply wp_bind, wp_mod_conn, wp_bind, wp_get_conn.
  assert (follows s CState.SOCKET_ERROR) by (destruct Hs as [-> | ->]; constructor).
  apply wp_when; intros _; [apply wp_bind, wp_closesocket, wp_mod_conn, wp_ret|apply wp_ret];
    by split_and!.
Qed.

Lemma runRead_step_follows w :
  undisturbed w → m_connection (w_impl w) = true →
  wp (λ _, True) runRead_step (λ _, at_state (follows (m_cstate (w_conn w)))) w.
Proof.
  intros Hu Hc. apply wp_bind, wp_get_conn.
  assert (at_state (λ s, s = m_cstate (w_conn w)) w) as Hw by (by split_and!).
  destruct (m_cstate (w_conn w)) eqn:Hst.
  - apply wp_bind. eapply wp_mono; [by apply wp_at_resolve|]. intros ok w1 Hw1.
    apply wp_at_failed; [|constructor]. eapply at_weaken; [exact Hw1|].
    destruct ok; [intros s ->; constructor|done].
  - apply wp_bind. eapply wp_mono; [by apply wp_at_connectToAny|]. intros ok w1 Hw1.
    apply wp_at_failed; [|constructor]. eapply at_weaken; [exact Hw1|].
    destruct ok; [intros s [-> | [_ ->]]; constructor|done].
  - by apply wp_at_receive; [left|].
  - by apply wp_at_receive; [right|].
  - apply wp_bind. eapply wp_mono; [by apply wp_at_backoff|]. intros u w1 Hw1.
    apply wp_ret. eapply at_weaken; [exact Hw1|]. intros s ->; constructor.
  - apply wp_bind. eapply wp_mono.
    { by apply (wp_set_cstate (λ s, s = CState.SOCKET_ERROR) (λ s, s = CState.BACKOFF)). }
    intros u w1 Hw1. eapply wp_mono.
    { apply (holds_keeps (at_state (λ s, s = CState.BACKOFF)) (Impl_connectionStateChange false ;;
        mod_conn (λ c, c <| m_send_queue := [] |>) ;; mret true)); [keep|done]. }
    intros b w2 Hw2. eapply at_weaken; [exact Hw2|]. intros s ->; constructor.
  - apply wp_bind. eapply (wp_holds (at_state (λ s, s = CState.STOP))).
    { unfold runRead_stop. hold. }
    { done. }
    intros u w1 Hw1. apply wp_ret. eapply at_weaken; [exact Hw1|]. intros s ->; constructor.
Qed.

Lemma runRead_step_continues w :
  wp (λ _, True) runRead_step (λ continue _,
    continue = bool_decide (m_cstate (w_conn w) ≠ CState.STOP)) w.
Proof.
  apply wp_bind, wp_get_conn. destruct (m_cstate (w_conn w)).
  1-4: apply wp_bind, (wp_mono _ _ (λ _ _, True));
    [by unfold wp; case_match|intros ok w1 _; by apply wp_continues].
  - by apply wp_continues.
  - apply wp_bind, wp_mod_conn, wp_bind, (wp_mono _ _ (λ _ _, True));
      [by unfold wp; case_match|intros u w1 _; by apply wp_continues].
  - apply wp_bind, (wp_mono _ _ (λ _ _, True)); [by unfold wp; case_match|].
    intros u w1 _. by apply wp_ret.
Qed.

(** ** Properties *)

(** C19: without interference, one iteration of the read thread moves its state
    only along the transitions of [follows]: no phase is skipped, a lost
    connection is always reported (SOCKET_ERROR) before the next attempt, which
    starts again at resolving the name after a back-off. *)
Theorem runRead_transitions w :
  undisturbed w → m_connection (w_impl w) = true →
  wp (λ _, True) runRead_step (λ continue w',
    follows (m_cstate (w_conn w)) (m_cstate (w_conn w')) ∧
    continue = bool_decide (m_cstate (w_conn w) ≠ CState.STOP)) w.
Proof.
  intros Hu Hc. eapply wp_mono; [eapply wp_conj|].
  - apply (runRead_step_follows w Hu Hc).
  - apply runRead_step_continues.
  - by intros continue w' [(_ & Hs & _) ->].
Qed.

Lemma runRead_transitions_witness :
  ∃ w', runRead_step (test_world <| w_impl ::= λ i, i <| m_connection := true |> |>
      <| w_os := [RGetaddrinfo (inr [mkAddrinfo AF_INET 1 6 "192.0.2.1"])]%Z |>) =
    Done true w' ∧ follows CState.RESOLVING (m_cstate (w_conn w')).
Proof.
  set (w := test_world <| w_impl ::= _ |> <| w_os := _ |>).
  pose proof (runRead_transitions w eq_refl eq_refl) as Hwp.
  assert (∃ b w', runRead_step w = Done b w') as (b & w' & Hrun).
  { eexists _, _. vm_compute. reflexivity. }
  destruct (wp_run _ _ _ _ _ _ Hwp Hrun) as [Hf Hb].
  exists w'. split; [|exact Hf]. rewrite Hrun, Hb. reflexivity.
Defined.
