(* ===== verification/ConnectionSpec.v ===== *)
(** * Properties of connecting

    The order of the addresses, the choice of a socket, the back-off, the
    transitions of the read thread's state, which sockets stay open, and what
    becomes of a request to stop. *)

From S2P Require Export Transitions.

(** ** The order of the addresses *)

Lemma interweave_nil_r l : interweave l [] = l.
Proof. induction l as [|a l IH]; [done|]. cbn [interweave]. by rewrite IH. Qed.

Lemma interweave_perm l6 l4 : interweave l6 l4 ≡ₚ l6 ++ l4.
Proof.
  revert l4. induction l6 as [|a l6 IH]; intros [|b l4]; try done; cbn [interweave].
  - by rewrite interweave_nil_r, app_nil_r.
  - rewrite IH. cbn. apply perm_skip. apply Permutation_middle.
Qed.

Lemma filter_all (P : addrinfo → Prop) `{∀ a, Decision (P a)} l :
  Forall P l → filter P l = l.
Proof.
  induction 1 as [|a l Ha _ IH]; [done|]. by rewrite filter_cons_True, IH.
Qed.

Lemma filter_none (P : addrinfo → Prop) `{∀ a, Decision (P a)} l :
  Forall (λ a, ¬ P a) l → filter P l = [].
Proof.
  induction 1 as [|a l Ha _ IH]; [done|]. by rewrite filter_cons_False.
Qed.

(** The two lists are kept in order inside the result. *)
Lemma filter_interweave (P Q : addrinfo → Prop) `{∀ a, Decision (P a)}
    `{∀ a, Decision (Q a)} l6 l4 :
  Forall (λ a, P a ∧ ¬ Q a) l6 → Forall (λ a, ¬ P a ∧ Q a) l4 →
  filter P (interweave l6 l4) = l6 ∧ filter Q (interweave l6 l4) = l4.
Proof.
  intros H6. revert l4.
  induction H6 as [|a l6 [HPa HQa] H6 IH]; intros l4 H4.
  - cbn [interweave]. split; [apply filter_none|apply filter_all];
      by eapply Forall_impl; [exact H4|intros ? []].
  - destruct H4 as [|b l4 [HPb HQb] H4]; cbn [interweave].
    + destruct (IH [] (Forall_nil_2 _)) as [IH1 IH2].
      rewrite !filter_cons, decide_True, decide_False by done. by rewrite IH1, IH2.
    + destruct (IH l4 H4) as [IH1 IH2]. rewrite !filter_cons.
      repeat case_decide; try done. by rewrite IH1, IH2.
Qed.

(** The addresses alternate while there are some of both families. *)
Lemma interweave_alternates l6 l4 i :
  i < length l6 → i < length l4 →
  interweave l6 l4 !! (2 * i) = l6 !! i ∧ interweave l6 l4 !! (2 * i + 1) = l4 !! i.
Proof.
  revert l4 i. induction l6 as [|a l6 IH]; intros [|b l4] [|i] H6 H4;
    simpl in H6, H4; try lia; [done|].
  replace (2 * S i) with (S (S (2 * i))) by lia.
  replace (S (S (2 * i)) + 1) with (S (S (2 * i + 1))) by lia.
  cbn [interweave lookup list_lookup]. apply IH; lia.
Qed.

(** ** One failure *)

Lemma wp_backoff F w os :
  m_cstate (w_conn w) ≠ CState.STOP → w_os w = RSleep :: os →
  wp F runRead_backoff (λ _ w',
    m_backoff (w_conn w') =
      Z.min (m_backoff (w_conn w) * 2) (m_connection_backoff_max (w_impl w)) ∧
    m_connection_backoff_max (w_impl w') = m_connection_backoff_max (w_impl w) ∧
    w_os w' = os ∧ m_cstate (w_conn w') = CState.RESOLVING ∧
    w_joining w' = w_joining w) w.
Proof.
  intros Hst Hos. apply wp_bind, wp_get_conn, wp_bind, wp_log, wp_bind.
  eapply wp_syscall_next; [exact Hos|done..|].
  apply wp_bind, wp_get_conn. rewrite decide_False by done.
  apply wp_bind, wp_mod_conn, wp_bind, wp_get_conn, wp_bind, wp_get_impl, wp_bind.
  cbn [w_conn w_impl m_backoff set_field].
  apply wp_when; intros Hd; [apply wp_mod_conn|]; apply wp_mod_conn;
    cbn [w_conn w_impl w_os m_backoff set_field].
  - apply bool_decide_eq_true in Hd. split_and!; try done. lia.
  - apply bool_decide_eq_false in Hd. split_and!; try done. lia.
Qed.

(** ** The choice of a socket *)

(** The first socket without an error that [select] reported writeable. *)
Fixpoint pick (ready : list Z) (l : list (Z * Z)) : option Z :=
  match l with
  | [] => None
  | (sock, err) :: l =>
      if decide (err = 0 ∧ sock ∈ ready)%Z then Some sock else pick ready l
  end.

Definition from_pick (s : option Z) : Z := default INVALID_SOCKET s.

(** Only what the loop over the sockets may change. *)
Definition sockets_changed (w w' : World) : Prop :=
  ∃ sockets addresses fds os tr,
    w' = w <| w_conn ::= λ c, c <| m_sockets := sockets |>
                              <| m_socket_to_address := addresses |> |>
           <| w_fds := fds |> <| w_os := os |> <| w_trace := tr |>.

#[export] Instance sockets_changed_preorder : PreOrder sockets_changed.
Proof.
  split.
  - intros w. exists (m_sockets (w_conn w)), (m_socket_to_address (w_conn w)),
      (w_fds w), (w_os w), (w_trace w). by destruct w as [? [] ?????].
  - intros w1 w2 w3 (? & ? & ? & ? & ? & ->) (? & ? & ? & ? & ? & ->).
    by eexists _, _, _, _, _.
Qed.

(** The loop picks the first usable socket, drops and closes those in error. *)
Lemma wp_check_sockets_pick F todo errs kept ready connected w os :
  length errs = length todo → Forall (λ s, s ≠ INVALID_SOCKET) todo → NoDup todo →
  Forall (λ s, is_Some (m_socket_to_address (w_conn w) !! s)) todo →
  m_sockets (w_conn w) = kept ++ todo → w_os w = map RSoError errs ++ os →
  wp F (check_sockets todo kept ready connected) (λ s w',
    s = (if decide (connected = INVALID_SOCKET) then from_pick (pick ready (zip todo errs))
         else connected) ∧
    m_sockets (w_conn w') = kept ++ (filter (λ p, p.2 = 0%Z) (zip todo errs)).*1 ∧
    w_fds w' = w_fds w ∖ list_to_set (filter (λ p, p.2 ≠ 0%Z) (zip todo errs)).*1 ∧
    w_os w' = os ∧ sockets_changed w w') w.
Proof.
  revert errs kept connected w.
  induction todo as [|sock todo IH]; intros [|err errs] kept connected w Hl Hv Hn Ha Hs Hos;
    try discriminate Hl; cbn [check_sockets zip zip_with].
  - apply wp_ret. split; [by case_decide|]. split; [done|]. split; [set_solver|].
    by split; [|reflexivity].
  - apply Forall_cons in Hv as [Hv1 Hv]. apply NoDup_cons in Hn as [Hn1 Hn].
    apply Forall_cons in Ha as [[a Ha1] Ha]. injection Hl as Hl.
    apply wp_bind. eapply wp_syscall_next; [exact Hos|done..|].
    cbn [pick]. rewrite !filter_cons. cbn [fst snd].
    destruct (decide (err = 0)%Z) as [->|He]; cbn [decide].
    + rewrite (decide_False (P := (0 ≠ 0)%Z)) by lia.
      set (w1 := w <| w_os := _ |>).
      assert (sockets_changed w w1) as Hc1.
      { exists (m_sockets (w_conn w)), (m_socket_to_address (w_conn w)), (w_fds w),
          (map RSoError errs ++ os), (w_trace w). by destruct w as [? [] ?????]. }
      eapply wp_mono; [apply (IH errs (kept ++ [sock])); [done..|by rewrite <-app_assoc|done]|].
      intros s w2 (-> & Hs2 & Hf2 & Hos2 & Hc2). split; [|split; [|split; [|split]]].
      * repeat case_decide; unfold from_pick; simpl; naive_solver.
      * rewrite Hs2. cbn [fmap list_fmap fst]. by rewrite <-app_assoc.
      * exact Hf2.
      * done.
      * by transitivity w1.
    + rewrite (decide_False (P := (err = 0 ∧ _)%Z)) by tauto.
      rewrite !(decide_True (P := (err ≠ 0)%Z)) by done.
      apply wp_bind, wp_get_conn. cbn [w_conn set_field]. rewrite Ha1.
      apply wp_bind, wp_get_impl, wp_bind. rewrite (bool_decide_false (Some a = None)) by done.
      rewrite andb_false_r. apply wp_ret, wp_bind, wp_log, wp_bind, wp_closesocket.
      apply wp_bind, wp_mod_conn, wp_bind, wp_mod_conn. set (w1 := _ <| w_conn ::= _ |>).
      assert (sockets_changed w w1) as Hc1 by (by eexists _, _, _, _, _).
      eapply wp_mono.
      { apply (IH errs kept); try done. eapply Forall_impl; [apply Forall_and; split|].
        - exact Ha.
        - apply Forall_forall. intros s Hin. exact (λ Heq : s = sock, Hn1 (eq_ind _ (λ x, x ∈ todo) Hin _ Heq)).
        - intros s [Hs1 Hs2]. cbn. by rewrite lookup_delete_ne. }
      intros s w2 (-> & Hs2 & Hf2 & Hos2 & Hc2). split_and!; [done|done| |done|by transitivity w1].
      rewrite Hf2. subst w1. cbn [w_fds set_field fmap list_fmap fst list_to_set foldr].
      apply difference_difference_l_L.
Qed.

Lemma pick_elem ready l s : pick ready l = Some s → (s, 0%Z) ∈ l.
Proof.
  induction l as [|[sock err] l IH]; [done|]. cbn [pick].
  case_decide as Hd; [|intros Hs; right; by apply IH].
  destruct Hd as [-> _]. intros [= ->]. left.
Qed.

(** Closing the attempts that were not picked. *)
Lemma wp_close_unpicked F s l w :
  wp F (for_each (λ sock, when (bool_decide (sock ≠ s)) (closesocket sock)) l)
    (λ _ w', w_fds w' = w_fds w ∖ (list_to_set l ∖ {[s]}) ∧ w_os w' = w_os w ∧
       sockets_changed w w') w.
Proof.
  revert w. induction l as [|sock l IH]; intros w; cbn [for_each].
  { apply wp_ret. split; [set_solver|]. by split; [|reflexivity]. }
  apply wp_bind, wp_when; intros Hd; [apply wp_closesocket|].
  - apply bool_decide_eq_true in Hd. set (w1 := _ <| w_trace ::= _ |>).
    assert (sockets_changed w w1) as Hc1.
    { exists (m_sockets (w_conn w)), (m_socket_to_address (w_conn w)),
        (w_fds w1), (w_os w), (w_trace w1). by destruct w as [? [] ?????]. }
    eapply wp_mono; [apply IH|]. intros u w2 (Hf & Ho & Hc2).
    split; [|split; [done|by transitivity w1]]. rewrite Hf. simpl. set_solver.
  - apply bool_decide_eq_false, dec_stable in Hd as ->. eapply wp_mono; [apply IH|].
    intros u w2 (Hf & Ho & Hc2). split; [|done]. rewrite Hf. simpl. set_solver.
Qed.

Lemma FD_SET_all F l w :
  Forall (λ fd, 0 ≤ fd < FD_SETSIZE)%Z l → wp F (for_each FD_SET l) (λ _ w', w' = w) w.
Proof.
  induction 1 as [|fd l Hfd _ IH]; [by apply wp_ret|]. cbn [for_each]. apply wp_bind.
  unfold wp at 1. by rewrite FD_SET_ok.
Qed.

(** The sockets that are closed are all but the picked one. *)
Lemma unpicked_sockets sockets errs s :
  NoDup sockets → length errs = length sockets → (s, 0%Z) ∈ zip sockets errs →
  list_to_set (C := gset Z) (filter (λ p, p.2 ≠ 0%Z) (zip sockets errs)).*1 ∪
    (list_to_set (filter (λ p, p.2 = 0%Z) (zip sockets errs)).*1 ∖ {[s]}) =
  list_to_set sockets ∖ {[s]}.
Proof.
  intros Hn Hl Hs. assert ((zip sockets errs).*1 = sockets) as Hfst by (apply fst_zip; lia).
  assert (∀ e, (s, e) ∈ zip sockets errs → e = 0%Z) as Huniq.
  { intros e He. rewrite <-Hfst in Hn.
    apply (elem_of_list_to_map (M := gmap Z)) in He, Hs; [congruence|done..]. }
  apply set_eq. intros x.
  rewrite elem_of_union, !elem_of_difference, elem_of_singleton, !elem_of_list_to_set,
    !list_elem_of_fmap.
  rewrite <-Hfst at 1. rewrite list_elem_of_fmap. split.
  - intros [([y e] & -> & [He Hin]%list_elem_of_filter)|[([y e] & -> & [He Hin]%list_elem_of_filter) Hx]].
    + split; [by exists (y, e)|]. simpl. intros ->. by apply He, Huniq.
    + by split; [exists (y, e)|].
  - intros [([y e] & -> & Hin) Hx]. destruct (decide (e = 0)%Z) as [He|He].
    + right. split; [|done]. exists (y, e). by rewrite list_elem_of_filter.
    + left. exists (y, e). by rewrite list_elem_of_filter.
Qed.

(** The loop over the sockets and the one that closes the others, together. *)
Lemma wp_pick_and_close F sockets errs s ready w os
    (k : Z → M bool) (Q : bool → World → Prop) :
  NoDup sockets → Forall (λ s, is_Some (m_socket_to_address (w_conn w) !! s)) sockets →
  Forall (λ fd, 0 ≤ fd < FD_SETSIZE)%Z sockets → length errs = length sockets →
  m_sockets (w_conn w) = sockets → w_os w = map RSoError errs ++ os →
  pick ready (zip sockets errs) = Some s →
  (∀ w', w_fds w' = w_fds w ∖ (list_to_set sockets ∖ {[s]}) → w_os w' = os →
     sockets_changed w w' → wp F (k s) Q w') →
  wp F (s' ← check_sockets sockets [] ready INVALID_SOCKET;
        if decide (s' = INVALID_SOCKET) then mret true
        else
          l ← get_conn m_sockets;
          for_each (λ sock, when (bool_decide (sock ≠ s')) (closesocket sock)) l ;;
          k s') Q w.
Proof.
  intros Hnd Haddr Hrange Hl Hs Hos Hpick HQ.
  assert (Forall (λ s, s ≠ INVALID_SOCKET) sockets) as Hv.
  { eapply Forall_impl; [exact Hrange|]. unfold INVALID_SOCKET. lia. }
  pose proof (pick_elem _ _ _ Hpick) as Hin.
  assert (s ≠ INVALID_SOCKET) as Hne.
  { rewrite Forall_forall in Hv. apply Hv. eapply elem_of_zip_l, Hin. }
  apply wp_bind. eapply wp_mono; [by apply (wp_check_sockets_pick _ _ errs [])|].
  intros s' w2 (-> & Hs2 & Hf2 & Hos2 & Hc2).
  rewrite (decide_True (P := INVALID_SOCKET = INVALID_SOCKET)), Hpick by done.
  rewrite decide_False by done.
  apply wp_bind, wp_get_conn, wp_bind. eapply wp_mono; [apply wp_close_unpicked|].
  intros u3 w3 (Hf3 & Hos3 & Hc3). apply HQ; [|by rewrite Hos3|by transitivity w2].
  rewrite Hf3, Hf2, Hs2, <-(unpicked_sockets _ _ _ Hnd Hl Hin).
  apply difference_difference_l_L.
Qed.

(** ** A name that does not resolve *)

Definition os_after (e : Z) (n : nat) : list reply :=
  concat (replicate n [RGetaddrinfo (inl e); RSleep]).

Lemma wp_resolve_fails F e os w :
  w_os w = RGetaddrinfo (inl e) :: os →
  wp F Connection_resolve (λ ok w', ok = false ∧ w_os w' = os ∧
    w_joining w' = w_joining w ∧ m_cstate (w_conn w') = m_cstate (w_conn w)) w.
Proof.
  intros Hos. apply wp_bind, wp_mod_conn, wp_bind, wp_mod_conn.
  apply wp_bind. eapply wp_syscall_next; [exact Hos|done..|].
  by apply wp_bind, wp_call_error, wp_ret.
Qed.

(** The same, when a stop is requested meanwhile. *)
Lemma wp_resolve_stopped F e os w :
  w_os w = ROther AStop :: RGetaddrinfo (inl e) :: os →
  m_state (w_impl w) ≠ DISCONNECTED → w_joining w = false →
  wp F Connection_resolve (λ ok w', ok = false ∧ w_os w' = os ∧ w_joining w' = true ∧
    m_cstate (w_conn w') = CState.STOP) w.
Proof.
  intros Hos Hst Hj. apply wp_bind, wp_mod_conn, wp_bind, wp_mod_conn, wp_bind.
  unfold wp at 1, sys_getaddrinfo. erewrite syscall_other by exact Hos.
  cbn [apply_interference]. rewrite decide_False by (cbn; intuition congruence).
  erewrite syscall_eq by reflexivity. by apply wp_bind, wp_call_error, wp_ret.
Qed.

(** A failure to resolve, and the wait that follows it. *)
Lemma wp_failed_round F os fuel w (Q : bool → World → Prop) :
  m_cstate (w_conn w) = CState.RESOLVING →
  wp F Connection_resolve (λ ok w', ok = false ∧ w_os w' = RSleep :: os ∧
    w_joining w' = true) w →
  (∀ w', m_cstate (w_conn w') = CState.RESOLVING → w_os w' = os → w_joining w' = true →
    wp F (runRead fuel) Q w') →
  wp F (runRead (S (S fuel))) Q w.
Proof.
  intros Hst Hres HQ. cbn [runRead]. apply wp_bind. apply wp_bind, wp_get_conn.
  rewrite Hst. apply wp_bind. eapply wp_mono; [exact Hres|].
  intros ok w1 (-> & Hos1 & Hj1). apply wp_bind, wp_mod_conn, wp_ret. cbv iota.
  set (w2 := w1 <| w_conn ::= _ |>).
  apply wp_bind. apply wp_bind, wp_get_conn. apply wp_bind.
  eapply wp_mono; [by apply (wp_backoff _ w2 os)|]. intros u w3 (_ & _ & Hos3 & Hs3 & Hj3).
  apply wp_ret. cbv iota. apply HQ; [done|done|]. by rewrite Hj3.
Qed.

(** From then on nothing stops the thread. *)
Lemma wp_failing F e n w :
  m_cstate (w_conn w) = CState.RESOLVING → w_joining w = true → w_os w = os_after e n →
  wp F (runRead (2 * n)) (λ b w', b = false ∧ m_cstate (w_conn w') = CState.RESOLVING ∧
    w_joining w' = true) w.
Proof.
  revert w. induction n as [|n IH]; intros w Hst Hj Hos; [by apply wp_ret|].
  replace (2 * S n) with (S (S (2 * n))) by lia.
  eapply wp_failed_round; [done| |].
  - eapply wp_mono; [apply (wp_resolve_fails _ e (RSleep :: os_after e n)); exact Hos|].
    intros ok w1 (-> & Hos1 & Hj1 & _). split; [done|]. split; [exact Hos1|congruence].
  - intros w1 Hs1 Hos1 Hj1. by apply IH.
Qed.

(** ** Properties *)

(** C37: the addresses to try are those of IPv6 and IPv4 the name resolves to,
    each family in the order of the answer, alternating while there are both
    and starting with IPv6; the name is resolved exactly when there is one, and
    then the state is CONNECTING, unless a stop was requested. *)
Theorem resolve_interweaves l os w :
  w_os w = RGetaddrinfo (inr l) :: os →
  let l6 := filter (λ a, ai_family a = AF_INET6) l in
  let l4 := filter (λ a, ai_family a = AF_INET) l in
  ∃ w', Connection_resolve w = Done (bool_decide (l6 ++ l4 ≠ [])) w' ∧
    let addresses := m_addresses (w_conn w') in
    addresses ≡ₚ l6 ++ l4 ∧
    filter (λ a, ai_family a = AF_INET6) addresses = l6 ∧
    filter (λ a, ai_family a = AF_INET) addresses = l4 ∧
    (∀ i, i < length l6 → i < length l4 →
       addresses !! (2 * i) = l6 !! i ∧ addresses !! (2 * i + 1) = l4 !! i) ∧
    m_address_current (w_conn w') = 0 ∧
    m_cstate (w_conn w') =
      if decide (l6 ++ l4 ≠ [] ∧ m_cstate (w_conn w) ≠ CState.STOP)
      then CState.CONNECTING else m_cstate (w_conn w).
Proof.
  intros Hos l6 l4.
  assert (Forall (λ a, ai_family a = AF_INET6 ∧ ai_family a ≠ AF_INET) l6) as H6.
  { apply Forall_forall. intros a [Ha _]%list_elem_of_filter. by rewrite Ha. }
  assert (Forall (λ a, ai_family a ≠ AF_INET6 ∧ ai_family a = AF_INET) l4) as H4.
  { apply Forall_forall. intros a [Ha _]%list_elem_of_filter. by rewrite Ha. }
  destruct (filter_interweave _ _ l6 l4 H6 H4) as [Hf6 Hf4].
  pose proof (interweave_perm l6 l4) as Hperm.
  assert (interweave l6 l4 = [] ↔ l6 ++ l4 = []) as Hnil.
  { split; intros Hl; rewrite Hl in Hperm; [by apply Permutation_nil in Hperm|].
    by apply Permutation_nil_r in Hperm. }
  destruct (wp_total Connection_resolve (λ b w',
    b = bool_decide (l6 ++ l4 ≠ []) ∧
    m_addresses (w_conn w') = interweave l6 l4 ∧
    m_address_current (w_conn w') = 0 ∧
    m_cstate (w_conn w') =
      if decide (l6 ++ l4 ≠ [] ∧ m_cstate (w_conn w) ≠ CState.STOP)
      then CState.CONNECTING else m_cstate (w_conn w)) w)
    as (b & w' & Hrun & -> & Ha & Hc & Hst).
  { apply wp_bind, wp_mod_conn, wp_bind, wp_mod_conn, wp_bind.
    eapply wp_syscall_next; [exact Hos|done..|]. cbv beta iota zeta.
    apply wp_bind, wp_mod_conn, wp_bind, wp_mod_conn.
    unfold addresses_of. fold l6 l4. clearbody l6 l4. destruct (decide (interweave l6 l4 = [])) as [He|Hne].
    - apply wp_bind, wp_call_error, wp_ret. rewrite Hnil in He.
      rewrite bool_decide_false, decide_False by tauto. done.
    - rewrite Hnil in Hne. rewrite bool_decide_true by exact Hne.
      unfold set_cstate. apply wp_bind, wp_get_conn, wp_bind.
      apply wp_when; intros Hd.
      + apply wp_mod_conn, wp_ret. apply bool_decide_eq_true in Hd.
        rewrite decide_True by (split; assumption). done.
      + apply wp_ret. apply bool_decide_eq_false in Hd.
        rewrite decide_False by (intros [_ ?]; contradiction). done. }
  exists w'. split; [done|]. rewrite Ha. split_and!; try done.
  intros i H6i H4i. by apply interweave_alternates.
Qed.

(** [n] failures in a row. *)
Fixpoint backoffs (n : nat) : M unit :=
  match n with O => mret () | S n => runRead_backoff ;; backoffs n end.

(** C38: after [n] failures in a row the next wait is the first one doubled [n]
    times, but never above the configured maximum. *)
Theorem backoff_doubles n w :
  let b := m_backoff (w_conn w) in
  let max := m_connection_backoff_max (w_impl w) in
  n ≠ 0 → (0 ≤ b)%Z → (0 ≤ max)%Z → m_cstate (w_conn w) ≠ CState.STOP →
  w_os w = replicate n RSleep →
  ∃ w', backoffs n w = Done () w' ∧
    m_backoff (w_conn w') = Z.min (b * 2 ^ Z.of_nat n) max ∧
    m_cstate (w_conn w') = CState.RESOLVING.
Proof.
  intros b max Hn Hb Hmax Hst Hos. apply wp_total_unit. subst b max.
  revert w Hb Hmax Hst Hos. destruct n as [|n]; [done|]. clear Hn.
  induction n as [|n IH]; intros w Hb Hmax Hst Hos; cbn [backoffs]; apply wp_bind.
  - eapply wp_mono; [by eapply wp_backoff|]. intros _ w1 (Hb1 & _ & _ & Hs1 & _). apply wp_ret.
    by rewrite Hb1.
  - eapply wp_mono; [by eapply wp_backoff|]. intros _ w1 (Hb1 & Hmax1 & Hos1 & Hs1 & _).
    eapply wp_mono; [apply IH|].
    + rewrite Hb1. lia.
    + by rewrite Hmax1.
    + by rewrite Hs1.
    + done.
    + intros _ w2 [-> Hs2]. split; [|done]. rewrite Hb1, Hmax1.
      rewrite (Nat2Z.inj_succ (S n)), Z.pow_succ_r by lia.
      assert (1 ≤ 2 ^ Z.of_nat (S n))%Z by (apply (Z.pow_le_mono_r 2 0); lia).
      nia.
Qed.

(** C20: when [select] reports a pending attempt that has no error, the first
    such socket becomes the connection; all other attempts are closed and
    forgotten, CONNECT is put in front of the send queue, the back-off starts
    anew, and the client waits for the broker's answer. *)
Theorem connectToAny_connects w ready errs s n e x t1 t2 os :
  let c := w_conn w in
  m_cstate c = CState.CONNECTING → m_sockets c ≠ [] → NoDup (m_sockets c) →
  Forall (λ s, is_Some (m_socket_to_address c !! s)) (m_sockets c) →
  Forall (λ fd, 0 ≤ fd < FD_SETSIZE)%Z (m_sockets c) →
  length errs = length (m_sockets c) → (0 < n)%Z →
  pick ready (zip (m_sockets c) errs) = Some s →
  w_os w = RSelectWrite n e ready :: map RSoError errs ++
             RIoctl x :: RNow t1 :: RNow t2 :: os →
  ∃ w', Connection_connectToAny w = Done true w' ∧
    let c' := w_conn w' in
    m_socket c' = s ∧ m_sockets c' = [] ∧ m_cstate c' = CState.AUTHENTICATING ∧
    w_fds w' = w_fds w ∖ (list_to_set (m_sockets c) ∖ {[s]}) ∧
    m_send_queue c' = set_header (connect_packet (w_impl w)) :: m_send_queue c ∧
    m_backoff c' = m_connection_backoff (w_impl w) ∧
    m_last_sent_packet c' = t1 ∧ m_last_received_packet c' = t2 ∧ w_os w' = os.
Proof.
  intros c Hst Hne Hnd Haddr Hrange Hl Hn Hpick Hos. subst c.
  destruct (wp_total Connection_connectToAny (λ b w', b = true ∧
    let c' := w_conn w' in
    m_socket c' = s ∧ m_sockets c' = [] ∧ m_cstate c' = CState.AUTHENTICATING ∧
    w_fds w' = w_fds w ∖ (list_to_set (m_sockets (w_conn w)) ∖ {[s]}) ∧
    m_send_queue c' = set_header (connect_packet (w_impl w)) :: m_send_queue (w_conn w) ∧
    m_backoff c' = m_connection_backoff (w_impl w) ∧
    m_last_sent_packet c' = t1 ∧ m_last_received_packet c' = t2 ∧ w_os w' = os) w)
    as (b & w' & Hrun & -> & Hw'); [|by exists w'].
  apply wp_bind, wp_get_conn. rewrite decide_False by done.
  apply wp_bind. eapply wp_mono; [by apply FD_SET_all|]. intros u1 w1 ->.
  apply wp_bind. eapply wp_syscall_next; [exact Hos|done..|].
  apply wp_bind, wp_get_conn. cbv beta iota zeta.
  rewrite decide_False by (cbn; congruence). rewrite !decide_False by lia.
  apply wp_bind, wp_get_conn.
  eapply (wp_pick_and_close _ (m_sockets (w_conn w)) errs s); [done..|].
  intros w1 Hfds Hos1 (l1 & a1 & f1 & os1 & tr1 & ->). cbn in Hfds, Hos1. subst f1 os1.
  apply wp_bind, wp_bind, wp_mod_conn, wp_mod_conn.
  apply wp_bind. eapply wp_syscall_next; [reflexivity|done..|].
  apply wp_bind, wp_when_log. intros tr. apply wp_bind, wp_mod_conn.
  apply wp_bind. eapply wp_syscall_next; [reflexivity|done..|]. apply wp_bind, wp_mod_conn.
  apply wp_bind. eapply wp_syscall_next; [reflexivity|done..|]. apply wp_bind, wp_mod_conn.
  apply wp_bind, wp_get_conn. cbv zeta. rewrite decide_True by (cbn; congruence).
  apply wp_bind, wp_mod_conn, wp_bind, wp_bind, wp_get_impl.
  unfold wp at 1. rewrite Connection_send_priority. cbn [negb].
  apply wp_bind, wp_get_impl, wp_bind, wp_mod_conn, wp_ret. by split_and!.
Qed.

(** A flaw: a stop that is requested while the name is being resolved is
    overwritten when that fails: the read thread goes on trying, so that
    [disconnect], which waits for it to end, never returns as long as the name
    does not resolve. *)
Theorem stop_is_lost n w e :
  0 < n →
  m_cstate (w_conn w) = CState.RESOLVING →
  m_state (w_impl w) ≠ DISCONNECTED → w_joining w = false →
  w_os w = ROther AStop :: concat (replicate n [RGetaddrinfo (inl e); RSleep]) →
  ∃ w', runRead (2 * n) w = Done false w' ∧
    m_cstate (w_conn w') = CState.RESOLVING ∧ w_joining w' = true.
Proof.
  intros Hn Hst Hdis Hj Hos. destruct n as [|n]; [lia|].
  destruct (wp_total (runRead (2 * S n)) (λ b w', b = false ∧
    m_cstate (w_conn w') = CState.RESOLVING ∧ w_joining w' = true) w)
    as (b & w' & Hrun & -> & Hw'); [|by exists w'].
  replace (2 * S n) with (S (S (2 * n))) by lia. eapply wp_failed_round; [done| |].
  - eapply wp_mono; [apply (wp_resolve_stopped _ e (RSleep :: os_after e n)); [exact Hos|done..]|].
    intros ok w1 (-> & Hos1 & Hj1 & _). by split_and!.
  - intros w1 Hs1 Hos1 Hj1. by apply (wp_failing _ e).
Qed.

(** ** The properties at concrete states *)

Definition ip (family : Z) (addr : string) : addrinfo := mkAddrinfo family 1 6 addr.

Definition resolving_world (os : list reply) : World :=
  connecting_world <| w_os := os |>.

Lemma resolve_interweaves_witness :
  let l := [ip AF_INET "192.0.2.1"; ip AF_INET6 "2001:db8::1"; ip 1 "other";
            ip AF_INET "192.0.2.2"; ip AF_INET "192.0.2.3"; ip AF_INET6 "2001:db8::2"] in
  ∃ w', Connection_resolve (resolving_world [RGetaddrinfo (inr l)]) = Done true w' ∧
    length (m_addresses (w_conn w')) = 5 ∧
    m_addresses (w_conn w') !! 0 = Some (ip AF_INET6 "2001:db8::1").
Proof.
  intros l.
  destruct (resolve_interweaves l [] (resolving_world [RGetaddrinfo (inr l)]) eq_refl)
    as (w' & Hrun & Hperm & _ & _ & Halt & _).
  exists w'. split; [exact Hrun|]. split.
  - rewrite Hperm. reflexivity.
  - apply (Halt 0); apply Nat.ltb_lt; reflexivity.
Defined.

Lemma backoff_doubles_witness :
  ∃ w', backoffs 6 (resolving_world (replicate 6 RSleep)) = Done () w' ∧
    m_backoff (w_conn w') = 30000%Z.
Proof.
  destruct (backoff_doubles 6 (resolving_world (replicate 6 RSleep)))
    as (w' & Hrun & Hb & _).
  - discriminate.
  - apply Z.leb_le. reflexivity.
  - apply Z.leb_le. reflexivity.
  - discriminate.
  - reflexivity.
  - exists w'. split; [exact Hrun|]. rewrite Hb. reflexivity.
Defined.

(** Three attempts; the first failed, the other two are both ready. *)
Definition pending_world : World :=
  (resolving_world [RSelectWrite 2 0 [5; 6; 4]; RSoError 111; RSoError 0; RSoError 0;
                    RIoctl 0; RNow 8; RNow 9]%Z)
    <| w_conn ::= λ c, c <| m_cstate := CState.CONNECTING |> <| m_sockets := [4; 5; 6]%Z |>
         <| m_socket_to_address := <[4%Z := ip AF_INET6 "2001:db8::1"]>
              (<[5%Z := ip AF_INET "192.0.2.1"]> {[6%Z := ip AF_INET "192.0.2.2"]}) |> |>
    <| w_fds := {[4; 5; 6]}%Z |>.

Lemma connectToAny_connects_witness :
  ∃ w', Connection_connectToAny pending_world = Done true w' ∧
    m_socket (w_conn w') = 5%Z ∧
    m_send_queue (w_conn w') = [set_header (connect_packet (w_impl pending_world))].
Proof.
  destruct (connectToAny_connects pending_world [5; 6; 4]%Z [111; 0; 0]%Z 5 2 0 0 8 9 [])
    as (w' & Hrun & Hs & _ & _ & _ & Hq & _).
  - reflexivity.
  - discriminate.
  - apply (bool_decide_unpack _). reflexivity.
  - repeat constructor; eexists; reflexivity.
  - repeat constructor; apply Z.leb_le || apply Z.ltb_lt; reflexivity.
  - reflexivity.
  - reflexivity.
  - reflexivity.
  - reflexivity.
  - exists w'. split; [exact Hrun|]. split; [exact Hs|exact Hq].
Defined.

Lemma stop_is_lost_witness :
  ∃ w', runRead 2 (resolving_world [ROther AStop; RGetaddrinfo (inl 1); RSleep]%Z) =
      Done false w' ∧ m_cstate (w_conn w') = CState.RESOLVING ∧ w_joining w' = true.
Proof.
  apply (stop_is_lost 1 _ 1).
  - apply Nat.ltb_lt. reflexivity.
  - reflexivity.
  - discriminate.
  - reflexivity.
  - reflexivity.
Defined.
