(* ===== verification/ReaderSafety.v ===== *)
(** * Memory safety of the read thread

    From a new connection the read thread has no undefined behaviour, whatever
    the network answers, as long as descriptors fit a [fd_set] and no send
    fails: every pending attempt has an address to report, every address is one
    of the list that [getaddrinfo] returned and that is not freed yet, and
    there is a socket to [select] on while the connection is up. *)

From S2P Require Export Transitions.

(** ** What the read thread relies on *)

(** The members that point into memory or hold descriptors. *)
Record view := mkView {
  v_fds : gset Z;
  v_sockets : list Z;
  v_socket : Z;
  v_addressed : gmap Z addrinfo;
  v_addresses : list addrinfo;
  v_resolved : option (list addrinfo)
}.

Definition view_of (w : World) : view :=
  let c := w_conn w in
  mkView (w_fds w) (m_sockets c) (m_socket c) (m_socket_to_address c) (m_addresses c)
    (m_host_resolved c).

(** The list of addresses, and so each node, is allocated. *)
Definition allocated (v : view) (a : addrinfo) : Prop :=
  ∃ l, v_resolved v = Some l ∧ a ∈ l.

Definition selectable (fd : Z) : Prop := (0 ≤ fd < FD_SETSIZE)%Z.

Record pointers_ok (v : view) : Prop := {
  ok_nodup : NoDup (v_sockets v);
  ok_addressed : dom (v_addressed v) = list_to_set (v_sockets v);
  ok_sockets : ∀ fd, fd ∈ v_sockets v → fd ∈ v_fds v ∧ selectable fd;
  ok_addresses : ∀ a, a ∈ v_addresses v → allocated v a;
  ok_addressed_allocated : ∀ fd a, v_addressed v !! fd = Some a → allocated v a
}.

(** The operating system gives descriptors a [fd_set] has room for, and the
    write thread does not close the socket. *)
Definition reply_ok (r : reply) : Prop :=
  match r with
  | RSocket fd => (fd < FD_SETSIZE)%Z
  | ROther ASocketError => False
  | _ => True
  end.

(** In one of the states [S], with the members as [P] says. *)
Definition reading (S : CState.t → Prop) (P : view → Prop) (w : World) : Prop :=
  Forall reply_ok (w_os w) ∧ alive w ∧ S (m_cstate (w_conn w)) ∧ P (view_of w).

(** No undefined behaviour. *)
Definition defined (f : fault) : Prop := f ≠ UndefinedBehaviour ∧ f ≠ Unsupported.

Lemma defined_blocked : defined Blocked. Proof. done. Qed.
Lemma defined_deadlock : defined Deadlock. Proof. done. Qed.
Lemma defined_terminated : defined Terminated. Proof. done. Qed.
#[export] Hint Resolve defined_blocked defined_deadlock defined_terminated : defined.

Lemma reading_weaken (S S' : CState.t → Prop) (P P' : view → Prop) w :
  reading S P w → (∀ s, S s → S' s) → (∀ v, P v → P' v) → reading S' P' w.
Proof. intros (?&?&?&?) ??. split_and!; auto. Qed.

(** ** System calls *)

Lemma reading_interference S P a w :
  S CState.STOP → a ≠ ASocketError → reading S P w → reading S P (apply_interference a w).
Proof.
  intros HS Ha (Hos&Hal&Hs&HP).
  split; [|split; [by apply (stable_interference (I := alive))|]].
  - destruct a; simpl; try done. by case_decide.
  - destruct a; try done; simpl; [case_decide|..]; done.
Qed.

Lemma reading_absorb S P os w :
  S CState.STOP → Forall reply_ok os → reading S P w → reading S P (absorb os w).
Proof.
  intros HS. revert w. induction os as [|r os IH]; intros w Hos Hw; cbn [absorb].
  { destruct Hw as (_&?&?&?). by split_and!. }
  pose proof Hos as [Hr Hos']%Forall_cons.
  destruct r as [a|r|r|r|r|r|r e|r e l|r|r|r|r|]; try (destruct Hw as (_&?&?&?); by split_and!).
  apply IH; [done|]. apply reading_interference; [done| |done]. by intros ->.
Qed.

Lemma wp_read_syscall {A} S P (f : reply → option A) (Q : A → World → Prop) w :
  S CState.STOP → reading S P w →
  (∀ r a w', reply_ok r → f r = Some a → reading S P w' → Q a w') →
  wp defined (syscall f) Q w.
Proof.
  intros HS Hw HQ. unfold wp, syscall. pose proof Hw as (Hos&_).
  pose proof (reading_absorb S P (w_os w) w HS Hos Hw) as (Hos'&?&?&?).
  destruct (w_os (absorb (w_os w) w)) as [|r os]; [auto with defined|].
  apply Forall_cons in Hos' as [Hr Hos']. destruct (f r) eqn:Hf; [|auto with defined].
  eapply HQ; [done..|]. by split_and!.
Qed.

(** ** Programs that touch none of it *)

Definition untouched (w w' : World) : Prop :=
  view_of w' = view_of w ∧ m_cstate (w_conn w') = m_cstate (w_conn w) ∧
  m_connection (w_impl w') = m_connection (w_impl w) ∧ w_joining w' = w_joining w ∧
  w_os w' = w_os w.

#[export] Instance untouched_preorder : PreOrder untouched.
Proof.
  split; [by intros w; split_and!|].
  intros w1 w2 w3 (?&?&?&?&?) (?&?&?&?&?). split_and!; congruence.
Qed.

Lemma reading_untouched S P w w' : untouched w w' → reading S P w → reading S P w'.
Proof.
  intros (Hv&Hs&Hc&Hj&Ho) (?&Ha&?&?). unfold reading, alive in *.
  by rewrite Hv, Hs, Hc, Hj, Ho.
Qed.

(** With [c], when there is a connection object to dereference. *)
Definition neutral {A} (c : bool) (m : M A) : Prop :=
  ∀ w, (c = true → m_connection (w_impl w) = true) → wp defined m (λ _ w', untouched w w') w.

Lemma neutral_bind {A B} c (m : M A) (k : A → M B) :
  neutral c m → (∀ a, neutral c (k a)) → neutral c (m ≫= k).
Proof.
  intros Hm Hk w Hw. apply wp_bind. eapply wp_mono; [by apply Hm|]. intros a w1 Hw1.
  eapply wp_mono; [apply Hk|].
  - destruct Hw1 as (_&_&Hc&_). by rewrite Hc.
  - intros b w2 Hw2. by transitivity w1.
Qed.

Lemma neutral_ret {A} c (a : A) : neutral c (mret a).
Proof. intros w _. by apply wp_ret. Qed.
Lemma neutral_gets {A} c (f : World → A) : neutral c (gets f).
Proof. intros w _. by apply wp_gets. Qed.
Lemma neutral_log c l msg : neutral c (log l msg).
Proof. intros w _. apply wp_log. by split_and!. Qed.
Lemma neutral_emit c e : neutral c (emit e).
Proof. intros w _. apply wp_emit. by split_and!. Qed.
Lemma neutral_lock c : neutral c lock_state_mutex.
Proof. intros w _. unfold lock_state_mutex. apply wp_bind, wp_gets. by destruct (w_joining w). Qed.
Lemma neutral_when c b m : neutral c m → neutral c (when b m).
Proof. intros Hm w Hw. by apply wp_when; intros; [apply Hm|]. Qed.
Lemma neutral_for_each {A} c (f : A → M unit) l :
  (∀ a, neutral c (f a)) → neutral c (for_each f l).
Proof.
  intros Hf. induction l as [|a l IH]; [apply neutral_ret|]. by apply neutral_bind.
Qed.
Lemma neutral_mod_impl c f :
  (∀ i, m_connection (f i) = m_connection i) → neutral c (mod_impl f).
Proof. intros Hf w _. apply wp_mod_impl. split_and!; try done. apply Hf. Qed.
Lemma neutral_mod_conn c f :
  (∀ w, view_of (w <| w_conn ::= f |>) = view_of w) →
  (∀ c, m_cstate (f c) = m_cstate c) → neutral c (mod_conn f).
Proof. intros Hf Hs w _. apply wp_mod_conn. split_and!; [apply Hf|apply Hs|done..]. Qed.
Lemma neutral_deref : neutral true deref_connection.
Proof.
  intros w Hw. apply wp_bind, wp_get_impl. rewrite (Hw eq_refl). by apply wp_ret.
Qed.

Create HintDb neutral.
#[export] Hint Resolve neutral_ret neutral_gets neutral_log neutral_emit neutral_lock
  neutral_deref : neutral.
#[export] Hint Extern 1 (neutral _ (mod_impl _)) => apply neutral_mod_impl; done : neutral.
#[export] Hint Extern 1 (neutral _ (mod_conn _)) => apply neutral_mod_conn; done : neutral.
#[export] Hint Extern 1 (neutral _ (get_impl _)) => apply neutral_gets : neutral.
#[export] Hint Extern 1 (neutral _ (get_conn _)) => apply neutral_gets : neutral.

Ltac neutral := repeat (intros; first
  [ assumption | solve [auto with neutral] | apply neutral_bind | apply neutral_when
  | apply neutral_for_each
  | match goal with |- neutral _ (match ?o with _ => _ end) => destruct o end ]).

Lemma neutral_send c p prio : neutral c (Connection_send p prio).
Proof. unfold Connection_send. neutral. Qed.
Lemma neutral_call_error c e msg : neutral c (call_error e msg).
Proof. unfold call_error. neutral. Qed.
Lemma neutral_call_state_change c : neutral c call_state_change.
Proof. unfold call_state_change. neutral. Qed.
#[export] Hint Resolve neutral_send neutral_call_error neutral_call_state_change : neutral.

Lemma neutral_sendSubscribe topic : neutral true (Impl_sendSubscribe topic).
Proof. unfold Impl_sendSubscribe, next_packet_id. neutral. Qed.
Lemma neutral_sendPublish topic message retain : neutral true (Impl_sendPublish topic message retain).
Proof. unfold Impl_sendPublish. neutral. Qed.
#[export] Hint Resolve neutral_sendSubscribe neutral_sendPublish : neutral.

Lemma neutral_resubscribe topics : neutral true (resubscribe topics).
Proof. induction topics; cbn [resubscribe]; neutral. Qed.
Lemma neutral_flush queue : neutral true (flush queue).
Proof. induction queue as [|[[t m] r] queue IH]; cbn [flush]; neutral. Qed.
Lemma neutral_disconnected c : neutral c (Impl_connectionStateChange false).
Proof. unfold Impl_connectionStateChange. neutral. Qed.
Lemma neutral_messageReceived c topic message : neutral c (Impl_messageReceived topic message).
Proof. unfold Impl_messageReceived. neutral. Qed.
Lemma neutral_sendPingRequest c : neutral c Connection_sendPingRequest.
Proof. unfold Connection_sendPingRequest. neutral. Qed.
Lemma neutral_malformed c : neutral c malformed.
Proof. unfold malformed. neutral. Qed.
#[export] Hint Resolve neutral_resubscribe neutral_flush neutral_disconnected
  neutral_messageReceived neutral_sendPingRequest neutral_malformed : neutral.

(** On the read thread [restored = false] ends in [std::terminate]. *)
Lemma wp_terminated Q w :
  m_connection (w_impl w) = true → wp defined (Impl_disconnect Reader) Q w.
Proof.
  intros Hc. apply wp_bind, wp_mod_impl, wp_bind, wp_mod_impl, wp_bind, wp_get_impl.
  cbn. rewrite Hc. apply wp_bind, wp_mod_impl, wp_bind, wp_mod_conn, wp_raise.
  auto with defined.
Qed.

(** ** Programs that keep [reading] *)

Definition safely {A} (S : CState.t → Prop) (P : view → Prop) (m : M A) : Prop :=
  ∀ w, reading S P w → wp defined m (λ _, reading S P) w.

Section safely.
Context (S : CState.t → Prop) (P : view → Prop) (HS : S CState.STOP).

Lemma safely_bind {A B} (m : M A) (k : A → M B) :
  safely S P m → (∀ a, safely S P (k a)) → safely S P (m ≫= k).
Proof.
  intros Hm Hk w Hw. apply wp_bind. eapply wp_mono; [by apply Hm|]. intros a w1. apply Hk.
Qed.

Lemma safely_neutral {A} (m : M A) : neutral false m → safely S P m.
Proof.
  intros Hm w Hw. eapply wp_mono; [by apply Hm|]. intros a w1 Hw1.
  exact (reading_untouched _ _ _ _ Hw1 Hw).
Qed.

Lemma safely_syscall {A} (f : reply → option A) : safely S P (syscall f).
Proof. intros w Hw. by eapply wp_read_syscall. Qed.

Lemma safely_when b m : safely S P m → safely S P (when b m).
Proof. intros Hm w Hw. by apply wp_when; intros; [apply Hm|]. Qed.

Lemma safely_raise {A} f : defined f → safely (A := A) S P (raise f).
Proof. intros Hf w _. by apply wp_raise. Qed.
End safely.

Create HintDb safely.
#[export] Hint Resolve safely_syscall safely_when defined_blocked : safely.
#[export] Hint Extern 1 (safely _ _ (raise Blocked)) => apply safely_raise, defined_blocked : safely.

Ltac safe := repeat (intros; first
  [ assumption | solve [auto with safely] | apply safely_bind
  | solve [apply safely_neutral; neutral] | apply safely_when
  | match goal with |- safely _ _ (match ?o with _ => _ end) => destruct o end ]).

(** *** Receiving *)

(** The states while it receives: it has seen the connection up. *)
Definition receiving (s : CState.t) : Prop :=
  s = CState.AUTHENTICATING ∨ s = CState.CONNECTED ∨ s = CState.STOP.

Lemma receiving_stop : receiving CState.STOP. Proof. unfold receiving. auto. Qed.
#[export] Hint Resolve receiving_stop : safely.

Section receiving.
Context (P : view → Prop) (HP : ∀ v, P v → selectable (v_socket v)).

Lemma safely_FD_SET :
  safely receiving P (fd ← get_conn m_socket; FD_SET fd).
Proof.
  intros w Hw. apply wp_bind, wp_get_conn. unfold FD_SET.
  assert (selectable (m_socket (w_conn w))) as Hk by (apply (HP (view_of w)), Hw).
  rewrite decide_True by done. by apply wp_ret.
Qed.

Lemma safely_recv_wait fuel : safely receiving P (recv_wait fuel).
Proof.
  induction fuel as [|fuel IH]; cbn [recv_wait]; [safe|]. intros w Hw.
  apply wp_assoc. eapply wp_mono; [by apply safely_FD_SET|]. intros [] w1 Hw1.
  revert w1 Hw1. unfold sys_select_read, sys_now.
  match goal with |- ∀ w1, _ → wp _ ?m _ _ => change (safely receiving P m) end. safe.
Qed.
#[local] Hint Resolve safely_recv_wait : safely.

Lemma safely_recv len : safely receiving P (Connection_recv len).
Proof. unfold Connection_recv, sys_recv. safe. Qed.
#[local] Hint Resolve safely_recv : safely.

Lemma safely_recv_byte : safely receiving P recv_byte.
Proof. unfold recv_byte. safe. Qed.
#[local] Hint Resolve safely_recv_byte : safely.

Lemma safely_recv_length n i acc buf : safely receiving P (recv_length n i acc buf).
Proof. revert i acc buf. induction n; intros; cbn [recv_length]; safe. Qed.

Lemma safely_recv_data fuel n data : safely receiving P (recv_data fuel n data).
Proof. revert n data. induction fuel; intros; cbn [recv_data]; safe. Qed.
#[local] Hint Resolve safely_recv_length safely_recv_data : safely.

Lemma safely_connected : safely receiving P (Impl_connectionStateChange true).
Proof.
  intros w Hw. unfold Impl_connectionStateChange, lock_state_mutex.
  apply wp_bind, wp_bind, wp_gets. destruct (w_joining w) eqn:Hj; [by apply wp_raise|].
  assert (m_connection (w_impl w) = true) as Hc.
  { destruct Hw as (_&Ha&_). destruct (m_connection (w_impl w)) eqn:Hc; [done|].
    by rewrite (Ha Hc) in Hj. }
  apply wp_ret, wp_bind, wp_log, wp_bind, wp_mod_impl, wp_bind, wp_call_state_change.
  apply wp_bind, wp_get_impl. set (w1 := _ <| w_trace ::= _ |>).
  assert (untouched w w1) as Hw1 by (by split_and!). clearbody w1.
  assert (m_connection (w_impl w1) = true) as Hc1 by (destruct Hw1 as (_&_&->&_); done).
  apply wp_bind. eapply wp_mono; [by apply neutral_resubscribe|]. intros restored w2 Hw2.
  assert (m_connection (w_impl w2) = true) as Hc2 by (destruct Hw2 as (_&_&->&_); done).
  assert (untouched w w2) as Hs by (by transitivity w1).
  destruct restored; cbn [negb].
  - eapply wp_mono.
    { apply (neutral_bind true (get_impl m_publish_queue) (λ queue, flush queue ;;
        mod_impl (λ i, i <| m_publish_queue := [] |>))); [neutral..|by intros _]. }
    intros u3 w3 Hw3. apply (reading_untouched _ _ w); [by transitivity w2|done].
  - apply wp_bind, wp_log, wp_bind. by apply wp_terminated.
Qed.

Lemma safely_dispatch p : safely receiving P (dispatch p).
Proof.
  assert (safely receiving P (mod_conn (λ c, c <| m_cstate := CState.CONNECTED |>))).
  { intros w (?&?&?&?). apply wp_mod_conn. split_and!; try done. right. by left. }
  pose proof safely_connected. unfold dispatch.
  destruct (m_packet_type p); try (by apply safely_neutral; neutral).
  destruct (read_uint8 p) as [[a|] p1]; [|by safe].
  destruct (read_uint8 p1) as [[b|] p2]; safe.
Qed.
#[local] Hint Resolve safely_dispatch : safely.

Lemma PacketType_of_Z_some z : (1 ≤ z ≤ 14)%Z → is_Some (PacketType_of_Z z).
Proof.
  intros Hz. assert (z ∈ seqZ 1 14) as Hin by (apply elem_of_seqZ; lia).
  repeat (apply elem_of_cons in Hin as [->|Hin]; [by eexists|]). by apply not_elem_of_nil in Hin.
Qed.

Lemma safely_recvLoop : safely receiving P Connection_recvLoop.
Proof.
  unfold Connection_recvLoop, from_option_ub, sys_now.
  apply safely_bind; [safe|]. intros [b|]; [|by safe]. case_decide as Ht; [by safe|].
  destruct (PacketType_of_Z_some (Z.shiftr b 4)) as [t ->]; [lia|]. safe.
Qed.
End receiving.

(** *** Connecting *)

(** No attempt is pending. *)
Definition idle (v : view) : Prop := pointers_ok v ∧ v_sockets v = [].

(** A program between two steps of a longer one. *)
Lemma wp_read_neutral {A} S P (m : M A) (Q : A → World → Prop) w :
  neutral false m → reading S P w → (∀ a w', reading S P w' → Q a w') →
  wp defined m Q w.
Proof.
  intros Hm Hw HQ. eapply wp_mono; [by apply (safely_neutral S P m)|].
  intros a w1. apply HQ.
Qed.

(** What is left while the attempts are being closed. *)
Definition addresses_allocated (v : view) : Prop :=
  ∀ a, a ∈ v_addresses v → allocated v a.

Lemma idle_addressed v : idle v → v_addressed v = ∅.
Proof.
  intros [[_ Hd _ _ _] Hs]. rewrite Hs in Hd. by apply dom_empty_iff_L.
Qed.

Lemma idle_intro v :
  v_sockets v = [] → v_addressed v = ∅ → addresses_allocated v → idle v.
Proof.
  intros Hs Hm Ha. split; [|done]. constructor; rewrite ?Hs, ?Hm; try done; [apply NoDup_nil_2|].
  by intros fd Hfd%not_elem_of_nil.
Qed.

Section connecting.
Context (S : CState.t → Prop) (HS : S CState.STOP).

(** An address to connect to, and then also a new socket. *)
Definition to_connect (a : addrinfo) (v : view) : Prop := pointers_ok v ∧ allocated v a.
Definition with_socket (fd : Z) (a : addrinfo) (v : view) : Prop :=
  to_connect a v ∧ fd ∈ v_fds v ∧ selectable fd ∧ fd ∉ v_sockets v.

Lemma wp_read_socket a w :
  reading S (to_connect a) w →
  wp defined sys_socket (λ fd w', fd = INVALID_SOCKET ∧ reading S (to_connect a) w' ∨
    fd ≠ INVALID_SOCKET ∧ reading S (with_socket fd a) w') w.
Proof.
  intros Hw. apply wp_bind. eapply wp_read_syscall; [done..|].
  intros r fd w1 Hr Hf (Hos&Hal&Hst&[Hn Hd Hs Ha Hm]&Halloc).
  destruct r; simplify_eq. simpl in Hr. apply wp_bind, wp_gets.
  case_decide as Hi; [apply wp_ret; left; by split_and!|].
  case_decide as Hfd; [|by apply wp_raise]. apply wp_bind, wp_modify, wp_ret. right.
  split; [done|]. split; [done|]. split; [done|]. split; [done|].
  split; [split; [|exact Halloc]|]; simpl in *.
  - constructor; simpl; try done. intros x Hx. destruct (Hs x Hx). split; [by apply elem_of_union_r|done].
  - split; [by apply elem_of_union_l, elem_of_singleton|]. split; [unfold selectable; lia|].
    intros Hk. destruct (Hs fd Hk). by apply Hfd.
Qed.

Lemma pointers_ok_attempt v fd a :
  pointers_ok v → fd ∈ v_fds v → selectable fd → fd ∉ v_sockets v → allocated v a →
  pointers_ok (mkView (v_fds v) (v_sockets v ++ [fd]) (v_socket v)
    (<[fd := a]> (v_addressed v)) (v_addresses v) (v_resolved v)).
Proof.
  intros [Hn Hd Hs Ha Hm] Hfd Hsel Hnew Hal. constructor; simpl.
  - apply NoDup_app. split; [done|]. split; [|apply NoDup_singleton].
    intros x Hx ->%list_elem_of_singleton. done.
  - rewrite dom_insert_L, Hd, list_to_set_app_L. simpl. clear. set_solver.
  - intros x [?|Hx]%elem_of_app; [auto|]. by apply list_elem_of_singleton in Hx as ->.
  - done.
  - intros x b. rewrite lookup_insert_Some. intros [[<- <-]|[_ ?]]; [done|by eapply Hm].
Qed.

Lemma pointers_ok_close v fd :
  pointers_ok v → fd ∉ v_sockets v →
  pointers_ok (mkView (v_fds v ∖ {[fd]}) (v_sockets v) (v_socket v) (v_addressed v)
    (v_addresses v) (v_resolved v)).
Proof.
  intros [Hn Hd Hs Ha Hm] Hfd. constructor; simpl; try done.
  intros x Hx. destruct (Hs x Hx) as [Hin ?]. split; [|done].
  apply elem_of_difference. split; [done|]. by intros ->%elem_of_singleton.
Qed.

Lemma wp_read_connect a w :
  reading S (to_connect a) w →
  wp defined (Connection_connect a) (λ _, reading S pointers_ok) w.
Proof.
  assert (∀ v, to_connect a v → pointers_ok v) as Hweak by (by intros v []).
  intros Hw. apply wp_bind. eapply wp_mono; [by apply wp_read_socket|].
  intros fd w1 [[-> Hw1]|[Hne Hw1]].
  { rewrite decide_True by done. eapply wp_read_neutral; [neutral|exact Hw1|].
    intros u w2 Hw2. eapply reading_weaken; [exact Hw2|done|exact Hweak]. }
  rewrite decide_False by done. clear Hw.
  apply wp_bind, (wp_read_syscall S (with_socket fd a)); [done..|]. intros _ r1 w2 _ _ Hw2.
  apply wp_bind. eapply wp_read_neutral; [neutral|exact Hw2|]. intros u3 w3 Hw3.
  apply wp_bind, (wp_read_syscall S (with_socket fd a)); [done..|]. intros _ r2 w4 _ _ Hw4.
  apply wp_bind. eapply wp_read_neutral; [neutral|exact Hw4|]. intros u5 w5 Hw5.
  apply wp_bind, (wp_read_syscall S (with_socket fd a)); [done..|].
  intros _ [err errno] w6 _ _ (Hos&Hal&Hst&[[Hv Ha] (Hfd&Hsel&Hnew)]). case_decide.
  - apply wp_bind, wp_closesocket, wp_log. split_and!; try done.
    by apply (pointers_ok_close (view_of w6)).
  - apply wp_bind, wp_mod_conn, wp_mod_conn. split_and!; try done.
    by apply (pointers_ok_attempt (view_of w6)).
Qed.

Lemma wp_read_next P w :
  reading S (λ v, pointers_ok v ∧ P v) w →
  wp defined Connection_tryNextAddress (λ b w',
    reading S (λ v, pointers_ok v ∧ (b = false → P v)) w') w.
Proof.
  intros Hw. apply wp_bind, wp_get_conn, wp_bind, wp_get_conn.
  case_decide as Hlen.
  { apply wp_ret. eapply reading_weaken; [exact Hw|done|]. by intros v []. }
  set (addresses := m_addresses (w_conn w)) in *.
  assert (reading S (λ v, pointers_ok v ∧ v_addresses v = addresses) w) as Hw'.
  { destruct Hw as (?&?&?&?&?). by split_and!. }
  apply wp_bind. eapply wp_read_syscall; [done..|]. intros _ now w1 _ _ Hw1.
  apply wp_bind, wp_mod_conn, wp_bind, wp_from_option_ub.
  - intros a Ha. apply wp_bind, wp_mod_conn, wp_bind. eapply wp_mono.
    + apply (wp_read_connect a). destruct Hw1 as (?&?&?&Hv&Hl). split_and!; try done.
      split; [exact Hv|]. apply (ok_addresses _ Hv). rewrite Hl. by eapply list_elem_of_lookup_2.
    + intros u w2 Hw2. apply wp_ret. eapply reading_weaken; [exact Hw2|done|]. done.
  - intros Hnone%lookup_ge_None. lia.
Qed.

Lemma read_check_sockets todo kept ready connected w :
  reading S (λ v, pointers_ok v ∧ v_sockets v = kept ++ todo) w →
  (connected ≠ INVALID_SOCKET → connected ∈ kept) →
  wp defined (check_sockets todo kept ready connected) (λ s,
    reading S (λ v, pointers_ok v ∧ (s ≠ INVALID_SOCKET → s ∈ v_sockets v))) w.
Proof.
  revert kept connected w. induction todo as [|sock todo IH];
    intros kept connected w Hw Hc; cbn [check_sockets].
  { apply wp_ret. eapply reading_weaken; [exact Hw|done|]. intros v [Hv ->].
    by rewrite app_nil_r. }
  apply wp_bind. eapply wp_read_syscall; [done..|]. intros _ err w1 _ _ Hw1. case_decide.
  - destruct Hw1 as (Hos&Hal&Hst&Hv&Hl). destruct Hv as [Hn Hd Hs Ha Hm]. rewrite Hl in Hn, Hd, Hs. cbn in Hd, Hs, Hm.
    assert (is_Some (m_socket_to_address (w_conn w1) !! sock)) as [a Hsome].
    { apply elem_of_dom. rewrite Hd. apply elem_of_list_to_set, elem_of_app. right. left. }
    apply NoDup_app in Hn as (Hn1&Hn2&[Hn3 Hn4]%NoDup_cons).
    assert (sock ∉ kept ++ todo) as Hnew.
    { rewrite elem_of_app. intros [Hk|?]; [|done]. by apply (Hn2 _ Hk); left. }
    apply wp_bind, wp_get_conn, wp_bind, wp_get_impl. rewrite Hsome, andb_false_r.
    apply wp_bind, wp_ret, wp_bind, wp_log, wp_bind, wp_closesocket.
    apply wp_bind, wp_mod_conn, wp_bind, wp_mod_conn. apply IH; [|done].
    split_and!; try done. constructor; cbn.
    + apply NoDup_app. split_and!; [done| |done]. intros x Hx Hx'. apply (Hn2 _ Hx). by right.
    + rewrite dom_delete_L, Hd. clear -Hnew. set_solver.
    + intros x Hx. destruct (Hs x) as [Hin ?]; [clear -Hx; set_solver|]. split; [|done].
      apply elem_of_difference. split; [done|]. by intros ->%elem_of_singleton.
    + done.
    + intros x b [_ Hx]%lookup_delete_Some. by eapply Hm.
  - apply IH; [by rewrite <-app_assoc|]. intros Hne. apply elem_of_app.
    case_decide; [right; by left|left; by apply Hc].
Qed.

(** Closing attempts, and forgetting all of them. *)
Lemma read_close_all (f : Z → M unit) l w :
  (∀ fd, f fd = closesocket fd ∨ f fd = mret ()) →
  reading S pointers_ok w →
  wp defined (for_each f l ;; clear_sockets) (λ _, reading S idle) w.
Proof.
  intros Hf (Hos&Hal&Hst&Hv). apply wp_bind. eapply wp_mono.
  { apply (wp_for_each _ _ (λ _, reading S addresses_allocated)).
    - intros fd _ w1 (?&?&?&?). destruct (Hf fd) as [->| ->].
      + apply wp_closesocket. by split_and!.
      + apply wp_ret. by split_and!.
    - split_and!; try done. exact (ok_addresses _ Hv). }
  intros u w1 (?&?&?&Hv1). apply wp_bind, wp_mod_conn, wp_mod_conn.
  split_and!; try done. by apply idle_intro.
Qed.
End connecting.

(** ** One iteration

    The read thread is in one of three phases; a request to stop does not
    change what holds. *)

Definition down_state (s : CState.t) : Prop :=
  s = CState.RESOLVING ∨ s = CState.BACKOFF ∨ s = CState.SOCKET_ERROR ∨ s = CState.STOP.
Definition trying (s : CState.t) : Prop := s = CState.CONNECTING ∨ s = CState.STOP.
Definition has_socket (v : view) : Prop := idle v ∧ selectable (v_socket v).

Inductive steady (w : World) : Prop :=
  | steady_down : reading down_state idle w → steady w
  | steady_trying : reading trying pointers_ok w → steady w
  | steady_up : reading receiving has_socket w → steady w.

Lemma down_stop : down_state CState.STOP. Proof. unfold down_state. auto. Qed.
Lemma trying_stop : trying CState.STOP. Proof. unfold trying. auto. Qed.
#[export] Hint Resolve down_stop trying_stop : safely.

Lemma read_set_cstate S S' P s w :
  reading S P w → S' s → wp defined (set_cstate s) (λ _, reading S' P) w.
Proof. intros (?&?&_&?) Hs. apply wp_mod_conn. by split_and!. Qed.

(** A result of [false] leads to the back-off. *)
Lemma read_backoff_if S ok w :
  reading S idle w ∨ ok = true ∧ steady w → (ok = true → steady w) →
  wp defined (when (negb ok) (set_cstate CState.BACKOFF) ;; mret true)
    (λ _, steady) w.
Proof.
  intros Hw Hok. apply wp_bind, wp_when; intros Hb.
  - destruct Hw as [Hw|[-> _]]; [|done].
    eapply wp_mono; [eapply (read_set_cstate S down_state); [done|]|].
    { right. by left. }
    intros u w1 Hw1. apply wp_ret. by apply steady_down.
  - apply wp_ret, Hok. by destruct ok.
Qed.

Lemma interweave_elem a l1 l2 : a ∈ interweave l1 l2 → a ∈ l1 ∨ a ∈ l2.
Proof.
  revert l2. induction l1 as [|b l1 IH]; intros [|c l2]; simpl; auto.
  - rewrite elem_of_cons. intros [->|Ha]; [left; by left|].
    destruct (IH [] Ha); [left; by right|auto].
  - rewrite !elem_of_cons. intros [->|[->|Ha]]; auto. destruct (IH l2 Ha); auto.
Qed.

Definition resolving (s : CState.t) : Prop := s = CState.RESOLVING ∨ s = CState.STOP.

Lemma read_resolve w :
  reading resolving idle w →
  wp defined Connection_resolve (λ b w',
    (∃ S, reading S idle w') ∧ (b = true → steady w')) w.
Proof.
  intros (Hos&Hal&Hst&Hv). pose proof (idle_addressed _ Hv) as Hm. destruct Hv as [Hv Hs].
  cbn in Hm, Hs. apply wp_bind, wp_mod_conn, wp_bind, wp_mod_conn, wp_bind.
  apply (wp_read_syscall resolving (λ v,
    v_addressed v = ∅ ∧ v_sockets v = [] ∧ v_addresses v = [])); [by right|by split_and!|].
  intros _ [error|resolved] w1 _ _ (?&?&Hst1&Hm1&Hs1&Hl1).
  - apply wp_bind, wp_call_error, wp_ret. split; [|done]. exists resolving.
    split_and!; try done. apply idle_intro; [done..|]. unfold addresses_allocated.
    cbn in *. rewrite Hl1. by intros a Ha%not_elem_of_nil.
  - apply wp_bind, wp_mod_conn, wp_bind, wp_mod_conn. set (w2 := _ <| w_conn ::= _ |>).
    assert (reading resolving idle w2) as Hw2.
    { split_and!; try done. apply idle_intro; [done..|]. intros a Ha. exists resolved.
      split; [done|]. apply interweave_elem in Ha.
      destruct Ha as [Ha|Ha]; by apply list_elem_of_filter in Ha as [_ ?]. }
    clearbody w2. case_decide.
    { apply wp_bind, wp_call_error, wp_ret. split; [by exists resolving|done]. }
    apply wp_bind, wp_get_conn, wp_bind, wp_when; intros Hb.
    + eapply wp_mono; [apply (read_set_cstate resolving trying); [done|by left]|].
      intros u w3 Hw3. apply wp_ret. split; [by exists trying|]. intros _.
      apply steady_trying. eapply reading_weaken; [exact Hw3|done|by intros v []].
    + apply wp_ret. split; [by exists resolving|]. intros _. apply steady_down.
      eapply reading_weaken; [exact Hw2| |done]. unfold down_state. intros s [->| ->]; auto.
Qed.

(** [connectToAny] fails only without a pending attempt. *)
Definition tried (b : bool) (w : World) : Prop :=
  reading trying idle w ∨ b = true ∧ steady w.

Lemma tried_again w : reading trying pointers_ok w → tried true w.
Proof. intros Hw. right. split; [done|]. by apply steady_trying. Qed.

Lemma tried_steady b w : tried b w → steady w.
Proof.
  intros [Hw|[_ Hw]]; [|done]. apply steady_trying.
  eapply reading_weaken; [exact Hw|done|by intros v []].
Qed.

Lemma read_next_tried w :
  reading trying idle w → wp defined Connection_tryNextAddress tried w.
Proof.
  intros Hw. eapply wp_mono.
  { by apply (wp_read_next trying trying_stop (λ v, v_sockets v = [])). }
  intros [] w1 Hw1.
  - apply tried_again. eapply reading_weaken; [exact Hw1|done|by intros v []].
  - left. eapply reading_weaken; [exact Hw1|done|]. intros v []. split; auto.
Qed.

(** What follows once the socket is chosen. *)
Lemma read_connected_socket w :
  reading trying has_socket w →
  wp defined
    (now ← sys_now;
     mod_conn (λ c, c <| m_last_sent_packet := now |>) ;;
     now ← sys_now;
     mod_conn (λ c, c <| m_last_received_packet := now |>) ;;
     state ← get_conn m_cstate;
     let reset_backoff : M bool :=
       backoff ← get_impl m_connection_backoff;
       mod_conn (λ c, c <| m_backoff := backoff |>) ;;
       mret true in
     if decide (state ≠ CState.STOP) then
       set_cstate CState.AUTHENTICATING ;;
       sent ← Connection_sendConnect;
       if negb sent then
         log ERROR [PStr "Could not send first packet to broker. Disconnecting."] ;;
         fd ← get_conn m_socket;
         closesocket fd ;;
         mod_conn (λ c, c <| m_socket := INVALID_SOCKET |>) ;;
         mret false
       else reset_backoff
     else reset_backoff) tried w.
Proof.
  intros Hw. apply wp_bind. eapply wp_read_syscall; [apply trying_stop|exact Hw|].
  intros _ t w1 _ _ Hw1. apply wp_bind, wp_mod_conn, wp_bind.
  eapply (wp_read_syscall trying has_socket); [apply trying_stop|exact Hw1|].
  intros _ t' w2 _ _ Hw2. apply wp_bind, wp_mod_conn, wp_bind, wp_get_conn.
  cbv zeta. case_decide as Hst.
  - apply wp_bind. eapply wp_mono; [apply (read_set_cstate trying receiving)|].
    { exact Hw2. }
    { by left. }
    intros u w3 Hw3. apply wp_bind, wp_bind, wp_get_impl.
    unfold wp at 1. rewrite Connection_send_priority. cbn [negb].
    apply wp_bind, wp_get_impl, wp_bind, wp_mod_conn, wp_ret. right. split; [done|].
    by apply steady_up.
  - apply wp_bind, wp_get_impl, wp_bind, wp_mod_conn, wp_ret. left.
    eapply (reading_weaken trying trying has_socket); [exact Hw2|done|by intros v []].
Qed.

Lemma wp_FD_SETs l (Q : unit → World → Prop) w :
  (∀ fd, fd ∈ l → selectable fd) → Q () w → wp defined (for_each FD_SET l) Q w.
Proof.
  revert w. induction l as [|fd l IH]; intros w Hl HQ; [done|]. cbn [for_each].
  apply wp_bind. unfold FD_SET. rewrite decide_True by (apply Hl; left). apply wp_ret.
  apply IH; [|done]. intros x Hx. apply Hl. by right.
Qed.

Lemma read_connectToAny w :
  reading trying pointers_ok w → wp defined Connection_connectToAny tried w.
Proof.
  intros Hw. apply wp_bind, wp_get_conn. case_decide as Hempty.
  { apply read_next_tried. destruct Hw as (?&?&?&?). by split_and!. }
  apply wp_bind, wp_FD_SETs.
  { intros fd Hfd. destruct Hw as (_&_&_&Hv). by apply (ok_sockets _ Hv). }
  apply wp_bind. eapply wp_read_syscall; [apply trying_stop|exact Hw|].
  intros _ [[result errno] ready] w2 _ _ Hw2. apply wp_bind, wp_get_conn.
  case_decide; [by apply wp_ret, tried_again|].
  case_decide; [by apply wp_bind, wp_log, wp_ret, tried_again|]. case_decide.
  - apply wp_bind. eapply wp_read_syscall; [apply trying_stop|exact Hw2|].
    intros _ now w3 _ _ Hw3. apply wp_bind, wp_get_conn.
    case_decide; [by apply wp_ret, tried_again|].
    apply wp_bind. eapply wp_mono.
    { apply (wp_read_next trying trying_stop (λ _, True)).
      eapply reading_weaken; [exact Hw3|done|done]. }
    intros next w4 Hw4. assert (reading trying pointers_ok w4) as Hw4'.
    { eapply reading_weaken; [exact Hw4|done|by intros v []]. }
    destruct next; [by apply wp_ret, tried_again|].
    apply wp_bind. eapply wp_read_syscall; [apply trying_stop|exact Hw4'|].
    intros _ now' w5 _ _ Hw5. apply wp_bind, wp_get_conn, wp_bind, wp_get_impl.
    case_decide; [by apply wp_ret, tried_again|].
    apply wp_bind, wp_log, wp_bind, wp_get_conn, wp_assoc.
    eapply wp_mono; [by apply (read_close_all trying); [intros; left|]|].
    intros u6 w6 Hw6. apply wp_ret. by left.
  - apply wp_bind, wp_get_conn, wp_bind. eapply wp_mono.
    { apply (read_check_sockets trying trying_stop _ [] _ INVALID_SOCKET); [|done].
      destruct Hw2 as (?&?&?&?). by split_and!. }
    intros s w3 Hw3. assert (reading trying pointers_ok w3) as Hw3'.
    { eapply reading_weaken; [exact Hw3|done|by intros v []]. }
    case_decide as Hne; [by apply wp_ret, tried_again|].
    assert (selectable s) as Hsel.
    { destruct Hw3 as (_&_&_&Hv&Hin). by apply (ok_sockets _ Hv), Hin. }
    apply wp_bind, wp_get_conn, wp_assoc. eapply wp_mono.
    { apply (read_close_all trying); [|exact Hw3']. intros fd. unfold when. case_match; auto. }
    intros u4 w4 Hw4. apply wp_bind. eapply wp_read_syscall; [apply trying_stop|exact Hw4|].
    intros _ r w5 _ _ Hw5. apply wp_bind. eapply wp_read_neutral; [neutral|exact Hw5|].
    intros u6 w6 (?&?&?&[[] ?]). apply wp_bind, wp_mod_conn, read_connected_socket.
    do 3 (split; [done|]). split; [|exact Hsel]. by split; [constructor|].
Qed.

Lemma steady_at (S : CState.t → Prop) w :
  steady w → S (m_cstate (w_conn w)) →
  (∀ s, S s → ¬ trying s) → (∀ s, S s → ¬ receiving s) → reading S idle w.
Proof.
  intros [Hw|(_&_&Hs&_)|(_&_&Hs&_)] HS Ht Hr; [|by destruct (Ht _ HS)|by destruct (Hr _ HS)].
  destruct Hw as (?&?&_&?). by split_and!.
Qed.

Lemma steady_trying_at w :
  steady w → m_cstate (w_conn w) = CState.CONNECTING → reading trying pointers_ok w.
Proof.
  intros [(_&_&Hs&_)|Hw|(_&_&Hs&_)] Hst; [|done|]; rewrite Hst in Hs;
    unfold down_state, receiving in Hs; naive_solver.
Qed.

Lemma steady_up_at w :
  steady w →
  m_cstate (w_conn w) = CState.AUTHENTICATING ∨ m_cstate (w_conn w) = CState.CONNECTED →
  reading receiving has_socket w.
Proof.
  intros [(_&_&Hs&_)|(_&_&Hs&_)|Hw] Hst; [..|done];
    unfold down_state, trying in Hs; destruct Hst as [Hst|Hst]; rewrite Hst in Hs; naive_solver.
Qed.

Lemma steady_down_at s w :
  steady w → m_cstate (w_conn w) = s →
  s = CState.RESOLVING ∨ s = CState.BACKOFF ∨ s = CState.SOCKET_ERROR →
  reading (λ s', s' = s ∨ s' = CState.STOP) idle w.
Proof.
  intros Hw Hst Hs. eapply reading_weaken; [apply (steady_at (eq s)); [done|by rewrite Hst|..]| |done].
  - intros s' <- Ht. clear Hst. unfold trying in Ht. naive_solver.
  - intros s' <- Hr. clear Hst. unfold receiving in Hr. naive_solver.
  - intros s' <-. by left.
Qed.

Lemma read_socketError w :
  reading receiving has_socket w → wp defined Connection_socketError (λ _, steady) w.
Proof.
  intros (?&?&?&[[Hv Hl] _]). pose proof (idle_addressed _ (conj Hv Hl)) as Hm.
  assert (∀ fds tr, steady (w <| w_fds := fds |> <| w_trace := tr |>
    <| w_conn ::= λ c, c <| m_cstate := CState.SOCKET_ERROR |> <| m_socket := INVALID_SOCKET |> |>))
    as Hsteady.
  { intros fds tr. apply steady_down. split_and!; try done; [right; right; by left|].
    apply idle_intro; [done..|exact (ok_addresses _ Hv)]. }
  apply wp_bind, wp_mod_conn, wp_bind, wp_get_conn, wp_when; intros Hk.
  - apply wp_bind, wp_closesocket, wp_mod_conn. apply Hsteady.
  - apply bool_decide_eq_false, dec_stable in Hk. cbn in Hk.
    apply steady_down. split_and!; try done. right; right; by left.
Qed.

Lemma read_receive w :
  reading receiving has_socket w →
  wp defined
    (ok ← Connection_recvLoop;
     when (negb ok)
       (state ← get_conn m_cstate;
        when (bool_decide (state ≠ CState.STOP)) Connection_socketError) ;;
     mret true) (λ _, steady) w.
Proof.
  intros Hw. apply wp_bind. eapply wp_mono.
  { apply (safely_recvLoop has_socket); [by intros v []|exact Hw]. }
  intros ok w1 Hw1. apply wp_bind, wp_when; intros _; [|by apply wp_ret, steady_up].
  apply wp_bind, wp_get_conn, wp_when; intros _; [|by apply wp_ret, steady_up].
  eapply wp_mono; [by apply read_socketError|]. intros u w2 Hw2. by apply wp_ret.
Qed.

Lemma runRead_step_steady w :
  steady w → wp defined runRead_step (λ continue w', continue = true → steady w') w.
Proof.
  intros Hw. apply wp_bind, wp_get_conn. destruct (m_cstate (w_conn w)) eqn:Hst.
  - apply wp_bind. eapply wp_mono.
    { apply read_resolve. eapply steady_down_at; [done..|by left]. }
    intros ok w1 [[S Hidle] Hok].
    eapply wp_mono; [by eapply (read_backoff_if S); [left|]|]. done.
  - apply wp_bind. eapply wp_mono; [by apply read_connectToAny, steady_trying_at|].
    intros ok w1 Hw1. eapply wp_mono; [apply (read_backoff_if trying); [exact Hw1|]|done].
    intros _. by eapply tried_steady.
  - eapply wp_mono; [apply read_receive, steady_up_at; auto|]. done.
  - eapply wp_mono; [apply read_receive, steady_up_at; auto|]. done.
  - set (S := λ s, s = CState.BACKOFF ∨ s = CState.STOP).
    assert (S CState.STOP) as HS by (by right).
    assert (reading S idle w) as Hw1 by (eapply steady_down_at; auto).
    assert (∀ w, reading S idle w → steady w) as Hsteady.
    { intros w' Hw'. apply steady_down. eapply reading_weaken; [exact Hw'| |done].
      unfold down_state. intros s [->| ->]; auto. }
    apply wp_bind, wp_bind, wp_get_conn, wp_bind, wp_log, wp_bind.
    eapply wp_read_syscall; [exact HS|exact Hw1|]. intros _ [] w2 _ _ Hw2.
    apply wp_bind, wp_get_conn. case_decide; [by apply wp_ret, wp_ret; intros _; apply Hsteady|].
    apply wp_bind, wp_mod_conn, wp_bind, wp_get_conn, wp_bind, wp_get_impl, wp_bind.
    eapply wp_read_neutral; [neutral|exact Hw2|]. intros u3 w3 Hw3.
    eapply wp_mono; [apply (read_set_cstate S down_state); [exact Hw3|by left]|].
    intros u4 w4 Hw4. apply wp_ret. intros _. by apply steady_down.
  - apply wp_bind. eapply wp_mono.
    { eapply (read_set_cstate _ down_state); [|by right; left].
      eapply steady_down_at; [exact Hw|exact Hst|auto]. }
    intros u w1 Hw1. apply (wp_read_neutral down_state idle (Impl_connectionStateChange false ;;
      mod_conn (λ c, c <| m_send_queue := [] |>) ;; mret true)); [neutral|done|].
    intros b w2 Hw2 _. by apply steady_down.
  - apply wp_bind. unfold runRead_stop. apply wp_bind, wp_get_conn, wp_when; intros _.
    + by apply wp_bind, wp_closesocket, wp_mod_conn, wp_ret.
    + by apply wp_ret.
Qed.

Lemma runRead_steady fuel w :
  steady w → wp defined (runRead fuel) (λ ended w', ended = false → steady w') w.
Proof.
  revert w. induction fuel as [|fuel IH]; intros w Hw; cbn [runRead]; [by apply wp_ret|].
  apply wp_bind. eapply wp_mono; [by apply runRead_step_steady|]. intros [] w1 Hw1.
  - by apply IH, Hw1.
  - by apply wp_ret.
Qed.

(** ** Property *)

Definition points_into (resolved : option (list addrinfo)) (a : addrinfo) : Prop :=
  ∃ l, resolved = Some l ∧ a ∈ l.

(** A connection that resolves a name, and whose first socket is [fd]. *)
Definition connecting_script (fd : Z) : list reply :=
  [RGetaddrinfo (inr [mkAddrinfo AF_INET 1 6 "192.0.2.1"]);
   RNow 0; RSocket fd; RSetsockopt 0; RIoctl 0; RConnect (-1) EINPROGRESS]%Z.
Definition connected_script (fd : Z) : list reply :=
  [RSelectWrite 1 0 [fd]; RSoError 0; RIoctl 0; RNow 0; RNow 0]%Z.
Definition scripted_world (os : list reply) : World :=
  test_world <| w_impl ::= λ i, i <| m_connection := true |> <| m_state := CONNECTING |> |>
    <| w_os := os |>.

(** The first descriptor too large for a [fd_set], or a send that fails between
    two calls of [select]. *)
Definition unsafe_script (r : reply) : list reply :=
  match r with
  | RSocket fd => connecting_script fd
  | _ => connecting_script 4 ++ connected_script 4 ++ [RSelectRead 0; r; RNow 1]%Z
  end.

(** C6: from a new connection, through any number of iterations of the read
    thread, whatever the network answers and the users do, there is no undefined
    behaviour, if every descriptor is less than FD_SETSIZE and no send fails:
    the addresses to try and those of the pending attempts are nodes of the list
    that [getaddrinfo] returned last, which is not freed, every pending attempt
    has one, and while the connection is up [select] gets a socket.  Both
    conditions are needed (flaws): without either there is a run that ends in
    undefined behaviour, in [FD_SET]. *)
Theorem runRead_is_safe :
  (∀ fuel b w,
    w_conn w = Connection_new b → m_connection (w_impl w) = true →
    Forall reply_ok (w_os w) →
    wp (λ f, f ≠ UndefinedBehaviour ∧ f ≠ Unsupported) (runRead fuel) (λ ended w',
      let c := w_conn w' in
      ended = false →
      (∀ a, a ∈ m_addresses c → points_into (m_host_resolved c) a) ∧
      (∀ fd, fd ∈ m_sockets c → (0 ≤ fd < FD_SETSIZE)%Z ∧
        ∃ a, m_socket_to_address c !! fd = Some a ∧ points_into (m_host_resolved c) a) ∧
      (m_cstate c = CState.AUTHENTICATING ∨ m_cstate c = CState.CONNECTED →
        (0 ≤ m_socket c < FD_SETSIZE)%Z)) w)
  ∧ (∀ r, r = RSocket FD_SETSIZE ∨ r = ROther ASocketError →
      Forall (λ r', r' = r ∨ reply_ok r') (unsafe_script r) ∧
      runRead 4 (scripted_world (unsafe_script r)) = Fault UndefinedBehaviour).
Proof.
  split.
  - intros fuel b w Hc Hcon Hos. eapply wp_mono; [apply runRead_steady|].
    + apply steady_down. split; [done|]. split; [unfold alive; congruence|]. rewrite Hc.
      split; [by left|]. apply idle_intro; unfold view_of, addresses_allocated; cbn;
        rewrite Hc; [done..|]. by intros a Ha%not_elem_of_nil.
    + intros ended w' Hsteady c Hended. specialize (Hsteady Hended).
      assert (pointers_ok (view_of w')) as [_ Hd Hs Ha Hm].
      { by destruct Hsteady as [(_&_&_&[])|(_&_&_&?)|(_&_&_&[[] _])]. }
      split_and!; [exact Ha| |].
      * intros fd Hfd. split; [by apply Hs|]. cbn in Hd, Hm.
        assert (fd ∈ dom (m_socket_to_address c)) as [a Hfa]%elem_of_dom.
        { unfold c. rewrite Hd. by apply elem_of_list_to_set. }
        exists a. split; [done|]. by apply (Hm fd).
      * intros Hup. by apply steady_up_at in Hsteady as (_&_&_&_&?).
  - intros r [-> | ->]; (split; [|by vm_compute]);
      repeat (apply Forall_cons; split; [first [left; reflexivity|right; by vm_compute]|]);
      apply Forall_nil_2.
Qed.

(** It reaches the state in which it waits for the broker. *)
Lemma runRead_is_safe_witness :
  ∃ w', runRead 3 (scripted_world (connecting_script 4 ++ connected_script 4)) = Done false w'
    ∧ m_cstate (w_conn w') = CState.AUTHENTICATING ∧ (0 ≤ m_socket (w_conn w') < FD_SETSIZE)%Z.
Proof.
  pose proof (proj1 runRead_is_safe 3 0%Z
    (scripted_world (connecting_script 4 ++ connected_script 4)) eq_refl eq_refl) as Hwp.
  assert (Forall reply_ok (connecting_script 4 ++ connected_script 4)) as Hos.
  { by repeat (apply Forall_cons; split; [by vm_compute|]). }
  assert (∃ w', runRead 3 (scripted_world (connecting_script 4 ++ connected_script 4)) =
    Done false w' ∧ m_cstate (w_conn w') = CState.AUTHENTICATING) as (w' & Hrun & Hst).
  { eexists. split; vm_compute; reflexivity. }
  destruct (wp_run _ _ _ _ _ _ (Hwp Hos) Hrun eq_refl) as (_ & _ & Hup).
  exists w'. split; [exact Hrun|]. split; [exact Hst|]. apply Hup. by left.
Defined.
