(* ===== verification/Typed.v ===== *)
(** * Machine types

    The model keeps bytes and counters as integers.  Here is the invariant that
    they are what their C++ types say, for everything that is put on the send
    queue and everything that is sent, through any interleaving of calls and
    iterations of the threads. *)

From S2P Require Export Transitions Writer.

(** A packet on the send queue: a buffer of bytes with the header, and an offset
    into it, so that [size() - m_write_offset] does not wrap. *)
Definition packet_typed (p : Packet) : Prop :=
  Forall is_byte (m_buffer p) ∧ 5 ≤ length (m_buffer p) ∧
  m_write_offset p ≤ length (m_buffer p).

Definition event_typed (e : event) : Prop :=
  match e with EvSend _ data => Forall is_byte data | _ => True end.

(** What other threads push is typed. *)
Definition reply_typed (r : reply) : Prop :=
  match r with ROther (APush p) => packet_typed p | _ => True end.

Record typed (w : World) : Prop := {
  typed_queue : Forall packet_typed (m_send_queue (w_conn w));
  typed_trace : Forall event_typed (w_trace w);
  typed_os : Forall reply_typed (w_os w);
  typed_id : (0 ≤ m_packet_id (w_impl w) < 65536)%Z
}.

(** ** The packets *)

Lemma land_byte n : is_byte (Z.land n 0xFF).
Proof.
  unfold is_byte. change 0xFF%Z with (Z.ones 8). rewrite Z.land_ones by lia.
  apply Z.mod_pos_bound. lia.
Qed.

Lemma length_byte n m : is_byte (if decide (0 < m)%Z then Z.lor (Z.land n 0x7F) 0x80 else Z.land n 0x7F).
Proof.
  assert (0 ≤ n `mod` 128 < 128)%Z as Hn by (apply Z.mod_pos_bound; lia).
  rewrite byte_low. unfold is_byte. case_decide; [|lia].
  pose proof (byte_high (n `mod` 128) ltac:(lia)) as Hh. rewrite Zmod_mod in Hh. lia.
Qed.

Lemma insert_bytes i b l : is_byte b → Forall is_byte l → Forall is_byte (<[i:=b]> l).
Proof. intros. by apply Forall_insert. Qed.

Lemma write_remaining_length_typed fuel n off buf :
  Forall is_byte buf →
  Forall is_byte (write_remaining_length fuel n off buf) ∧
  length (write_remaining_length fuel n off buf) = length buf.
Proof.
  revert n off buf. induction fuel as [|fuel IH]; intros n off buf Hb; [done|].
  cbn [write_remaining_length].
  assert (Forall is_byte (<[off:=if decide (0 < Z.shiftr n 7)%Z then Z.lor (Z.land n 127) 128
    else Z.land n 127]> buf)) as Hb' by (apply insert_bytes; [apply length_byte|done]).
  case_decide; [|by rewrite length_insert].
  destruct (IH (Z.shiftr n 7) (S off) _ Hb') as [? ->]. by rewrite length_insert.
Qed.

Lemma set_header_typed p :
  Forall is_byte (m_buffer p) → 5 ≤ length (m_buffer p) → packet_typed (set_header p).
Proof.
  intros Hb Hl. unfold set_header, packet_typed.
  set (off := header_offset _). assert (off ≤ 3) as Hoff.
  { unfold off, header_offset. repeat case_decide; lia. }
  cbn -[write_remaining_length].
  match goal with |- Forall _ (write_remaining_length ?f ?n ?o ?b) ∧ _ =>
    destruct (write_remaining_length_typed f n o b) as [? ->] end.
  - apply insert_bytes; [apply uint8_byte|done].
  - rewrite length_insert. split; [done|]. lia.
Qed.

(** The writers append bytes. *)
Definition written (p : Packet) : Prop := Forall is_byte (m_buffer p) ∧ 5 ≤ length (m_buffer p).

Lemma written_new t flags : written (Packet_new t flags).
Proof. split; [|simpl; lia]. by repeat (apply Forall_cons; split; [by vm_compute|]). Qed.
Lemma written_append p l :
  written p → Forall is_byte l → written (p <| m_buffer ::= λ b, b ++ l |>).
Proof. intros [Hb Hl] ?. split; simpl; [by apply Forall_app|]. rewrite length_app. lia. Qed.
Lemma written_uint8 v p : is_byte v → written p → written (write_uint8 v p).
Proof. intros ??. by apply written_append, Forall_singleton. Qed.
Lemma written_uint16 v p : written p → written (write_uint16 v p).
Proof.
  intros. unfold write_uint16. apply written_append; [apply written_append; [done|]|];
    apply Forall_singleton; [apply uint8_byte|apply land_byte].
Qed.
Lemma written_write s p : written p → written (write s p).
Proof. intros. apply written_append; [done|apply bytes_of_string_bytes]. Qed.
Lemma written_string s p : written p → written (write_string s p).
Proof. intros. by apply written_write, written_uint16. Qed.

Create HintDb written.
#[export] Hint Resolve written_new written_uint8 written_uint16 written_write written_string
  : written.
#[export] Hint Extern 1 (is_byte _) => by vm_compute : written.

Lemma connect_flags_byte i : is_byte (connect_flags i).
Proof. unfold connect_flags. repeat case_match; by vm_compute. Qed.

Lemma written_connect i : written (connect_packet i).
Proof.
  pose proof (connect_flags_byte i). unfold connect_packet. case_decide; auto 8 with written.
Qed.
Lemma written_pingreq : written pingreq_packet.
Proof. unfold pingreq_packet. auto with written. Qed.
Lemma written_publish topic message retain : written (publish_packet topic message retain).
Proof. unfold publish_packet. auto with written. Qed.
Lemma written_subscribe id topic : written (subscribe_packet id topic).
Proof. unfold subscribe_packet. auto with written. Qed.
Lemma written_unsubscribe id topic : written (unsubscribe_packet id topic).
Proof. unfold unsubscribe_packet. auto with written. Qed.
#[export] Hint Resolve written_connect written_pingreq written_publish written_subscribe
  written_unsubscribe : written.

(** ** Programs keep the types *)

Abbreviation types := (holds typed).

Lemma types_ret {A} (a : A) : types (mret a).
Proof. intros w Hw. by apply wp_ret. Qed.
Lemma types_gets {A} (f : World → A) : types (gets f).
Proof. intros w Hw. by apply wp_gets. Qed.
Lemma types_raise {A} f : types (raise (A := A) f).
Proof. intros w Hw. by apply wp_raise. Qed.
Lemma types_emit e : event_typed e → types (emit e).
Proof.
  intros He w []. apply wp_emit. constructor; simpl; try done.
  by apply Forall_app_2, Forall_singleton.
Qed.
Lemma types_log l msg : types (log l msg).
Proof.
  intros w []. apply wp_log. constructor; simpl; try done. apply Forall_app_2; [done|].
  unfold log_events. case_match; [|done]. by apply Forall_singleton.
Qed.
Lemma types_lock : types lock_state_mutex.
Proof. intros w Hw. unfold lock_state_mutex. apply wp_bind, wp_gets. by destruct (w_joining w). Qed.
Lemma types_modify_fds f : types (modify (λ w, w <| w_fds ::= f |>)).
Proof. intros w []. by apply wp_modify. Qed.
Lemma types_mod_impl f :
  (∀ i, m_packet_id (f i) = m_packet_id i) → types (mod_impl f).
Proof. intros Hf w []. apply wp_mod_impl. constructor; simpl; try done. by rewrite Hf. Qed.
Lemma types_mod_conn f :
  (∀ c, Forall packet_typed (m_send_queue c) → Forall packet_typed (m_send_queue (f c))) →
  types (mod_conn f).
Proof. intros Hf w []. apply wp_mod_conn. constructor; simpl; auto. Qed.
Lemma types_for_each {A} (f : A → M unit) l : (∀ a, types (f a)) → types (for_each f l).
Proof. intros Hf. induction l as [|a l IH]; [apply types_ret|]. by apply holds_bind. Qed.

(** *** System calls *)

Lemma typed_interference a w :
  reply_typed (ROther a) → typed w → typed (apply_interference a w).
Proof.
  intros Ha [Hq Ht Hos Hid]. destruct a; simpl in *.
  - case_decide; constructor; simpl; try done. apply Forall_app_2; [done|].
    unfold disconnect_events. case_match; by repeat constructor.
  - constructor; simpl; try done. apply Forall_app_2; [done|]. case_decide; by repeat constructor.
  - constructor; simpl; try done. by apply Forall_app_2, Forall_singleton.
  - constructor; simpl; try done. by apply Forall_tail.
Qed.

Lemma typed_absorb os w :
  Forall reply_typed os → typed w → typed (absorb os w).
Proof.
  revert w. induction os as [|r os IH]; intros w Hos Hw; cbn [absorb].
  { destruct Hw. by constructor. }
  pose proof Hos as [Hr Hos']%Forall_cons.
  destruct r as [a|r|r|r|r|r|r e|r e l|r|r|r|r|]; try (destruct Hw; by constructor).
  apply IH; [done|]. by apply typed_interference.
Qed.

Lemma types_syscall {A} (f : reply → option A) : types (syscall f).
Proof.
  intros w Hw. unfold wp, syscall. pose proof (typed_os w Hw) as Hos.
  pose proof (typed_absorb (w_os w) w Hos Hw) as [Hq Ht Hos' Hid].
  destruct (w_os (absorb (w_os w) w)) as [|r os]; [done|].
  apply Forall_cons in Hos' as [_ Hos']. destruct (f r); [|done]. by constructor.
Qed.

Create HintDb types.
#[export] Hint Resolve types_ret types_gets types_raise types_log types_lock types_modify_fds
  types_syscall : types.
#[export] Hint Extern 1 (types (emit _)) => apply types_emit; exact Logic.I : types.
#[export] Hint Extern 1 (types (mod_impl _)) => apply types_mod_impl; done : types.
#[export] Hint Extern 1 (types (mod_conn _)) => apply types_mod_conn; done : types.
#[export] Hint Extern 1 (types (get_impl _)) => apply types_gets : types.
#[export] Hint Extern 1 (types (get_conn _)) => apply types_gets : types.

Ltac typing := repeat (intros; first
  [ assumption | solve [auto with types] | apply holds_bind | apply holds_when
  | apply types_for_each
  | match goal with |- holds _ (match ?o with _ => _ end) => destruct o end ]).

(** *** Sending *)

Lemma types_send p prio : written p → types (Connection_send p prio).
Proof.
  intros [Hb Hl]. unfold Connection_send. typing. apply types_mod_conn. intros c Hc.
  pose proof (set_header_typed p Hb Hl). cbn.
  destruct prio; [by apply Forall_cons|by apply Forall_app_2, Forall_singleton].
Qed.

Lemma types_deref : types deref_connection.
Proof. unfold deref_connection. typing. Qed.

Lemma uint16_range n : (0 ≤ uint16 n < 65536)%Z.
Proof. unfold uint16. apply Z.mod_pos_bound. lia. Qed.

Lemma types_next_packet_id : types next_packet_id.
Proof.
  assert (types (mod_impl (λ i, i <| m_packet_id ::= λ n, uint16 (n + 1) |>))).
  { intros w []. apply wp_mod_impl. constructor; simpl; try done. apply uint16_range. }
  unfold next_packet_id. typing.
Qed.

Lemma types_closesocket fd : types (closesocket fd).
Proof. unfold closesocket. typing. Qed.
#[export] Hint Resolve types_deref types_next_packet_id types_closesocket : types.
#[export] Hint Extern 1 (types (Connection_send _ _)) =>
  apply types_send; auto with written : types.

Lemma types_sendPublish topic message retain : types (Impl_sendPublish topic message retain).
Proof. unfold Impl_sendPublish. typing. Qed.
Lemma types_sendSubscribe topic : types (Impl_sendSubscribe topic).
Proof. unfold Impl_sendSubscribe. typing. Qed.
Lemma types_sendUnsubscribe topic : types (Impl_sendUnsubscribe topic).
Proof. unfold Impl_sendUnsubscribe. typing. Qed.
Lemma types_sendConnect : types Connection_sendConnect.
Proof. unfold Connection_sendConnect. typing. Qed.
Lemma types_sendPingRequest : types Connection_sendPingRequest.
Proof. unfold Connection_sendPingRequest. typing. Qed.
Lemma types_socketError : types Connection_socketError.
Proof. unfold Connection_socketError. typing. Qed.
#[export] Hint Resolve types_sendPublish types_sendSubscribe types_sendUnsubscribe
  types_sendConnect types_sendPingRequest types_socketError : types.

Lemma types_sendPacket_loop fuel p :
  packet_typed p → types (sendPacket_loop fuel p).
Proof.
  revert p. induction fuel as [|fuel IH]; intros p (Hb&Hl&Ho); cbn [sendPacket_loop]; [typing|].
  case_decide; [|typing]. apply holds_bind; [typing|intros fd].
  intros w Hw. apply wp_bind. eapply wp_mono; [eapply wp_conj|].
  - by apply types_syscall.
  - apply (wp_syscall (λ _, True) _ (λ _, True) (λ res _, match res with
      | inl _ => True
      | inr n => (0 ≤ n ≤ Z.of_nat (length (m_buffer p) - m_write_offset p))%Z end)); [done..|].
    intros r res _ Hr _. destruct r as [| | | | | | | | | | |[e|n]|]; simplify_eq; [done|].
    by case_decide; simplify_eq.
  - intros [e|n] w1 [Hw1 Hn]; revert w1 Hw1.
    + match goal with |- ∀ w1, _ → wp _ ?m _ _ => change (types m) end. typing.
    + match goal with |- ∀ w1, _ → wp _ ?m _ _ => change (types m) end.
      apply holds_bind.
      * apply types_emit. simpl. unfold wire. by apply Forall_take, Forall_drop.
      * intros _. apply IH. split; [done|]. split; [done|]. simpl. lia.
Qed.

Lemma types_sendPacket p : packet_typed p → types (Connection_sendPacket p).
Proof.
  intros Hp. pose proof (λ fuel, types_sendPacket_loop fuel p Hp).
  unfold Connection_sendPacket, sys_now. typing.
Qed.

(** *** The calls *)

Lemma types_resubscribe topics : types (resubscribe topics).
Proof. induction topics; cbn [resubscribe]; typing. Qed.
Lemma types_flush queue : types (flush queue).
Proof. induction queue as [|[[t m] r] queue IH]; cbn [flush]; typing. Qed.
Lemma types_call_error e msg : types (call_error e msg).
Proof. unfold call_error. typing. Qed.
Lemma types_call_state_change : types call_state_change.
Proof. unfold call_state_change. typing. Qed.
Lemma types_runRead_stop : types runRead_stop.
Proof. unfold runRead_stop. typing. Qed.
#[export] Hint Resolve types_resubscribe types_flush types_call_error types_call_state_change
  types_runRead_stop types_sendPacket : types.

Lemma types_disconnect tid : types (Impl_disconnect tid).
Proof. unfold Impl_disconnect, Connection_dtor. typing. Qed.
Lemma types_connect : types Impl_connect.
Proof. unfold Impl_connect. typing. Qed.
#[export] Hint Resolve types_disconnect types_connect : types.

Lemma types_connectionStateChange connected : types (Impl_connectionStateChange connected).
Proof. unfold Impl_connectionStateChange. typing. Qed.
Lemma types_messageReceived topic message : types (Impl_messageReceived topic message).
Proof. unfold Impl_messageReceived. typing. Qed.
Lemma types_toPublishQueue topic message retain :
  types (Impl_toPublishQueue topic message retain).
Proof. unfold Impl_toPublishQueue, from_option_ub. typing. Qed.
#[export] Hint Resolve types_connectionStateChange types_messageReceived types_toPublishQueue
  : types.

Lemma types_run_op op : types (run_op op).
Proof.
  destruct op; cbn [run_op]; unfold Client_setLogger, Client_setLastWill,
    Client_setErrorCallback, Client_setPublishQueue, Client_setSendQueue,
    Client_setStateChangeCallback, Client_connect, Client_disconnect, Client_publish,
    Client_subscribe, Client_unsubscribe, from_option_ub; typing.
Qed.

(** *** The threads *)

Lemma types_recv_wait fuel : types (recv_wait fuel).
Proof. induction fuel; cbn [recv_wait]; unfold FD_SET, sys_select_read, sys_now; typing. Qed.
#[export] Hint Resolve types_recv_wait : types.

Lemma types_recv len : types (Connection_recv len).
Proof. unfold Connection_recv, sys_recv. typing. Qed.
#[export] Hint Resolve types_recv : types.

Lemma types_recv_length n i acc buf : types (recv_length n i acc buf).
Proof. revert i acc buf. induction n; intros; cbn [recv_length]; unfold recv_byte; typing. Qed.
Lemma types_recv_data fuel n data : types (recv_data fuel n data).
Proof. revert n data. induction fuel; intros; cbn [recv_data]; typing. Qed.
Lemma types_dispatch p : types (dispatch p).
Proof. unfold dispatch, malformed. typing. Qed.
#[export] Hint Resolve types_recv_length types_recv_data types_dispatch : types.

Lemma types_recvLoop : types Connection_recvLoop.
Proof. unfold Connection_recvLoop, recv_byte, from_option_ub, sys_now. typing. Qed.

Lemma types_tryNextAddress : types Connection_tryNextAddress.
Proof.
  unfold Connection_tryNextAddress, Connection_connect, sys_socket, sys_setsockopt, sys_ioctl,
    sys_connect, from_option_ub, sys_now. typing.
Qed.
Lemma types_check_sockets todo kept ready connected :
  types (check_sockets todo kept ready connected).
Proof.
  revert kept connected. induction todo; intros; cbn [check_sockets];
    unfold sys_so_error; typing.
Qed.
#[export] Hint Resolve types_recvLoop types_tryNextAddress types_check_sockets : types.

Lemma types_runRead_step : types runRead_step.
Proof.
  unfold runRead_step, Connection_resolve, Connection_connectToAny, runRead_backoff,
    clear_sockets, set_cstate, FD_SET, sys_getaddrinfo, sys_select_write, sys_sleep,
    sys_now, sys_ioctl. typing.
Qed.

Lemma types_cv_wait predicate : types (cv_wait predicate).
Proof.
  intros w Hw. unfold wp, cv_wait.
  assert (∀ os w, Forall reply_typed os → typed w →
    match wait_until predicate os w with Done _ w' => typed w' | Fault _ => True end) as Hwait.
  { intros os. induction os as [|r os IH]; intros w' Hos Hw'; cbn [wait_until];
      (destruct (predicate w'); [by destruct Hw'; constructor|]); [done|].
    apply Forall_cons in Hos as [Hr Hos]. destruct r; try done.
    apply IH; [done|]. by apply typed_interference. }
  apply Hwait; [by destruct Hw|done].
Qed.

Lemma wp_pop_typed w :
  typed w → wp (λ _, True) pop_send_queue (λ p w', packet_typed p ∧ typed w') w.
Proof.
  intros [Hq Ht Hos Hid]. apply wp_bind, wp_get_conn.
  destruct (m_send_queue (w_conn w)) as [|p q]; [done|].
  apply Forall_cons in Hq as [Hp Hq]. apply wp_bind, wp_mod_conn, wp_ret.
  split; [done|]. by constructor.
Qed.

Lemma wp_popBlocking_typed w :
  typed w →
  wp (λ _, True) Connection_popSendQueueBlocking (λ o w',
    match o with Some p => packet_typed p | None => True end ∧ typed w') w.
Proof.
  intros Hw. apply wp_bind, wp_get_conn. case_decide.
  - apply wp_bind. eapply wp_mono; [by apply wp_pop_typed|]. intros p w1 ?. by apply wp_ret.
  - apply wp_bind. eapply wp_mono; [by apply types_cv_wait|]. intros u w1 Hw1.
    apply wp_bind, wp_get_conn. case_decide; [by apply wp_ret|].
    apply wp_bind. eapply wp_mono; [by apply wp_pop_typed|]. intros p w2 ?. by apply wp_ret.
Qed.

Lemma types_runWrite_step : types runWrite_step.
Proof.
  assert (types (packet ← Connection_popSendQueueBlocking;
    match packet with
    | None => mret true
    | Some packet => Connection_sendPacket packet ;; mret true
    end)) as Hpop.
  { intros w Hw. apply wp_bind. eapply wp_mono; [by apply wp_popBlocking_typed|].
    intros [p|] w1 [Hp Hw1]; [|by apply wp_ret]. apply wp_bind.
    eapply wp_mono; [by apply types_sendPacket|]. intros u w2 Hw2. by apply wp_ret. }
  unfold runWrite_step, sys_sleep. typing.
Qed.

(** ** Property *)

(** The program: calls of the users and of the connection, and iterations of the
    two threads, in any order; between them the system gives any answers. *)
Inductive program_step : World → World → Prop :=
  | program_call op w w' : run_op op w = Done () w' → program_step w w'
  | program_read b w w' : runRead_step w = Done b w' → program_step w w'
  | program_write b w w' : runWrite_step w = Done b w' → program_step w w'
  | program_answers os w : Forall reply_typed os → program_step w (w <| w_os := os |>).

Lemma typed_initial host port id t b bm k :
  typed (initial (Impl_new host port id t b bm k)).
Proof. by constructor. Qed.

Lemma program_step_typed w w' : typed w → program_step w w' → typed w'.
Proof.
  intros Hw Hstep. destruct Hstep as [op w w' Hrun|b w w' Hrun|b w w' Hrun|os w Hos].
  - by apply (wp_run _ _ _ _ _ _ (types_run_op op w Hw) Hrun).
  - by apply (wp_run _ _ _ _ _ _ (types_runRead_step w Hw) Hrun).
  - by apply (wp_run _ _ _ _ _ _ (types_runWrite_step w Hw) Hrun).
  - destruct Hw. by constructor.
Qed.

(** C12: whatever is called, whatever the network answers and however the threads
    interleave, from a new client on: every packet on the send queue consists
    of bytes and has its write offset inside the buffer, so that the number of
    bytes left, computed in unsigned arithmetic, is right; everything given to
    [::send] consists of bytes; and the packet identifier fits sixteen bits. *)
Theorem everything_sent_is_bytes host port id t b bm k w
    (Hw : rtc program_step (initial (Impl_new host port id t b bm k)) w) :
  (∀ p, p ∈ m_send_queue (w_conn w) →
    Forall is_byte (m_buffer p) ∧ 5 ≤ length (m_buffer p) ∧
    m_write_offset p ≤ length (m_buffer p)) ∧
  (∀ fd data, EvSend fd data ∈ w_trace w → Forall is_byte data) ∧
  (0 ≤ m_packet_id (w_impl w) < 65536)%Z.
Proof.
  assert (typed w) as [Hq Ht _ Hid].
  { assert (typed (initial (Impl_new host port id t b bm k))) as Hinit by apply typed_initial.
    revert Hinit. induction Hw; eauto using program_step_typed. }
  rewrite Forall_forall in Hq. rewrite Forall_forall in Ht. split; [|split; [|done]].
  - exact Hq.
  - intros fd data He. exact (Ht (EvSend fd data) He).
Qed.

(** A client that connects and publishes. *)
Definition calls_world (ops : list client_op) (w : World) : World :=
  foldl (λ w op, match run_op op w with Done _ w' => w' | Fault _ => w end) w ops.

Lemma everything_sent_is_bytes_witness :
  ∃ p, m_send_queue (w_conn (calls_world [OpConnect; OpStateChange true; OpPublish "a" "b" false]
      test_world)) = [p] ∧ Forall is_byte (m_buffer p).
Proof.
  eexists. split; [vm_compute; reflexivity|].
  refine (proj1 (proj1 (everything_sent_is_bytes "localhost" 1883 "me" 5000 1000 30000 30000
    (calls_world [OpConnect; OpStateChange true; OpPublish "a" "b" false] test_world) _) _ _)).
  - eapply rtc_l; [by eapply (program_call OpConnect); vm_compute|].
    eapply rtc_l; [by eapply (program_call (OpStateChange true)); vm_compute|].
    eapply rtc_l; [by eapply (program_call (OpPublish "a" "b" false)); vm_compute|].
    apply rtc_refl.
  - left.
Defined.
