(* ===== verification/Progress.v ===== *)
(** * The threads do not spin

    Every loop of the read and the write thread makes a system call in each
    round, or ends.  In the model, whose script of answers is finite, this is
    termination: the fuel of the inner loops is enough, and so is a number of
    iterations of the threads that is linear in the length of the script. *)

From S2P Require Export Transitions Writer.

(** At most [n] answers are left. *)
Definition within (n : nat) (w : World) : Prop := alive w ∧ length (w_os w) ≤ n.

(** At least one of [n] answers was used. *)
Definition used (n : nat) (w : World) : Prop := ∃ n', n = S n' ∧ within n' w.

#[export] Instance within_framed n : Framed (within n).
Proof.
  split. intros w w' (_ & _ & _ & _ & Hc & Hj & Ho) [Ha Hl].
  unfold within, alive in *. by rewrite Hc, Hj, Ho.
Qed.

Lemma used_within n w : used n w → within n w.
Proof. intros (n' & -> & Ha & Hl). split; [done|lia]. Qed.

Lemma absorb_shorter os w : length (w_os (absorb os w)) ≤ length os.
Proof.
  revert w. induction os as [|[] os IH]; intros w; cbn [absorb]; try done.
  cbn [length]. specialize (IH (apply_interference a w)). lia.
Qed.

(** A program that uses an answer, or does not end. *)
Definition spends {A} (m : M A) : Prop :=
  ∀ n w, within n w → wp (λ _, True) m (λ _, used n) w.

Lemma spends_syscall {A} (f : reply → option A) : spends (syscall f).
Proof.
  intros n w [Ha Hl]. unfold wp, syscall. pose proof (absorb_shorter (w_os w) w) as Hs.
  assert (alive (absorb (w_os w) w)) as Ha'.
  { by apply (stable_interfered alive w); [apply absorb_interfered|]. }
  destruct (w_os (absorb (w_os w) w)) as [|r os]; [done|]. destruct (f r); [|done].
  simpl in Hs. exists (pred n). split; [lia|]. split; [exact Ha'|]. simpl. lia.
Qed.

Lemma spends_holds {A} (m : M A) n : spends m → holds (within n) m.
Proof. intros Hm w Hw. eapply wp_mono; [by apply Hm|]. intros a w' Hw'. by apply used_within. Qed.

Lemma within_syscall n A (f : reply → option A) : holds (within n) (syscall f).
Proof. apply spends_holds, spends_syscall. Qed.

Lemma within_mod_conn n f : holds (within n) (mod_conn f).
Proof. intros w Hw. by apply wp_mod_conn. Qed.

Lemma within_closesocket n fd : holds (within n) (closesocket fd).
Proof. intros w Hw. by apply wp_closesocket. Qed.

Lemma within_emit n e : holds (within n) (emit e).
Proof. intros w Hw. by apply wp_emit. Qed.

Lemma within_alive n w : within n w → alive w.
Proof. by intros []. Qed.

#[export] Hint Resolve within_syscall within_mod_conn within_closesocket within_emit holds_when : holds.

Lemma within_for_each {A} n (f : A → M unit) l :
  (∀ a, holds (within n) (f a)) → holds (within n) (for_each f l).
Proof.
  intros Hf. induction l as [|a l IH]; [unchanged|]. by apply holds_bind.
Qed.

Lemma spends_bind {A B} (m : M A) (k : A → M B) :
  spends m → (∀ a n, holds (within n) (k a)) → spends (m ≫= k).
Proof.
  intros Hm Hk n w Hw. apply wp_bind. eapply wp_mono; [by apply Hm|].
  intros a w1 (n' & -> & Hw1). eapply wp_mono; [by apply Hk|]. intros b w2 Hw2. by exists n'.
Qed.

Lemma spends_then {A B} (m : M A) (k : A → M B) :
  (∀ n, holds (within n) m) → (∀ a, spends (k a)) → spends (m ≫= k).
Proof.
  intros Hm Hk n w Hw. apply wp_bind. eapply wp_mono; [by apply Hm|]. intros a w1 Hw1.
  by apply Hk.
Qed.

(** ** Connecting *)

Lemma within_sys_socket n : holds (within n) sys_socket.
Proof. unfold sys_socket. hold. intros w Hw. by apply wp_modify. Qed.
#[export] Hint Resolve within_sys_socket : holds.

Lemma within_connect n a : holds (within n) (Connection_connect a).
Proof. unfold Connection_connect, sys_setsockopt, sys_ioctl, sys_connect. hold. Qed.
#[export] Hint Resolve within_connect : holds.

Lemma within_check_sockets n todo kept ready connected :
  holds (within n) (check_sockets todo kept ready connected).
Proof.
  revert kept connected. induction todo as [|sock todo IH]; intros kept connected;
    cbn [check_sockets]; unfold sys_so_error; hold.
Qed.

Lemma within_clear_sockets n : holds (within n) clear_sockets.
Proof. unfold clear_sockets. hold. Qed.

Lemma within_set_cstate n s : holds (within n) (set_cstate s).
Proof. apply within_mod_conn. Qed.
#[export] Hint Resolve within_check_sockets within_clear_sockets within_set_cstate
  within_for_each : holds.

Lemma spends_resolve : spends Connection_resolve.
Proof.
  apply spends_then; [intros; hold|intros _]. apply spends_then; [intros; hold|intros _].
  apply spends_bind; [apply spends_syscall|]. intros [e|l] n; hold.
Qed.

(** Without an address left, [tryNextAddress] does nothing. *)
Lemma within_tryNextAddress n w :
  within n w →
  wp (λ _, True) Connection_tryNextAddress (λ b w', used n w' ∨ b = false ∧ within n w') w.
Proof.
  intros Hw. apply wp_bind, wp_get_conn, wp_bind, wp_get_conn.
  case_decide; [by apply wp_ret; right|].
  apply wp_bind. eapply wp_mono; [by apply spends_syscall|]. intros now w1 (n' & -> & Hw1).
  eapply wp_holds; [|exact Hw1|by intros b w2 Hw2; left; exists n']. hold.
Qed.

Lemma within_connectToAny n w :
  within n w →
  wp (λ _, True) Connection_connectToAny (λ b w', used n w' ∨ b = false ∧ within n w') w.
Proof.
  intros Hw. apply wp_bind, wp_get_conn. case_decide; [by apply within_tryNextAddress|].
  apply wp_bind. eapply wp_holds; [|exact Hw|]; [unfold FD_SET; hold|]. intros _ w1 Hw1.
  apply wp_bind. eapply wp_mono; [by apply spends_syscall|].
  intros [[result errno] ready] w2 (n' & -> & Hw2).
  eapply wp_holds; [|exact Hw2|by intros b w3 Hw3; left; exists n'].
  assert (holds (within n') Connection_tryNextAddress) as Hnext.
  { intros w' Hw'. eapply wp_mono; [by apply within_tryNextAddress|].
    intros b w'' [?|[_ ?]]; [by apply used_within|done]. }
  unfold sys_now, sys_ioctl, set_cstate. hold.
Qed.

(** ** One iteration of a thread *)

Lemma spends_recv_wait fuel : spends (recv_wait fuel).
Proof.
  destruct fuel as [|fuel]; cbn [recv_wait]; [by intros n w _; apply wp_raise|].
  apply spends_then; [intros; unfold FD_SET; hold|intros fd].
  apply spends_then; [intros; unfold FD_SET; hold|intros _].
  apply spends_bind; [apply spends_syscall|]. intros ret n.
  assert (holds (within n) (recv_wait fuel)).
  { apply (holds_recv_wait _), within_syscall. }
  unfold sys_now. hold.
Qed.

Lemma spends_recv len : spends (Connection_recv len).
Proof.
  apply spends_then; [intros; hold|intros fuel].
  apply spends_bind; [apply spends_recv_wait|]. intros ready n. unfold sys_recv. hold.
Qed.

Lemma within_recv n len : holds (within n) (Connection_recv len).
Proof. apply spends_holds, spends_recv. Qed.

Lemma within_recv_byte n : holds (within n) recv_byte.
Proof. apply (holds_recv_byte _), within_syscall. Qed.

Lemma within_recv_length n k i acc buf : holds (within n) (recv_length k i acc buf).
Proof. apply (holds_recv_length _), within_syscall. Qed.

Lemma within_recv_data n fuel len data : holds (within n) (recv_data fuel len data).
Proof. apply (holds_recv_data _), within_syscall. Qed.

Lemma within_dispatch n p : holds (within n) (dispatch p).
Proof. apply (holds_dispatch _); [apply within_alive|apply within_mod_conn]. Qed.
#[export] Hint Resolve within_recv within_recv_byte within_recv_length within_recv_data
  within_dispatch : holds.

Lemma spends_recvLoop : spends Connection_recvLoop.
Proof.
  apply spends_bind.
  { apply spends_bind; [apply spends_recv|]. intros data n. hold. }
  intros header n. unfold from_option_ub, sys_now. hold.
Qed.

(** The state of a thread that is about to spend an answer, or to end. *)
Definition settled (s : CState.t) : bool :=
  match s with CState.BACKOFF | CState.STOP => true | _ => false end.

(** What an iteration from the state [s] achieves: it uses an answer, or the
    next one will. *)
Definition progress (n : nat) (s : CState.t) (w : World) : Prop :=
  used n w ∨ settled s = false ∧ settled (m_cstate (w_conn w)) = true ∧ within n w.

Lemma progress_spends n s w (m : M bool) :
  spends m → within n w → wp (λ _, True) m (λ _, progress n s) w.
Proof. intros Hm Hw. eapply wp_mono; [by apply Hm|]. by left. Qed.

Lemma progress_backoff n s ok w :
  settled s = false → used n w ∨ ok = false ∧ within n w →
  wp (λ _, True) (when (negb ok) (set_cstate CState.BACKOFF) ;; mret true)
    (λ _, progress n s) w.
Proof.
  intros Hs Hw. apply wp_bind, wp_when; intros Hok.
  - apply wp_mod_conn, wp_ret. destruct Hw as [Hw|[_ Hw]]; [by left|by right].
  - apply wp_ret. left. destruct Hw as [Hw|[-> _]]; done.
Qed.

Lemma spends_backoff : spends runRead_backoff.
Proof.
  apply spends_then; [intros; hold|intros b]. apply spends_then; [intros; hold|intros _].
  apply spends_bind; [apply spends_syscall|]. intros _ n. hold.
Qed.

Lemma runRead_step_progress n w :
  within n w →
  wp (λ _, True) runRead_step (λ continue w',
    continue = true → progress n (m_cstate (w_conn w)) w') w.
Proof.
  intros Hw. apply wp_bind, wp_get_conn.
  assert (∀ s, wp (λ _, True) (runRead_stop ;; mret false)
    (λ continue w', continue = true → progress n s w') w) as Hstop.
  { intros s. apply wp_bind, (wp_mono _ _ (λ _ _, True)); [by unfold wp; case_match|].
    intros u w1 _. by apply wp_ret. }
  destruct (m_cstate (w_conn w)) eqn:Hst; [..|apply Hstop];
    (eapply wp_mono; [|intros b w' Hw' _; exact Hw']).
  - apply wp_bind. eapply wp_mono; [by apply spends_resolve|]. intros ok w1 Hw1.
    apply progress_backoff; [done|by left].
  - apply wp_bind. eapply wp_mono; [by apply within_connectToAny|]. intros ok w1 Hw1.
    by apply progress_backoff.
  - apply progress_spends; [|done]. apply spends_bind; [apply spends_recvLoop|].
    intros ok k. unfold Connection_socketError. hold.
  - apply progress_spends; [|done]. apply spends_bind; [apply spends_recvLoop|].
    intros ok k. unfold Connection_socketError. hold.
  - apply progress_spends; [|done]. apply spends_bind; [apply spends_backoff|].
    intros u k. hold.
  - apply wp_bind, wp_mod_conn. set (w1 := _ <| w_conn ::= _ |>).
    assert (within n w1) as Hw1 by done.
    assert (keeps (Impl_connectionStateChange false ;;
      mod_conn (λ c, c <| m_send_queue := [] |>) ;; mret true)) as Hk by keep.
    eapply wp_mono; [apply Hk|]. intros b w2 Hw2. right. split; [done|]. split; [|exact (Sockets.frame _ _ Hw2 Hw1)].
    destruct Hw2 as (_ & _ & _ & -> & _). done.
Qed.

Lemma runRead_ends_within n fuel w :
  within n w → 2 * n + (if settled (m_cstate (w_conn w)) then 1 else 2) ≤ fuel →
  wp (λ _, True) (runRead fuel) (λ ended _, ended = true) w.
Proof.
  revert n w. induction fuel as [|fuel IH]; intros n w Hw Hfuel; [case_match; lia|].
  cbn [runRead]. apply wp_bind. eapply wp_mono; [by apply runRead_step_progress|].
  intros continue w1 Hw1. destruct continue; [|by apply wp_ret].
  destruct (Hw1 eq_refl) as [(n' & -> & Hw2)|(Hs & Hs1 & Hw2)].
  - apply (IH n'); [done|]. repeat case_match; lia.
  - apply (IH n); [done|]. rewrite Hs1. rewrite Hs in Hfuel. lia.
Qed.

(** ** The write thread *)

Lemma within_socketError n : holds (within n) Connection_socketError.
Proof. unfold Connection_socketError. hold. Qed.
#[export] Hint Resolve within_socketError : holds.

(** The loop only fails after a call of [::send]. *)
Lemma sendPacket_loop_used fuel p n w :
  within n w →
  wp (λ _, True) (sendPacket_loop fuel p) (λ r w',
    match r with None => used n w' | Some _ => within n w' end) w.
Proof.
  revert p n w. induction fuel as [|fuel IH]; intros p n w Hw; cbn [sendPacket_loop].
  { by apply wp_raise. }
  case_decide; [|by apply wp_ret].
  apply wp_bind, wp_get_conn, wp_bind. eapply wp_mono; [by apply spends_syscall|].
  intros [errno|k] w1 (n' & -> & Hw1).
  - eapply (wp_holds (within n')); [hold|exact Hw1|]. intros r w2 Hw2.
    destruct r; [by apply used_within; exists n'|by exists n'].
  - apply wp_bind, wp_emit. eapply wp_mono; [by apply (IH _ n')|]. intros r w2 Hw2.
    destruct r; [|by apply used_within in Hw2; exists n'].
    apply used_within. by exists n'.
Qed.

(** A packet is only sent in a state that sends; then it takes an answer. *)
Lemma spends_sendPacket p n w :
  within n w →
  (m_cstate (w_conn w) = CState.AUTHENTICATING ∨ m_cstate (w_conn w) = CState.CONNECTED) →
  wp (λ _, True) (Connection_sendPacket p) (λ _, used n) w.
Proof.
  intros Hw Hst. apply wp_bind, wp_get_conn. rewrite decide_False by naive_solver.
  apply wp_bind, wp_gets, wp_bind. eapply wp_mono; [by apply sendPacket_loop_used|].
  intros [p'|] w1 Hw1; [|by apply wp_ret].
  apply (spends_bind sys_now); [apply spends_syscall|intros; hold|done].
Qed.

Lemma within_sendPacket n p : holds (within n) (Connection_sendPacket p).
Proof.
  assert (∀ fuel, holds (within n) (sendPacket_loop fuel p)).
  { intros fuel w Hw. eapply wp_mono; [by apply sendPacket_loop_used|].
    intros [p'|] w' Hw'; [done|by apply used_within]. }
  unfold Connection_sendPacket, sys_now. hold.
Qed.

(** A wait that does not return at once takes a step of another thread. *)
Lemma spends_cv_wait P n w :
  within n w → P w = false → wp (λ _, True) (cv_wait P) (λ _, used n) w.
Proof.
  unfold cv_wait, wp. intros Hw HP.
  assert (∀ os n w, length os ≤ n → alive w →
    match wait_until P os w with
    | Done _ w' => within n w' ∧ (P w = false → used n w')
    | Fault _ => True
    end) as Hwait.
  { clear. intros os. induction os as [|r os IH]; intros n w Hl Ha; cbn [wait_until].
    - destruct (P w) eqn:HP; [|done]. by split; [split|].
    - destruct (P w) eqn:HP; [by split; [split|]|]. destruct r; try done.
      simpl in Hl. specialize (IH (pred n) (apply_interference a w)).
      destruct (wait_until P os _) as [u w'|]; [|done].
      destruct IH as [Hw' _]; [lia|by apply stable_interference|].
      assert (used n w') as Hu by (exists (pred n); split; [lia|done]).
      split; [by apply used_within|done]. }
  destruct Hw as [Ha Hl]. specialize (Hwait (w_os w) n w Hl Ha).
  destruct (wait_until P (w_os w) w) as [u w'|]; [|done]. by apply Hwait.
Qed.

Lemma runWrite_step_progress n w :
  within n w → wp (λ _, True) runWrite_step (λ continue w', continue = true → used n w') w.
Proof.
  intros Hw. apply wp_bind, wp_get_conn.
  assert (m_cstate (w_conn w) = CState.AUTHENTICATING ∨
    m_cstate (w_conn w) = CState.CONNECTED →
    wp (λ _, True) (packet ← Connection_popSendQueueBlocking;
      match packet with
      | None => mret true
      | Some packet => Connection_sendPacket packet ;; mret true
      end) (λ continue w', continue = true → used n w') w) as Hsend.
  { intros Hst. apply wp_bind. apply wp_bind, wp_get_conn. case_decide as Hq.
    - apply wp_bind. destruct (m_send_queue (w_conn w)) as [|p q] eqn:Hqs; [done|].
      eapply wp_pop; [exact Hqs|]. apply wp_ret, wp_bind.
      eapply wp_mono; [by apply spends_sendPacket|]. intros u w1 Hw1. by apply wp_ret.
    - apply wp_bind. eapply wp_mono.
      { apply spends_cv_wait; [exact Hw|]. unfold send_queue_ready.
        rewrite !bool_decide_false; [done|naive_solver congruence|by intros ?]. }
      intros u w1 (n' & -> & Hw1). apply wp_bind, wp_get_conn.
      case_decide; [by apply wp_ret, wp_ret; exists n'|].
      apply wp_bind. unfold pop_send_queue.
      eapply (wp_holds (within n')); [hold|exact Hw1|]. intros p w2 Hw2.
      apply wp_ret, wp_bind. eapply wp_mono; [by apply within_sendPacket|].
      intros u3 w3 Hw3. apply wp_ret. intros _. by exists n'. }
  destruct (m_cstate (w_conn w)); auto.
  5: by apply wp_ret.
  all: eapply wp_mono; [apply (spends_bind sys_sleep (λ _, mret true));
    [apply spends_syscall|intros; hold|exact Hw]|done].
Qed.

Lemma runWrite_ends_within n fuel w :
  within n w → n + 1 ≤ fuel → wp (λ _, True) (runWrite fuel) (λ ended _, ended = true) w.
Proof.
  revert n w. induction fuel as [|fuel IH]; intros n w Hw Hfuel; [lia|].
  cbn [runWrite]. apply wp_bind. eapply wp_mono; [by apply runWrite_step_progress|].
  intros continue w1 Hw1. destruct continue; [|by apply wp_ret].
  destruct (Hw1 eq_refl) as (n' & -> & Hw2). apply (IH n'); [done|lia].
Qed.

(** ** More fuel makes no difference *)

Lemma bind_ext {A B} (I : World → Prop) (m : M A) (k1 k2 : A → M B) w :
  wp (λ _, True) m (λ _, I) w → (∀ a w', I w' → k1 a w' = k2 a w') →
  (m ≫= k1) w = (m ≫= k2) w.
Proof. unfold wp, mbind, M_bind. intros Hm Hk. destruct (m w); auto. Qed.

Lemma bind_ext_within {A B} n (m : M A) (k1 k2 : A → M B) w :
  holds (within n) m → within n w → (∀ a w', within n w' → k1 a w' = k2 a w') →
  (m ≫= k1) w = (m ≫= k2) w.
Proof. intros Hm Hw. by apply bind_ext, Hm. Qed.

Ltac same_bind := eapply bind_ext_within;
  [|eassumption|intros ???]; [unfold FD_SET, sys_now; hold|].

Lemma recv_wait_fuel n f1 f2 w :
  within n w → n < f1 → n < f2 → recv_wait f1 w = recv_wait f2 w.
Proof.
  revert n f2 w. induction f1 as [|f1 IH]; intros n [|f2] w Hw H1 H2; try lia.
  cbn [recv_wait]. do 2 same_bind. apply (bind_ext (used n)).
  { by apply spends_syscall. }
  intros ret w1 (n' & -> & Hw1). same_bind. case_match; [done|]. do 5 same_bind.
  case_decide; [done|]. case_decide; [|done]. apply (IH n'); [done|lia..].
Qed.

Lemma recv_data_fuel n f1 f2 len data w :
  within n w → n < f1 → n < f2 → recv_data f1 len data w = recv_data f2 len data w.
Proof.
  revert n f2 len data w. induction f1 as [|f1 IH]; intros n [|f2] len data w Hw H1 H2; try lia.
  cbn [recv_data]. case_decide; [done|]. apply (bind_ext (used n)).
  { by apply spends_recv. }
  intros [bytes|] w1 (n' & -> & Hw1); [|done]. apply (IH n'); [done|lia..].
Qed.

Lemma sendPacket_loop_fuel n f1 f2 p w :
  within n w → n < f1 → n < f2 → sendPacket_loop f1 p w = sendPacket_loop f2 p w.
Proof.
  revert n f2 p w. induction f1 as [|f1 IH]; intros n [|f2] p w Hw H1 H2; try lia.
  cbn [sendPacket_loop]. case_decide; [|done]. same_bind. apply (bind_ext (used n)).
  { by apply spends_syscall. }
  intros [errno|k] w1 (n' & -> & Hw1); [done|]. same_bind. apply (IH n'); [done|lia..].
Qed.

(** More iterations make no difference to a thread that ended. *)
Lemma runRead_more n k w r :
  runRead n w = r → (∀ w', r ≠ Done false w') → runRead (n + k) w = r.
Proof.
  revert w. induction n as [|n IH]; intros w <- Hr; [by destruct (Hr w)|].
  cbn [runRead Nat.add] in *. unfold mbind, M_bind in *.
  destruct (runRead_step w) as [[] w1|]; [|done..]. by apply IH.
Qed.

Lemma runWrite_more n k w r :
  runWrite n w = r → (∀ w', r ≠ Done false w') → runWrite (n + k) w = r.
Proof.
  revert w. induction n as [|n IH]; intros w <- Hr; [by destruct (Hr w)|].
  cbn [runWrite Nat.add] in *. unfold mbind, M_bind in *.
  destruct (runWrite_step w) as [[] w1|]; [|done..]. by apply IH.
Qed.

(** ** Properties *)

(** C13: neither thread spins: with [n] answers to come from the system and the
    other threads, the read thread has ended, failed or is waiting in a system
    call after [2n + 2] iterations, the write thread after [n + 1], and more
    iterations change nothing. *)
Theorem threads_terminate w fuel :
  m_connection (w_impl w) = true →
  let n := length (w_os w) in
  (2 * n + 2 ≤ fuel →
     runRead fuel w = runRead (2 * n + 2) w ∧ ∀ w', runRead fuel w ≠ Done false w') ∧
  (n + 1 ≤ fuel →
     runWrite fuel w = runWrite (n + 1) w ∧ ∀ w', runWrite fuel w ≠ Done false w').
Proof.
  intros Hc n. assert (within n w) as Hw by (split; [unfold alive; congruence|done]).
  split; intros Hf.
  - assert (∀ w', runRead (2 * n + 2) w ≠ Done false w') as Hend.
    { intros w' Hrun. discriminate (wp_run _ _ _ _ _ _ (runRead_ends_within n (2 * n + 2) w Hw
        ltac:(case_match; lia)) Hrun). }
    replace fuel with (2 * n + 2 + (fuel - (2 * n + 2))) by lia.
    by rewrite (runRead_more _ _ _ _ eq_refl).
  - assert (∀ w', runWrite (n + 1) w ≠ Done false w') as Hend.
    { intros w' Hrun. discriminate (wp_run _ _ _ _ _ _ (runWrite_ends_within n (n + 1) w Hw
        ltac:(lia)) Hrun). }
    replace fuel with (n + 1 + (fuel - (n + 1))) by lia.
    by rewrite (runWrite_more _ _ _ _ eq_refl).
Qed.

(** The thread of [leaking_world], which is stopped in its third iteration. *)
Lemma threads_terminate_witness :
  ∃ w', runRead 100 leaking_world = Done true w' ∧ runRead 18 leaking_world = Done true w'.
Proof.
  destruct (threads_terminate leaking_world 100 eq_refl) as [Hr _].
  destruct Hr as [Heq _]; [vm_compute; lia|].
  assert (∃ w', runRead 18 leaking_world = Done true w') as [w' Hw'].
  { eexists. vm_compute. reflexivity. }
  exists w'. split; [|exact Hw']. rewrite Heq. exact Hw'.
Defined.
