(* ===== verification/EndToEnd.v ===== *)
(** * From one client to another

    The parts composed: a client publishes messages, its write thread sends
    them, a broker forwards them, and the read thread of another client calls
    the callbacks. *)

From S2P Require Export Progress Machine.

(** ** The publisher *)

(** [publish] called for each message; whether all calls returned [true]. *)
Fixpoint publish_all (ms : list message) : M bool :=
  match ms with
  | [] => mret true
  | (topic, payload, retain) :: ms =>
      ok ← Client_publish topic payload retain;
      rest ← publish_all ms;
      mret (ok && rest)
  end.

(** A message whose topic and body fit their length fields. *)
Definition fits (m : message) : Prop :=
  let '(topic, payload, _) := m in
  (str_size topic < 65536)%Z ∧ (zlength (publish_body topic payload) ≤ max_remaining_length)%Z.

Definition queued_packet (m : message) : Packet :=
  let '(topic, payload, retain) := m in set_header (publish_packet topic payload retain).

(** The PUBLISH a client sends, and the one a broker forwards: the retain flag
    is only set for retained messages that a new subscription receives. *)
Definition sent_frame (m : message) : list Z :=
  let '(topic, payload, retain) := m in
  frame PUBLISH (if retain : bool then 1 else 0) (publish_body topic payload).
Definition forwarded_frame (m : message) : list Z :=
  let '(topic, payload, _) := m in frame PUBLISH 0 (publish_body topic payload).

Lemma wire_queued_packet m : fits m → wire (queued_packet m) = sent_frame m.
Proof.
  destruct m as [[topic payload] retain]. intros [Ht Hb]. unfold queued_packet, sent_frame.
  rewrite publish_packet_body by done. apply set_header_wire; [by destruct retain|done].
Qed.

Lemma wp_publish_all ms w :
  m_state (w_impl w) = CONNECTED → m_connection (w_impl w) = true →
  length ms ≤ room w →
  wp (λ _, False) (publish_all ms) (λ ok w', ok = true ∧
    w' = w <| w_conn ::= λ c, c <| m_send_queue ::= λ q, q ++ map queued_packet ms |> |>) w.
Proof.
  revert w. induction ms as [|[[topic payload] retain] ms IH]; intros w Hst Hc Hr.
  { apply wp_ret. split; [done|]. cbn [map]. destruct w as [i [] ? ? ? ?]. cbn.
    by rewrite app_nil_r. }
  cbn [publish_all length] in *. apply wp_bind. apply wp_bind, wp_get_impl. rewrite Hst.
  unfold wp at 1. rewrite sendPublish_eq by done. rewrite decide_False by lia.
  apply wp_bind. eapply wp_mono.
  { apply IH; [done|done|]. rewrite room_sent. lia. }
  intros ok w1 [-> ->]. apply wp_ret. split; [done|]. destruct w as [[] [] ? ? ? ?].
  unfold sent_state. cbn. by rewrite <-app_assoc.
Qed.

(** ** The subscriber *)

(** How the bytes of a frame arrive, and when it was processed. *)
Record transfer := mkTransfer {
  t_header : delivery;
  t_length : list delivery;
  t_body : list delivery;
  t_done : Z
}.

Definition t_deliveries (tr : transfer) : list delivery :=
  t_header tr :: t_length tr ++ t_body tr.

(** The script of the subscriber: the frames arrive one after the other. *)
Definition transfers (trs : list transfer) (os : list reply) : list reply :=
  foldr (λ tr os, arrive (t_deliveries tr) (RNow (t_done tr) :: os)) os trs.

(** The packet, cut in any way: [recv] asks for the type and each length byte
    alone, and for as much of the body as is left. *)
Definition carries (tr : transfer) (bytes : list Z) : Prop :=
  ∃ flags body, bytes = frame PUBLISH flags body ∧ (0 ≤ flags < 16)%Z ∧
    (zlength body ≤ max_remaining_length)%Z ∧
    map d_data (t_header tr :: t_length tr) =
      map (λ b, [b]) ((PacketType_to_Z PUBLISH * 16 + flags)%Z :: varint 4 (zlength body)) ∧
    concat (map d_data (t_body tr)) = body ∧ Forall (λ d, d_data d ≠ []) (t_body tr).

Lemma varint_length_mono k n n' : (n ≤ n')%Z → length (varint k n) ≤ length (varint k n').
Proof.
  revert n n'. induction k as [|k IH]; intros n n' Hn; cbn [varint]; [done|].
  repeat case_decide; cbn [length]; try lia.
  apply le_n_S, IH. apply Z.div_le_mono; lia.
Qed.

(** A frame determines its flags and its body. *)
Lemma frame_inj t f f' body body' :
  frame t f body = frame t f' body' → f = f' ∧ body = body'.
Proof.
  intros Heq. pose proof (f_equal tail Heq) as Hb. pose proof (f_equal head Heq) as Hf.
  unfold frame in Hb, Hf. cbn [tail head] in Hb, Hf. split; [simplify_eq; lia|].
  assert (zlength body = zlength body') as Hl.
  { apply (f_equal length) in Hb. rewrite !length_app in Hb. unfold zlength in *.
    destruct (decide (length body ≤ length body')) as [Hle|Hle].
    - assert (Z.of_nat (length body) ≤ Z.of_nat (length body'))%Z as H by lia.
      apply (varint_length_mono 4) in H. lia.
    - assert (Z.of_nat (length body') ≤ Z.of_nat (length body))%Z as H by lia.
      apply (varint_length_mono 4) in H. lia. }
  rewrite Hl in Hb. by apply app_inv_head in Hb.
Qed.

(** The clock of the subscriber, while its connection is up: neither a ping nor
    a time-out is due before [until]. *)
Definition up_until (until : Z) (w : World) : Prop :=
  let c := w_conn w in
  let i := w_impl w in
  m_cstate c = CState.CONNECTED ∧ (0 ≤ m_socket c < FD_SETSIZE)%Z ∧
  m_state i = CONNECTED ∧ w_joining w = false ∧
  (until ≤ m_last_sent_packet c + ns_of_ms (m_keep_alive_interval i))%Z ∧
  (until ≤ m_last_received_packet c + ns_of_ms (Z.quot (m_keep_alive_interval i * 15) 10))%Z.

(** Everything arrives in time, and is processed after the time [since]. *)
Definition on_time (since until : Z) (tr : transfer) : Prop :=
  Forall (λ d, d_time d ≤ until)%Z (t_deliveries tr) ∧ (since ≤ t_done tr)%Z.

Lemma up_in_time until w t : up_until until w → (t ≤ until)%Z → in_time w t.
Proof.
  intros (Hst & Hfd & _ & _ & Hs & Hr) Ht. split; [done|]. rewrite Hst. split; [done|]. lia.
Qed.

(** What a forwarded message calls. *)
Definition message_events (t : tree) (m : message) : list event :=
  let '(topic, payload, _) := m in
  map (λ cb, EvMessage cb topic payload) (match_topic topic t).

Definition processed (w : World) (m : message) (done : Z) (os : list reply) : World :=
  w <| w_os := os |>
    <| w_trace ::= λ t, t ++ message_events (m_subscriptions (w_impl w)) m |>
    <| w_conn ::= λ c, c <| m_last_received_packet := done |> |>.

Lemma recvLoop_message m tr until os w :
  up_until until w → fits m → carries tr (forwarded_frame m) →
  Forall (λ d, d_time d ≤ until)%Z (t_deliveries tr) →
  w_os w = transfers [tr] os →
  Connection_recvLoop w = Done true (processed w m (t_done tr) os).
Proof.
  destruct m as [[topic payload] retain].
  intros Hup [Ht Hb] (flags & body & Heq & Hf & _ & Hd & Hbody & Hne) Htime Hos.
  apply frame_inj in Heq as [<- <-].
  rewrite (recvLoop_frame PUBLISH 0 (t_header tr) (t_length tr) (t_body tr)
    (RNow (t_done tr) :: os)); [|done| | | | |exact Hos]; rewrite ?Hbody; [|done..|].
  2:{ eapply Forall_impl; [exact Htime|]. intros d Hd1. by eapply up_in_time. }
  unfold process. destruct Hup as (_ & _ & Hst & Hj & _).
  erewrite bind_done.
  2:{ rewrite dispatch_refines.
      2:{ apply Forall_app. split; [by apply wire_string_bytes|apply bytes_of_string_bytes]. }
      cbn [dispatch_spec]. unfold publish_body. rewrite parse_wire_string by done.
      erewrite bind_done by (by apply messageReceived_eq). reflexivity. }
  cbn [negb]. erewrite bind_done by (by eapply syscall_eq).
  by rewrite string_of_bytes_of_string.
Qed.

Lemma runRead_messages ms trs since until os w :
  up_until until w →
  (until ≤ since + ns_of_ms (Z.quot (m_keep_alive_interval (w_impl w) * 15) 10))%Z →
  Forall fits ms → Forall2 (λ tr m, carries tr (forwarded_frame m)) trs ms →
  Forall (on_time since until) trs → w_os w = transfers trs os →
  ∃ w', runRead (length trs) w = Done false w' ∧ w_impl w' = w_impl w ∧
    w_trace w' = w_trace w ++ flat_map (message_events (m_subscriptions (w_impl w))) ms.
Proof.
  intros Hup Hsince Hfits Hcarry. revert w Hup Hsince Hfits.
  induction Hcarry as [|tr m trs ms Htr _ IH]; intros w Hup Hsince Hfits Htime Hos.
  { exists w. split; [done|]. split; [done|]. by rewrite app_nil_r. }
  apply Forall_cons in Hfits as [Hfit Hfits], Htime as [[Ht1 Ht2] Htime].
  destruct (IH (processed w m (t_done tr) (transfers trs os))) as (w' & Hrun & Hi & Htr');
    [|exact Hsince|done..|].
  { destruct Hup as (? & ? & ? & ? & ? & _). unfold up_until, processed; cbn. split_and!; lia || done. }
  exists w'. split; [|split; [exact Hi|]].
  - cbn [length runRead]. unfold runRead_step, get_conn.
    rewrite (bind_done _ _ _ true (processed w m (t_done tr) (transfers trs os)));
      [exact Hrun|]. erewrite bind_done by done.
    pose proof Hup as (Hst & _). rewrite Hst.
    by rewrite (bind_done _ _ _ _ _ (recvLoop_message m tr until (transfers trs os) w
      Hup Hfit Htr Ht1 Hos)).
  - rewrite Htr'. unfold processed; cbn. by rewrite <-app_assoc.
Qed.

(** ** The broker

    What it forwards to a client is a function of the client's topic filters
    and of the bytes the publisher sent. *)

Definition wanted (filters : list string) (m : message) : Prop :=
  Exists (λ f, mqtt_match (levels f) (levels m.1.1)) filters.
#[export] Instance wanted_dec filters m : Decision (wanted filters m).
Proof. unfold wanted. apply _. Defined.

(** ** Property *)

(** C1: messages published on one client reach the callbacks of another.  The
    publisher is connected and has room in its send queue: every call returns
    [true] and the write thread sends exactly the PUBLISH frames, in order, in
    whatever pieces [::send] takes them.  A broker that forwards to the
    subscriber the messages one of its filters matches, in order and without
    the retain flag, delivers them in whatever pieces the network makes: the
    read thread calls for each of them, in order, the callbacks that the tree
    holds for its topic, once each, and nothing else happens. *)
Theorem publish_reaches_subscribers (broker : list string → list Z → list (list Z))
    wa wb ms pieces trs os_a os_b until :
  m_state (w_impl wa) = CONNECTED → m_connection (w_impl wa) = true →
  m_cstate (w_conn wa) = CState.CONNECTED → m_send_queue (w_conn wa) = [] →
  Forall fits ms → length ms ≤ room wa →
  Forall2 in_pieces (map queued_packet ms) pieces → w_os wa = takes_all pieces os_a →
  let filters := m_subscription_topics (w_impl wb) in
  let bytes := concat (map sent_frame ms) in
  let delivered := filter (wanted filters) ms in
  broker filters bytes = map forwarded_frame delivered →
  up_until until wb → w_os wb = transfers trs os_b →
  Forall2 carries trs (broker filters bytes) →
  Forall (on_time (m_last_received_packet (w_conn wb)) until) trs →
  ∃ wa1 wa2 wb1,
    publish_all ms wa = Done true wa1 ∧
    runWrite (length ms) wa1 = Done false wa2 ∧
    sent_bytes (w_trace wa2) = sent_bytes (w_trace wa) ++ bytes ∧
    runRead (length trs) wb = Done false wb1 ∧ w_impl wb1 = w_impl wb ∧
    w_trace wb1 = w_trace wb ++
      flat_map (message_events (m_subscriptions (w_impl wb))) delivered.
Proof.
  intros Hst Hc Hcst Hq Hfits Hroom Hpieces Hosa filters bytes delivered Hbroker
    Hup Hosb Hcarry Htime.
  destruct (wp_total _ _ _ (wp_publish_all ms wa Hst Hc Hroom)) as (ok & wa1 & Hpub & -> & Hwa1).
  assert (wp (λ _, False) (runWrite (length (map queued_packet ms) + 0))
    (λ ended w, ended = false ∧ sent_bytes (w_trace w) = sent_bytes (w_trace wa) ++ bytes) wa1)
    as Hwrite.
  { subst wa1. apply (wp_send_all _ pieces os_a); [done| |done..|].
    - cbn. by rewrite Hq.
    - intros w' Hs _ _ _ _ _. apply wp_ret. split; [done|]. rewrite Hs. cbn. f_equal.
      unfold bytes. rewrite map_map. f_equal. apply map_ext_in. intros m Hm.
      apply wire_queued_packet. rewrite Forall_forall in Hfits.
      by apply Hfits, list_elem_of_In. }
  rewrite length_map, Nat.add_0_r in Hwrite.
  destruct (wp_total _ _ _ Hwrite) as (ended & wa2 & Hrun & -> & Hsent).
  destruct (runRead_messages delivered trs (m_last_received_packet (w_conn wb)) until os_b wb)
    as (wb1 & Hread & Himpl & Htrace); [done|apply Hup| | |done..|].
  { apply Forall_forall. intros m [_ Hm]%list_elem_of_filter. revert m Hm.
    by apply Forall_forall. }
  { rewrite Hbroker in Hcarry. exact (proj1 (Forall2_fmap_r _ _ _ _) Hcarry). }
  exists wa1, wa2, wb1. by split_and!.
Qed.

(** ** The property at a concrete state *)

(** A publisher with a CONNECTED connection, and a subscriber to ["a/#"]. *)
Definition publisher (os : list reply) : World := receiving_world os.
Definition subscriber (os : list reply) : World :=
  after (OpSubscribe "a/#" 7) (receiving_world []) <| w_os := os |>.

(** A broker for the bytes of one message: it clears the flags of the first
    byte, if a filter matches the topic. *)
Definition one_message_broker (topic : string) (filters : list string) (bytes : list Z)
    : list (list Z) :=
  if decide (wanted filters (topic, "", false))
  then [Z.land (hd 0%Z bytes) 0xF0 :: tail bytes] else [].

Definition example_transfer : transfer :=
  mkTransfer (mkDelivery 1 5 [48%Z]) [mkDelivery 0 5 [7%Z]]
    [mkDelivery 2 6 [0; 3]%Z; mkDelivery 0 6 [97; 47; 98; 104; 105]%Z] 7.

Lemma publish_reaches_subscribers_witness :
  ∃ w, runRead 1 (subscriber (transfers [example_transfer] [])) = Done false w ∧
    w_trace w = w_trace (subscriber []) ++ [EvMessage 7 "a/b" "hi"].
Proof.
  destruct (publish_reaches_subscribers (one_message_broker "a/b")
    (publisher (takes_all [([4; 5], 9%Z)] [])) (subscriber (transfers [example_transfer] []))
    [("a/b", "hi", true)] [([4; 5], 9%Z)] [example_transfer] [] [] 100)
    as (wa1 & wa2 & wb1 & _ & _ & _ & Hrun & _ & Htr); try reflexivity.
  - repeat constructor; discriminate.
  - repeat constructor; apply Nat.leb_le; reflexivity.
  - split_and!; try reflexivity; vm_compute; discriminate.
  - constructor; [|constructor]. exists 0%Z, (publish_body "a/b" "hi").
    split_and!; try reflexivity; try (vm_compute; discriminate). repeat constructor; discriminate.
  - repeat constructor; vm_compute; discriminate.
  - exists wb1. split; [exact Hrun|]. rewrite Htr. reflexivity.
Defined.
