(* ===== verification/Threads.v ===== *)
(** * The threads, one access at a time

    The read thread, the write thread and a user's thread in [disconnect],
    interleaved at every access to what they share: the state of the
    connection, which no mutex protects, the two mutexes, the condition
    variable, the send queue, [m_socket] and [m_connection].  What they compute
    from data of their own is a choice ([outcome]); restoring subscriptions never
    fails here (where it does, it ends the program, see [ClientSpec]).  The
    comments give the lines of [src/Connection.cpp], or of [src/Packet.cpp] where
    marked [P].

    Here one sees what [World.v], where other threads only run during system
    calls, cannot show: the windows between a test and the assignment that
    follows it. *)

From S2P Require Export World.
From stdpp Require Export relations.

(** ** Program points *)

(** Why the read thread takes [m_state_mutex]. *)
Inductive lock_for :=
  | ForConnected      (** [connectionStateChange(true)] *)
  | ForDisconnected   (** [connectionStateChange(false)] *)
  | ForMessage.       (** [messageReceived] *)

(** Where the read thread is: about to execute the line. *)
Inductive reader_pc :=
  | RLoop             (** 69: the [switch] on the state *)
  | RResolve          (** 71: in [resolve], before line 289 *)
  | RResolved         (** 289: tests for STOP *)
  | RSetConnecting    (** 291 *)
  | RConnect          (** 79: in [connectToAny], before line 422 *)
  | RConnected        (** 422: tests for STOP *)
  | RSetAuth          (** 424 *)
  | RSendConnect      (** 425: CONNECT is put on the send queue *)
  | RSetBackoff       (** 74, 81 *)
  | RSleep            (** 88 *)
  | RSlept            (** 90: tests for STOP *)
  | RSetResolving     (** 102 *)
  | RSelect           (** P25-27: [FD_SET] and [select] *)
  | RSelected         (** P29: tests for SOCKET_ERROR and STOP *)
  | RRead             (** P67 and what [recvLoop] makes of it *)
  | RPing             (** P48: PINGREQ is put on the send queue *)
  | RSetConnected     (** P173 *)
  | RLock (k : lock_for)
  | RLocked (k : lock_for)
  | RFailed           (** 110: tests for STOP *)
  | RSetError         (** 195, from line 114 *)
  | RTestSocket       (** 196 *)
  | RClose            (** 198 *)
  | RForget           (** 199 *)
  | RSetRetry         (** 120 *)
  | RClear            (** 125: clears the send queue *)
  | RStopTest         (** 131 *)
  | RStopClose        (** 133 *)
  | RStopForget       (** 134 *)
  | RDone.            (** 136 *)

Inductive writer_pc :=
  | WLoop             (** 168: the [switch] on the state *)
  | WSleep            (** 187 *)
  | WLock             (** 143: takes the mutex of the queue *)
  | WTest             (** 144: pops a packet, if there is one *)
  | WPredicate        (** 152: evaluates the predicate of the wait *)
  | WBlock            (** 151: the predicate was false; about to wait *)
  | WWaiting          (** 151: waits, without the mutex *)
  | WWoken            (** 151: woken, takes the mutex again *)
  | WReady            (** 154: tests for STOP *)
  | WFront            (** 159: pops a packet *)
  | WSend             (** P299: tests for AUTHENTICATING and CONNECTED *)
  | WSending          (** P314: the loop of [::send] *)
  | WDeref            (** P320: [m_impl.m_connection->] *)
  | WSetError         (** 195 *)
  | WTestSocket       (** 196 *)
  | WClose            (** 198 *)
  | WForget           (** 199 *)
  | WDone.            (** 183 *)

(** [Client::disconnect] and [~Connection]. *)
Inductive user_pc :=
  | UIdle
  | ULocked           (** has taken [m_state_mutex]; sets the client's state *)
  | UReset            (** 506: [m_connection] becomes null *)
  | USetStop          (** 35 *)
  | UNotify           (** 36 *)
  | UJoinRead         (** 41 *)
  | UJoinWrite        (** 45 *)
  | UUnlock
  | UDone.

(** What ends the program in undefined behaviour. *)
Inductive race :=
  | EmptyQueue        (** [front()] of an empty queue *)
  | NullConnection    (** [m_connection->] of a null pointer *)
  | DoubleClose       (** a descriptor is closed that is no longer open *)
  | NoSocket.         (** [FD_SET] of INVALID_SOCKET *)

Record threads := mkThreads {
  t_state : CState.t;     (** [Connection::m_state] *)
  t_client : State;       (** [Impl::m_state] *)
  t_connection : bool;    (** [m_connection] is not null *)
  t_queue : nat;          (** the number of packets on the send queue *)
  t_socket : bool;        (** [m_socket] is not INVALID_SOCKET *)
  t_open : bool;          (** and its descriptor is open *)
  t_reader : reader_pc;
  t_writer : writer_pc;
  t_user : user_pc;
  t_race : option race
}.

#[export] Instance eta_threads : Eta threads := λ s,
  mkThreads (t_state s) (t_client s) (t_connection s) (t_queue s) (t_socket s) (t_open s)
    (t_reader s) (t_writer s) (t_user s) (t_race s).

#[export] Instance lock_for_eq_dec : EqDecision lock_for.
Proof. solve_decision. Defined.
#[export] Instance reader_pc_eq_dec : EqDecision reader_pc.
Proof. solve_decision. Defined.
#[export] Instance writer_pc_eq_dec : EqDecision writer_pc.
Proof. solve_decision. Defined.
#[export] Instance user_pc_eq_dec : EqDecision user_pc.
Proof. solve_decision. Defined.
#[export] Instance race_eq_dec : EqDecision race.
Proof. solve_decision. Defined.

(** A connection that [connect] has just made. *)
Definition started : threads :=
  mkThreads CState.RESOLVING CONNECTING true 0 false false RLoop WLoop UIdle None.

(** ** The mutexes *)

Definition reader_has_state (pc : reader_pc) : bool :=
  match pc with RLocked _ => true | _ => false end.
Definition user_has_state (pc : user_pc) : bool :=
  match pc with UIdle | UDone => false | _ => true end.
(** Only the write thread holds the mutex of the queue for more than a step. *)
Definition writer_has_queue (pc : writer_pc) : bool :=
  match pc with WTest | WPredicate | WBlock | WReady | WFront => true | _ => false end.

(** [m_send_queue_cv.notify_one()]. *)
Definition notify (s : threads) : threads :=
  match t_writer s with WWaiting => s <| t_writer := WWoken |> | _ => s end.

(** [send]: a packet is put on the queue, under its mutex; [None] when another
    thread holds it. *)
Definition push (s : threads) : option threads :=
  if writer_has_queue (t_writer s) then None else Some (notify (s <| t_queue ::= S |>)).

(** ** Steps *)

(** What the blocking operations of a thread result in. *)
Inductive outcome :=
  | Ok            (** resolved; connected; sent; the packet needs no more *)
  | Failed        (** not resolved; not connected; read or write error *)
  | Again         (** attempts are pending; more bytes are needed *)
  | GotConnack    (** the broker accepted the connection *)
  | GotMessage    (** a PUBLISH *)
  | PingDue.      (** the keep-alive interval has passed *)

Definition reader_step (o : outcome) (s : threads) : option threads :=
  let go pc := Some (s <| t_reader := pc |>) in
  let set st pc := Some (s <| t_state := st |> <| t_reader := pc |>) in
  match t_reader s with
  | RLoop =>
      go match t_state s with
         | CState.RESOLVING => RResolve
         | CState.CONNECTING => RConnect
         | CState.BACKOFF => RSleep
         | CState.AUTHENTICATING | CState.CONNECTED => RSelect
         | CState.SOCKET_ERROR => RSetRetry
         | CState.STOP => RStopTest
         end
  | RResolve =>
      let s := s <| t_socket := false |> in
      match o with
      | Ok => Some (s <| t_reader := RResolved |>)
      | Failed => Some (s <| t_reader := RSetBackoff |>)
      | _ => None
      end
  | RResolved => go (if decide (t_state s = CState.STOP) then RLoop else RSetConnecting)
  | RSetConnecting => set CState.CONNECTING RLoop
  | RConnect =>
      match o with
      | Ok => Some (s <| t_socket := true |> <| t_open := true |> <| t_reader := RConnected |>)
      | Failed => go RSetBackoff
      | Again => go RLoop
      | _ => None
      end
  | RConnected => go (if decide (t_state s = CState.STOP) then RLoop else RSetAuth)
  | RSetAuth => set CState.AUTHENTICATING RSendConnect
  | RSendConnect => s ← push s; Some (s <| t_reader := RLoop |>)
  | RSetBackoff => set CState.BACKOFF RLoop
  | RSleep => go RSlept
  | RSlept => go (if decide (t_state s = CState.STOP) then RLoop else RSetResolving)
  | RSetResolving => set CState.RESOLVING RLoop
  | RSelect =>
      if t_socket s then go RSelected else Some (s <| t_race := Some NoSocket |>)
  | RSelected =>
      go (if decide (t_state s = CState.SOCKET_ERROR ∨ t_state s = CState.STOP)
          then RFailed else RRead)
  | RRead =>
      match o with
      | Ok => go RLoop
      | Failed => go RFailed
      | Again => go RSelect
      | GotConnack => go RSetConnected
      | GotMessage => go (RLock ForMessage)
      | PingDue => go RPing
      end
  | RPing => s ← push s; Some (s <| t_reader := RRead |>)
  | RSetConnected => set CState.CONNECTED (RLock ForConnected)
  | RLock k => if user_has_state (t_user s) then None else go (RLocked k)
  | RLocked ForConnected =>
      let s := s <| t_client := CONNECTED |> in
      match o with
      | Again => push s (** restores a subscription, or flushes a message *)
      | _ => Some (s <| t_reader := RLoop |>)
      end
  | RLocked ForDisconnected =>
      Some (s <| t_client := CONNECTING |> <| t_reader := RClear |>)
  | RLocked ForMessage => go RLoop
  | RFailed => go (if decide (t_state s = CState.STOP) then RLoop else RSetError)
  | RSetError => set CState.SOCKET_ERROR RTestSocket
  | RTestSocket => go (if t_socket s then RClose else RLoop)
  | RClose =>
      if t_open s then Some (s <| t_open := false |> <| t_reader := RForget |>)
      else Some (s <| t_race := Some DoubleClose |>)
  | RForget => Some (s <| t_socket := false |> <| t_reader := RLoop |>)
  | RSetRetry => set CState.BACKOFF (RLock ForDisconnected)
  | RClear =>
      if writer_has_queue (t_writer s) then None
      else Some (s <| t_queue := 0 |> <| t_reader := RLoop |>)
  | RStopTest => go (if t_socket s then RStopClose else RDone)
  | RStopClose =>
      if t_open s then Some (s <| t_open := false |> <| t_reader := RStopForget |>)
      else Some (s <| t_race := Some DoubleClose |>)
  | RStopForget => Some (s <| t_socket := false |> <| t_reader := RDone |>)
  | RDone => None
  end.

Definition writer_step (o : outcome) (s : threads) : option threads :=
  let go pc := Some (s <| t_writer := pc |>) in
  match t_writer s with
  | WLoop =>
      go match t_state s with
         | CState.AUTHENTICATING | CState.CONNECTED => WLock
         | CState.STOP => WDone
         | _ => WSleep
         end
  | WSleep => go WLoop
  | WLock => go WTest
  | WTest =>
      match t_queue s with
      | O => go WPredicate
      | S n => Some (s <| t_queue := n |> <| t_writer := WSend |>)
      end
  | WPredicate =>
      go (if decide (t_queue s ≠ 0 ∨ t_state s = CState.STOP) then WReady else WBlock)
  | WBlock => go WWaiting
  | WWaiting => None
  | WWoken => go WPredicate
  | WReady => go (if decide (t_state s = CState.STOP) then WLoop else WFront)
  | WFront =>
      match t_queue s with
      | O => Some (s <| t_race := Some EmptyQueue |>)
      | S n => Some (s <| t_queue := n |> <| t_writer := WSend |>)
      end
  | WSend =>
      go match t_state s with
         | CState.AUTHENTICATING | CState.CONNECTED => WSending
         | _ => WLoop
         end
  | WSending => match o with Ok => go WLoop | Failed => go WDeref | _ => None end
  | WDeref =>
      if t_connection s then go WSetError else Some (s <| t_race := Some NullConnection |>)
  | WSetError => Some (s <| t_state := CState.SOCKET_ERROR |> <| t_writer := WTestSocket |>)
  | WTestSocket => go (if t_socket s then WClose else WLoop)
  | WClose =>
      if t_open s then Some (s <| t_open := false |> <| t_writer := WForget |>)
      else Some (s <| t_race := Some DoubleClose |>)
  | WForget => Some (s <| t_socket := false |> <| t_writer := WLoop |>)
  | WDone => None
  end.

Definition user_step (s : threads) : option threads :=
  let go pc := Some (s <| t_user := pc |>) in
  match t_user s with
  | UIdle => if reader_has_state (t_reader s) then None else go ULocked
  | ULocked => Some (s <| t_client := DISCONNECTED |> <| t_user := UReset |>)
  | UReset => Some (s <| t_connection := false |> <| t_user := USetStop |>)
  | USetStop => Some (s <| t_state := CState.STOP |> <| t_user := UNotify |>)
  | UNotify => Some (notify (s <| t_user := UJoinRead |>))
  | UJoinRead => if decide (t_reader s = RDone) then go UJoinWrite else None
  | UJoinWrite => if decide (t_writer s = WDone) then go UUnlock else None
  | UUnlock => go UDone
  | UDone => None
  end.

(** Another thread calls [publish] while the client is connected. *)
Definition publish_step (s : threads) : option threads :=
  if user_has_state (t_user s) || reader_has_state (t_reader s) then None
  else if decide (t_client s = CONNECTED) then push s else None.

Inductive label :=
  | ByReader (o : outcome) | ByWriter (o : outcome) | ByUser | ByPublisher.

Definition step (l : label) (s : threads) : option threads :=
  match t_race s with
  | Some _ => None
  | None =>
      match l with
      | ByReader o => reader_step o s
      | ByWriter o => writer_step o s
      | ByUser => user_step s
      | ByPublisher => publish_step s
      end
  end.

Inductive threads_step (s s' : threads) : Prop :=
  | by_label l : step l s = Some s' → threads_step s s'.

(** An execution given by who moves. *)
Fixpoint run (ls : list label) (s : threads) : option threads :=
  match ls with [] => Some s | l :: ls => s ← step l s; run ls s end.

Lemma run_steps ls s s' : run ls s = Some s' → rtc threads_step s s'.
Proof.
  revert s. induction ls as [|l ls IH]; intros s; cbn [run]; [by intros [= ->]|].
  destruct (step l s) as [s1|] eqn:Hs; [|done]. intros Hrun.
  eapply rtc_l; [by eapply by_label|by apply IH].
Qed.

(** Nothing can move any more. *)
Definition stuck (s : threads) : Prop := ∀ s', ¬ threads_step s s'.
