(* ===== verification/ThreadsSpec.v ===== *)
(** * What [disconnect] can meet

    Of the threads of [Threads.v]: every deadlock, every way to lose a request
    to stop, and which races end in undefined behaviour. *)

From S2P Require Export Threads.

(** Case analysis on a step of [s]: one goal for each way [H] can hold. *)
Ltac label_cases l s H :=
  destruct s as [st cl co qu so op re wr us ra]; destruct l as [o|o| | ];
  cbn in H; (destruct ra; [discriminate H|]);
  [destruct re|destruct wr|destruct us|];
  cbn in H; unfold publish_step, push, notify in H; try discriminate H;
  repeat (match type of H with context [match ?x with _ => _ end] => destruct x eqn:? end;
          cbn in H; try discriminate H);
  injection H as <-; cbn in *; subst.

Ltac step_cases s H := let l := fresh "l" in destruct H as [l H]; label_cases l s H.

(** ** The user's thread joins in order *)

(** After joining a thread, that thread has ended; while it is joined, the
    connection is null. *)
Definition joined (s : threads) : Prop :=
  match t_user s with
  | UJoinWrite => t_reader s = RDone
  | UUnlock | UDone => t_reader s = RDone ∧ t_writer s = WDone
  | _ => True
  end.

Lemma joined_step s s' : joined s → threads_step s s' → joined s'.
Proof.
  unfold joined. intros Hs H. step_cases s H; repeat case_match; naive_solver.
Qed.

Definition reachable (s : threads) : Prop := rtc threads_step started s.

(** Where an execution from the start leads. *)
Definition after (ls : list label) : threads := default started (run ls started).

Lemma reached_after ls : reachable (after ls).
Proof.
  unfold reachable, after. destruct (run ls started) eqn:Hrun; [|done].
  by eapply run_steps.
Qed.

Lemma rtc_preserves (P : threads → Prop) s s' :
  (∀ s s', P s → threads_step s s' → P s') → P s → rtc threads_step s s' → P s'.
Proof. intros Hstep HP Hs. induction Hs; eauto. Qed.

Lemma reachable_joined s : reachable s → joined s.
Proof. apply rtc_preserves; [exact joined_step|done]. Qed.

(** ** Deadlocks *)

(** [disconnect] holds the state mutex and waits for the read thread, which
    waits for that mutex. *)
Definition state_mutex_deadlock (s : threads) : Prop :=
  t_user s = UJoinRead ∧ ∃ k, t_reader s = RLock k.

(** [disconnect] waits for the write thread, which waits for a notification
    nobody is left to give. *)
Definition notification_deadlock (s : threads) : Prop :=
  t_user s = UJoinWrite ∧ t_reader s = RDone ∧ t_writer s = WWaiting.

(** The read thread can move, unless it has ended, or waits for a mutex. *)
Lemma reader_moves s :
  t_race s = None → stuck s →
  t_reader s = RDone ∨ (∃ k, t_reader s = RLock k ∧ user_has_state (t_user s) = true)
  ∨ writer_has_queue (t_writer s) = true.
Proof.
  intros Hrace Hstuck.
  assert (Hno : ∀ o, reader_step o s = None).
  { intros o. destruct (reader_step o s) eqn:Hs; [|done].
    destruct (Hstuck t). apply (by_label _ _ (ByReader o)). by unfold step; rewrite Hrace. }
  pose proof (Hno Ok) as Hok. pose proof (Hno Failed) as Hfailed.
  unfold reader_step, push in *.
  destruct (writer_has_queue (t_writer s)); [by auto|].
  destruct (t_reader s) eqn:Hr; simplify_option_eq; repeat case_match; simplify_eq; eauto 6.
Qed.

Lemma writer_moves s :
  t_race s = None → stuck s → t_writer s = WWaiting ∨ t_writer s = WDone.
Proof.
  intros Hrace Hstuck.
  assert (Hok : writer_step Ok s = None).
  { destruct (writer_step Ok s) eqn:Hs; [|done].
    destruct (Hstuck t). apply (by_label _ _ (ByWriter Ok)). by unfold step; rewrite Hrace. }
  unfold writer_step in Hok.
  destruct (t_writer s); repeat case_match; simplify_eq; auto.
Qed.

Lemma user_moves s :
  t_race s = None → stuck s →
  (t_user s = UIdle ∧ reader_has_state (t_reader s) = true)
  ∨ (t_user s = UJoinRead ∧ t_reader s ≠ RDone)
  ∨ (t_user s = UJoinWrite ∧ t_writer s ≠ WDone) ∨ t_user s = UDone.
Proof.
  intros Hrace Hstuck.
  assert (Hno : user_step s = None).
  { destruct (user_step s) eqn:Hs; [|done].
    destruct (Hstuck t). apply (by_label _ _ ByUser). by unfold step; rewrite Hrace. }
  unfold user_step, notify in Hno.
  destruct (t_user s); repeat case_match; simplify_option_eq; eauto 6.
Qed.

(** What stops before [disconnect] has returned is one of the two deadlocks. *)
Lemma stuck_cases s :
  joined s → t_race s = None → stuck s →
  (t_user s = UDone ∧ t_reader s = RDone ∧ t_writer s = WDone)
  ∨ state_mutex_deadlock s ∨ notification_deadlock s.
Proof.
  intros Hj Hrace Hstuck. unfold joined in Hj.
  pose proof (reader_moves s Hrace Hstuck) as Hr.
  pose proof (writer_moves s Hrace Hstuck) as Hw.
  pose proof (user_moves s Hrace Hstuck) as Hu.
  unfold state_mutex_deadlock, notification_deadlock.
  destruct Hw as [Hw|Hw], Hu as [[Hu Hk]|[[Hu Hk]|[[Hu Hk]|Hu]]];
    rewrite Hu, ?Hw in *; simpl in *;
    destruct Hr as [Hr|[(k&Hr&?)|?]]; rewrite ?Hr in *; naive_solver.
Qed.

Lemma state_mutex_deadlock_stays s s' :
  state_mutex_deadlock s → threads_step s s' → state_mutex_deadlock s'.
Proof.
  intros [Hu [k Hk]] H. unfold state_mutex_deadlock.
  step_cases s H; naive_solver.
Qed.

Lemma notification_deadlock_stays s s' :
  notification_deadlock s → threads_step s s' → notification_deadlock s'.
Proof.
  intros (Hu&Hr&Hw) H. unfold notification_deadlock.
  step_cases s H; naive_solver.
Qed.

(** Executions to a point: resolved, connected, and about to read. *)
Definition reads (n : nat) : list label := replicate n (ByReader Ok).
Definition writes (n : nat) : list label := replicate n (ByWriter Ok).
Definition disconnects (n : nat) : list label := replicate n ByUser.

Definition to_read : list label := reads 12.
Definition to_lock (k : lock_for) : list label :=
  match k with
  | ForConnected => to_read ++ [ByReader GotConnack] ++ reads 1
  | ForMessage => to_read ++ [ByReader GotMessage]
  | ForDisconnected => to_read ++ [ByReader Failed] ++ reads 7
  end.

(** The write thread has sent CONNECT and found the queue empty. *)
Definition to_block : list label := reads 9 ++ writes 9.

(** C11 [Connection.cpp:33-47,114,120-122,141-157,174; Client.cpp:139-154]: the
    deadlocks of [disconnect] are these two and no others.  If nothing can move
    any more, then everybody has finished, or undefined behaviour was met, or
    the read thread waits for the state mutex that [disconnect] holds while
    it joins that thread, or the write thread has missed the notification of
    the destructor.  Neither ever resolves, and both can occur: the first one
    for each of the three callbacks that take the mutex. *)
Theorem deadlocks :
  (∀ s, reachable s → stuck s →
    t_race s ≠ None
    ∨ (t_user s = UDone ∧ t_reader s = RDone ∧ t_writer s = WDone)
    ∨ state_mutex_deadlock s ∨ notification_deadlock s)
  ∧ (∀ s s', state_mutex_deadlock s ∨ notification_deadlock s →
      rtc threads_step s s' → t_user s' = t_user s)
  ∧ (∀ k, ∃ s, reachable s ∧ t_user s = UJoinRead ∧ t_reader s = RLock k)
  ∧ (∃ s, reachable s ∧ notification_deadlock s).
Proof.
  split_and!.
  - intros s Hs Hstuck. destruct (t_race s) eqn:Hrace; [by left|right].
    apply stuck_cases; auto using reachable_joined.
  - intros s s' [Hd|Hd] Hs.
    + destruct (rtc_preserves _ _ _ state_mutex_deadlock_stays Hd Hs), Hd; congruence.
    + destruct (rtc_preserves _ _ _ notification_deadlock_stays Hd Hs), Hd; congruence.
  - intros k. exists (after (to_lock k ++ disconnects 5)).
    split; [apply reached_after|]. destruct k; by vm_compute.
  - exists (after (to_block ++ disconnects 5 ++ writes 1 ++ reads 4 ++ disconnects 1)).
    split; [apply reached_after|]. by vm_compute.
Qed.

(** ** Lost requests to stop *)

(** Between a test of [m_state] and the assignment that follows it. *)
Definition reader_overwrites (pc : reader_pc) : bool :=
  match pc with
  | RSetConnecting | RSetAuth | RSetBackoff | RSetResolving | RSetConnected
  | RSetError | RSetRetry => true
  | _ => false
  end.

Definition overwrites (s : threads) : Prop :=
  reader_overwrites (t_reader s) = true ∨ t_writer s = WSetError.

(** The read thread has seen the request to stop. *)
Definition reader_stops (pc : reader_pc) : bool :=
  match pc with RStopTest | RStopClose | RStopForget | RDone => true | _ => false end.

(** The request to stop was made, and is gone before the read thread saw it. *)
Definition stop_lost (s : threads) : Prop :=
  (t_user s = UNotify ∨ t_user s = UJoinRead) ∧ t_state s ≠ CState.STOP
  ∧ reader_stops (t_reader s) = false.

Lemma stop_lost_stays s s' : stop_lost s → threads_step s s' → stop_lost s'.
Proof.
  intros ([Hu|Hu]&Hs&Hr) H; unfold stop_lost;
    step_cases s H; naive_solver.
Qed.

Lemma stop_taken_away s s' :
  threads_step s s' → t_state s = CState.STOP → t_state s' ≠ CState.STOP → overwrites s.
Proof.
  intros H Hs Hs'. unfold overwrites.
  step_cases s H; auto; congruence.
Qed.

(** An execution to each of the windows. *)
Definition to_window (pc : reader_pc) : list label :=
  match pc with
  | RSetConnecting => reads 3
  | RSetAuth => reads 7
  | RSetBackoff => reads 1 ++ [ByReader Failed]
  | RSetResolving => reads 1 ++ [ByReader Failed] ++ reads 4
  | RSetConnected => to_read ++ [ByReader GotConnack]
  | RSetError => to_read ++ [ByReader Failed] ++ reads 1
  | RSetRetry => to_read ++ [ByReader Failed] ++ reads 6
  | _ => []
  end.

Definition to_failed_send : list label := reads 9 ++ writes 4 ++ [ByWriter Failed] ++ writes 1.

(** C28 [Connection.cpp:35,74,81,102,120,195,291,424; Packet.cpp:173]: the state
    is not protected by the state mutex or any other, so [STOP] can be
    overwritten by a thread that tested the state before.  When that happens
    before the read thread has seen it, [disconnect] never returns.  Only these
    eight assignments can do it, and each of them can. *)
Theorem lost_stop_never_returns :
  (∀ s s', stop_lost s → rtc threads_step s s' →
    t_user s' = UNotify ∨ t_user s' = UJoinRead)
  ∧ (∀ s s', threads_step s s' → t_state s = CState.STOP → t_state s' ≠ CState.STOP →
      overwrites s)
  ∧ (∀ pc, reader_overwrites pc = true →
      ∃ s s', reachable s ∧ t_reader s = pc ∧ t_state s = CState.STOP
        ∧ t_user s = UJoinRead ∧ threads_step s s' ∧ stop_lost s')
  ∧ (∃ s s', reachable s ∧ t_writer s = WSetError ∧ t_state s = CState.STOP
        ∧ t_user s = UJoinRead ∧ threads_step s s' ∧ stop_lost s').
Proof.
  split_and!.
  - intros s s' Hs Hrtc. by destruct (rtc_preserves _ _ _ stop_lost_stays Hs Hrtc).
  - exact stop_taken_away.
  - intros pc Hpc.
    exists (after (to_window pc ++ disconnects 5)),
           (after (to_window pc ++ disconnects 5 ++ reads 1)).
    split; [apply reached_after|].
    destruct pc; try discriminate Hpc; (do 3 (split; [by vm_compute|]);
      split; [apply (by_label _ _ (ByReader Ok)); by vm_compute|vm_compute; naive_solver]).
  - exists (after (to_failed_send ++ disconnects 5)),
           (after (to_failed_send ++ disconnects 5 ++ writes 1)).
    split; [apply reached_after|]. do 3 (split; [by vm_compute|]).
    split; [apply (by_label _ _ (ByWriter Ok)); by vm_compute|vm_compute; naive_solver].
Qed.

(** ** Races *)

(** Not a failure of [::send]: the write thread does not go to
    [socketError]. *)
Definition no_failed_send (l : label) : Prop := l ≠ ByWriter Failed.

Definition online (st : CState.t) : bool :=
  match st with CState.AUTHENTICATING | CState.CONNECTED => true | _ => false end.

(** Where the read thread has a socket. *)
Definition reader_has_socket (pc : reader_pc) : bool :=
  match pc with
  | RConnected | RSetAuth | RSendConnect | RSelect | RSelected | RRead | RPing
  | RSetConnected | RLock (ForConnected | ForMessage) | RLocked (ForConnected | ForMessage)
  | RClose | RForget | RStopClose | RStopForget => true
  | _ => false
  end.

(** Where the connection cannot be online. *)
Definition reader_offline (pc : reader_pc) : bool :=
  match pc with
  | RResolve | RResolved | RSetConnecting | RConnect | RSetBackoff | RSleep | RSlept
  | RSetResolving | RTestSocket | RClose | RForget | RSetRetry
  | RLock ForDisconnected | RLocked ForDisconnected | RClear
  | RStopTest | RStopClose | RStopForget | RDone => true
  | _ => false
  end.

Definition writer_errs (pc : writer_pc) : bool :=
  match pc with WDeref | WSetError | WTestSocket | WClose | WForget => true | _ => false end.

(** The descriptor is open wherever it is used. *)
Definition sockets_ok (s : threads) : Prop :=
  writer_errs (t_writer s) = false
  ∧ (reader_has_socket (t_reader s) = true → t_socket s = true)
  ∧ (reader_offline (t_reader s) = true → online (t_state s) = false)
  ∧ (online (t_state s) = true → t_socket s = true)
  ∧ (t_socket s = true →
       t_open s = match t_reader s with RForget | RStopForget => false | _ => true end)
  ∧ (t_race s = None ∨ t_race s = Some EmptyQueue).

Lemma sockets_ok_step l s s' :
  no_failed_send l ∨ t_writer s ≠ WSending →
  sockets_ok s → step l s = Some s' → sockets_ok s'.
Proof.
  intros Hl Hs H. unfold no_failed_send, sockets_ok in *. destruct Hs as (?&?&?&?&?&?).
  label_cases l s H; try done; split_and!; try done; repeat case_match; naive_solver.
Qed.

Lemma sockets_ok_run ls s :
  run ls started = Some s → Forall no_failed_send ls → sockets_ok s.
Proof.
  assert (sockets_ok started) as Hs by (unfold sockets_ok; naive_solver).
  revert Hs. generalize started. induction ls as [|l ls IH]; cbn [run]; intros s0 Hs0 Hrun Hls.
  - by injection Hrun as ->.
  - apply Forall_cons in Hls as [Hl Hls].
    destruct (step l s0) as [s1|] eqn:Hl1; [|done].
    apply (IH s1); [|done|done]. eapply sockets_ok_step; eauto.
Qed.

(** The write thread takes a packet from the queue only when there is one, as
    long as [STOP] stays. *)
Definition keeps_stop (s s' : threads) : Prop :=
  threads_step s s' ∧ (t_state s = CState.STOP → t_state s' = CState.STOP).

Definition front_ok (s : threads) : Prop :=
  t_race s ≠ Some EmptyQueue
  ∧ match t_writer s with
    | WReady => t_queue s ≠ 0 ∨ t_state s = CState.STOP
    | WFront => t_queue s ≠ 0
    | _ => True
    end.

Lemma front_ok_step s s' : front_ok s → keeps_stop s s' → front_ok s'.
Proof.
  unfold front_ok, keeps_stop. intros [Hrace Hw] [H Hkeep].
  step_cases s H; split; try done; repeat case_match; naive_solver.
Qed.

Lemma front_ok_rtc s : rtc keeps_stop started s → front_ok s.
Proof.
  assert (front_ok started) as Hs by done. revert Hs. generalize started.
  intros s0 Hs0 Hrtc. induction Hrtc; eauto using front_ok_step.
Qed.

(** An execution to each race. *)
Definition to_race (r : race) : list label :=
  match r with
  | EmptyQueue =>
      to_read ++ writes 8 ++ [ByReader GotConnack] ++ disconnects 4 ++ writes 1 ++ reads 1
        ++ writes 2
  | NullConnection => reads 9 ++ writes 4 ++ disconnects 3 ++ [ByWriter Failed] ++ writes 1
  | DoubleClose =>
      to_read ++ writes 4 ++ [ByWriter Failed] ++ writes 3 ++ [ByReader Failed] ++ reads 3
        ++ writes 1 ++ reads 1
  | NoSocket => reads 9 ++ writes 4 ++ [ByWriter Failed] ++ reads 1 ++ writes 5 ++ reads 1
  end.

(** C27 (flaws) [Connection.cpp:154-160,193-201; Packet.cpp:26,320]: undefined
    behaviour from data races.  Four kinds can occur: [front()] of an empty
    queue, [m_connection->] of the pointer [disconnect] has reset, closing a
    socket twice, and [FD_SET] of a socket the other thread has forgotten.
    Three of them need a failed send, the first one a request to stop that is
    overwritten; an execution with neither is free of them. *)
Theorem races_of_the_threads :
  (∀ r, ∃ s, reachable s ∧ t_race s = Some r)
  ∧ (∀ ls s, run ls started = Some s → Forall no_failed_send ls →
      t_race s = None ∨ t_race s = Some EmptyQueue)
  ∧ (∀ s, rtc keeps_stop started s → t_race s ≠ Some EmptyQueue).
Proof.
  split_and!.
  - intros r. exists (after (to_race r)). split; [apply reached_after|].
    destruct r; by vm_compute.
  - intros ls s Hrun Hls. by apply (sockets_ok_run ls s) in Hls as (?&?&?&?&?&?).
  - intros s Hs. by apply front_ok_rtc in Hs as [? _].
Qed.
