(* ===== verification/Disconnect.v ===== *)
(** * When [disconnect] returns

    For the threads of [Threads.v], from the moment the destructor has requested
    to stop: where they must be for [disconnect] to return, and that it may not
    return from anywhere else. *)

From S2P Require Export ThreadsSpec.

(** ** Invariants *)

(** While the user's thread holds the state mutex, no other has it, and the
    client is disconnected once [disconnect] has said so; it stays so. *)
Definition disconnecting (s : threads) : Prop :=
  (user_has_state (t_user s) = true → reader_has_state (t_reader s) = false)
  ∧ match t_user s with
    | UIdle | ULocked => True
    | UDone => t_client s = DISCONNECTED ∧ t_reader s = RDone
    | _ => t_client s = DISCONNECTED
    end.

Lemma disconnecting_step s s' :
  joined s → disconnecting s → threads_step s s' → disconnecting s'.
Proof.
  unfold joined, disconnecting. intros Hj [Hm Hc] H.
  step_cases s H; split; try done; repeat case_match; naive_solver.
Qed.

Lemma reachable_disconnecting s : reachable s → disconnecting s.
Proof.
  intros Hs. apply (rtc_preserves (λ s, joined s ∧ disconnecting s) started); [|done|done].
  intros s1 s2 [Hj Hd] H. eauto using joined_step, disconnecting_step.
Qed.

(** Once requested, [STOP] is set, unless it was overwritten; then it is never set
    again.  [m_connection] is null since before. *)
Definition requesting (s : threads) : Prop :=
  match t_user s with
  | UIdle | ULocked | UReset => t_state s ≠ CState.STOP
  | USetStop => t_state s ≠ CState.STOP ∧ t_connection s = false
  | _ => t_connection s = false
  end.

Lemma requesting_step s s' : requesting s → threads_step s s' → requesting s'.
Proof. unfold requesting. intros Hs H. step_cases s H; repeat case_match; naive_solver. Qed.

Definition user_requested (pc : user_pc) : bool :=
  match pc with UIdle | ULocked | UReset | USetStop => false | _ => true end.

(** While [STOP] has not been overwritten, the front of the queue is taken only
    when there is one. *)
Definition front_or_lost (s : threads) : Prop :=
  requesting s ∧ (front_ok s ∨ user_requested (t_user s) = true ∧ t_state s ≠ CState.STOP).

Lemma front_or_lost_step s s' : front_or_lost s → threads_step s s' → front_or_lost s'.
Proof.
  intros [Hreq Hs] H. split; [by eapply requesting_step|]. destruct Hs as [Hf|[Hu Hs]].
  - destruct (decide (t_state s = CState.STOP → t_state s' = CState.STOP)) as [Hk|Hk].
    + left. by eapply front_ok_step.
    + right. assert (t_state s = CState.STOP ∧ t_state s' ≠ CState.STOP) as [Hs Hs'].
      { destruct (decide (t_state s = CState.STOP)); naive_solver. }
      split; [|done]. clear Hf Hk. unfold requesting in Hreq. step_cases s H; repeat case_match; naive_solver.
  - right. clear Hreq. step_cases s H; repeat case_match; naive_solver.
Qed.

Lemma reachable_front_or_lost s : reachable s → front_or_lost s.
Proof.
  apply rtc_preserves; [exact front_or_lost_step|]. split; [done|by left].
Qed.

(** ** When it does return *)

(** Where the read thread goes on to see the request to stop, and how many
    steps it is from its end. *)
Definition reader_quiet (pc : reader_pc) : option nat :=
  match pc with
  | RDone => Some 0 | RStopForget => Some 1 | RStopClose => Some 2 | RStopTest => Some 3
  | RLoop => Some 4
  | RResolved | RConnected | RSlept | RFailed | RForget | RClear | RSendConnect => Some 5
  | RSleep | RSelected | RClose => Some 6
  | RSelect | RTestSocket => Some 7
  | _ => None
  end.

(** The same of the write thread; if it waits, it waits for the notification
    the destructor is about to give, or the read thread with CONNECT. *)
Definition notifies (user : user_pc) (reader : reader_pc) : bool :=
  match user, reader with UNotify, _ | _, RSendConnect => true | _, _ => false end.
Definition writer_quiet (user : user_pc) (reader : reader_pc) (pc : writer_pc) : option nat :=
  match pc with
  | WDone => Some 0 | WLoop => Some 1
  | WSleep | WReady | WSend => Some 2
  | WPredicate | WFront => Some 3 | WTest | WWoken => Some 4 | WLock => Some 5
  | WWaiting => if notifies user reader then Some 5 else None
  | WBlock => match reader with RSendConnect => Some 6 | _ => None end
  | _ => None
  end.

Definition user_quiet (pc : user_pc) : option nat :=
  match pc with
  | UDone => Some 0 | UUnlock => Some 1 | UJoinWrite => Some 2 | UJoinRead => Some 3
  | UNotify => Some 4
  | _ => None
  end.

(** [disconnect] has requested to stop, no thread is about to overwrite the
    request, and no system call is under way that can lead there. *)
Definition calm (n : nat) (s : threads) : Prop :=
  t_race s = None ∧ t_state s = CState.STOP ∧ joined s ∧ disconnecting s ∧ sockets_ok s
  ∧ front_ok s
  ∧ ∃ r w u, reader_quiet (t_reader s) = Some r
      ∧ writer_quiet (t_user s) (t_reader s) (t_writer s) = Some w
      ∧ user_quiet (t_user s) = Some u ∧ n = r + w + u.

Lemma calm_rank_step s s' n :
  calm n s → threads_step s s' →
  t_race s' = None ∧ t_state s' = CState.STOP
  ∧ ∃ r w u, reader_quiet (t_reader s') = Some r
      ∧ writer_quiet (t_user s') (t_reader s') (t_writer s') = Some w
      ∧ user_quiet (t_user s') = Some u ∧ r + w + u < n.
Proof.
  unfold calm, joined, disconnecting, sockets_ok, front_ok.
  intros (Hrace&Hst&Hj&[Hm Hc]&(Herr&Hso&Hoff&Hon&Hopen&_)&[_ Hfr]&r&w&u&Hr&Hw&Hu&->) H.
  step_cases s H; try discriminate; simplify_eq;
    repeat (case_match; try discriminate; simplify_eq);
    cbn in *; simplify_eq;
    first [split_and!; [done..|eexists _, _, _; split_and!; [done..|lia]]
          |exfalso; solve [intuition congruence]
          |exfalso; match goal with n : ¬ _ |- _ => apply n; auto; done end].
Qed.

Lemma calm_step s s' n : calm n s → threads_step s s' → ∃ m, calm m s' ∧ m < n.
Proof.
  intros Hcalm H. destruct (calm_rank_step s s' n Hcalm H) as (Hrace'&Hst'&r&w&u&?&?&?&?).
  destruct Hcalm as (?&?&?&?&?&Hfront&r0&w0&u0&?&Hw&?&?). exists (r + w + u).
  split; [|done]. do 2 (split; [done|]).
  split; [by eapply joined_step|]. split; [by eapply disconnecting_step|]. split.
  - destruct H as [l H]. eapply (sockets_ok_step l); [right|done|done].
    intros Hsend. by rewrite Hsend in Hw.
  - split; [|eauto 10]. eapply front_ok_step; [done|]. by split.
Qed.

Lemma calm_nsteps k s s' n : calm n s → nsteps threads_step k s s' → ∃ m, calm m s' ∧ m + k ≤ n.
Proof.
  intros Hcalm Hk. revert n Hcalm. induction Hk as [|k s s1 s2 H Hk IH]; intros n Hcalm.
  - exists n. split; [done|lia].
  - destruct (calm_step _ _ _ Hcalm H) as (m&Hm&?). destruct (IH m Hm) as (m'&?&?).
    exists m'. split; [done|lia].
Qed.

(** Nobody is left waiting. *)
Lemma calm_stuck s n :
  calm n s → stuck s → t_user s = UDone ∧ t_reader s = RDone ∧ t_writer s = WDone.
Proof.
  intros (Hrace&Hst&Hj&_&_&_&r&w&u&Hr&Hw&Hu&_) Hstuck.
  destruct (stuck_cases s Hj Hrace Hstuck) as [?|[[Hur [k Hk]]|(Huw&Hrd&Hwait)]]; [done|..].
  - by rewrite Hk in Hr.
  - by rewrite Hwait, Huw, Hrd in Hw.
Qed.

Lemma calm_bounded s n : calm n s → n ≤ 16.
Proof.
  intros (_&_&_&_&_&_&r&w&u&Hr&Hw&Hu&->).
  assert (r ≤ 7 ∧ (t_reader s = RSendConnect → r = 5)) as [Hr7 Hr5]
    by (destruct (t_reader s); simplify_eq/=; (split; [lia|first [done|lia]])).
  assert (w ≤ 5 ∨ w = 6 ∧ t_reader s = RSendConnect) as Hw6.
  { destruct (t_writer s); cbn in Hw; repeat case_match; simplify_eq; first [left; lia|right; done]. }
  assert (u ≤ 4) by (destruct (t_user s); simplify_eq/=; lia).
  destruct Hw6 as [?|[-> Hs]]; [lia|]. specialize (Hr5 Hs). lia.
Qed.

(** ** When it may not return *)

(** The read thread is about to overwrite the request, waits for the state mutex,
    or is where that can follow: in [resolve], [connectToAny] or [recv]. *)
Definition reader_danger (pc : reader_pc) : bool :=
  match pc with
  | RLock _ | RResolve | RConnect | RRead | RPing => true
  | _ => reader_overwrites pc
  end.

(** The write thread has evaluated its predicate and is about to wait, with
    nobody to wake it but the destructor; or it is in [::send]. *)
Definition writer_danger (reader : reader_pc) (pc : writer_pc) : bool :=
  match pc with
  | WBlock => match reader with RSendConnect => false | _ => true end
  | WSending => true
  | _ => false
  end.

Definition in_danger (s : threads) : bool :=
  reader_danger (t_reader s) || writer_danger (t_reader s) (t_writer s).

Definition never_returns (s : threads) : Prop :=
  ∀ s', rtc threads_step s s' → t_user s' ≠ UDone.

Lemma race_never s : t_race s ≠ None → t_user s ≠ UDone → never_returns s.
Proof.
  intros Hrace Hu s' Hs. destruct Hs as [|s s1 s' [l Hstep] _]; [done|].
  unfold step in Hstep. by destruct (t_race s).
Qed.

Lemma stop_lost_never s : stop_lost s → never_returns s.
Proof.
  intros Hs s' Hrtc. destruct (rtc_preserves _ _ _ stop_lost_stays Hs Hrtc) as [[Hu|Hu] _];
    by rewrite Hu.
Qed.

Lemma deadlock_never s : state_mutex_deadlock s ∨ notification_deadlock s → never_returns s.
Proof.
  intros [Hs|Hs] s' Hrtc.
  - destruct (rtc_preserves _ _ _ state_mutex_deadlock_stays Hs Hrtc) as [Hu _]. by rewrite Hu.
  - destruct (rtc_preserves _ _ _ notification_deadlock_stays Hs Hrtc) as [Hu _]. by rewrite Hu.
Qed.

Lemma never_by ls s s' :
  run ls s = Some s' →
  t_race s' ≠ None ∧ t_user s' ≠ UDone ∨ stop_lost s' ∨ state_mutex_deadlock s'
    ∨ notification_deadlock s' →
  ∃ s', rtc threads_step s s' ∧ never_returns s'.
Proof.
  intros Hrun Hs. exists s'. split; [by eapply run_steps|].
  destruct Hs as [[? ?]|[?|?]]; [by apply race_never|by apply stop_lost_never|by apply deadlock_never].
Qed.

(** Such an execution by its labels, of a state of which the program points are
    known. *)
Ltac never ls :=
  eapply (never_by ls); [cbn; reflexivity|];
  unfold stop_lost, state_mutex_deadlock, notification_deadlock; cbn; naive_solver.

Lemma reader_danger_never cl qu so op re wr :
  reader_danger re = true → writer_errs wr = false →
  (wr = WFront → qu ≠ 0) →
  ∃ s', rtc threads_step (mkThreads CState.STOP cl false qu so op re wr UNotify None) s' ∧
    never_returns s'.
Proof.
  intros Hre Hwr Hq. destruct re; try discriminate Hre; try solve [never (reads 1)].
  - never [ByReader Failed; ByReader Ok].
  - never [ByReader Failed; ByReader Ok].
  - never [ByReader GotConnack; ByReader Ok].
  - destruct wr; try discriminate Hwr;
      try solve [never [ByReader Ok; ByReader GotConnack; ByReader Ok]].
    + destruct qu.
      * never (writes 3 ++ [ByReader Ok; ByReader GotConnack; ByReader Ok]).
      * never (writes 1 ++ [ByReader Ok; ByReader GotConnack; ByReader Ok]).
    + destruct qu; never (writes 2 ++ [ByReader Ok; ByReader GotConnack; ByReader Ok]).
    + never (writes 1 ++ [ByReader Ok; ByReader GotConnack; ByReader Ok]).
    + never (writes 1 ++ [ByReader Ok; ByReader GotConnack; ByReader Ok]).
    + destruct qu; [by destruct (Hq eq_refl)|].
      never (writes 1 ++ [ByReader Ok; ByReader GotConnack; ByReader Ok]).
  - destruct wr; never [ByUser].
Qed.

(** The write thread waits, and the read thread ends without another packet. *)
Ltac never_woken k :=
  first [never ([ByUser; ByWriter Ok] ++ reads k ++ [ByUser])
        |never ([ByUser; ByWriter Ok] ++ reads k)
        |lazymatch k with S ?k' => never_woken k' end].

Lemma writer_danger_never cl qu so op re wr :
  reader_danger re = false → reader_has_state re = false → writer_danger re wr = true →
  ∃ s', rtc threads_step (mkThreads CState.STOP cl false qu so op re wr UNotify None) s' ∧
    never_returns s'.
Proof.
  intros Hre Hlock Hwr. destruct wr; try discriminate Hwr.
  - destruct re; try discriminate; destruct so, op; never_woken 7.
  - never [ByWriter Failed; ByWriter Ok].
Qed.


