(* ===== verification/Text.v ===== *)
(** * Numbers as text

    [std::to_string], [std::stoll], and the text of a log message, as the
    programs that use the client need them. *)

From S2P Require Export World.

(** ** [std::to_string] *)

Definition digit (n : Z) : ascii := ascii_of_nat (48 + Z.to_nat n).

(** The digits of [n] before [rest]; twenty are enough for 64 bits. *)
Fixpoint digits (fuel : nat) (n : Z) (rest : string) : string :=
  match fuel with
  | O => rest
  | S fuel =>
      let rest := String (digit (n `mod` 10)) rest in
      if decide (n < 10)%Z then rest else digits fuel (n / 10) rest
  end.

Definition to_string (n : Z) : string :=
  if decide (n < 0)%Z then String "-" (digits 20 (- n) "") else digits 20 n "".

(** ** [std::stoll], of a text without blanks before the number *)

Definition digit_value (c : ascii) : option Z :=
  let n := Z.of_nat (nat_of_ascii c) in
  if decide (48 ≤ n < 58)%Z then Some (n - 48)%Z else None.

(** The number up to the first character that is not a digit. *)
Fixpoint digits_value (s : string) (n : Z) : Z :=
  match s with
  | EmptyString => n
  | String c s =>
      match digit_value c with
      | Some d => digits_value s (n * 10 + d)
      | None => n
      end
  end.

(** [None] is [std::invalid_argument] or [std::out_of_range]. *)
Definition stoll_digits (s : string) : option Z :=
  match s with
  | EmptyString => None
  | String c _ => match digit_value c with Some _ => Some (digits_value s 0) | None => None end
  end.
Definition long_long (n : Z) : option Z := if decide (- 2 ^ 63 ≤ n < 2 ^ 63)%Z then Some n else None.
Definition stoll (s : string) : option Z :=
  match s with
  | String c s' =>
      if decide (c = "-"%char) then n ← stoll_digits s'; long_long (- n)
      else if decide (c = "+"%char) then n ← stoll_digits s'; long_long n
      else n ← stoll_digits s; long_long n
  | EmptyString => None
  end.

(** ** They are inverse *)

Lemma digit_value_digit n : (0 ≤ n < 10)%Z → digit_value (digit n) = Some n.
Proof.
  intros Hn. assert (n ∈ seqZ 0 10) as Hin by (apply elem_of_seqZ; lia).
  repeat (apply elem_of_cons in Hin as [->|Hin]; [done|]). by apply not_elem_of_nil in Hin.
Qed.

Lemma digits_value_digits fuel n m rest :
  (0 ≤ n < 10 ^ Z.of_nat fuel)%Z → fuel ≠ 0 →
  ∃ k, (0 ≤ k)%Z ∧ (m = 0 → digits_value (digits fuel n rest) m = digits_value rest n)%Z ∧
    digits_value (digits fuel n rest) m = digits_value rest (m * 10 ^ k + n).
Proof.
  revert n rest. induction fuel as [|fuel IH]; intros n rest Hn Hf; [done|].
  cbn [digits]. assert (0 ≤ n `mod` 10 < 10)%Z as Hd by (apply Z.mod_pos_bound; lia).
  case_decide as Hlt.
  - rewrite Z.mod_small by lia. exists 1%Z. cbn [digits_value].
    rewrite digit_value_digit by lia. split; [lia|]. split; [intros ->|]; f_equal; lia.
  - destruct fuel as [|fuel]; [simpl in Hn; lia|].
    destruct (IH (n / 10)%Z (String (digit (n `mod` 10)) rest)) as (k & Hk & Hz & Heq); [|done|].
    { split; [apply Z.div_pos; lia|]. apply Z.div_lt_upper_bound; [lia|].
      rewrite (Nat2Z.inj_succ (S fuel)), Z.pow_succ_r in Hn by lia. lia. }
    pose proof (Z_div_mod_eq_full n 10) as Hn'.
    exists (k + 1)%Z. split; [lia|]. split.
    + intros Hm. rewrite (Hz Hm). cbn [digits_value]. rewrite digit_value_digit by lia.
      f_equal. lia.
    + rewrite Heq. cbn [digits_value]. rewrite digit_value_digit by lia.
      f_equal. rewrite Z.pow_add_r by lia. lia.
Qed.

Lemma digits_first fuel n rest :
  (0 ≤ n)%Z → fuel ≠ 0 → ∃ d s, (0 ≤ d < 10)%Z ∧ digits fuel n rest = String (digit d) s.
Proof.
  revert n rest. induction fuel as [|fuel IH]; intros n rest Hn Hf; [done|]. cbn [digits].
  assert (0 ≤ n `mod` 10 < 10)%Z by (apply Z.mod_pos_bound; lia).
  case_decide; [by eexists _, _|]. destruct fuel as [|fuel]; [by eexists _, _|].
  apply IH; [apply Z.div_pos; lia|done].
Qed.

Lemma stoll_to_string n : (0 ≤ n < 2 ^ 63)%Z → stoll (to_string n) = Some n.
Proof.
  intros Hn. unfold to_string. rewrite decide_False by lia.
  destruct (digits_first 20 n "") as (d & s & Hd & Heq); [lia|done|].
  destruct (digits_value_digits 20 n 0 "") as (_ & _ & Hz & _); [lia|done|].
  specialize (Hz eq_refl). rewrite Heq in *. unfold stoll.
  pose proof (digit_value_digit d Hd) as Hdv.
  rewrite !decide_False by (intros Hc; by rewrite Hc in Hdv).
  unfold stoll_digits. rewrite Hdv, Hz. cbn. unfold long_long. by rewrite decide_True by lia.
Qed.

Lemma to_string_digit n : (0 ≤ n < 10)%Z → to_string n = String (digit n) "".
Proof.
  intros Hn. unfold to_string. rewrite decide_False by lia. cbn [digits].
  by rewrite decide_True, Z.mod_small by lia.
Qed.

(** ** The text of a log message *)

(** [None] for a message with a text of the system in it, which the model does
    not expand. *)
Definition piece_text (p : piece) : option string :=
  match p with
  | PStr s => Some s
  | PNum n => Some (to_string n)
  | _ => None
  end.

Fixpoint message_text (msg : list piece) : option string :=
  match msg with
  | [] => Some ""
  | p :: msg => s ← piece_text p; t ← message_text msg; Some (s +:+ t)
  end.
