(* ===== verification/PubSub.v ===== *)
(** * The example program [pubsub]

    [src/example/pubsub/main.cpp]: the calls of [main], the callbacks that count
    in [stop], and the loop that waits for them.  The read thread of the
    client interleaves with [main] at any point. *)

From S2P Require Export Machine.

(** ** The program *)

(** The callbacks by number: 1 the logger, 2 the error callback, 3 to 6 those
    that increment [stop], 7 the one that is never called. *)
Definition pubsub_topic : string := "example/pubsub/test/subtest".

Definition pubsub_client : World :=
  Client_ctor_default "localhost" 1883 "test".

Definition pubsub_calls : list client_op :=
  [OpSetLogger WARNING 1;
   OpSetPublishQueue FIFO 10;
   OpSetErrorCallback 2;
   OpSetLastWill "example/pubsub/lastwill" "example pubsub finished" true;
   OpConnect;
   OpSubscribe pubsub_topic 3;
   OpSubscribe pubsub_topic 4;
   OpSubscribe "example/pubsub/+/subtest" 5;
   OpSubscribe "example/pubsub/test/#" 6;
   OpSubscribe "example/pubsub/test/+" 7;
   OpUnsubscribe "example/pubsub/test/+";
   OpPublish pubsub_topic "Hello World!" false].

(** [stop]: how often one of the four callbacks was called. *)
Definition increments_stop (e : event) : bool :=
  match e with EvMessage cb _ _ => (3 <=? cb) && (cb <=? 6) | _ => false end.
Definition stop (w : World) : nat := length (List.filter increments_stop (w_trace w)).

Inductive pubsub_pc :=
  | Calling (k : nat)   (** has made [k] of the calls *)
  | Waiting             (** [while (stop < 4)] *)
  | Disconnecting       (** in [disconnect], holding the state mutex *)
  | Returned.           (** has returned from [disconnect] *)

(** Where [main] is, the callback of the connection for which the read thread
    waits for the state mutex, and the client. *)
Record pubsub := mkPubsub {
  p_pc : pubsub_pc;
  p_reader : option client_op;
  p_world : World
}.

(** The broker keeps up with the client: there is room in the send queue for the
    subscriptions and for what waits in the publish queue. *)
Definition roomy (w : World) : Prop := 14 ≤ room w.

(** [disconnect] joins the read thread, which does not end while it waits for
    the mutex. *)
Definition joining (reader : option client_op) (w : World) : World :=
  w <| w_threads_end ::= andb (bool_decide (reader = None)) |>.

Inductive pubsub_step : pubsub → pubsub → Prop :=
  | main_calls k op r w w' :
      pubsub_calls !! k = Some op → run_op op w = Done () w' →
      pubsub_step (mkPubsub (Calling k) r w) (mkPubsub (Calling (S k)) r w')
  | main_waits k r w :
      pubsub_calls !! k = None →
      pubsub_step (mkPubsub (Calling k) r w) (mkPubsub Waiting r w)
  | main_sleeps r w : stop w < 4 → pubsub_step (mkPubsub Waiting r w) (mkPubsub Waiting r w)
  | main_locks r w :
      4 ≤ stop w → pubsub_step (mkPubsub Waiting r w) (mkPubsub Disconnecting r w)
  | main_disconnects r w w' :
      run_op OpDisconnect (joining r w) = Done () w' →
      pubsub_step (mkPubsub Disconnecting r w) (mkPubsub Returned r w')
  (** The read thread is about to call into the client. *)
  | reader_waits op pc w :
      from_reader op → m_connection (w_impl w) = true →
      pubsub_step (mkPubsub pc None w) (mkPubsub pc (Some op) w)
  (** It gets the mutex and calls. *)
  | reader_calls op pc w w' :
      pc ≠ Disconnecting → m_connection (w_impl w) = true → run_op op w = Done () w' →
      pubsub_step (mkPubsub pc (Some op) w) (mkPubsub pc None w')
  (** The threads change the connection. *)
  | connection_changes (c : Connection) (fds : gset Z) (threads_end : bool) pc r w :
      pubsub_step (mkPubsub pc r w)
        (mkPubsub pc r (w <| w_conn := c |> <| w_fds := fds |> <| w_threads_end := threads_end |>)).

(** An execution in which the broker keeps up. *)
Definition pubsub_keeps_up (s s' : pubsub) : Prop := roomy (p_world s) ∧ pubsub_step s s'.

Definition pubsub_start : pubsub := mkPubsub (Calling 0) None pubsub_client.

(** ** What the calls make of the client *)

(** The parts of the machine that the read thread does not change. *)
Definition agrees (m M : machine) : Prop :=
  c_topics m = c_topics M ∧ c_tree m = c_tree M ∧ c_queue_type m = c_queue_type M ∧
  c_queue_size m = c_queue_size M ∧ (c_state m = DISCONNECTED ↔ c_state M = DISCONNECTED).

Definition by_user (op : client_op) : bool :=
  match op with OpStateChange _ | OpMessage _ _ => false | _ => true end.

(** A call does the same whether the connection is up or not. *)
Lemma agrees_call op m M M' rs cs :
  by_user op = true → agrees m M → (0 < c_queue_size m ∨ c_state m = DISCONNECTED)%Z →
  machine_step op M = Some (M', rs, cs) →
  ∃ m' rs' cs', machine_step op m = Some (m', rs', cs') ∧ agrees m' M' ∧ length rs' ≤ 1.
Proof.
  intros Hop (Ht&Htr&Hqt&Hqs&Hst) Hsize Hstep.
  destruct m as [st ts tr qt qs wt cb], M as [St Ts Tr Qt Qs Wt Cb]. cbn in *. subst.
  assert (∀ m' (rs' : list request) (cs' : list event), agrees m' M' → length rs' ≤ 1 → ∃ m'' rs'' cs'',
    Some (m', rs', cs') = Some (m'', rs'', cs'') ∧ agrees m'' M' ∧ length rs'' ≤ 1) as Hdone.
  { intros m' rs' cs' ??. by exists m', rs', cs'. }
  destruct (decide (st = DISCONNECTED)) as [->|Hs].
  - pose proof (proj1 Hst eq_refl) as ->. clear Hsize.
    destruct op; try discriminate Hop; cbn [machine_step c_state] in *;
      rewrite ?decide_True in * by auto; simplify_eq; apply Hdone; by (simpl; lia) || split_and!.
  - assert (St ≠ DISCONNECTED) as HS by (by rewrite <-Hst).
    destruct Hsize as [Hsize|]; [|done].
    destruct op as [| | | | | | | |t p r|t cb'|t| |]; try discriminate Hop;
      cbn [machine_step c_state c_tree c_topics c_queue_type c_queue_size c_waiting] in *;
      rewrite ?(decide_False (P := st = DISCONNECTED)) by done;
      rewrite ?(decide_False (P := St = DISCONNECTED)) in Hstep by done; simplify_eq.
    all: try (apply Hdone; by (simpl; lia) || split_and!).
    + assert (agrees (mkMachine St Ts Tr Qt Qs Wt Cb) M') as HM'.
      { destruct St; [done|..]; [|by simplify_eq].
        destruct (queue_step Qt Qs Wt (t, p, r)); simplify_eq/=. by split_and!. }
      assert (∀ q, agrees (mkMachine st Ts Tr Qt Qs q cb) M') as Hm'.
      { intros q. destruct HM' as (?&?&?&?&HM'). split_and!; try done. cbn in *. by rewrite Hst. }
      destruct (queue_step_total Qt Qs wt (t, p, r) Hsize) as [q Hq].
      destruct st; [done|..]; [rewrite Hq|]; apply Hdone; cbn; try lia; apply Hm'.
    + destruct (subscribe_tree t cb' Tr); simplify_eq/=. apply Hdone; [by split_and!|].
      case_decide; simpl; lia.
    + destruct (decide (t ∈ Ts)) as [Hin|Hin].
      * rewrite decide_False in Hstep by naive_solver. rewrite decide_False by naive_solver.
        destruct (unsubscribe_tree t Tr); simplify_eq/=. apply Hdone; [by split_and!|].
        case_decide; simpl; lia.
      * rewrite decide_True in Hstep by auto. rewrite decide_True by auto. simplify_eq.
        apply Hdone; [by split_and!|simpl; lia].
Qed.

(** What the read thread does keeps it too. *)
Lemma agrees_read op m M :
  from_reader op →
  c_state m ≠ DISCONNECTED → agrees m M →
  ∃ m' rs cs, machine_step op m = Some (m', rs, cs) ∧ agrees m' M ∧ c_state m' ≠ DISCONNECTED ∧
    length rs ≤ length (c_topics m) + length (c_waiting m).
Proof.
  intros Hop Hs (Ht&Htr&Hqt&Hqs&Hst).
  assert (c_state M ≠ DISCONNECTED) as HS by (by rewrite <-Hst).
  assert (∀ s w, s ≠ DISCONNECTED → agrees (m <| c_state := s |> <| c_waiting := w |>) M) as Ha.
  { intros s w ?. by split_and!. }
  destruct op as [| | | | | | | | | | |[]|topic payload]; try done; cbn [machine_step].
  - eexists _, _, _. split; [done|]. split; [by apply Ha|]. split; [done|].
    by rewrite length_app, !length_map.
  - eexists _, _, _. split; [done|]. split; [by apply (Ha CONNECTING (c_waiting m))|].
    split; [done|simpl; lia].
  - case_decide; (eexists _, _, _; split; [done|]; split; [by split_and!|];
      split; [done|simpl; lia]).
Qed.

(** ** The invariant *)

(** The machine after [k] of the calls, had the connection never come up. *)
Definition machine_after (k : nat) : machine :=
  foldl (λ m op, match machine_step op m with Some (m', _, _) => m' | None => m end)
    (machine_of pubsub_client) (take k pubsub_calls).

Definition calls_made (pc : pubsub_pc) : option nat :=
  match pc with
  | Calling k => Some k
  | Waiting | Disconnecting => Some (length pubsub_calls)
  | Returned => None
  end.

Record pubsub_ok (s : pubsub) : Prop := {
  pubsub_reachable : reachable (p_world s);
  pubsub_agrees k : calls_made (p_pc s) = Some k →
    k ≤ length pubsub_calls ∧ agrees (machine_of (p_world s)) (machine_after k);
  pubsub_reader op : p_reader s = Some op → from_reader op;
  pubsub_stop : p_pc s = Disconnecting ∨ p_pc s = Returned → 4 ≤ stop (p_world s);
  pubsub_returned : p_pc s = Returned → m_state (w_impl (p_world s)) = DISCONNECTED
}.

(** Each call has a step of the machine, whatever the state of the connection. *)
Lemma pubsub_call_defined k op :
  pubsub_calls !! k = Some op →
  k < length pubsub_calls ∧ by_user op = true ∧
  (∀ w, op_enabled op w ∧ waits_for_ever op w = false) ∧
  (0 < c_queue_size (machine_after k) ∨ c_state (machine_after k) = DISCONNECTED)%Z ∧
  ∃ rs cs, machine_step op (machine_after k) = Some (machine_after (S k), rs, cs).
Proof.
  intros Hk. split; [by apply lookup_lt_Some in Hk|].
  do 12 (destruct k as [|k]; [injection Hk as <-; split; [done|]; split; [done|];
    split; [first [by right; vm_compute|by left; vm_compute]|]; eexists _, _; vm_compute; reflexivity|]).
  done.
Qed.

Lemma machine_after_small k :
  k ≤ length pubsub_calls → length (c_topics (machine_after k)) ≤ 4 ∧
  (c_queue_size (machine_after k) ≤ 10)%Z.
Proof.
  intros Hk. do 13 (destruct k as [|k]; [split; [apply Nat.leb_le|apply Z.leb_le];
    vm_compute; reflexivity|]). simpl in Hk. lia.
Qed.

(** What the read thread asks for fits, when the broker keeps up. *)
Lemma pubsub_requests_fit k w :
  reachable w → k ≤ length pubsub_calls → agrees (machine_of w) (machine_after k) →
  length (c_topics (machine_of w)) + length (c_waiting (machine_of w)) ≤ 14.
Proof.
  intros Hr Hk (Ht&_&_&Hqs&_). destruct (machine_after_small k Hk) as [Ht4 Hq10].
  destruct (client_invariant w Hr) as (_&_&Hlen&_). rewrite Ht.
  cbn in *. unfold zlength in Hlen. lia.
Qed.

Lemma reachable_run op w w' :
  reachable w → op_enabled op w → run_op op w = Done () w' → reachable w'.
Proof. intros Hr Hen Hrun. eapply reachable_step; [done|]. by eapply step_op. Qed.

(** A run that the machine explains. *)
Lemma machine_explains op w m rs cs w' :
  reachable w → op_enabled op w → waits_for_ever op w = false →
  machine_step op (machine_of w) = Some (m, rs, cs) →
  length rs ≤ room w → run_op op w = Done () w' →
  machine_of w' = m ∧ calls (w_trace w') = calls (w_trace w) ++ cs.
Proof.
  intros Hr Hen Hends Hstep Hroom Hrun.
  destruct (client_refines op w m rs cs Hr Hen Hends Hstep Hroom) as (w1 & Hrun1 & Hm & Hc & _).
  rewrite Hrun in Hrun1. by injection Hrun1 as <-.
Qed.

Lemma stop_calls w : stop w = length (List.filter increments_stop (calls (w_trace w))).
Proof.
  unfold stop, calls. induction (w_trace w) as [|e tr IH]; [done|]. cbn.
  destruct (is_call e) eqn:He; cbn; [destruct (increments_stop e); cbn; by rewrite IH|].
  by destruct e.
Qed.

Lemma stop_after w w' cs :
  calls (w_trace w') = calls (w_trace w) ++ cs →
  stop w' = stop w + length (List.filter increments_stop cs).
Proof. intros Hc. by rewrite !stop_calls, Hc, List.filter_app, length_app. Qed.

Lemma agrees_size k op w :
  pubsub_calls !! k = Some op → agrees (machine_of w) (machine_after k) →
  (0 < c_queue_size (machine_of w) ∨ c_state (machine_of w) = DISCONNECTED)%Z.
Proof.
  intros Hk (_&_&_&Hqs&Hst). destruct (pubsub_call_defined k op Hk) as (_&_&_&Hsize&_).
  by rewrite Hqs, Hst.
Qed.

(** A call of [main] returns, and does what the machine does. *)
Lemma pubsub_call_returns k op w :
  reachable w → roomy w → pubsub_calls !! k = Some op →
  agrees (machine_of w) (machine_after k) →
  ∃ w', run_op op w = Done () w' ∧ agrees (machine_of w') (machine_after (S k)).
Proof.
  intros Hr Hroom Hk Ha.
  destruct (pubsub_call_defined k op Hk) as (_&Hop&Hen&_&rs&cs&Hstep).
  destruct (agrees_call op (machine_of w) _ _ _ _ Hop Ha (agrees_size k op w Hk Ha) Hstep)
    as (m' & rs' & cs' & Hstep' & Ha' & Hlen).
  destruct (Hen w) as [Hen' Hends].
  destruct (client_refines op w m' rs' cs' Hr Hen' Hends Hstep') as (w' & Hrun & Hm & _).
  { unfold roomy in Hroom. lia. }
  exists w'. by rewrite Hm.
Qed.

Lemma agrees_live k w :
  5 ≤ k ≤ length pubsub_calls → agrees (machine_of w) (machine_after k) →
  m_state (w_impl w) ≠ DISCONNECTED.
Proof.
  intros [Hlo Hhi] (_&_&_&_&Hst). change (m_state (w_impl w)) with (c_state (machine_of w)).
  rewrite Hst. do 13 (destruct k as [|k]; [try lia; by vm_compute|]). simpl in Hhi. lia.
Qed.

Lemma reachable_joining_world r w : reachable w → reachable (joining r w).
Proof.
  intros Hr. eapply reachable_step; [exact Hr|].
  exact (step_connection (w_conn w) (w_fds w) (w_threads_end (joining r w)) w).
Qed.

(** [disconnect] while the machine of [w] is not disconnected. *)
Lemma pubsub_disconnect r w :
  reachable w → m_state (w_impl w) ≠ DISCONNECTED →
  if decide (r = None ∧ w_threads_end w = true) then
    ∃ w', run_op OpDisconnect (joining r w) = Done () w' ∧ m_state (w_impl w') = DISCONNECTED ∧
      stop w' = stop w
  else run_op OpDisconnect (joining r w) = Fault Deadlock.
Proof.
  intros Hr Hst. pose proof (reachable_joining_world r w Hr) as Hr'.
  case_decide as Hends.
  - destruct (client_refines OpDisconnect (joining r w)
      ((machine_of w) <| c_tree := ∅ |> <| c_waiting := [] |> <| c_state := DISCONNECTED |>) []
      [EvStateChange (c_on_state (machine_of w)) DISCONNECTED])
      as (w' & Hrun & Hm & Hc & _); [done|done| | |simpl; lia|].
    + destruct Hends as [-> Hends]. cbn. rewrite Hends. apply andb_false_r.
    + cbn [machine_step]. by rewrite decide_False.
    + exists w'. split; [done|]. split; [exact (f_equal c_state Hm)|].
      rewrite (stop_after _ _ _ Hc). cbn. by rewrite Nat.add_0_r.
  - apply disconnect_waits; [done|]. cbn. apply andb_true_iff.
    split; [by apply bool_decide_eq_true|]. apply negb_true_iff, andb_false_iff.
    destruct (w_threads_end w); [left|by right]. apply bool_decide_eq_false. naive_solver.
Qed.

Lemma pubsub_ok_step s s' : pubsub_ok s → pubsub_keeps_up s s' → pubsub_ok s'.
Proof.
  intros [Hr Ha Hrd Hst Hret] [Hroom Hstep]. cbn [p_world] in Hroom.
  destruct Hstep as [k op r w w' Hk Hrun|k r w Hk|r w _|r w Hstop|r w w' Hrun|op pc w Hop Hc
    |op pc w w' Hpc Hc Hrun|c fds ends pc r w]; cbn [p_world p_pc p_reader] in *.
  - destruct (Ha k eq_refl) as [Hle Hk'].
    destruct (pubsub_call_defined k op Hk) as (Hlt&_&Hen&_).
    destruct (pubsub_call_returns k op w Hr Hroom Hk Hk') as (w1 & Hrun1 & Ha1).
    rewrite Hrun in Hrun1. injection Hrun1 as <-.
    constructor; cbn; [by apply (reachable_run op w); [|apply Hen|]| |done|naive_solver|done].
    intros k' [= <-]. by split.
  - destruct (Ha k eq_refl) as [Hle Hk']. constructor; cbn; [done| |done|naive_solver|done].
    intros k' [= <-]. split; [done|]. apply lookup_ge_None in Hk.
    by assert (k = 12) as -> by (cbn in *; lia).
  - by constructor.
  - constructor; cbn; [done..|naive_solver|done].
  - destruct (Ha _ eq_refl) as [_ Hk].
    pose proof (pubsub_disconnect r w Hr (agrees_live (length pubsub_calls) w ltac:(cbn; lia) Hk)) as Hd.
    case_decide as Hends; [|congruence]. destruct Hd as (w1 & Hrun1 & Hst1 & Hstop1).
    rewrite Hrun in Hrun1. injection Hrun1 as <-.
    constructor; cbn; [|done..|by rewrite Hstop1; auto|done].
    by apply (reachable_run OpDisconnect (joining r w)); [apply reachable_joining_world| |].
  - constructor; cbn; [done..| |done|done]. by intros op' [= <-].
  - assert (m_state (w_impl w) ≠ DISCONNECTED) as Hs.
    { apply (proj1 (proj1 (client_invariant w Hr))), Hc. }
    specialize (Hrd op eq_refl). assert (op_enabled op w ∧ waits_for_ever op w = false) as [Hen Hends]
      by (by destruct op).
    constructor; cbn; [by apply (reachable_run op w)| |done|naive_solver|naive_solver].
    intros k Hk. destruct (Ha k Hk) as [Hle Hk']. split; [done|].
    destruct (agrees_read op (machine_of w) _ Hrd Hs Hk') as (m' & rs & cs & Hstep & Ha' & _ & Hlen).
    pose proof (pubsub_requests_fit k w Hr Hle Hk'). unfold roomy in Hroom.
    destruct (machine_explains op w m' rs cs w' Hr Hen Hends Hstep) as [-> _]; [lia|done|done].
  - constructor; cbn; [|done..]. eapply reachable_step; [done|]. apply step_connection.
Qed.

Lemma pubsub_start_ok : pubsub_ok pubsub_start.
Proof.
  constructor; cbn; [apply reachable_init| |done|naive_solver|done].
  intros k [= <-]. split; [lia|]. by split_and!.
Qed.

Lemma pubsub_run_ok s : rtc pubsub_keeps_up pubsub_start s → pubsub_ok s.
Proof.
  pose proof pubsub_start_ok as Hok. revert Hok. generalize pubsub_start.
  intros s0 Hok Hs. induction Hs; eauto using pubsub_ok_step.
Qed.

(** Once [main] joins the read thread, which waits for [main]'s mutex, nothing
    changes that. *)
Definition pubsub_deadlocked (s : pubsub) : Prop :=
  p_pc s = Disconnecting ∧ p_reader s ≠ None ∧ m_state (w_impl (p_world s)) ≠ DISCONNECTED ∧
  reachable (p_world s).

Lemma pubsub_deadlocked_step s s' :
  pubsub_deadlocked s → pubsub_step s s' → pubsub_deadlocked s'.
Proof.
  intros (Hpc & Hrd & Hst & Hr) Hstep. destruct Hstep; cbn [p_world p_pc p_reader] in *; try discriminate; try done.
  - pose proof (pubsub_disconnect r w Hr Hst) as Hd. rewrite decide_False in Hd by naive_solver.
    congruence.
  - split; [done|]. split; [done|]. split; [done|].
    eapply reachable_step; [done|]. apply step_connection.
Qed.

Lemma pubsub_deadlocked_stays s s' :
  pubsub_deadlocked s → rtc pubsub_step s s' → pubsub_deadlocked s'.
Proof. intros Hd Hs. induction Hs; eauto using pubsub_deadlocked_step. Qed.

(** The tree while [main] waits. *)
Lemma pubsub_tree :
  c_tree (machine_after (length pubsub_calls)) =
    tree_remove (levels "example/pubsub/test/+")
      (tree_add (levels "example/pubsub/test/+") 7
      (tree_add (levels "example/pubsub/test/#") 6
      (tree_add (levels "example/pubsub/+/subtest") 5
      (tree_add (levels pubsub_topic) 4
      (tree_add (levels pubsub_topic) 3 ∅))))).
Proof. vm_compute. reflexivity. Qed.

Lemma removed_callback topic :
  7 ∉ match_topic topic (c_tree (machine_after (length pubsub_calls))).
Proof.
  change (7 ∉ store_match topic (c_tree (machine_after (length pubsub_calls)))).
  rewrite law_match. intros (filter & Hin & _). revert Hin. cbn [store_cbs tree_store].
  rewrite pubsub_tree, cbs_at_remove by done.
  rewrite !cbs_at_add, cbs_at_empty by done.
  repeat case_decide; simplify_eq; rewrite ?elem_of_app, ?elem_of_nil, ?list_elem_of_singleton;
    naive_solver.
Qed.

(** ** Property *)

Lemma pubsub_delivers k w payload :
  k = length pubsub_calls → reachable w → agrees (machine_of w) (machine_after k) →
  m_state (w_impl w) = CONNECTED →
  ∃ w', run_op (OpMessage pubsub_topic payload) w = Done () w' ∧
    calls (w_trace w') = calls (w_trace w) ++
      map (λ cb, EvMessage cb pubsub_topic payload) [3; 4; 6; 5].
Proof.
  intros -> Hr Ha Hst. destruct (client_refines (OpMessage pubsub_topic payload) w
    (machine_of w) [] (map (λ cb, EvMessage cb pubsub_topic payload)
      (match_topic pubsub_topic (c_tree (machine_of w))))) as (w' & Hrun & _ & Hc & _);
    [done|by apply (client_ok_live w); [apply reachable_ok|congruence]|done| |simpl; lia|].
  { cbn [machine_step]. by rewrite decide_True. }
  exists w'. split; [done|]. rewrite Hc. destruct Ha as (_&->&_). by vm_compute.
Qed.

(** The calls without interference, to build an execution. *)
Fixpoint main_run (n k : nat) (w : World) : option World :=
  match n with
  | O => Some w
  | S n =>
      op ← pubsub_calls !! k;
      if decide (14 ≤ room w) then
        match run_op op w with Done _ w' => main_run n (S k) w' | Fault _ => None end
      else None
  end.

Lemma main_run_steps n k r w w' :
  main_run n k w = Some w' →
  rtc pubsub_keeps_up (mkPubsub (Calling k) r w) (mkPubsub (Calling (k + n)) r w').
Proof.
  revert k w. induction n as [|n IH]; intros k w Hrun; cbn [main_run] in Hrun.
  { injection Hrun as ->. by rewrite Nat.add_0_r. }
  destruct (pubsub_calls !! k) as [op|] eqn:Hk; [|done]. cbn in Hrun.
  case_decide as Hroom; [|done]. destruct (run_op op w) as [[] w1|] eqn:Hop; [|done].
  eapply rtc_l; [split; [exact Hroom|by eapply main_calls]|].
  rewrite Nat.add_succ_r. by apply (IH (S k)).
Qed.

(** The read thread calls, when it gets the mutex at once. *)
Lemma reader_run op pc w w' :
  pc ≠ Disconnecting → from_reader op → m_connection (w_impl w) = true →
  (14 <=? room w) = true → run_op op w = Done () w' →
  rtc pubsub_keeps_up (mkPubsub pc None w) (mkPubsub pc None w').
Proof.
  intros Hpc Hop Hc Hroom%Nat.leb_le Hrun.
  eapply rtc_l; [split; [exact Hroom|by apply (reader_waits op)]|].
  eapply rtc_l; [split; [exact Hroom|by apply reader_calls]|]. done.
Qed.

Definition hello : client_op := OpMessage pubsub_topic "Hello World!".
Definition waiting_world : World :=
  after (OpStateChange true) (default pubsub_client (main_run 12 0 pubsub_client)).

Lemma main_reaches_waiting :
  rtc pubsub_keeps_up pubsub_start (mkPubsub Waiting None waiting_world).
Proof.
  etransitivity; [apply (main_run_steps 12); vm_compute; reflexivity|].
  etransitivity.
  { apply (reader_run (OpStateChange true)); [done|done| | |]; vm_compute; reflexivity. }
  eapply rtc_l; [|apply rtc_refl].
  split; [apply Nat.leb_le; vm_compute; reflexivity|by apply main_waits].
Qed.

(** The message arrives a second time while [main] is in [disconnect]. *)
Lemma main_reaches_deadlock :
  rtc pubsub_keeps_up pubsub_start (mkPubsub Disconnecting (Some hello) (after hello waiting_world)).
Proof.
  etransitivity; [apply main_reaches_waiting|]. etransitivity.
  { apply (reader_run hello); [done|done| | |]; vm_compute; reflexivity. }
  assert (roomy (after hello waiting_world)) as Hroom.
  { apply Nat.leb_le. vm_compute. reflexivity. }
  eapply rtc_l; [split; [exact Hroom|apply main_locks; apply Nat.leb_le; vm_compute; reflexivity]|].
  eapply rtc_l; [split; [exact Hroom|apply (reader_waits hello); [done|vm_compute; reflexivity]]|]. done.
Qed.

(** C25: what the program [pubsub] does, however the read thread interleaves with
    [main], as long as the broker keeps up.  Every call of [main] returns; once
    they are made, whenever the message arrives while connected, each of the
    four callbacks is called once, and none else, so that [stop] grows by 4 and
    the loop ends; the callback of the subscription that was removed is called
    for no topic.  Then [disconnect] returns if its threads end and no callback
    of the read thread waits for the mutex meanwhile; otherwise (a flaw) it does
    not, and if a callback waits it never will.  That happens when the
    message arrives a second time, which a broker may do for overlapping
    subscriptions. *)
Theorem pubsub_is_right :
  (∀ pc r w, rtc pubsub_keeps_up pubsub_start (mkPubsub pc r w) →
    match pc with
    | Calling k => ∀ op, pubsub_calls !! k = Some op → roomy w →
        ∃ w', run_op op w = Done () w'
    | Waiting =>
        (m_state (w_impl w) = CONNECTED → ∀ payload, ∃ w',
          run_op (OpMessage pubsub_topic payload) w = Done () w' ∧
          calls (w_trace w') = calls (w_trace w) ++
            map (λ cb, EvMessage cb pubsub_topic payload) [3; 4; 6; 5] ∧
          stop w' = stop w + 4) ∧
        (∀ topic, 7 ∉ match_topic topic (m_subscriptions (w_impl w)))
    | Disconnecting =>
        4 ≤ stop w ∧
        (if decide (r = None ∧ w_threads_end w = true)
         then ∃ w', run_op OpDisconnect (joining r w) = Done () w'
         else run_op OpDisconnect (joining r w) = Fault Deadlock) ∧
        (r ≠ None → ∀ s', rtc pubsub_step (mkPubsub pc r w) s' → p_pc s' = Disconnecting)
    | Returned => m_state (w_impl w) = DISCONNECTED ∧ 4 ≤ stop w
    end)
  ∧ ∃ w, rtc pubsub_keeps_up pubsub_start (mkPubsub Disconnecting (Some hello) w).
Proof.
  split; [|eexists; exact main_reaches_deadlock].
  intros pc r w Hrun. destruct (pubsub_run_ok _ Hrun) as [Hr Ha _ Hstop Hret]. cbn in *.
  destruct pc as [k| | |].
  - intros op Hk Hroom. destruct (Ha k eq_refl) as [_ Hk'].
    destruct (pubsub_call_returns k op w Hr Hroom Hk Hk') as (w' & ? & _). by exists w'.
  - destruct (Ha _ eq_refl) as [_ Hk]. split.
    + intros Hst payload.
      destruct (pubsub_delivers _ w payload eq_refl Hr Hk Hst) as (w' & Hmsg & Hc).
      exists w'. split; [done|]. split; [done|]. by rewrite (stop_after _ _ _ Hc).
    + intros topic. destruct Hk as (_&Htree&_). cbn [c_tree machine_of] in Htree.
      rewrite Htree. apply removed_callback.
  - destruct (Ha _ eq_refl) as [_ Hk]. split; [by auto|].
    pose proof (agrees_live (length pubsub_calls) w ltac:(cbn; lia) Hk) as Hst. split.
    + pose proof (pubsub_disconnect r w Hr Hst) as Hd. case_decide; [|done].
      destruct Hd as (w' & ? & _). by exists w'.
    + intros Hrd s' Hs'. eapply pubsub_deadlocked_stays; [|done]. by split_and!.
  - auto.
Qed.

Lemma pubsub_is_right_witness :
  (∃ w', run_op hello waiting_world = Done () w' ∧ stop w' = 4) ∧
  run_op OpDisconnect (joining (Some hello) (after hello waiting_world)) = Fault Deadlock.
Proof.
  split.
  - destruct (proj1 pubsub_is_right _ _ _ main_reaches_waiting) as (Hmsg & _).
    destruct (Hmsg eq_refl "Hello World!") as (w' & Hw' & _ & Hs). exists w'.
    split; [exact Hw'|]. rewrite Hs. reflexivity.
  - destruct (proj1 pubsub_is_right _ _ _ main_reaches_deadlock) as (_ & Hd & _). exact Hd.
Defined.
