(* ===== verification/Stress.v ===== *)
(** * The example program [stress]

    [src/example/stress/main.cpp]: the loop of [main] that publishes the time on
    ten topics and reports rates and latency once a second, and the callback
    that receives the messages back.  Latencies are unbounded: the overflow of
    the conversion to nanoseconds, for a payload that is too large a number, is
    not modelled. *)

From S2P Require Export Text Machine.

(** ** The program *)

(** The local variables of [main]; counters are [size_t]. *)
Record stress := mkStress {
  received : Z;
  sent : Z;
  failed : Z;
  totalLatency : Z;  (** [int64_t], in microseconds *)
  start : Z;         (** [steady_clock], in nanoseconds *)
  channel : Z
}.

#[export] Instance eta_stress : Eta stress := λ s,
  mkStress (received s) (sent s) (failed s) (totalLatency s) (start s) (channel s).

Definition uint64 (z : Z) : Z := z `mod` 2 ^ 64.

(** What is printed once a second. *)
Record report := mkReport {
  r_sent : Z;
  r_received : Z;
  r_failed : Z;
  r_latency : option Z
}.

Definition stress_client : World :=
  Client_ctor_default "localhost" 1883 "test".

(** The calls before the loop; callback 3 is the one below. *)
Definition stress_calls : list client_op :=
  [OpSetLogger WARNING 1;
   OpSetPublishQueue FIFO 100;
   OpSetErrorCallback 2;
   OpSetLastWill "test/lastwill" "example pubsub finished" true;
   OpConnect;
   OpSubscribe "example/stress/+" 3].

(** [duration_cast<microseconds>]. *)
Definition us_of_ns (ns : Z) : Z := Z.quot ns 1000.

(** The callback, at the time [now]; [None] when [stoll] throws. *)
Definition stress_callback (now : Z) (payload : string) (s : stress) : option stress :=
  then_us ← stoll payload;
  let latency := us_of_ns (now - then_us * 1000) in
  Some (s <| totalLatency ::= λ t, (t + latency)%Z |> <| received ::= λ r, uint64 (r + 1) |>).

Definition stress_topic (channel : Z) : string := "example/stress/" +:+ to_string channel.

(** The report of the variables; the division of an [int64_t] by a [size_t] is
    unsigned. *)
Definition report_of (s : stress) : report :=
  mkReport (sent s) (received s) (failed s)
    (if decide (received s ≠ 0)%Z then Some (uint64 (totalLatency s) / received s)%Z else None).

(** One iteration of the [while (true)]. *)
Definition stress_iteration (now : Z) (s : stress) : M (stress * option report) :=
  let s := s <| channel := Z.rem (channel s + 1) 10 |> in
  ok ← Client_publish (stress_topic (channel s)) (to_string (us_of_ns now)) false;
  let s := if negb ok then s <| failed ::= λ n, uint64 (n + 1) |>
           else s <| sent ::= λ n, uint64 (n + 1) |> in
  mret (if decide (1000000000 < now - start s)%Z
        then (s <| sent := 0%Z |> <| received := 0%Z |> <| failed := 0%Z |> <| totalLatency := 0%Z |>
                <| start := now |>, Some (report_of s))
        else (s, None)).

(** An execution: iterations of the loop, and meanwhile the read thread, which
    passes on messages and reports the connection, and changes it. *)
Inductive stress_event :=
  | Iterate (now : Z)
  | Receive (now : Z) (topic payload : string)
  | StateChange (connected : bool)
  | ConnectionChange (c : Connection) (fds : gset Z) (threads_end : bool).

(** [Threw]: [stoll] threw in the callback, which ends the program. *)
Inductive ran :=
  | Ran (s : stress) (reports : list report) (w : World)
  | Threw (payload : string)
  | Failed (f : fault).

(** The calls of the callback among the events of the client. *)
Definition is_stress_message (e : event) : bool :=
  match e with EvMessage 3 _ _ => true | _ => false end.

Fixpoint stress_callbacks (now : Z) (es : list event) (s : stress) : string + stress :=
  match es with
  | [] => inr s
  | EvMessage 3 _ payload :: es =>
      match stress_callback now payload s with
      | Some s => stress_callbacks now es s
      | None => inl payload
      end
  | _ :: es => stress_callbacks now es s
  end.

Definition with_report (r : option report) (o : ran) : ran :=
  match o with Ran s rs w => Ran s (option_list r ++ rs) w | _ => o end.

Fixpoint stress_run (es : list stress_event) (s : stress) (w : World) : ran :=
  match es with
  | [] => Ran s [] w
  | Iterate now :: es =>
      match stress_iteration now s w with
      | Done (s, r) w => with_report r (stress_run es s w)
      | Fault f => Failed f
      end
  | Receive now topic payload :: es =>
      match run_op (OpMessage topic payload) w with
      | Done _ w' =>
          match stress_callbacks now (drop (length (w_trace w)) (w_trace w')) s with
          | inr s => stress_run es s w'
          | inl payload => Threw payload
          end
      | Fault f => Failed f
      end
  | StateChange connected :: es =>
      match run_op (OpStateChange connected) w with
      | Done _ w => stress_run es s w
      | Fault f => Failed f
      end
  | ConnectionChange c fds threads_end :: es =>
      stress_run es s (w <| w_conn := c |> <| w_fds := fds |> <| w_threads_end := threads_end |>)
  end.

Definition stress_init (now : Z) : stress := mkStress 0 0 0 0 now 0.

(** The subscription of [main], and the client when the loop starts and after. *)
Definition stress_tree : tree := default ∅ (subscribe_tree "example/stress/+" 3 ∅).

Record stress_ready (w : World) : Prop := {
  ready_reachable : reachable w;
  ready_state : m_state (w_impl w) ≠ DISCONNECTED;
  ready_tree : m_subscriptions (w_impl w) = stress_tree;
  ready_queue : m_publish_queue_size (w_impl w) = 100%Z
}.

(** ** What it should report *)

Definition is_iteration (e : stress_event) : bool := match e with Iterate _ => true | _ => false end.
Definition iterations (es : list stress_event) : Z := zlength (List.filter is_iteration es).
Definition messages (w : World) : Z := zlength (List.filter is_stress_message (w_trace w)).

(** Messages that this program sent at most [hi] microseconds before. *)
Definition timely (hi : Z) (e : stress_event) : Prop :=
  match e with
  | Receive now _ payload => ∃ sent_at, (0 ≤ sent_at < 2 ^ 63)%Z ∧
      payload = to_string (us_of_ns sent_at) ∧
      (sent_at ≤ now ∧ us_of_ns (now - us_of_ns sent_at * 1000) ≤ hi)%Z
  | _ => True
  end.

Definition sum_of (f : report → Z) (rs : list report) : Z := foldr (λ r n, f r + n)%Z 0%Z rs.

Definition report_ok (hi : Z) (r : report) : Prop :=
  match r_latency r with Some l => (0 ≤ l ≤ hi)%Z | None => r_received r = 0%Z end.

(** Since the last report, [n] messages were sent or refused at most and [m]
    received; if their payloads are timely ([T]), the latencies are bounded. *)
Record counts_ok (T : Prop) (hi n m : Z) (s : stress) : Prop := {
  counts_sent : (0 ≤ sent s ∧ 0 ≤ failed s ∧ sent s + failed s ≤ n)%Z;
  counts_received : (0 ≤ received s ≤ m)%Z;
  counts_latency : T → (0 ≤ totalLatency s ≤ received s * hi)%Z
}.

Lemma uint64_small z : (0 ≤ z < 2 ^ 64)%Z → uint64 z = z.
Proof. intros. by apply Z.mod_small. Qed.

Lemma us_of_ns_div ns : (0 ≤ ns)%Z → us_of_ns ns = (ns / 1000)%Z.
Proof. intros. unfold us_of_ns. rewrite Z.quot_div_nonneg by lia. done. Qed.

Section counts.
Context (T : Prop) (hi : Z) (Hhi : (0 ≤ hi < 2 ^ 31)%Z).

Lemma report_of_ok n m s :
  T → (m < 2 ^ 31)%Z → counts_ok T hi n m s → report_ok hi (report_of s).
Proof.
  intros HT Hm [_ Hr Hl]. specialize (Hl HT). unfold report_ok, report_of. cbn.
  case_decide as Hn; cbn; [|lia].
  assert (totalLatency s < 2 ^ 62)%Z.
  { apply Z.le_lt_trans with (received s * hi)%Z; [lia|].
    apply Z.le_lt_trans with (2 ^ 31 * hi)%Z; nia. }
  rewrite uint64_small by lia. split; [apply Z.div_pos; lia|].
  apply Z.div_le_upper_bound; lia.
Qed.

(** The callback returns for a timely message. *)
Lemma stress_callback_timely now topic payload s :
  timely hi (Receive now topic payload) →
  ∃ l, (0 ≤ l ≤ hi)%Z ∧ stress_callback now payload s =
    Some (s <| totalLatency ::= λ t, (t + l)%Z |> <| received ::= λ r, uint64 (r + 1) |>).
Proof.
  intros (at_ & Hat & -> & Hle & Hlat). unfold stress_callback.
  pose proof (Z.mul_div_le at_ 1000 ltac:(lia)). rewrite (us_of_ns_div at_) in * by lia.
  rewrite stoll_to_string; cbn.
  - eexists. split; [|done]. split; [|done]. rewrite us_of_ns_div by lia. apply Z.div_pos; lia.
  - split; [apply Z.div_pos; lia|]. apply Z.div_lt_upper_bound; lia.
Qed.

Lemma stress_callback_counts now topic payload n m s s' :
  (T → timely hi (Receive now topic payload)) → (m + 1 < 2 ^ 31)%Z → counts_ok T hi n m s →
  stress_callback now payload s = Some s' →
  counts_ok T hi n (m + 1) s' ∧ received s' = (received s + 1)%Z ∧
  sent s' = sent s ∧ failed s' = failed s ∧ channel s' = channel s.
Proof.
  intros Htimely Hm [Hs Hr Hl] Hcb. pose proof Hcb as Hcb'. unfold stress_callback in Hcb.
  destruct (stoll payload) as [t|]; [|done]. cbn in Hcb. injection Hcb as Heq.
  assert (received s' = (received s + 1)%Z) as Hrec by (subst s'; cbn; rewrite uint64_small; lia).
  split; [|by subst s'; split_and!]. constructor; [by subst s'|lia|].
  intros HT. destruct (stress_callback_timely now topic payload s (Htimely HT)) as (l & Hlat & Hl').
  rewrite Hcb' in Hl'. injection Hl' as ->. cbn in *. specialize (Hl HT). rewrite Hrec. nia.
Qed.

(** One iteration counts one publish, and reports when a second has passed. *)
Lemma stress_iteration_counts n m now s w s' r w' :
  counts_ok T hi n m s → (n + 1 < 2 ^ 31)%Z → (m < 2 ^ 31)%Z →
  stress_iteration now s w = Done (s', r) w' →
  channel s' = Z.rem (channel s + 1) 10 ∧ counts_ok T hi (n + 1) m s' ∧
  (sum_of r_sent (option_list r) + sum_of r_failed (option_list r) + sent s' + failed s' =
    sent s + failed s + 1)%Z ∧
  (sum_of r_received (option_list r) + received s' = received s)%Z ∧
  (T → Forall (report_ok hi) (option_list r)).
Proof.
  intros [Hs Hr Hl] Hn Hm. unfold stress_iteration, mbind, M_bind. cbv zeta.
  destruct (Client_publish _ _ _ w) as [ok w1|]; [|done].
  set (s1 := if negb ok then _ else _).
  assert (counts_ok T hi (n + 1) m s1 ∧ (sent s1 + failed s1 = sent s + failed s + 1)%Z ∧
    received s1 = received s ∧ channel s1 = Z.rem (channel s + 1) 10) as (Hs1 & Hc & Hr1 & Hch).
  { unfold s1. destruct ok; cbn; rewrite uint64_small by lia; split_and!; try done; try lia;
      constructor; cbn; try done; try lia. }
  clearbody s1. case_decide; intros [= <- <- _]; (split; [exact Hch|]); (split; [|split_and!]);
    try (cbn; lia); try done; try by constructor.
  - destruct Hs1. constructor; cbn; lia.
  - intros HT. constructor; [by eapply report_of_ok|done].
Qed.
End counts.

(** ** The callbacks of a message *)

Definition of_payload (payload : string) (e : event) : Prop :=
  match e with EvMessage 3 _ p => p = payload | _ => True end.

Lemma stress_callbacks_skip now e es s :
  is_stress_message e = false → stress_callbacks now (e :: es) s = stress_callbacks now es s.
Proof. destruct e as [| | |[|[|[|[|cb]]]] t p| |]; done. Qed.

Lemma is_stress_message_payload e payload :
  is_stress_message e = true → of_payload payload e → ∃ topic, e = EvMessage 3 topic payload.
Proof.
  destruct e as [| | |[|[|[|[|cb]]]] t p| |]; try done.
  intros _ Hp. cbn in Hp. subst p. by exists t.
Qed.

Lemma stress_callbacks_counts T hi now topic payload es n m s s' :
  (0 ≤ hi < 2 ^ 31)%Z → (T → timely hi (Receive now topic payload)) →
  Forall (of_payload payload) es → counts_ok T hi n m s →
  (m + zlength (List.filter is_stress_message es) < 2 ^ 31)%Z →
  stress_callbacks now es s = inr s' →
  counts_ok T hi n (m + zlength (List.filter is_stress_message es)) s' ∧
  received s' = (received s + zlength (List.filter is_stress_message es))%Z ∧
  sent s' = sent s ∧ failed s' = failed s ∧ channel s' = channel s.
Proof.
  intros Hhi Htimely Hes. revert m s. induction Hes as [|e es He _ IH]; intros m s Hs Hm Hrun.
  { injection Hrun as <-. unfold zlength. cbn. rewrite !Z.add_0_r. by split_and!. }
  cbn [List.filter] in *. destruct (is_stress_message e) eqn:Hmsg.
  - destruct (is_stress_message_payload e payload Hmsg He) as [t ->].
    assert (∀ l, zlength (EvMessage 3 t payload :: l) = 1 + zlength l)%Z as Hcons
      by (intros l; unfold zlength; cbn [length]; lia).
    rewrite Hcons in Hm |- *. cbn [stress_callbacks] in Hrun.
    destruct (stress_callback now payload s) as [s1|] eqn:Hcb; [|done].
    pose proof (zlength_nonneg (List.filter is_stress_message es)).
    apply (stress_callback_counts T hi now topic payload n m) in Hcb
      as (Hs1 & Hr & Hse & Hf & Hc); [|done|lia|done].
    apply (IH (m + 1)%Z) in Hrun as (Hs' & Hr' & Hse' & Hf' & Hc'); [|done|lia].
    split; [by rewrite Z.add_assoc|]. split; [lia|]. split_and!; congruence.
  - rewrite stress_callbacks_skip in Hrun by done. by apply IH.
Qed.

(** It throws only for a payload that is no number. *)
Lemma stress_callbacks_throw now es s payload p :
  Forall (of_payload payload) es → stress_callbacks now es s = inl p →
  p = payload ∧ stoll payload = None.
Proof.
  intros Hes. revert s. induction Hes as [|e es He _ IH]; intros s Hrun; [done|].
  destruct (is_stress_message e) eqn:Hmsg.
  - destruct (is_stress_message_payload e payload Hmsg He) as [t ->]. cbn [stress_callbacks] in Hrun.
    destruct (stress_callback now payload s) as [s1|] eqn:Hcb; [by eapply IH|].
    injection Hrun as <-. split; [done|]. unfold stress_callback in Hcb.
    by destruct (stoll payload).
  - rewrite stress_callbacks_skip in Hrun by done. by eapply IH.
Qed.

Lemma timely_stoll hi now topic payload : timely hi (Receive now topic payload) → stoll payload ≠ None.
Proof.
  intros (at_ & Hat & -> & _). pose proof (Z.mul_div_le at_ 1000 ltac:(lia)).
  rewrite us_of_ns_div, stoll_to_string by
    first [lia|split; [apply Z.div_pos; lia|apply Z.div_lt_upper_bound; lia]]. done.
Qed.

(** ** The client meanwhile *)

Lemma messages_calls w : messages w = zlength (List.filter is_stress_message (calls (w_trace w))).
Proof.
  unfold messages, calls, zlength. f_equal. induction (w_trace w) as [|e tr IH]; [done|]. cbn.
  destruct (is_call e) eqn:He; cbn.
  - destruct (is_stress_message e); cbn; by rewrite IH.
  - by destruct e.
Qed.

(** What does not change, and which callbacks were called. *)
Definition goes_on (cs : list event) (w w' : World) : Prop :=
  m_state (w_impl w') ≠ DISCONNECTED ∧
  m_subscriptions (w_impl w') = m_subscriptions (w_impl w) ∧
  m_publish_queue_size (w_impl w') = m_publish_queue_size (w_impl w) ∧
  calls (w_trace w') = calls (w_trace w) ++ cs.

Section client.
Context (w : World) (Hw : stress_ready w).

Lemma ready_connection : m_connection (w_impl w) = true.
Proof. destruct Hw as [Hr Hst _ _]. by apply client_ok_live; [apply reachable_ok|]. Qed.

Lemma ready_goes_on op cs w' :
  op_enabled op w → run_op op w = Done () w' → goes_on cs w w' → stress_ready w'.
Proof.
  intros Hen Hrun (Hst & Ht & Hq & _). destruct Hw as [Hr _ Htree Hqueue].
  constructor; [|done|congruence..]. eapply reachable_step; [done|]. by eapply step_op.
Qed.

(** The same for what the read thread calls. *)
Lemma ready_reader op cs w' :
  from_reader op → run_op op w = Done () w' → goes_on cs w w' → stress_ready w'.
Proof. intros Hop. apply ready_goes_on. destruct op; try done; exact ready_connection. Qed.

Lemma publish_goes_on topic payload retain ok w' :
  Client_publish topic payload retain w = Done ok w' → goes_on [] w w'.
Proof.
  assert (wp (λ _, True) (Client_publish topic payload retain) (λ _, goes_on [] w) w) as Hwp.
  { pose proof (ready_state w Hw) as Hst.
    unfold Client_publish, Impl_toPublishQueue, Impl_sendPublish, deref_connection, Connection_send.
    wp_auto; (split; [cbn; congruence|]); split_and!; cbn; by autorewrite with calls. }
  intros Hrun. exact (wp_run _ _ _ _ _ _ Hwp Hrun).
Qed.

Lemma stateChange_goes_on connected w' :
  run_op (OpStateChange connected) w = Done () w' →
  ∃ cs, goes_on cs w w' ∧ List.filter is_stress_message cs = [].
Proof.
  intros Hrun. exists [EvStateChange (m_state_change_callback (w_impl w))
    (if connected then CONNECTED else CONNECTING)]. split; [|done].
  pose proof ready_connection as Hc. pose proof (ready_reachable w Hw) as Hr.
  assert (wp (λ _, True) (Impl_connectionStateChange connected) (λ _, goes_on
    [EvStateChange (m_state_change_callback (w_impl w)) (if connected then CONNECTED else CONNECTING)] w) w)
    as Hwp; [|exact (wp_run _ _ _ _ _ _ Hwp Hrun)].
  destruct connected.
  - eapply wp_mono.
    { eapply wp_conj; [apply (wp_connected (λ _, True)); [by apply reachable_joining|done|
        by apply reachable_id|done]|apply connected_calls]. }
    intros _ w1 [(id & tr & _ & _ & ->) Hcalls]. by split_and!.
  - unfold Impl_connectionStateChange. wp_auto. split; [done|]. split_and!; cbn; try done.
    by autorewrite with calls.
Qed.

(** A message, and which part of the trace is new. *)
Lemma message_goes_on topic payload w' :
  run_op (OpMessage topic payload) w = Done () w' →
  let es := drop (length (w_trace w)) (w_trace w') in
  ∃ cs, goes_on cs w w' ∧ List.filter is_stress_message cs = List.filter is_stress_message es ∧
    Forall (of_payload payload) es.
Proof.
  intros Hrun es. pose proof (reachable_joining w (ready_reachable w Hw)) as Hj.
  pose proof (ready_state w Hw) as Hlive. cbn [run_op] in Hrun.
  destruct (decide (m_state (w_impl w) = CONNECTED)) as [Hst|Hst].
  - rewrite messageReceived_eq in Hrun by done. injection Hrun as <-. subst es. cbn.
    rewrite drop_app_length. eexists. split; [|split; [reflexivity|]].
    + split; [done|]. split_and!; try done. cbn. by rewrite calls_app, calls_messages.
    + apply Forall_forall. intros e (cb & -> & _)%list_elem_of_fmap.
      destruct cb as [|[|[|[|cb]]]]; done.
  - exists []. assert (wp (λ _, True) (Impl_messageReceived topic payload) (λ _ w',
        goes_on [] w w' ∧ only_logs w w') w) as Hwp.
    { apply wp_bind, wp_lock_state_mutex; [intros _|done]. apply wp_bind, wp_get_impl.
      rewrite decide_True by done. apply wp_log. split.
      - split; [done|]. split_and!; try done. cbn. by autorewrite with calls.
      - eexists. split; [done|apply log_events_logs]. }
    destruct (wp_run _ _ _ _ _ _ Hwp Hrun) as [Hgo (tr & -> & Htr)]. subst es. cbn.
    rewrite drop_app_length. split; [done|]. clear -Htr.
    induction Htr as [|e tr He _ [IH1 IH2]]; [done|]. destruct e; try done. by split; [|constructor].
Qed.
End client.

Lemma messages_goes_on cs w w' :
  goes_on cs w w' → messages w' = (messages w + zlength (List.filter is_stress_message cs))%Z.
Proof.
  intros (_ & _ & _ & Hc). by rewrite !messages_calls, Hc, List.filter_app, zlength_app.
Qed.

Lemma ready_change w c fds ends :
  stress_ready w → stress_ready (w <| w_conn := c |> <| w_fds := fds |> <| w_threads_end := ends |>).
Proof. intros [Hr ???]. constructor; [|done..]. eapply reachable_step; [done|apply step_connection]. Qed.

Lemma with_report_Ran r o s rs w :
  with_report r o = Ran s rs w → ∃ rs', o = Ran s rs' w ∧ rs = option_list r ++ rs'.
Proof. destruct o as [s' rs' w'| |]; intros [= -> <- ->]. by exists rs'. Qed.

Lemma with_report_Threw r o p : with_report r o = Threw p → o = Threw p.
Proof. by destruct o. Qed.
Lemma with_report_Failed r o f : with_report r o = Failed f → o = Failed f.
Proof. by destruct o. Qed.

(** The publish of an iteration. *)
Lemma stress_iteration_goes_on now s w s' r w' :
  stress_ready w → stress_iteration now s w = Done (s', r) w' →
  stress_ready w' ∧ messages w' = messages w.
Proof.
  intros Hw. unfold stress_iteration, mbind, M_bind. cbv zeta.
  destruct (Client_publish _ _ _ w) as [ok w1|] eqn:Hpub; [|done]. intros Hrun.
  assert (w1 = w') as -> by (revert Hrun; case_decide; by intros [= ]).
  pose proof (publish_goes_on w Hw _ _ _ _ _ Hpub) as Hgo. split.
  - eapply (ready_goes_on w Hw (OpPublish _ _ _)); [exact Logic.I| |exact Hgo].
    cbn [run_op]. unfold mbind, M_bind. by rewrite Hpub.
  - rewrite (messages_goes_on _ _ _ Hgo). unfold zlength. cbn. lia.
Qed.

(** The messages of the client only grow. *)
Lemma stress_run_ready es s w s' rs w' :
  stress_ready w → stress_run es s w = Ran s' rs w' →
  stress_ready w' ∧ (messages w ≤ messages w')%Z.
Proof.
  revert s w rs. induction es as [|e es IH]; intros s w rs Hw Hrun; cbn [stress_run] in Hrun.
  { injection Hrun as <- <- <-. split; [done|lia]. }
  destruct e as [now|now topic payload|connected|c fds ends].
  - destruct (stress_iteration now s w) as [[s1 r] w1|] eqn:Hit; [|done].
    apply with_report_Ran in Hrun as (rs' & Hrun & _).
    destruct (stress_iteration_goes_on _ _ _ _ _ _ Hw Hit) as [Hw1 <-]. eauto.
  - destruct (run_op (OpMessage topic payload) w) as [[] w1|] eqn:Hop; [|done].
    destruct (message_goes_on w Hw _ _ _ Hop) as (cs & Hgo & _).
    pose proof (ready_reader w Hw (OpMessage topic payload) _ _ Logic.I Hop Hgo) as Hw1.
    pose proof (messages_goes_on _ _ _ Hgo). pose proof (zlength_nonneg (List.filter is_stress_message cs)).
    destruct (stress_callbacks _ _ _) as [|s1]; [done|].
    destruct (IH _ _ _ Hw1 Hrun). split; [done|lia].
  - destruct (run_op (OpStateChange connected) w) as [[] w1|] eqn:Hop; [|done].
    destruct (stateChange_goes_on w Hw _ _ Hop) as (cs & Hgo & Hcs).
    pose proof (ready_reader w Hw (OpStateChange connected) _ _ Logic.I Hop Hgo) as Hw1.
    pose proof (messages_goes_on _ _ _ Hgo) as Hm. rewrite Hcs in Hm.
    destruct (IH _ _ _ Hw1 Hrun). split; [done|]. change (zlength []) with 0%Z in Hm. lia.
  - apply (IH _ _ _ (ready_change _ _ _ _ Hw) Hrun).
Qed.

Lemma sum_of_app f rs1 rs2 : sum_of f (rs1 ++ rs2) = (sum_of f rs1 + sum_of f rs2)%Z.
Proof.
  induction rs1 as [|r rs1 IH]; [done|].
  change (f r + sum_of f (rs1 ++ rs2) = f r + sum_of f rs1 + sum_of f rs2)%Z. lia.
Qed.

Lemma iterations_cons e es : iterations (e :: es) = ((if is_iteration e then 1 else 0) + iterations es)%Z.
Proof. unfold iterations, zlength. cbn [List.filter]. destruct (is_iteration e); cbn [length]; lia. Qed.

Lemma stress_run_accounts T hi es n m s w s' rs w' :
  (0 ≤ hi < 2 ^ 31)%Z → stress_ready w → counts_ok T hi n m s → (0 ≤ channel s < 10)%Z →
  (T → Forall (timely hi) es) → (n + zlength es < 2 ^ 31)%Z →
  (m + (messages w' - messages w) < 2 ^ 31)%Z → stress_run es s w = Ran s' rs w' →
  (sum_of r_sent rs + sum_of r_failed rs + sent s' + failed s' = sent s + failed s + iterations es)%Z ∧
  (sum_of r_received rs + received s' = received s + (messages w' - messages w))%Z ∧
  channel s' = ((channel s + iterations es) `mod` 10)%Z ∧
  (T → Forall (report_ok hi) rs).
Proof.
  intros Hhi. revert n m s w rs.
  induction es as [|e es IH]; intros n m s w rs Hw Hs Hch Hes Hn Hm Hrun; cbn [stress_run] in Hrun.
  { injection Hrun as <- <- <-. unfold iterations, zlength. cbn. split_and!; try done; try lia.
    by rewrite Z.add_0_r, Z.mod_small. }
  assert (zlength (e :: es) = 1 + zlength es)%Z as Hz by (unfold zlength; cbn [length]; lia).
  rewrite Hz in Hn. clear Hz. rewrite iterations_cons.
  assert (T → timely hi e) as Hes1 by (intros HT; by apply Hes, Forall_inv in HT).
  assert (T → Forall (timely hi) es) as Hes2 by (intros HT; by apply Hes, Forall_inv_tail in HT).
  pose proof (zlength_nonneg es).
  destruct e as [now|now topic payload|connected|c fds ends]; cbn [is_iteration].
  - destruct (stress_iteration now s w) as [[s1 r] w1|] eqn:Hit; [|done].
    apply with_report_Ran in Hrun as (rs' & Hrun & ->).
    destruct (stress_iteration_goes_on _ _ _ _ _ _ Hw Hit) as [Hw1 Hm1].
    destruct (stress_run_ready _ _ _ _ _ _ Hw1 Hrun) as [_ Hle].
    apply (stress_iteration_counts T hi Hhi n m) in Hit as (Hch1 & Hs1 & Hsum & Hrec & Hrep);
      [|done|lia|lia].
    destruct (IH (n + 1)%Z m s1 w1 rs' Hw1 Hs1) as (Hsum' & Hrec' & Hch' & Hrep');
      [rewrite Hch1; apply Z.rem_bound_pos; lia|exact Hes2|lia|lia|exact Hrun|].
    rewrite !sum_of_app. split; [lia|]. split; [lia|]. split.
    + rewrite Hch', Hch1, Z.rem_mod_nonneg, Zplus_mod_idemp_l by lia. f_equal; lia.
    + intros HT. apply Forall_app. auto.
  - destruct (run_op (OpMessage topic payload) w) as [[] w1|] eqn:Hop; [|done].
    destruct (message_goes_on w Hw _ _ _ Hop) as (cs & Hgo & Hcs & Hpay).
    pose proof (ready_reader w Hw (OpMessage topic payload) _ _ Logic.I Hop Hgo) as Hw1.
    pose proof (messages_goes_on _ _ _ Hgo) as Hm1. rewrite Hcs in Hm1.
    destruct (stress_callbacks _ _ _) as [|s1] eqn:Hcb; [done|].
    destruct (stress_run_ready _ _ _ _ _ _ Hw1 Hrun) as [_ Hle].
    set (k := zlength (List.filter is_stress_message _)) in *.
    apply (stress_callbacks_counts T hi now topic payload _ n m) in Hcb
      as (Hs1 & Hr1 & Hse1 & Hf1 & Hc1); [|done|exact Hes1|done|done|lia].
    fold k in Hs1, Hr1.
    destruct (IH n (m + k)%Z s1 w1 rs Hw1 Hs1) as (Hsum' & Hrec' & Hch' & Hrep');
      [by rewrite Hc1|exact Hes2|lia|lia|exact Hrun|].
    rewrite Hch', Hc1. split; [lia|]. split; [lia|]. by split.
  - destruct (run_op (OpStateChange connected) w) as [[] w1|] eqn:Hop; [|done].
    destruct (stateChange_goes_on w Hw _ _ Hop) as (cs & Hgo & Hcs).
    pose proof (ready_reader w Hw (OpStateChange connected) _ _ Logic.I Hop Hgo) as Hw1.
    pose proof (messages_goes_on _ _ _ Hgo) as Hm1. rewrite Hcs in Hm1.
    change (zlength []) with 0%Z in Hm1.
    destruct (IH n m s w1 rs Hw1 Hs Hch Hes2) as (Hsum' & Hrec' & Hch' & Hrep');
      [lia|lia|exact Hrun|].
    split; [lia|]. split; [lia|]. by split.
  - apply (IH n m s _ rs (ready_change w c fds ends Hw) Hs Hch Hes2); [lia|exact Hm|exact Hrun].
Qed.

(** How a run can end early. *)
Lemma stress_run_ends es s w :
  stress_ready w →
  match stress_run es s w with
  | Ran _ _ _ => True
  | Threw payload => stoll payload = None ∧ ∃ now topic, Receive now topic payload ∈ es
  | Failed f => f = Terminated
  end.
Proof.
  revert s w. induction es as [|e es IH]; intros s w Hw; cbn [stress_run]; [done|].
  assert (∀ s' w', stress_ready w' → match stress_run es s' w' with
    | Ran _ _ _ => True
    | Threw payload => stoll payload = None ∧ ∃ now topic, Receive now topic payload ∈ e :: es
    | Failed f => f = Terminated
    end) as IH'.
  { intros s' w' Hw'. specialize (IH s' w' Hw'). destruct (stress_run es s' w'); [done| |done].
    destruct IH as (? & now & topic & ?). split; [done|]. exists now, topic. by right. }
  clear IH. pose proof (reachable_ok w (ready_reachable w Hw)) as Hok.
  pose proof (ready_connection w Hw) as Hc.
  destruct e as [now|now topic payload|connected|c fds ends].
  - pose proof (op_publish (stress_topic (Z.rem (channel s + 1) 10)) (to_string (us_of_ns now)) false
      w Hok) as Hwp. unfold wp in Hwp.
    destruct (stress_iteration now s w) as [[s1 r] w1|f] eqn:Hit.
    + destruct (stress_iteration_goes_on _ _ _ _ _ _ Hw Hit) as [Hw1 _].
      specialize (IH' s1 w1 Hw1). by destruct (stress_run es s1 w1).
    + unfold stress_iteration, mbind, M_bind in Hit. cbv zeta in Hit. cbn [channel set_field] in Hit.
      destruct (Client_publish _ _ _ w) as [ok w1|f']; [by case_decide|].
      destruct f'; try done. destruct Hwp as (_ & _ & Hz). by rewrite (ready_queue w Hw) in Hz.
  - pose proof (op_message topic payload w (λ _, False) Hok) as Hwp. unfold wp in Hwp.
    cbn [run_op]. destruct (Impl_messageReceived topic payload w) as [[] w1|] eqn:Hop; [|done].
    destruct (message_goes_on w Hw topic payload w1 Hop) as (cs & Hgo & _ & Hpay).
    pose proof (ready_reader w Hw (OpMessage topic payload) _ _ Logic.I Hop Hgo) as Hw1.
    destruct (stress_callbacks _ _ _) as [p|s1] eqn:Hcb; [|by apply IH'].
    apply (stress_callbacks_throw _ _ _ payload) in Hcb as [-> Hnone]; [|done].
    split; [done|]. exists now, topic. by left.
  - pose proof (op_stateChange connected w Hok Hc) as Hwp. unfold wp in Hwp. cbn [run_op].
    destruct (Impl_connectionStateChange connected w) as [[] w1|f] eqn:Hop; [|by destruct f].
    destruct (stateChange_goes_on w Hw connected w1 Hop) as (cs & Hgo & _).
    apply IH', (ready_reader w Hw (OpStateChange connected) _ _ Logic.I Hop Hgo).
  - by apply IH', ready_change.
Qed.

(** ** Property *)

Lemma stress_topic_called k : (0 ≤ k < 10)%Z → match_topic (stress_topic k) stress_tree = [3].
Proof.
  intros Hk. assert (k ∈ seqZ 0 10) as Hin by (apply elem_of_seqZ; lia).
  repeat (apply elem_of_cons in Hin as [->|Hin]; [by vm_compute|]). by apply not_elem_of_nil in Hin.
Qed.


(** The calls before the loop make the client ready, whether the connection comes
    up after them or during the sleep before the last one. *)
Definition stress_world (ops : list client_op) : World :=
  foldl (λ w op, after op w) stress_client ops.

Lemma stress_world_ready :
  stress_ready (stress_world stress_calls) ∧
  stress_ready (stress_world (take 5 stress_calls ++ OpStateChange true :: drop 5 stress_calls)).
Proof.
  split; (constructor; [unfold stress_world, stress_calls; cbn [foldl take drop app]|
    vm_compute; discriminate|vm_compute; reflexivity|vm_compute; reflexivity]);
    repeat (apply reachable_after; [|vm_compute; first [done|discriminate|reflexivity]]);
    apply reachable_init.
Qed.

(** Two iterations more than a second apart, and a message in between; and a
    message that is no number. *)
Definition stress_connected : World :=
  stress_world (take 5 stress_calls ++ OpStateChange true :: drop 5 stress_calls).

