(* ===== verification/Broker.v ===== *)
(** * What a broker does for its clients

    The broker is outside the program: a function of the packets it has received.
    Here is what is relied on of it, stated on the requests the packets make,
    and that the packets a client sends do determine those requests. *)

From S2P Require Export Machine Wire.

(** A delivery: the client, the topic and the payload. *)
Abbreviation delivered := (nat * string * string)%type (only parsing).

(** The messages a broker sends in response to the last packet, given all the
    packets so far, each with the client it came from. *)
Definition broker : Type := list (nat * list Z) → list delivered.

(** ** Requests on the wire *)

Definition request_frame (r : request) (id : Z) : list Z :=
  match r with
  | AskSubscribe topic => frame SUBSCRIBE 2 (subscribe_body id topic)
  | AskUnsubscribe topic => frame UNSUBSCRIBE 2 (unsubscribe_body id topic)
  | AskPublish (topic, payload, retain) =>
      frame PUBLISH (if retain : bool then 1 else 0) (publish_body topic payload)
  end.

Definition request_fits (r : request) (id : Z) : Prop :=
  (0 ≤ id < 65536)%Z ∧
  match r with
  | AskSubscribe topic | AskUnsubscribe topic => (str_size topic < 65536)%Z
  | AskPublish (topic, payload, _) =>
      (str_size topic < 65536)%Z ∧ (zlength (publish_body topic payload) ≤ max_remaining_length)%Z
  end.

(** The body of a packet, after the type and the length. *)
Fixpoint skip_length (l : list Z) : list Z :=
  match l with
  | [] => []
  | b :: l => if decide (b < 128)%Z then l else skip_length l
  end.

Definition decode_body (type flags : Z) (body : list Z) : option request :=
  if decide (type = PacketType_to_Z PUBLISH) then
    '(topic, rest) ← parse_string body;
    Some (AskPublish (topic, string_of_bytes rest, Z.odd flags))
  else if decide (type = PacketType_to_Z SUBSCRIBE) then
    '(_, rest) ← parse_uint16 body;
    '(topic, _) ← parse_string rest;
    Some (AskSubscribe topic)
  else if decide (type = PacketType_to_Z UNSUBSCRIBE) then
    '(_, rest) ← parse_uint16 body;
    '(topic, _) ← parse_string rest;
    Some (AskUnsubscribe topic)
  else None.

Definition decode (l : list Z) : option request :=
  match l with
  | b :: l => decode_body (b / 16) (b `mod` 16) (skip_length l)
  | [] => None
  end.

Lemma skip_varint k n body :
  (0 ≤ n < 128 ^ Z.of_nat (S k))%Z → skip_length (varint (S k) n ++ body) = body.
Proof.
  revert n. induction k as [|k IH]; intros n Hn.
  - cbn [varint]. change (128 ^ Z.of_nat 1)%Z with 128%Z in Hn.
    rewrite decide_True by lia. cbn. by rewrite decide_True by lia.
  - change (varint (S (S k)) n) with
      (if decide (n < 128)%Z then [n] else (n `mod` 128 + 128)%Z :: varint (S k) (n / 128)).
    case_decide; cbn -[varint Z.modulo].
    + by rewrite decide_True by lia.
    + pose proof (Z.mod_pos_bound n 128 ltac:(lia)). rewrite decide_False by lia. apply IH.
      split; [apply Z.div_pos; lia|]. apply Z.div_lt_upper_bound; [lia|].
      rewrite (Nat2Z.inj_succ (S k)), Z.pow_succ_r in Hn by lia. lia.
Qed.

Lemma decode_frame t flags body :
  (0 ≤ flags < 16)%Z → (zlength body ≤ max_remaining_length)%Z →
  decode (frame t flags body) = decode_body (PacketType_to_Z t) flags body.
Proof.
  intros Hf Hb. unfold frame, decode. rewrite (skip_varint 3).
  - f_equal; [rewrite Z.div_add_l by lia; rewrite Z.div_small by lia; lia|].
    rewrite Z.add_comm, Z.mod_add by lia. by apply Z.mod_small.
  - unfold max_remaining_length in Hb. pose proof (zlength_nonneg body).
    change (128 ^ Z.of_nat 4)%Z with (2 ^ 28)%Z. lia.
Qed.

Lemma parse_id id l :
  (0 ≤ id < 65536)%Z → ∃ n, parse_uint16 (be16 id ++ l) = Some (n, l).
Proof. intros. by eexists. Qed.

Lemma zlength_wire_string s : zlength (wire_string s) = (2 + str_size s)%Z.
Proof. unfold wire_string. rewrite zlength_app, zlength_bytes_of_string. done. Qed.

(** A request is determined by its packet. *)
Lemma decode_request r id : request_fits r id → decode (request_frame r id) = Some r.
Proof.
  intros [Hid Hr]. destruct r as [topic|topic|[[topic payload] retain]]; cbn [request_frame].
  - rewrite decode_frame; [|done|].
    + unfold subscribe_body, decode_body. rewrite !decide_False by done. rewrite decide_True by done.
      destruct (parse_id id (wire_string topic ++ [0%Z]) Hid) as [n ->]. cbn [mbind option_bind].
      by rewrite parse_wire_string.
    + unfold subscribe_body, max_remaining_length.
      rewrite !zlength_app, zlength_wire_string. unfold zlength, be16; cbn [length]. lia.
  - rewrite decode_frame; [|done|].
    + unfold unsubscribe_body, decode_body. rewrite !decide_False by done.
      rewrite decide_True by done.
      destruct (parse_id id (wire_string topic) Hid) as [n ->]. cbn [mbind option_bind].
      pose proof (parse_wire_string topic [] Hr) as Hp. rewrite app_nil_r in Hp. by rewrite Hp.
    + unfold unsubscribe_body, max_remaining_length.
      rewrite !zlength_app, zlength_wire_string. unfold zlength, be16; cbn [length]. lia.
  - destruct Hr as [Ht Hb]. rewrite decode_frame; [|by destruct retain|done].
    unfold publish_body, decode_body. rewrite decide_True by done.
    rewrite parse_wire_string by done. cbn. rewrite string_of_bytes_of_string.
    by destruct retain.
Qed.

(** ** The broker's duty *)

Definition apply_request (r : request) (filters : list string) : list string :=
  match r with
  | AskSubscribe topic => set_emplace topic filters
  | AskUnsubscribe topic => set_erase topic filters
  | AskPublish _ => filters
  end.

(** The subscriptions of the client [i] after the requests. *)
Definition filters_of (i : nat) (h : list (nat * request)) : list string :=
  foldl (λ fs '(j, r), if decide (j = i) then apply_request r fs else fs) [] h.

(** What is sent to [n] clients for the last request: [copies] of the message
    for each client, as a function of its filters that match. *)
Definition deliveries (copies : nat → nat) (n : nat) (h : list (nat * request)) : list delivered :=
  match last h with
  | Some (_, AskPublish (topic, payload, _)) =>
      flat_map (λ i, replicate (copies (length (filter (λ f, mqtt_match (levels f) (levels topic))
        (filters_of i h)))) (i, topic, payload)) (seq 0 n)
  | _ => []
  end.

(** MQTT 3.1.1, section 3.3.5: a message that matches several subscriptions of a
    client must be delivered; further copies, one for each, are allowed. *)
Definition one_copy (matching : nat) : nat := min matching 1.
Definition all_copies (matching : nat) : nat := matching.

Definition encode (e : nat * request * Z) : nat * list Z :=
  let '(i, r, id) := e in (i, request_frame r id).
Definition encodable (e : nat * request * Z) : Prop :=
  let '(i, r, id) := e in request_fits r id.

Definition serves (copies : nat → nat) (n : nat) (b : broker) : Prop :=
  ∀ h, Forall encodable h → b (map encode h) = deliveries copies n h.*1.

(** A broker that does. *)
Definition decoding_broker (copies : nat → nat) (n : nat) : broker := λ h,
  deliveries copies n (omap (λ '(i, l), r ← decode l; Some (i, r)) h).

Lemma decoding_broker_serves copies n : serves copies n (decoding_broker copies n).
Proof.
  intros h Hh. unfold decoding_broker. f_equal.
  induction Hh as [|[[i r] id] h He _ IH]; [done|]. cbn.
  by rewrite decode_request, <-IH by done.
Qed.
