(* ===== verification/Regression.v ===== *)
(** * The regression test

    [src/regression/main.cpp] as a program: the clients it makes, its callbacks,
    its checks and its waiting loops, test case by test case.  The connections
    are taken to come up, and packets to travel, whenever the test sleeps, and
    the threads of a connection to end when asked to; the broker is a
    parameter. *)

From S2P Require Export Text Broker.

(** ** The test bench *)

(** The clients, the variables of the test, what the broker has received, and
    whether all checks have held so far. *)
Record bench := mkBench {
  b_clients : list World;
  last_message : option string;
  connected : Z;
  received : Z;
  received2 : Z;
  b_now : Z;     (** [steady_clock], in milliseconds *)
  b_received : list (nat * list Z);
  b_passed : bool
}.

#[export] Instance eta_bench : Eta bench := λ b,
  mkBench (b_clients b) (last_message b) (connected b) (received b) (received2 b) (b_now b)
    (b_received b) (b_passed b).

(** [Aborted]: [REQUIRE] or [FAIL]; [Crashed]: a client ended in a fault. *)
Inductive outcome (A : Type) :=
  | Finished (a : A) (b : bench)
  | Aborted (b : bench)
  | Crashed (f : fault).
Arguments Finished {_} _ _.
Arguments Aborted {_} _.
Arguments Crashed {_} _.

Definition T (A : Type) : Type := broker → bench → outcome A.
#[export] Instance T_ret : MRet T := λ A a _ b, Finished a b.
#[export] Instance T_bind : MBind T := λ A B k m br b,
  match m br b with
  | Finished a b => k a br b
  | Aborted b => Aborted b
  | Crashed f => Crashed f
  end.

Definition read {A} (f : bench → A) : T A := λ _ b, Finished (f b) b.
Definition set (f : bench → bench) : T unit := λ _ b, Finished () (f b).
Definition FAIL {A} : T A := λ _ b, Aborted b.
Definition note (c : bool) (b : bench) : bench := b <| b_passed ::= andb c |>.
Definition CHECK (c : bool) : T unit := set (note c).
Definition REQUIRE (c : bool) : T unit := if c then mret () else FAIL.

(** ** The callbacks, by number *)

Definition check_topic (topic expected : string) (b : bench) : bench :=
  note (bool_decide (topic = expected)) b.

(** 1: the logger of [client1] and of [client3]. *)
Definition logger (message : list piece) (b : bench) : bench :=
  b <| last_message := message_text message |>.

(** 2, 3 and 4: the state change callbacks of the three clients. *)
Definition state_changed (mask : Z) (s : State) (b : bench) : bench :=
  if decide (s = CONNECTED) then b <| connected ::= λ c, Z.lor c mask |> else b.

(** 6 to 9: the subscriptions to [regression/topic1], [regression/topic2],
    [regression/topic3/+] and [regression/#]. *)
Definition on_topic1 (topic : string) (b : bench) : bench :=
  check_topic topic "regression/topic1" b <| received ::= λ n, uint8 (n + 1) |>.
Definition on_topic2 (topic : string) (b : bench) : bench :=
  check_topic topic "regression/topic2" b <| received2 ::= λ n, uint8 (n + 1) |>.
Definition on_topic3 (topic : string) (b : bench) : bench :=
  check_topic topic "regression/topic3/1" b <| received ::= λ n, uint8 (n + 1) |>.
Definition on_any (topic : string) (b : bench) : bench :=
  let b := if decide (received2 b = 0)%Z then check_topic topic "regression/topic3/1" b
           else check_topic topic "regression/topic4/2" b in
  b <| received2 ::= λ n, uint8 (n + 1) |>.

(** Callback 5 is the empty one; a callback that was not set is 0. *)
Definition callback_of (e : event) (b : bench) : bench :=
  match e with
  | EvLog 1 _ message => logger message b
  | EvStateChange 2 s => state_changed 0x1 s b
  | EvStateChange 3 s => state_changed 0x2 s b
  | EvStateChange 4 s => state_changed 0x4 s b
  | EvMessage 6 topic _ => on_topic1 topic b
  | EvMessage 7 topic _ => on_topic2 topic b
  | EvMessage 8 topic _ => on_topic3 topic b
  | EvMessage 9 topic _ => on_any topic b
  | _ => b
  end.

(** ** Calls of a client *)

(** The callbacks run during the call. *)
Definition call {A} (i : nat) (m : M A) : T A := λ _ b,
  match b_clients b !! i with
  | None => Crashed Unsupported
  | Some w =>
      match m w with
      | Done a w' =>
          Finished a (foldl (λ b e, callback_of e b) (b <| b_clients ::= <[i := w']> |>)
            (drop (length (w_trace w)) (w_trace w')))
      | Fault f => Crashed f
      end
  end.

Definition construct (host : string) (port : Z) (client_id : string) : T unit :=
  set (λ b, b <| b_clients ::= λ cs, cs ++ [Client_ctor_default host port client_id] |>).

(** ** The world outside *)

Fixpoint for_all {A} (f : A → T unit) (l : list A) : T unit :=
  match l with
  | [] => mret ()
  | a :: l => f a ;; for_all f l
  end.

Definition clients : T (list nat) := read (λ b, seq 0 (length (b_clients b))).
Definition client {A} (i : nat) (f : World → A) : T (option A) :=
  read (λ b, f <$> (b_clients b !! i)).

(** A broker listens at port 1883 only. *)
Definition come_up (i : nat) : T unit :=
  up ← client i (λ w, bool_decide (m_state (w_impl w) = CONNECTING ∧ m_port (w_impl w) = 1883%Z));
  if decide (up = Some true) then call i (Impl_connectionStateChange true) else mret ().

(** What the broker sends. *)
Definition answer : T (list delivered) := λ br b, Finished (br (b_received b)) b.

(** A packet reaches the broker, and the messages it sends reach the clients. *)
Definition transmit (i : nat) (p : Packet) : T unit :=
  set (λ b, b <| b_received ::= λ h, h ++ [(i, wire p)] |>) ;;
  ds ← answer;
  for_all (λ '(j, topic, payload), call j (Impl_messageReceived topic payload)) ds.

(** The write thread of a client sends its queue. *)
Definition send_all (i : nat) : T unit :=
  queue ← client i (λ w, if decide (m_state (w_impl w) = CONNECTED)
                         then m_send_queue (w_conn w) else []);
  call i (mod_conn (λ c, c <| m_send_queue ::= λ q, drop (length (default [] queue)) q |>)) ;;
  for_all (transmit i) (default [] queue).

(** [std::this_thread::sleep_for(std::chrono::milliseconds(ms))]. *)
Definition sleep_for (ms : Z) : T unit :=
  set (λ b, b <| b_now ::= λ t, (t + ms)%Z |>) ;;
  cs ← clients;
  for_all come_up cs ;;
  for_all send_all cs.

(** [while (going) { sleep_for(10ms); if (now - start > limit) { late } }]:
    whether it was late; the number of sleeps is bounded by the limit. *)
Fixpoint wait_while (fuel : nat) (going : bench → bool) (start limit : Z) : T bool :=
  match fuel with
  | O => FAIL
  | S fuel =>
      again ← read going;
      if again : bool then
        sleep_for 10 ;;
        now ← read b_now;
        if decide (limit < now - start)%Z then mret true
        else wait_while fuel going start limit
      else mret false
  end.

Definition timed_out (going : bench → bool) (limit : Z) : T bool :=
  start ← read b_now;
  wait_while (S (S (Z.to_nat (limit / 10)))) going start limit.

Definition wait_for (going : bench → bool) (limit : Z) : T unit :=
  late ← timed_out going limit;
  if late : bool then FAIL else mret ().

(** ** The test cases *)

Definition check_last (message : string) : T unit :=
  m ← read last_message;
  CHECK (bool_decide (m = Some message)).

Definition check_publish (i : nat) (topic : string) (expected : bool) : T unit :=
  ok ← call i (Client_publish topic "Hello World!" false);
  CHECK (Bool.eqb ok expected).

Definition not_connected (mask : Z) (b : bench) : bool := (Z.land (connected b) mask =? 0)%Z.
Definition received_not (n : Z) (b : bench) : bool := negb (received b =? n)%Z.
Definition received2_not (n : Z) (b : bench) : bool := negb (received2 b =? n)%Z.

Definition setup : T unit :=
  construct "localhost" 1883 "client-1" ;;
  construct "localhost" 1883 "client-2" ;;
  call 0 (Client_setLogger INFO 1) ;;
  call 1 (Client_setPublishQueue FIFO 10) ;;
  set (λ b, b <| connected := 0%Z |>) ;;
  call 0 (Client_setStateChangeCallback 2) ;;
  call 1 (Client_setStateChangeCallback 3).

Definition tc_disconnected : T unit :=
  check_publish 0 "regression/topic1" false ;;
  check_last "Cannot publish when disconnected" ;;
  call 0 (Client_subscribe "regression/topic1" 5) ;;
  check_last "Cannot subscribe when disconnected" ;;
  call 0 (Client_unsubscribe "regression/topic1") ;;
  check_last "Cannot unsubscribe when disconnected" ;;
  set (λ b, b <| received := 0%Z |> <| received2 := 0%Z |>).

Definition tc_connect_subscriber : T unit :=
  call 0 Client_connect ;;
  check_last "Connecting to localhost:1883" ;;
  call 0 (Client_subscribe "regression/topic1" 6) ;;
  wait_for (not_connected 0x1) 5000 ;;
  sleep_for 50.

Definition tc_connect_publisher : T unit :=
  call 1 Client_connect ;;
  check_publish 1 "regression/topic1" true ;;
  wait_for (not_connected 0x2) 1000.

Definition tc_publish_before_connect : T unit :=
  wait_for (received_not 1) 1000 ;;
  set (λ b, b <| received := 0%Z |>).

Definition tc_connect_twice : T unit :=
  call 0 Client_connect ;;
  check_last "Can't connect when already connecting / connected".

Definition tc_publish : T unit :=
  check_publish 1 "regression/topic1" true ;;
  check_publish 1 "regression/topic1" true ;;
  check_publish 1 "regression/topic1" true ;;
  check_publish 1 "regression/topic1" true ;;
  wait_for (received_not 4) 1000 ;;
  set (λ b, b <| received := 0%Z |>).

Definition tc_new_topic : T unit :=
  call 0 (Client_subscribe "regression/topic2" 7) ;;
  sleep_for 50 ;;
  check_publish 1 "regression/topic2" true ;;
  wait_for (received2_not 1) 1000 ;;
  set (λ b, b <| received2 := 0%Z |>).

Definition tc_unsubscribe : T unit :=
  call 0 (Client_unsubscribe "regression/topic1") ;;
  call 0 (Client_unsubscribe "regression/topic2") ;;
  check_publish 1 "regression/topic1" true ;;
  check_publish 1 "regression/topic2" true ;;
  sleep_for 50 ;;
  (n ← read received; REQUIRE (n =? 0)%Z) ;;
  (n ← read received2; REQUIRE (n =? 0)%Z).

Definition tc_wildcards : T unit :=
  call 0 (Client_subscribe "regression/topic3/+" 8) ;;
  call 0 (Client_subscribe "regression/#" 9) ;;
  sleep_for 50 ;;
  check_publish 1 "regression/topic3/1" true ;;
  check_publish 1 "regression/topic4/2" true ;;
  wait_for (λ b, received_not 1 b || received2_not 2 b) 1000 ;;
  set (λ b, b <| received := 0%Z |> <| received2 := 0%Z |>).

Definition tc_unsubscribe_unknown : T unit :=
  call 0 (Client_unsubscribe "regression/topic1") ;;
  check_last "Cannot unsubscribe from topic 'regression/topic1' because we are not subscribed to it".

Definition tc_disconnect : T unit :=
  call 0 Client_disconnect ;;
  check_last "Disconnecting from broker" ;;
  call 1 Client_disconnect.

Definition tc_disconnect_twice : T unit :=
  call 0 Client_disconnect ;;
  check_last "Can't disconnect when already disconnected".

(** The destructor of [client3] runs at the end of the test case. *)
Definition tc_no_broker : T unit :=
  construct "localhost" 1884 "client-3" ;;
  call 2 (Client_setLogger INFO 1) ;;
  call 2 (Client_setStateChangeCallback 4) ;;
  call 2 Client_connect ;;
  check_last "Connecting to localhost:1884" ;;
  failed ← timed_out (not_connected 0x4) 100;
  REQUIRE failed ;;
  call 2 Client_disconnect ;;
  check_last "Disconnecting from broker" ;;
  call 2 Client_dtor.

Definition regression : T unit :=
  setup ;;
  tc_disconnected ;;
  tc_connect_subscriber ;;
  tc_connect_publisher ;;
  tc_publish_before_connect ;;
  tc_connect_twice ;;
  tc_publish ;;
  tc_new_topic ;;
  tc_unsubscribe ;;
  tc_wildcards ;;
  tc_unsubscribe_unknown ;;
  tc_disconnect ;;
  tc_disconnect_twice ;;
  tc_no_broker ;;
  call 1 Client_dtor ;;
  call 0 Client_dtor.

Definition bench_init : bench := mkBench [] (Some "") 0 0 0 0 [] true.

(** ** The broker matters only through what it is asked *)

Definition ending {A} (o : outcome A) : option bench :=
  match o with Finished _ b | Aborted b => Some b | Crashed _ => None end.

(** Two brokers that answer the same to what one of the runs sends make the same
    run. *)
Definition broker_only {A} (m : T A) : Prop :=
  ∀ br b b', ending (m br b) = Some b' →
    b_received b `prefix_of` b_received b' ∧
    ∀ br', (∀ h, h `prefix_of` b_received b' → br' h = br h) → m br' b = m br b.

Lemma broker_only_ret {A} (a : A) : broker_only (mret a).
Proof. intros br b b' [= <-]. by split. Qed.
Lemma broker_only_read {A} (f : bench → A) : broker_only (read f).
Proof. intros br b b' [= <-]. by split. Qed.
Lemma broker_only_FAIL {A} : broker_only (FAIL (A := A)).
Proof. intros br b b' [= <-]. by split. Qed.
Lemma broker_only_set f :
  (∀ b, b_received b `prefix_of` b_received (f b)) → broker_only (set f).
Proof. intros Hf br b b' [= <-]. by split. Qed.
Lemma broker_only_answer : broker_only answer.
Proof. intros br b b' [= <-]. split; [done|]. intros br' Hbr. unfold answer. by rewrite Hbr. Qed.

Lemma broker_only_bind {A B} (m : T A) (k : A → T B) :
  broker_only m → (∀ a, broker_only (k a)) → broker_only (m ≫= k).
Proof.
  intros Hm Hk br b b'. unfold mbind, T_bind.
  pose proof (Hm br b) as Hmb. destruct (m br b) as [a b1|b1|f] eqn:Hrun; [|intros [= <-]|done].
  - intros Hend. destruct (Hk a br b1 b' Hend) as [Hp Hsame].
    destruct (Hmb b1 eq_refl) as [Hp1 Hsame1]. split; [by etransitivity|]. intros br' Hbr.
    rewrite Hsame1 by (intros h Hh; apply Hbr; by etransitivity). by apply Hsame.
  - destruct (Hmb b1 eq_refl) as [Hp1 Hsame1]. split; [done|]. intros br' Hbr. by rewrite Hsame1.
Qed.

Lemma callback_of_received e b : b_received (callback_of e b) = b_received b.
Proof.
  destruct e as [n l msg|n s|n e msg|n t msg| |]; try done;
    do 10 (try destruct n as [|n]; try done); try by destruct s.
  cbn. unfold on_any. by case_decide.
Qed.

Lemma callbacks_received l b :
  b_received (foldl (λ b e, callback_of e b) b l) = b_received b.
Proof.
  revert b. induction l as [|e l IH]; intros b; [done|]. cbn [foldl].
  by rewrite IH, callback_of_received.
Qed.

Lemma broker_only_call {A} i (m : M A) : broker_only (call i m).
Proof.
  intros br b b' Hend. split; [|done]. revert Hend. unfold call.
  destruct (b_clients b !! i) as [w|]; [|done]. destruct (m w) as [a w'|]; [|done].
  intros [= <-]. by rewrite callbacks_received.
Qed.

Lemma broker_only_for_all {A} (f : A → T unit) l :
  (∀ a, broker_only (f a)) → broker_only (for_all f l).
Proof.
  intros Hf. induction l as [|a l IH]; [apply broker_only_ret|]. by apply broker_only_bind.
Qed.

Create HintDb broker_only.
#[export] Hint Resolve broker_only_ret broker_only_read broker_only_FAIL broker_only_answer
  broker_only_call : broker_only.
#[export] Hint Extern 1 (broker_only (set _)) =>
  apply broker_only_set; intros ?; first [done | by eexists] : broker_only.

(** One step for each construct. *)
Ltac broker_only := repeat match goal with
  | |- broker_only (_ ≫= _) => apply broker_only_bind; [|intros ?]
  | |- broker_only (for_all _ _) => apply broker_only_for_all; intros ?
  | |- broker_only (if _ then _ else _) => case_match
  | |- broker_only (let '(_, _) := _ in _) => case_match
  | _ => solve [auto with broker_only]
  end.

Lemma broker_only_sleep ms : broker_only (sleep_for ms).
Proof.
  unfold sleep_for, come_up, send_all, transmit, clients, client. broker_only.
Qed.
#[export] Hint Resolve broker_only_sleep : broker_only.

Lemma broker_only_wait fuel going start limit : broker_only (wait_while fuel going start limit).
Proof. induction fuel as [|fuel IH]; cbn [wait_while]; broker_only. Qed.
#[export] Hint Resolve broker_only_wait : broker_only.

Lemma broker_only_timed_out going limit : broker_only (timed_out going limit).
Proof. unfold timed_out. broker_only. Qed.
#[export] Hint Resolve broker_only_timed_out : broker_only.

Lemma broker_only_wait_for going limit : broker_only (wait_for going limit).
Proof. unfold wait_for. broker_only. Qed.
Lemma broker_only_check_last s : broker_only (check_last s).
Proof. unfold check_last, CHECK. broker_only. Qed.
Lemma broker_only_check_publish i topic ok : broker_only (check_publish i topic ok).
Proof. unfold check_publish, CHECK. broker_only. Qed.
Lemma broker_only_construct h p c : broker_only (construct h p c).
Proof. unfold construct. broker_only. Qed.
Lemma broker_only_REQUIRE c : broker_only (REQUIRE c).
Proof. unfold REQUIRE. broker_only. Qed.
#[export] Hint Resolve broker_only_wait_for broker_only_check_last broker_only_check_publish
  broker_only_construct broker_only_REQUIRE : broker_only.

Lemma broker_only_regression : broker_only regression.
Proof.
  unfold regression, setup, tc_disconnected, tc_connect_subscriber, tc_connect_publisher,
    tc_publish_before_connect, tc_connect_twice, tc_publish, tc_new_topic, tc_unsubscribe,
    tc_wildcards, tc_unsubscribe_unknown, tc_disconnect, tc_disconnect_twice, tc_no_broker.
  broker_only.
Qed.

(** ** What the broker is asked *)

#[export] Instance request_fits_dec r id : Decision (request_fits r id).
Proof. destruct r as [| |[[? ?] ?]]; cbn; apply _. Defined.
#[export] Instance encodable_dec e : Decision (encodable e).
Proof. destruct e as [[? ?] ?]; cbn; apply _. Defined.

(** The packets as requests; [PUBLISH] has no identifier. *)
Definition reread (e : nat * list Z) : option (nat * request * Z) :=
  let '(i, l) := e in
  r ← decode l;
  match r with
  | AskPublish _ => Some (i, r, 0%Z)
  | _ => '(id, _) ← parse_uint16 (skip_length (tail l)); Some (i, r, id)
  end.

Definition rereads (h : list (nat * list Z)) : bool :=
  bool_decide (map encode (omap reread h) = h ∧ Forall encodable (omap reread h)).

Lemma same_answers copies n br br' h :
  serves copies n br → serves copies n br' → rereads h = true →
  ∀ h', h' `prefix_of` h → br' h' = br h'.
Proof.
  intros Hbr Hbr' [Hh Henc]%bool_decide_eq_true h' [h'' Heq].
  assert (h' = map encode (take (length h') (omap reread h))) as ->.
  { by rewrite <-firstn_map, Hh, Heq, take_app_length. }
  rewrite Hbr, Hbr'; [done|by apply Forall_take..].
Qed.

(** The run with one broker that serves is the run with any. *)
Lemma regression_any copies br :
  serves copies 3 br →
  (match ending (regression (decoding_broker copies 3) bench_init) with
   | Some b => rereads (b_received b)
   | None => false
   end) = true →
  regression br bench_init = regression (decoding_broker copies 3) bench_init.
Proof.
  intros Hbr. destruct (ending _) as [b|] eqn:Hend; [|done]. intros Hre.
  destruct (broker_only_regression _ _ _ Hend) as [_ Hsame]. apply Hsame.
  by apply (same_answers copies 3); [apply decoding_broker_serves| |].
Qed.

(** ** Property *)

(** C10: the regression test passes.  With connections that come up and packets
    that travel while the test sleeps, threads that end when asked to, and any
    broker that sends a message once to each client with a subscription that
    matches, no [REQUIRE] or [FAIL] ends
    the test, every [CHECK] holds, no client ends in a fault, and all of them
    are disconnected at the end.  The test relies on that one message: with a
    broker that sends a copy for each subscription, which MQTT allows, it fails
    in the test case of the wildcards. *)
Theorem regression_passes br :
  (serves one_copy 3 br →
   ∃ b, regression br bench_init = Finished () b ∧ b_passed b = true ∧
     Forall (λ w, m_state (w_impl w) = DISCONNECTED ∧ m_connection (w_impl w) = false) (b_clients b) ∧
     length (b_clients b) = 3) ∧
  (serves all_copies 3 br →
   ∃ b, regression br bench_init = Aborted b ∧ b_passed b = false).
Proof.
  split; intros Hbr; (rewrite (regression_any _ _ Hbr); [|by vm_compute]); eexists.
  - split; [vm_compute; reflexivity|]. split; [done|]. split; [|done]. by repeat constructor.
  - split; [vm_compute; reflexivity|]. done.
Qed.

Lemma regression_passes_witness :
  ∃ b, regression (decoding_broker one_copy 3) bench_init = Finished () b ∧ b_passed b = true.
Proof.
  destruct (proj1 (regression_passes (decoding_broker one_copy 3)) (decoding_broker_serves one_copy 3))
    as (b & Hrun & Hpassed & _).
  exists b. split; [exact Hrun|exact Hpassed].
Defined.
